(** * m2c translation core: a shallow embedding of [translate.py]

    The development follows [src/backend/m2c/src/translate.py].  Python
    objects that are compared by identity ([@dataclass(eq=False)]) carry an
    object identifier; their mutable fields live in an explicit [Heap] that is
    threaded through every operation.  The C type system ([types.py]) is an
    external collaborator and is taken as an interface ([TypeSystem]). *)

From stdpp Require Import gmap strings list fin_maps pretty sorting.
From Stdlib Require Import ZArith Lia Ascii.

Local Open Scope Z_scope.
Set Warnings "-register-all,-clear-no-such-hyp".

(** ** Results of fallible, possibly diverging computations *)

Inductive Exn : Type :=
| DecompFailure (msg : string)
| AssertionError
| KeyError
| ValueError
| OverflowError
| ZeroDivisionError
| AttributeError
| IndexError
| InstrProcessingFailure (instr : string) (cause : Exn).

Inductive Res (A : Type) : Type :=
| Ok (a : A)
| Raise (e : Exn)
| OutOfFuel.
Arguments Ok {A} a.
Arguments Raise {A} e.
Arguments OutOfFuel {A}.

Global Instance Res_ret : MRet Res := fun _ a => Ok a.
Global Instance Res_bind : MBind Res := fun _ _ k m =>
  match m with
  | Ok a => k a
  | Raise e => Raise e
  | OutOfFuel => OutOfFuel
  end.

(** Stateful code: the state survives an exception, as it does in Python. *)
Definition Eff (S A : Type) : Type := S → Res A * S.

Global Instance Eff_ret {S} : MRet (Eff S) := fun _ a s => (Ok a, s).
Global Instance Eff_bind {S} : MBind (Eff S) := fun _ _ k m s =>
  match m s with
  | (Ok a, s) => k a s
  | (Raise e, s) => (Raise e, s)
  | (OutOfFuel, s) => (OutOfFuel, s)
  end.

Definition get_state {S} : Eff S S := fun s => (Ok s, s).
Definition put_state {S} (s : S) : Eff S unit := fun _ => (Ok tt, s).
Definition modify_state {S} (f : S → S) : Eff S unit := fun s => (Ok tt, f s).
Definition raise {S A} (e : Exn) : Eff S A := fun s => (Raise e, s).
Definition assert {S} (b : bool) : Eff S unit :=
  fun s => if b then (Ok tt, s) else (Raise AssertionError, s).

(** Run a computation on a part [T] of the state [S]. *)
Definition zoom {S T A} (get : S → T) (set : T → S → S) (m : Eff T A)
    : Eff S A :=
  fun s => let '(r, t) := m (get s) in (r, set t s).

(** A state transformer that may run out of fuel. *)
Definition run_res {S} (f : S → Res S) : Eff S unit :=
  fun s =>
    match f s with
    | Ok s' => (Ok tt, s')
    | Raise e => (Raise e, s)
    | OutOfFuel => (OutOfFuel, s)
    end.

(** A computation that reads and writes no state. *)
Definition pure_res {S A} (r : Res A) : Eff S A := fun s => (r, s).

(** A pure function with a state effect. *)
Definition state_fn {S A} (f : S → A * S) : Eff S A :=
  fun s => let '(a, s') := f s in (Ok a, s').

(** A computation keeps an invariant of the state, however it ends. *)
Definition preserves {S A} (P : S → Prop) (m : Eff S A) : Prop :=
  ∀ s r s', P s → m s = (r, s') → P s'.

(** ** Registers, locations, instructions *)

Abbreviation Register := string (only parsing).

Inductive Location : Type :=
| LReg (r : Register)
| LStack (offset : Z).

Global Instance Location_eq_dec : EqDecision Location.
Proof. solve_decision. Defined.

(** [Instruction] objects are compared by identity; [instr_id] is that
    identity.  Only the attributes read by [translate.py] are kept. *)
Record Instruction : Type := {
  instr_id : nat;
  mnemonic : string;
  inputs : list Location;
  outputs : list Location;
  clobbers : list Location;
  has_function_target : bool;
  lineno : Z;
  instr_in_pattern : bool;
  is_return : bool;
  is_conditional : bool;
}.

Abbreviation InstructionSource := (option Instruction) (only parsing).

Definition instr_eqb (a b : Instruction) : bool :=
  Nat.eqb (instr_id a) (instr_id b).

Definition source_eqb (a b : InstructionSource) : bool :=
  match a, b with
  | None, None => true
  | Some x, Some y => instr_eqb x y
  | _, _ => false
  end.

Definition reg_in (key : Register) (locs : list Location) : bool :=
  bool_decide (LReg key ∈ locs).

(** ** Types: handles into an external, mutable type pool *)

Abbreviation Ty := nat (only parsing).

Inductive AccessPathElem : Type :=
| PathIndex (i : Z)
| PathField (f : string).
Abbreviation AccessPath := (list AccessPathElem) (only parsing).

(** The constructors of [Type] that [translate.py] calls. *)
Inductive TypeCtor : Type :=
| T_any | T_any_reg | T_any_field | T_intish | T_sintish | T_uintish
| T_intptr | T_int64 | T_s8 | T_s16 | T_s32 | T_u32 | T_s64 | T_u64
| T_f32 | T_f64 | T_floatish | T_ptr | T_bool | T_void
| T_int_of_size (bits : Z).

Class TypeSystem : Type := {
  TS : Type;
  unify : Ty → Ty → TS → bool * TS;
  is_float : Ty → TS → bool;
  is_int : Ty → TS → bool;
  weaken_void_ptr : Ty → TS → Ty * TS;
  get_pointer_target : Ty → TS → option Ty;
  get_size_bytes : Ty → TS → option Z;
  get_deref_field :
    Ty → Z → option Z → TS → (option AccessPath * Ty * Z) * TS;
  new_type : TypeCtor → TS → Ty * TS;
}.

(** ** Vars and expressions *)

(** A [Var] is compared by identity ([var_id]); [is_emitted], [name] and
    [debug_exprs] are mutable and live in the heap. *)
Record Var : Type := {
  var_id : nat;
  prefix : string;
  var_type : Ty;
}.

Definition var_eqb (a b : Var) : bool := Nat.eqb (var_id a) (var_id b).

(** Every variant of [Expression] built in [translate.py].
    [CommaConditionExpr] is left out: its [dependencies] asserts that it is
    never used within [translate.py].  Variants declared with [eq=False]
    carry an [oid]. *)
Inductive Expression : Type :=
| ErrorExpr (oid : nat) (desc : option string) (type : Ty)
| CommentExpr (expr : Expression) (type : Ty) (cprefix csuffix : option string)
| SecondF64Half (oid : nat) (type : Ty)
| CarryBit (oid : nat) (type : Ty)
| BinaryOp (oid : nat) (left : Expression) (op : string)
    (right : Expression) (type : Ty)
| TernaryOp (oid : nat) (cond left right : Expression) (type : Ty)
| UnaryOp (oid : nat) (op : string) (expr : Expression) (type : Ty)
| ExprCondition (oid : nat) (expr : Expression) (type : Ty)
    (is_negated : bool)
| Cast (expr : Expression) (type : Ty) (reinterpret silent : bool)
| FuncCall (oid : nat) (function : Expression) (args : list Expression)
    (type : Ty)
| LocalVar (value : Z) (type : Ty) (path : option AccessPath)
| PlannedPhiExpr (oid : nat) (var : Var) (type : Ty)
    (sources : list InstructionSource)
| PassedInArg (value : Z) (type : Ty)
| SubroutineArg (value : Z) (type : Ty)
| StructAccess (struct_var : Expression) (offset : Z)
    (target_size : option Z) (field_path : option AccessPath)
    (has_stack_info : bool) (type : Ty)
| ArrayAccess (ptr index : Expression) (type : Ty)
| GlobalSymbol (oid : nat) (symbol_name : string) (type : Ty)
| Literal (value : Z) (type : Ty) (elide_cast : bool)
| AddressOf (expr : Expression) (type : Ty)
| Lwl (load_expr : Expression) (key : Z * nat) (type : Ty)
| Load3Bytes (load_expr : Expression) (type : Ty)
| UnalignedLoad (load_expr : Expression) (type : Ty)
| EvalOnceExpr (oid : nat) (wrapped_expr : Expression) (var : Var)
    (type : Ty) (source : InstructionSource)
    (emit_exactly_once trivial transparent : bool)
| NaivePhiExpr (oid : nat) (reg : Register) (node : nat) (type : Ty)
    (sources : list InstructionSource) (uses_dominator : bool).

Definition expr_type (e : Expression) : Ty :=
  match e with
  | ErrorExpr _ _ t | CommentExpr _ t _ _ | SecondF64Half _ t | CarryBit _ t
  | BinaryOp _ _ _ _ t | TernaryOp _ _ _ _ t | UnaryOp _ _ _ t
  | ExprCondition _ _ t _ | Cast _ t _ _ | FuncCall _ _ _ t
  | LocalVar _ t _ | PlannedPhiExpr _ _ t _ | PassedInArg _ t
  | SubroutineArg _ t | StructAccess _ _ _ _ _ t | ArrayAccess _ _ t
  | GlobalSymbol _ _ t | Literal _ t _ | AddressOf _ t | Lwl _ _ t
  | Load3Bytes _ t | UnalignedLoad _ t | EvalOnceExpr _ _ _ t _ _ _ _
  | NaivePhiExpr _ _ _ t _ _ => t
  end.

Definition opt_eqb {A} (eqb : A → A → bool) (a b : option A) : bool :=
  match a, b with
  | None, None => true
  | Some x, Some y => eqb x y
  | _, _ => false
  end.

(** Python's [==] on expressions: identity for [eq=False] classes, field-wise
    (over the fields with [compare=True]) for the others. *)
Fixpoint expr_eqb (a b : Expression) : bool :=
  match a, b with
  | ErrorExpr i _ _, ErrorExpr j _ _ => Nat.eqb i j
  | CommentExpr e1 _ p1 s1, CommentExpr e2 _ p2 s2 =>
      expr_eqb e1 e2 && opt_eqb String.eqb p1 p2 && opt_eqb String.eqb s1 s2
  | SecondF64Half i _, SecondF64Half j _ => Nat.eqb i j
  | CarryBit i _, CarryBit j _ => Nat.eqb i j
  | BinaryOp i _ _ _ _, BinaryOp j _ _ _ _ => Nat.eqb i j
  | TernaryOp i _ _ _ _, TernaryOp j _ _ _ _ => Nat.eqb i j
  | UnaryOp i _ _ _, UnaryOp j _ _ _ => Nat.eqb i j
  | ExprCondition i _ _ _, ExprCondition j _ _ _ => Nat.eqb i j
  | Cast e1 _ r1 s1, Cast e2 _ r2 s2 =>
      expr_eqb e1 e2 && Bool.eqb r1 r2 && Bool.eqb s1 s2
  | FuncCall i _ _ _, FuncCall j _ _ _ => Nat.eqb i j
  | LocalVar v1 _ _, LocalVar v2 _ _ => Z.eqb v1 v2
  | PlannedPhiExpr i _ _ _, PlannedPhiExpr j _ _ _ => Nat.eqb i j
  | PassedInArg v1 _, PassedInArg v2 _ => Z.eqb v1 v2
  | SubroutineArg v1 _, SubroutineArg v2 _ => Z.eqb v1 v2
  | StructAccess e1 o1 t1 _ _ _, StructAccess e2 o2 t2 _ _ _ =>
      expr_eqb e1 e2 && Z.eqb o1 o2 && opt_eqb Z.eqb t1 t2
  | ArrayAccess p1 i1 _, ArrayAccess p2 i2 _ =>
      expr_eqb p1 p2 && expr_eqb i1 i2
  | GlobalSymbol i _ _, GlobalSymbol j _ _ => Nat.eqb i j
  | Literal v1 _ _, Literal v2 _ _ => Z.eqb v1 v2
  | AddressOf e1 _, AddressOf e2 _ => expr_eqb e1 e2
  | Lwl e1 (k1, o1) _, Lwl e2 (k2, o2) _ =>
      expr_eqb e1 e2 && Z.eqb k1 k2 && Nat.eqb o1 o2
  | Load3Bytes e1 _, Load3Bytes e2 _ => expr_eqb e1 e2
  | UnalignedLoad e1 _, UnalignedLoad e2 _ => expr_eqb e1 e2
  | EvalOnceExpr i _ _ _ _ _ _ _, EvalOnceExpr j _ _ _ _ _ _ _ => Nat.eqb i j
  | NaivePhiExpr i _ _ _ _ _, NaivePhiExpr j _ _ _ _ _ => Nat.eqb i j
  | _, _ => false
  end.

(** ** The heap of mutable object fields *)

Section WithTypes.
Context `{TypeSystem}.

Record Heap : Type := {
  (* Var.is_emitted, Var.name, Var.debug_exprs *)
  var_is_emitted : gset nat;
  var_name : gmap nat string;
  var_debug_exprs : gmap nat (list Expression);
  (* EvalOnceExpr.forced_emit, EvalOnceExpr.is_used *)
  eo_forced_emit : gset nat;
  eo_is_used : gset nat;
  (* NaivePhiExpr.num_usages, .replacement_expr, .name *)
  phi_num_usages : gmap nat nat;
  phi_replacement_expr : gmap nat Expression;
  phi_name : gmap nat string;
  (* the list shared by every NaivePhiExpr of one translation *)
  used_naive_phis : list Expression;
  (* the type pool *)
  types : TS;
  (* allocator of object identities *)
  next_oid : nat;
}.

Definition is_emitted (h : Heap) (v : Var) : bool :=
  bool_decide (var_id v ∈ var_is_emitted h).
Definition forced_emit (h : Heap) (oid : nat) : bool :=
  bool_decide (oid ∈ eo_forced_emit h).
Definition is_used (h : Heap) (oid : nat) : bool :=
  bool_decide (oid ∈ eo_is_used h).
Definition num_usages (h : Heap) (oid : nat) : nat :=
  default 0%nat (phi_num_usages h !! oid).
Definition replacement_expr (h : Heap) (oid : nat) : option Expression :=
  phi_replacement_expr h !! oid.

Definition set_is_emitted (v : Var) (h : Heap) : Heap :=
  {| var_is_emitted := {[var_id v]} ∪ var_is_emitted h;
     var_name := var_name h; var_debug_exprs := var_debug_exprs h;
     eo_forced_emit := eo_forced_emit h; eo_is_used := eo_is_used h;
     phi_num_usages := phi_num_usages h;
     phi_replacement_expr := phi_replacement_expr h;
     phi_name := phi_name h; used_naive_phis := used_naive_phis h;
     types := types h; next_oid := next_oid h |}.

Definition set_forced_emit (oid : nat) (h : Heap) : Heap :=
  {| var_is_emitted := var_is_emitted h;
     var_name := var_name h; var_debug_exprs := var_debug_exprs h;
     eo_forced_emit := {[oid]} ∪ eo_forced_emit h; eo_is_used := eo_is_used h;
     phi_num_usages := phi_num_usages h;
     phi_replacement_expr := phi_replacement_expr h;
     phi_name := phi_name h; used_naive_phis := used_naive_phis h;
     types := types h; next_oid := next_oid h |}.

Definition set_is_used (oid : nat) (h : Heap) : Heap :=
  {| var_is_emitted := var_is_emitted h;
     var_name := var_name h; var_debug_exprs := var_debug_exprs h;
     eo_forced_emit := eo_forced_emit h; eo_is_used := {[oid]} ∪ eo_is_used h;
     phi_num_usages := phi_num_usages h;
     phi_replacement_expr := phi_replacement_expr h;
     phi_name := phi_name h; used_naive_phis := used_naive_phis h;
     types := types h; next_oid := next_oid h |}.

Definition set_num_usages (oid : nat) (n : nat) (h : Heap) : Heap :=
  {| var_is_emitted := var_is_emitted h;
     var_name := var_name h; var_debug_exprs := var_debug_exprs h;
     eo_forced_emit := eo_forced_emit h; eo_is_used := eo_is_used h;
     phi_num_usages := <[oid := n]> (phi_num_usages h);
     phi_replacement_expr := phi_replacement_expr h;
     phi_name := phi_name h; used_naive_phis := used_naive_phis h;
     types := types h; next_oid := next_oid h |}.

Definition append_used_naive_phi (phi : Expression) (h : Heap) : Heap :=
  {| var_is_emitted := var_is_emitted h;
     var_name := var_name h; var_debug_exprs := var_debug_exprs h;
     eo_forced_emit := eo_forced_emit h; eo_is_used := eo_is_used h;
     phi_num_usages := phi_num_usages h;
     phi_replacement_expr := phi_replacement_expr h;
     phi_name := phi_name h; used_naive_phis := used_naive_phis h ++ [phi];
     types := types h; next_oid := next_oid h |}.

Definition set_types (ts : TS) (h : Heap) : Heap :=
  {| var_is_emitted := var_is_emitted h;
     var_name := var_name h; var_debug_exprs := var_debug_exprs h;
     eo_forced_emit := eo_forced_emit h; eo_is_used := eo_is_used h;
     phi_num_usages := phi_num_usages h;
     phi_replacement_expr := phi_replacement_expr h;
     phi_name := phi_name h; used_naive_phis := used_naive_phis h;
     types := ts; next_oid := next_oid h |}.

(** [a.unify(b)] on the heap's type pool. *)
Definition heap_unify (a b : Ty) (h : Heap) : bool * Heap :=
  let '(r, ts) := unify a b (types h) in (r, set_types ts h).

(** ** The expression-sharing protocol *)

(** [EvalOnceExpr.uses_var] *)
Definition uses_var (h : Heap) (v : Var) (trivial : bool) : bool :=
  is_emitted h v && negb trivial.

(** [Expression.dependencies], with the overrides of each class. *)
Definition dependencies (h : Heap) (e : Expression) : list Expression :=
  match e with
  | ErrorExpr _ _ _ => []
  | CommentExpr e _ _ _ => [e]
  | SecondF64Half _ _ => []
  | CarryBit _ _ => []
  | BinaryOp _ l _ r _ => [l; r]
  | TernaryOp _ c l r _ => [c; l; r]
  | UnaryOp _ _ e _ => [e]
  | ExprCondition _ e _ _ => [e]
  | Cast e _ _ _ => [e]
  | FuncCall _ f args _ => args ++ [f]
  | LocalVar _ _ _ => []
  | PlannedPhiExpr _ _ _ _ => []
  | PassedInArg _ _ => []
  | SubroutineArg _ _ => []
  | StructAccess sv _ _ _ _ _ => [sv]
  | ArrayAccess p i _ => [p; i]
  | GlobalSymbol _ _ _ => []
  | Literal _ _ _ => []
  | AddressOf e _ => [e]
  | Lwl e _ _ => [e]
  | Load3Bytes e _ => [e]
  | UnalignedLoad e _ => [e]
  | EvalOnceExpr _ w v _ _ _ trivial _ =>
      if uses_var h v trivial then [] else [w]
  | NaivePhiExpr _ _ _ _ _ _ => []
  end.

(** [for expr in deps: expr.use()] *)
Fixpoint use_each (use : Expression → Heap → Res Heap)
    (deps : list Expression) (h : Heap) : Res Heap :=
  match deps with
  | [] => Ok h
  | e :: rest => h' ← use e h ; use_each use rest h'
  end.

(** The first two statements of [NaivePhiExpr.use]: enqueue the phi on its
    first use, then count the usage. *)
Definition count_phi_usage (phi : Expression) (oid : nat) (h : Heap) : Heap :=
  let h := if Nat.eqb (num_usages h oid) 0
           then append_used_naive_phi phi h else h in
  set_num_usages oid (num_usages h oid + 1)%nat h.

(** [Expression.use] with the overrides of [Cast], [EvalOnceExpr] and
    [NaivePhiExpr].  A [NaivePhiExpr] forwards to its [replacement_expr],
    which is read from the heap: the recursion is bounded by [fuel]. *)
Fixpoint use (fuel : nat) (e : Expression) (h : Heap) : Res Heap :=
  match fuel with
  | O => OutOfFuel
  | S fuel =>
    match e with
    | EvalOnceExpr oid wrapped_expr var _ _ emit_exactly_once trivial
        transparent =>
        h ← (if trivial || (transparent && negb (is_emitted h var)) then
               use fuel wrapped_expr h
             else if negb (is_used h oid) then
               if negb emit_exactly_once then use fuel wrapped_expr h
               else Ok h
             else
               Ok (set_is_emitted var h)) ;
        Ok (set_is_used oid h)
    | NaivePhiExpr oid _ _ _ _ _ =>
        let h := count_phi_usage e oid h in
        match replacement_expr h oid with
        | Some r => use fuel r h
        | None => Ok h
        end
    | Cast expr type _ _ =>
        let h := snd (heap_unify (expr_type expr) type h) in
        use_each (use fuel) (dependencies h e) h
    | _ => use_each (use fuel) (dependencies h e) h
    end
  end.

(** [EvalOnceExpr.force]; a no-op on every other expression is never
    requested by the source ([RegInfo.__getitem__] asserts the class). *)
Definition force (fuel : nat) (e : Expression) (h : Heap) : Res Heap :=
  match e with
  | EvalOnceExpr oid _ var _ _ _ trivial _ =>
      if negb (forced_emit h oid) && negb trivial then
        let h := set_forced_emit oid h in
        let h := set_is_emitted var h in
        h ← use fuel e h ;
        use fuel e h
      else Ok h
  | _ => Raise AssertionError
  end.

(** ** Unwrapping helpers *)

(** [transparent_unwrap] *)
Fixpoint transparent_unwrap (h : Heap) (e : Expression) : Expression :=
  match e with
  | EvalOnceExpr _ wrapped_expr var _ _ _ trivial transparent =>
      if transparent && negb (uses_var h var trivial)
      then transparent_unwrap h wrapped_expr else e
  | _ => e
  end.

(** [early_unwrap] *)
Fixpoint early_unwrap (h : Heap) (e : Expression) : Expression :=
  match e with
  | EvalOnceExpr oid wrapped_expr _ _ _ emit_exactly_once _ _ =>
      if negb (forced_emit h oid) && negb emit_exactly_once
      then early_unwrap h wrapped_expr else e
  | _ => e
  end.

(** [early_unwrap_ints].  The source recurses on the result of
    [early_unwrap]; the recursion is written here on the expression itself
    (see [early_unwrap_ints_unfold] for the source's form). *)
Fixpoint early_unwrap_ints (h : Heap) (e : Expression) : Expression :=
  match e with
  | EvalOnceExpr oid wrapped_expr _ _ _ emit_exactly_once _ _ =>
      if negb (forced_emit h oid) && negb emit_exactly_once
      then early_unwrap_ints h wrapped_expr else e
  | Cast expr type reinterpret _ =>
      if reinterpret && is_int type (types h)
      then early_unwrap_ints h expr else e
  | _ => e
  end.

(** [unwrap_deep] *)
Fixpoint unwrap_deep (e : Expression) : Expression :=
  match e with
  | EvalOnceExpr _ wrapped_expr _ _ _ _ _ _ => unwrap_deep wrapped_expr
  | _ => e
  end.

(** [late_unwrap]; it follows [replacement_expr], hence the fuel. *)
Fixpoint late_unwrap (fuel : nat) (h : Heap) (e : Expression)
    : Res Expression :=
  match fuel with
  | O => OutOfFuel
  | S fuel =>
    match e with
    | EvalOnceExpr _ wrapped_expr var _ _ _ trivial _ =>
        if negb (uses_var h var trivial)
        then late_unwrap fuel h wrapped_expr else Ok e
    | NaivePhiExpr oid _ _ _ _ _ =>
        match replacement_expr h oid with
        | Some r => late_unwrap fuel h r
        | None => Ok e
        end
    | _ => Ok e
    end
  end.

(** [is_trivial_expression] *)
Fixpoint is_trivial_expression (e : Expression) : bool :=
  match e with
  | Literal _ _ _ | GlobalSymbol _ _ _ | SecondF64Half _ _ => true
  | AddressOf expr _ => is_trivial_expression expr
  | _ => false
  end.

(** [should_wrap_transparently], with [Cast.should_wrap_transparently]
    inlined. *)
Fixpoint should_wrap_transparently (h : Heap) (e : Expression) : bool :=
  match e with
  | EvalOnceExpr _ _ _ _ _ _ _ _ | Literal _ _ _ | GlobalSymbol _ _ _
  | LocalVar _ _ _ | PassedInArg _ _ | NaivePhiExpr _ _ _ _ _ _
  | PlannedPhiExpr _ _ _ _ | SecondF64Half _ _ | SubroutineArg _ _ => true
  | AddressOf expr _ => should_wrap_transparently h expr
  | Cast expr type reinterpret _ =>
      reinterpret
      && Bool.eqb (is_float (expr_type expr) (types h))
                  (is_float type (types h))
      && should_wrap_transparently h expr
  | _ => false
  end.

(** [var_for_expr] *)
Definition var_for_expr (e : Expression) : option Var :=
  match e with
  | PlannedPhiExpr _ var _ _ => Some var
  | EvalOnceExpr _ _ var _ _ _ trivial _ =>
      if negb trivial then Some var else None
  | _ => None
  end.

(** Nesting depth of an expression, the measure that bounds the recursion of
    [use] on a heap without replacement expressions. *)
Fixpoint depth (e : Expression) : nat :=
  match e with
  | CommentExpr e _ _ _ | UnaryOp _ _ e _ | ExprCondition _ e _ _
  | Cast e _ _ _ | StructAccess e _ _ _ _ _ | AddressOf e _ | Lwl e _ _
  | Load3Bytes e _ | UnalignedLoad e _
  | EvalOnceExpr _ e _ _ _ _ _ _ => S (depth e)
  | BinaryOp _ l _ r _ | ArrayAccess l r _ => S (Nat.max (depth l) (depth r))
  | TernaryOp _ c l r _ =>
      S (Nat.max (depth c) (Nat.max (depth l) (depth r)))
  | FuncCall _ f args _ =>
      S (Nat.max (depth f)
           ((fix go (l : list Expression) : nat :=
               match l with
               | [] => O
               | x :: l => Nat.max (depth x) (go l)
               end) args))
  | _ => O
  end.

(** The [Var]s of the [EvalOnceExpr]s nested in an expression. *)
Fixpoint wrapper_vars (e : Expression) : list nat :=
  match e with
  | CommentExpr e _ _ _ | UnaryOp _ _ e _ | ExprCondition _ e _ _
  | Cast e _ _ _ | StructAccess e _ _ _ _ _ | AddressOf e _ | Lwl e _ _
  | Load3Bytes e _ | UnalignedLoad e _ => wrapper_vars e
  | EvalOnceExpr _ e var _ _ _ _ _ => var_id var :: wrapper_vars e
  | BinaryOp _ l _ r _ | ArrayAccess l r _ => wrapper_vars l ++ wrapper_vars r
  | TernaryOp _ c l r _ => wrapper_vars c ++ wrapper_vars l ++ wrapper_vars r
  | FuncCall _ f args _ =>
      wrapper_vars f ++
        (fix go (l : list Expression) : list nat :=
           match l with
           | [] => []
           | x :: l => wrapper_vars x ++ go l
           end) args
  | _ => []
  end.

(** No replacement expression of the heap mentions a wrapper on var [v]. *)
Definition var_protected (h : Heap) (v : nat) : Prop :=
  ∀ p r, phi_replacement_expr h !! p = Some r → v ∉ wrapper_vars r.

(** [n] successive calls of [e.use()]. *)
Fixpoint use_times (fuel : nat) (n : nat) (e : Expression) (h : Heap)
    : Res Heap :=
  match n with
  | O => Ok h
  | S n => h' ← use fuel e h; use_times fuel n e h'
  end.

(** ** [as_type] and the typed constructors of [BinaryOp] *)

(** [StructAccess.assert_valid_field_path] *)
Definition valid_field_path (path : option AccessPath) : bool :=
  match path with
  | None => true
  | Some (PathIndex _ :: _) => true
  | Some _ => false
  end.

Definition is_Literal (e : Expression) : bool :=
  match e with Literal _ _ _ => true | _ => false end.

(** [as_type(expr, type, silent)] *)
Definition as_type (expr : Expression) (type : Ty) (silent : bool)
    : Eff Heap Expression :=
  fun h =>
  let '(type, ts) := weaken_void_ptr type (types h) in
  let ptr_target_type := get_pointer_target type ts in
  let '(unified, ts) := unify (expr_type expr) type ts in
  let cast e ts := (Ok (Cast e type true false), set_types ts h) in
  if unified then
    if silent || is_Literal expr then (Ok expr, set_types ts h)
    else cast expr ts
  else
    match ptr_target_type with
    | Some ptr_target_type =>
        let ptr_target_type_size := get_size_bytes ptr_target_type ts in
        let '((field_path, field_type, _), ts) :=
          get_deref_field (expr_type expr) 0 ptr_target_type_size ts in
        match field_path with
        | Some _ =>
            let '(ok, ts) := unify field_type ptr_target_type ts in
            if ok then
              if valid_field_path field_path then
                let expr :=
                  AddressOf
                    (StructAccess expr 0 ptr_target_type_size field_path false
                       field_type) type in
                if silent then (Ok expr, set_types ts h) else cast expr ts
              else (Raise AssertionError, set_types ts h)
            else cast expr ts
        | None => cast expr ts
        end
    | None => cast expr ts
    end.

(** [Type.xxx()] on the heap's type pool. *)
Definition heap_new_type (c : TypeCtor) (h : Heap) : Ty * Heap :=
  let '(t, ts) := new_type c (types h) in (t, set_types ts h).

Definition as_type_new (c : TypeCtor) (silent : bool) (expr : Expression)
    : Eff Heap Expression :=
  t ← state_fn (heap_new_type c); as_type expr t silent.

(** [as_intish], [as_sintish], [as_intptr] *)
Definition as_intish := as_type_new T_intish true.
Definition as_sintish (silent : bool) := as_type_new T_sintish silent.
Definition as_intptr := as_type_new T_intptr true.

(** A fresh object identity. *)
Definition fresh_oid (h : Heap) : nat * Heap :=
  (next_oid h,
   {| var_is_emitted := var_is_emitted h;
      var_name := var_name h; var_debug_exprs := var_debug_exprs h;
      eo_forced_emit := eo_forced_emit h; eo_is_used := eo_is_used h;
      phi_num_usages := phi_num_usages h;
      phi_replacement_expr := phi_replacement_expr h;
      phi_name := phi_name h; used_naive_phis := used_naive_phis h;
      types := types h; next_oid := S (next_oid h) |}).

(** [BinaryOp.int(left, op, right)] *)
Definition BinaryOp_int (left : Expression) (op : string) (right : Expression)
    : Eff Heap Expression :=
  l ← as_intish left;
  r ← as_intish right;
  t ← state_fn (heap_new_type T_intish);
  oid ← state_fn fresh_oid;
  mret (BinaryOp oid l op r t).

(** [BinaryOp.sint(left, op, right, silent=...)] *)
Definition BinaryOp_sint (left : Expression) (op : string)
    (right : Expression) (silent : bool) : Eff Heap Expression :=
  l ← as_sintish silent left;
  r ← as_sintish silent right;
  t ← state_fn (heap_new_type T_s32);
  oid ← state_fn fresh_oid;
  mret (BinaryOp oid l op r t).

(** [BinaryOp.intptr(left, op, right)] *)
Definition BinaryOp_intptr (left : Expression) (op : string)
    (right : Expression) : Eff Heap Expression :=
  l ← as_intptr left;
  r ← as_intptr right;
  t ← state_fn (heap_new_type T_intptr);
  oid ← state_fn fresh_oid;
  mret (BinaryOp oid l op r t).

(** ** [StackInfo] *)

Inductive ArchEnum : Type := MIPS | PPC.

Global Instance ArchEnum_eq_dec : EqDecision ArchEnum.
Proof. solve_decision. Defined.

(** Keys of [unique_type_map]: a category and a key object. *)
Inductive UniqueKey : Type :=
| UK_arg (location : Z)
| UK_saved_reg (sym_name : string).

Global Instance UniqueKey_eq_dec : EqDecision UniqueKey.
Proof. solve_decision. Defined.

(** The fields of [StackInfo] that the modelled functions read or write.
    [arch], [deterministic_vars] and [reg_formatter] stand for
    [global_info.arch.arch], [global_info.deterministic_vars] and
    [function.reg_formatter.format]; [planned_inherited_phis] is the set of
    that name in the persistent state. *)
Record StackInfo : Type := {
  arch : ArchEnum;
  deterministic_vars : bool;
  reg_formatter : Register → string;
  allocated_stack_size : Z;
  is_leaf : bool;
  subroutine_arg_top : Z;
  callee_save_regs : list Register;
  callee_save_reg_region : Z * Z;
  unique_type_map : list (UniqueKey * Ty);
  temp_vars : list Var;
  naive_phi_vars : list Expression;
  reg_vars : gmap string Var;
  planned_vars : list ((Register * InstructionSource) * Var);
  arguments : list Expression;
  temp_name_counter : gmap string nat;
  stack_pointer_type : option Ty;
  weak_stack_var_types : gmap Z Ty;
  weak_stack_var_locations : gset Z;
  planned_inherited_phis : list (Register * nat);
}.

Definition set_temp_name_counter (c : gmap string nat) (s : StackInfo)
    : StackInfo :=
  {| arch := arch s; deterministic_vars := deterministic_vars s;
     reg_formatter := reg_formatter s;
     allocated_stack_size := allocated_stack_size s; is_leaf := is_leaf s;
     subroutine_arg_top := subroutine_arg_top s;
     callee_save_regs := callee_save_regs s;
     callee_save_reg_region := callee_save_reg_region s;
     unique_type_map := unique_type_map s; temp_vars := temp_vars s;
     naive_phi_vars := naive_phi_vars s; reg_vars := reg_vars s;
     planned_vars := planned_vars s; arguments := arguments s;
     temp_name_counter := c;
     stack_pointer_type := stack_pointer_type s;
     weak_stack_var_types := weak_stack_var_types s;
     weak_stack_var_locations := weak_stack_var_locations s;
     planned_inherited_phis := planned_inherited_phis s |}.

Definition set_unique_type_map (m : list (UniqueKey * Ty)) (s : StackInfo)
    : StackInfo :=
  {| arch := arch s; deterministic_vars := deterministic_vars s;
     reg_formatter := reg_formatter s;
     allocated_stack_size := allocated_stack_size s; is_leaf := is_leaf s;
     subroutine_arg_top := subroutine_arg_top s;
     callee_save_regs := callee_save_regs s;
     callee_save_reg_region := callee_save_reg_region s;
     unique_type_map := m; temp_vars := temp_vars s;
     naive_phi_vars := naive_phi_vars s; reg_vars := reg_vars s;
     planned_vars := planned_vars s; arguments := arguments s;
     temp_name_counter := temp_name_counter s;
     stack_pointer_type := stack_pointer_type s;
     weak_stack_var_types := weak_stack_var_types s;
     weak_stack_var_locations := weak_stack_var_locations s;
     planned_inherited_phis := planned_inherited_phis s |}.

Definition set_arguments (a : list Expression) (s : StackInfo) : StackInfo :=
  {| arch := arch s; deterministic_vars := deterministic_vars s;
     reg_formatter := reg_formatter s;
     allocated_stack_size := allocated_stack_size s; is_leaf := is_leaf s;
     subroutine_arg_top := subroutine_arg_top s;
     callee_save_regs := callee_save_regs s;
     callee_save_reg_region := callee_save_reg_region s;
     unique_type_map := unique_type_map s; temp_vars := temp_vars s;
     naive_phi_vars := naive_phi_vars s; reg_vars := reg_vars s;
     planned_vars := planned_vars s; arguments := a;
     temp_name_counter := temp_name_counter s;
     stack_pointer_type := stack_pointer_type s;
     weak_stack_var_types := weak_stack_var_types s;
     weak_stack_var_locations := weak_stack_var_locations s;
     planned_inherited_phis := planned_inherited_phis s |}.

Definition set_temp_vars (l : list Var) (s : StackInfo) : StackInfo :=
  {| arch := arch s; deterministic_vars := deterministic_vars s;
     reg_formatter := reg_formatter s;
     allocated_stack_size := allocated_stack_size s; is_leaf := is_leaf s;
     subroutine_arg_top := subroutine_arg_top s;
     callee_save_regs := callee_save_regs s;
     callee_save_reg_region := callee_save_reg_region s;
     unique_type_map := unique_type_map s; temp_vars := l;
     naive_phi_vars := naive_phi_vars s; reg_vars := reg_vars s;
     planned_vars := planned_vars s; arguments := arguments s;
     temp_name_counter := temp_name_counter s;
     stack_pointer_type := stack_pointer_type s;
     weak_stack_var_types := weak_stack_var_types s;
     weak_stack_var_locations := weak_stack_var_locations s;
     planned_inherited_phis := planned_inherited_phis s |}.

Definition set_naive_phi_vars (l : list Expression) (s : StackInfo)
    : StackInfo :=
  {| arch := arch s; deterministic_vars := deterministic_vars s;
     reg_formatter := reg_formatter s;
     allocated_stack_size := allocated_stack_size s; is_leaf := is_leaf s;
     subroutine_arg_top := subroutine_arg_top s;
     callee_save_regs := callee_save_regs s;
     callee_save_reg_region := callee_save_reg_region s;
     unique_type_map := unique_type_map s; temp_vars := temp_vars s;
     naive_phi_vars := l; reg_vars := reg_vars s;
     planned_vars := planned_vars s; arguments := arguments s;
     temp_name_counter := temp_name_counter s;
     stack_pointer_type := stack_pointer_type s;
     weak_stack_var_types := weak_stack_var_types s;
     weak_stack_var_locations := weak_stack_var_locations s;
     planned_inherited_phis := planned_inherited_phis s |}.

Definition set_weak_stack_var (t : gmap Z Ty) (l : gset Z) (s : StackInfo)
    : StackInfo :=
  {| arch := arch s; deterministic_vars := deterministic_vars s;
     reg_formatter := reg_formatter s;
     allocated_stack_size := allocated_stack_size s; is_leaf := is_leaf s;
     subroutine_arg_top := subroutine_arg_top s;
     callee_save_regs := callee_save_regs s;
     callee_save_reg_region := callee_save_reg_region s;
     unique_type_map := unique_type_map s; temp_vars := temp_vars s;
     naive_phi_vars := naive_phi_vars s; reg_vars := reg_vars s;
     planned_vars := planned_vars s; arguments := arguments s;
     temp_name_counter := temp_name_counter s;
     stack_pointer_type := stack_pointer_type s;
     weak_stack_var_types := t;
     weak_stack_var_locations := l;
     planned_inherited_phis := planned_inherited_phis s |}.

Definition set_planned_inherited_phis (l : list (Register * nat))
    (s : StackInfo) : StackInfo :=
  {| arch := arch s; deterministic_vars := deterministic_vars s;
     reg_formatter := reg_formatter s;
     allocated_stack_size := allocated_stack_size s; is_leaf := is_leaf s;
     subroutine_arg_top := subroutine_arg_top s;
     callee_save_regs := callee_save_regs s;
     callee_save_reg_region := callee_save_reg_region s;
     unique_type_map := unique_type_map s; temp_vars := temp_vars s;
     naive_phi_vars := naive_phi_vars s; reg_vars := reg_vars s;
     planned_vars := planned_vars s; arguments := arguments s;
     temp_name_counter := temp_name_counter s;
     stack_pointer_type := stack_pointer_type s;
     weak_stack_var_types := weak_stack_var_types s;
     weak_stack_var_locations := weak_stack_var_locations s;
     planned_inherited_phis := l |}.

(** *** Naming of temporaries *)

(** [prefix + (f"_{counter}" if counter > 1 else "")] *)
Definition numbered_name (prefix : string) (counter : nat) : string :=
  prefix +:+ (if decide (1 < counter)%nat then "_" +:+ pretty counter else "").

(** [StackInfo.temp_var] *)
Definition temp_var (prefix : string) (s : StackInfo) : string * StackInfo :=
  let counter := (default 0%nat (temp_name_counter s !! prefix) + 1)%nat in
  (numbered_name prefix counter,
   set_temp_name_counter (<[prefix := counter]> (temp_name_counter s)) s).

Definition set_var_name (v : Var) (name : string) (h : Heap) : Heap :=
  {| var_is_emitted := var_is_emitted h;
     var_name := <[var_id v := name]> (var_name h);
     var_debug_exprs := var_debug_exprs h;
     eo_forced_emit := eo_forced_emit h; eo_is_used := eo_is_used h;
     phi_num_usages := phi_num_usages h;
     phi_replacement_expr := phi_replacement_expr h;
     phi_name := phi_name h; used_naive_phis := used_naive_phis h;
     types := types h; next_oid := next_oid h |}.

(** [Var.format] *)
Definition Var_format (v : Var) (st : Heap * StackInfo)
    : Res (string * (Heap * StackInfo)) :=
  let '(h, s) := st in
  if is_emitted h v then
    match var_name h !! var_id v with
    | Some name => Ok (name, (h, s))
    | None =>
        let '(name, s) := temp_var (prefix v) s in
        Ok (name, (set_var_name v name h, s))
    end
  else Raise AssertionError.

(** Formatting a sequence of vars, as the printer does while it walks the
    output. *)
Fixpoint Var_format_each (vs : list Var) (st : Heap * StackInfo)
    : Res (list string * (Heap * StackInfo)) :=
  match vs with
  | [] => Ok ([], st)
  | v :: vs =>
      '(name, st) ← Var_format v st;
      '(names, st) ← Var_format_each vs st;
      Ok (name :: names, st)
  end.

(** *** Classification of stack offsets *)

(** [StackInfo.in_subroutine_arg_region] *)
Definition in_subroutine_arg_region (s : StackInfo) (location : Z) : bool :=
  if decide (arch s = PPC) then false
  else if is_leaf s then false
  else bool_decide (location < subroutine_arg_top s).

(** [StackInfo.in_callee_save_reg_region] *)
Definition in_callee_save_reg_region (s : StackInfo) (location : Z) : bool :=
  let '(lower_bound, upper_bound) := callee_save_reg_region s in
  if bool_decide (lower_bound ≤ location < upper_bound) then true
  else if bool_decide (arch s = PPC)
          && bool_decide (location = allocated_stack_size s + 4) then true
  else false.

(** [StackInfo.location_above_stack] *)
Definition location_above_stack (s : StackInfo) (location : Z) : bool :=
  bool_decide (allocated_stack_size s ≤ location).

(** [StackInfo.unique_type_for] *)
Definition unique_type_for (key : UniqueKey) (default : Ty) (s : StackInfo)
    : Ty * StackInfo :=
  match list_find (fun kv => fst kv = key) (unique_type_map s) with
  | Some (_, (_, t)) => (t, s)
  | None =>
      (default, set_unique_type_map (unique_type_map s ++ [(key, default)]) s)
  end.

(** The heap component of the pair of states that [StackInfo] methods work
    on. *)
Definition on_heap {A} (m : Eff Heap A) : Eff (Heap * StackInfo) A :=
  zoom fst (fun h st => (h, snd st)) m.
Definition on_stack {A} (f : StackInfo → A * StackInfo)
    : Eff (Heap * StackInfo) A :=
  zoom snd (fun s st => (fst st, s)) (state_fn f).

(** [StackInfo.get_argument] *)
Definition get_argument (location : Z)
    : Eff (Heap * StackInfo) (Expression * Expression) :=
  let real_location := Z.land location (-4) in
  dflt ← on_heap (state_fn (heap_new_type T_any_reg));
  t ← on_stack (unique_type_for (UK_arg real_location) dflt);
  let arg := PassedInArg real_location t in
  if bool_decide (real_location = location - 3) then
    e ← on_heap (as_type_new (T_int_of_size 8) true arg);
    mret (e, arg)
  else if bool_decide (real_location = location - 2) then
    e ← on_heap (as_type_new (T_int_of_size 16) true arg);
    mret (e, arg)
  else mret (arg, arg).

Definition arg_value (e : Expression) : Z :=
  match e with PassedInArg v _ => v | _ => 0 end.

(** [self.arguments.sort(key=lambda a: a.value)]: a stable sort. *)
Definition arg_le (a b : Expression) : Prop := arg_value a ≤ arg_value b.

Global Instance arg_le_dec : RelDecision arg_le.
Proof. intros a b. unfold arg_le. apply _. Defined.

Definition sort_arguments (l : list Expression) : list Expression :=
  merge_sort arg_le l.

(** [StackInfo.add_argument] *)
Definition add_argument (arg : Expression) (s : StackInfo) : StackInfo :=
  if existsb (fun a => Z.eqb (arg_value a) (arg_value arg)) (arguments s)
  then s
  else set_arguments (sort_arguments (arguments s ++ [arg])) s.

(** The four classes of stack offsets. *)
Inductive StackClass : Type :=
| CalleeSaved | CallerArgument | SubroutineArgument | LocalVariable.

(** The branch that [StackInfo.get_stack_var] takes for an offset. *)
Definition stack_class (s : StackInfo) (location : Z) : StackClass :=
  if in_callee_save_reg_region s location then CalleeSaved
  else if location_above_stack s location then CallerArgument
  else if in_subroutine_arg_region s location then SubroutineArgument
  else LocalVariable.

(** [StackInfo.get_stack_var] *)
Definition get_stack_var (location : Z) (store : bool)
    : Eff (Heap * StackInfo) Expression :=
  s ← zoom snd (fun s st => (fst st, s)) get_state;
  if in_callee_save_reg_region s location then
    t ← on_heap (state_fn (heap_new_type T_any_reg));
    mret (LocalVar location t None)
  else if location_above_stack s location then
    '(ret, arg) ← get_argument (location - allocated_stack_size s);
    _ ← (if negb store
         then on_stack (fun s => (tt, add_argument arg s))
         else mret tt);
    mret ret
  else if in_subroutine_arg_region s location then
    t ← on_heap (state_fn (heap_new_type T_any_reg));
    mret (SubroutineArg location t)
  else
    match stack_pointer_type s with
    | None => raise AssertionError
    | Some sp_type =>
        '(field_path, field_type, _) ←
          on_heap (state_fn (fun h =>
            let '(r, ts) := get_deref_field sp_type location None (types h)
            in (r, set_types ts h)));
        let previous_stored_type := weak_stack_var_types s !! location in
        field_type ←
          match previous_stored_type with
          | Some previous =>
              ok ← on_heap (state_fn (heap_unify previous field_type));
              _ ← (if negb ok then
                     on_stack (fun s =>
                       (tt, set_weak_stack_var (weak_stack_var_types s)
                              ({[location]} ∪ weak_stack_var_locations s) s))
                   else mret tt);
              if store then on_heap (state_fn (heap_new_type T_any_field))
              else mret previous
          | None => mret field_type
          end;
        _ ← (if store then
               on_stack (fun s =>
                 (tt, set_weak_stack_var
                        (<[location := field_type]> (weak_stack_var_types s))
                        (weak_stack_var_locations s) s))
             else mret tt);
        mret (LocalVar location field_type field_path)
    end.

(** *** The callee-saved region ([get_stack_info], "Compute the bounds of
    the callee-saved register region") *)

(** The loop over the sorted offsets: [top] and [internal_padding_added]
    are the loop's two variables; a gap raises [DecompFailure]. *)
Fixpoint callee_saved_scan (offsets : list Z) (top : Z)
    (internal_padding_added : bool) : Res Z :=
  match offsets with
  | [] => Ok top
  | offset :: rest =>
      if bool_decide (offset ≠ top) then
        if negb internal_padding_added && bool_decide (offset = top + 4)
        then callee_saved_scan rest (offset + 4) true
        else Raise (DecompFailure "Gap in callee-saved word stack region.")
      else callee_saved_scan rest (offset + 4) internal_padding_added
  end.

(** [callee_saved_offsets.sort()] *)
Definition sort_offsets (l : list Z) : list Z := merge_sort Z.le l.

(** The whole [if callee_saved_offsets:] block: the new
    [callee_save_reg_region] and [subroutine_arg_top]. *)
Definition callee_save_bounds (callee_saved_offsets : list Z)
    (region : Z * Z) (subroutine_arg_top : Z) : Res ((Z * Z) * Z) :=
  match sort_offsets callee_saved_offsets with
  | [] => Ok (region, subroutine_arg_top)
  | (bottom :: _) as sorted =>
      top ← callee_saved_scan sorted bottom false;
      Ok ((bottom, top), Z.min subroutine_arg_top bottom)
  end.



(** No prefix in use is another prefix in use followed by ["_"] and a
    counter value. *)
Definition prefixes_independent (prefixes : list string) : Prop :=
  ∀ p q k, p ∈ prefixes → q ∈ prefixes → (1 < k)%nat →
    q ≠ p +:+ "_" +:+ pretty k.

Fixpoint has_underscore (s : string) : bool :=
  match s with
  | EmptyString => false
  | String c s => Ascii.eqb c ("_" : Ascii.ascii) || has_underscore s
  end.

Definition counter_of (s : StackInfo) (p : string) : nat :=
  default 0%nat (temp_name_counter s !! p).

(** Every named var of the pool carries a name issued for its prefix. *)
Definition names_issued (pool : list Var) (h : Heap) (s : StackInfo) : Prop :=
  ∀ v n, v ∈ pool → var_name h !! var_id v = Some n →
    ∃ k, (1 ≤ k ≤ counter_of s (prefix v))%nat
         ∧ n = numbered_name (prefix v) k.

(** Two vars of the pool with one name are one var, when [ok] relates their
    prefixes. *)
Definition names_distinct (ok : string → string → Prop) (pool : list Var)
    (h : Heap) : Prop :=
  ∀ v1 v2 n, v1 ∈ pool → v2 ∈ pool →
    var_name h !! var_id v1 = Some n → var_name h !! var_id v2 = Some n →
    ok (prefix v1) (prefix v2) → v1 = v2.

Definition pool_wf (pool : list Var) : Prop :=
  ∀ v1 v2, v1 ∈ pool → v2 ∈ pool → var_id v1 = var_id v2 → v1 = v2.


(** ** Statements *)

Inductive Statement : Type :=
| EvalOnceStmt (expr : Expression)
| SetNaivePhiStmt (phi : Expression) (expr : Expression)
| ExprStmt (expr : Expression)
| StoreStmt (source dest : Expression)
| CommentStmt (contents : string).

(** ** The symbolic register state: [RegMeta], [RegData], [RegInfo] *)

Record RegMeta : Type := {
  inherited : bool;
  initial : bool;
  is_read : bool;
  function_return : bool;
  uninteresting : bool;
  meta_force : bool;
  meta_in_pattern : bool;
}.

Definition RegMeta_default : RegMeta :=
  {| inherited := false; initial := false; is_read := false;
     function_return := false; uninteresting := false; meta_force := false;
     meta_in_pattern := false |}.

Definition meta_set_is_read (m : RegMeta) : RegMeta :=
  {| inherited := inherited m; initial := initial m; is_read := true;
     function_return := function_return m; uninteresting := uninteresting m;
     meta_force := meta_force m; meta_in_pattern := meta_in_pattern m |}.

(** [replace(meta, force=True)] *)
Definition meta_set_force (m : RegMeta) : RegMeta :=
  {| inherited := inherited m; initial := initial m; is_read := is_read m;
     function_return := function_return m; uninteresting := uninteresting m;
     meta_force := true; meta_in_pattern := meta_in_pattern m |}.

(** [replace(meta, initial=False)] *)
Definition meta_clear_initial (m : RegMeta) : RegMeta :=
  {| inherited := inherited m; initial := false; is_read := is_read m;
     function_return := function_return m; uninteresting := uninteresting m;
     meta_force := meta_force m; meta_in_pattern := meta_in_pattern m |}.

Record RegData : Type := {
  value : Expression;
  meta : RegMeta;
}.

Record RegInfo : Type := {
  contents : gmap string RegData;
  read_inherited : gset string;
  active_instr : option Instruction;
}.

Definition RegInfo_empty : RegInfo :=
  {| contents := ∅; read_inherited := ∅; active_instr := None |}.

Definition set_contents (c : gmap string RegData) (r : RegInfo) : RegInfo :=
  {| contents := c; read_inherited := read_inherited r;
     active_instr := active_instr r |}.

Definition set_read_inherited (s : gset string) (r : RegInfo) : RegInfo :=
  {| contents := contents r; read_inherited := s;
     active_instr := active_instr r |}.

Definition set_active_instr (i : option Instruction) (r : RegInfo) : RegInfo :=
  {| contents := contents r; read_inherited := read_inherited r;
     active_instr := i |}.

Definition zero : Register := "zero".

(** [RegInfo.get_instruction_lineno] *)
Definition get_instruction_lineno (r : RegInfo) : Z :=
  match active_instr r with
  | None => 0
  | Some i => lineno i
  end.

(** [ErrorExpr(desc)]: a new object, with a new type [Type.any_reg()]. *)
Definition new_ErrorExpr (desc : option string) : Eff Heap Expression :=
  t ← state_fn (heap_new_type T_any_reg);
  oid ← state_fn fresh_oid;
  mret (ErrorExpr oid desc t).

(** [Literal(value)]: the type defaults to a new [Type.any()]. *)
Definition new_Literal (v : Z) : Eff Heap Expression :=
  t ← state_fn (heap_new_type T_any);
  mret (Literal v t false).

(** The three states a [RegInfo] method works on: the heap, the
    [StackInfo] it points to, and the [RegInfo] itself. *)
Definition regs_heap {A} (m : Eff Heap A)
    : Eff (Heap * StackInfo * RegInfo) A :=
  zoom (fun st => fst (fst st)) (fun h st => (h, snd (fst st), snd st)) m.
Definition regs_stack {A} (m : Eff (Heap * StackInfo) A)
    : Eff (Heap * StackInfo * RegInfo) A :=
  zoom fst (fun hs st => (hs, snd st)) m.
Definition regs_self {A} (m : Eff RegInfo A)
    : Eff (Heap * StackInfo * RegInfo) A :=
  zoom snd (fun r st => (fst st, r)) m.

(** [RegInfo.__getitem__].  The texts of the two error descriptions are
    built from the register name and the line number. *)
Definition RegInfo_getitem (fuel : nat) (key : Register)
    : Eff (Heap * StackInfo * RegInfo) Expression :=
  regs ← regs_self get_state;
  if match active_instr regs with
     | Some instr => negb (reg_in key (inputs instr))
     | None => false
     end
  then
    let lineno := get_instruction_lineno regs in
    regs_heap (new_ErrorExpr
      (Some ("Read from unset register " +:+ key +:+ " on line "
             +:+ pretty lineno)))
  else if String.eqb key zero then regs_heap (new_Literal 0)
  else
    match contents regs !! key with
    | None =>
        regs_heap (new_ErrorExpr (Some ("Read from unset register " +:+ key)))
    | Some data =>
        let ret := value data in
        let meta := meta_set_is_read (meta data) in
        _ ← regs_self (modify_state (fun r =>
              set_contents
                (<[key := {| value := ret; meta := meta |}]> (contents r)) r));
        _ ← (if inherited meta then
               regs_self (modify_state (fun r =>
                 set_read_inherited ({[key]} ∪ read_inherited r) r))
             else mret tt);
        h ← regs_heap get_state;
        let uw_ret := early_unwrap h ret in
        match ret with
        | EvalOnceExpr _ wrapped_expr _ _ _ _ true _ => mret wrapped_expr
        | _ =>
            _ ← (match uw_ret with
                 | PassedInArg v _ =>
                     if initial meta then
                       '(val, arg) ← regs_stack (get_argument v);
                       _ ← regs_stack
                             (on_stack (fun s => (tt, add_argument arg s)));
                       _ ← regs_heap (state_fn
                             (heap_unify (expr_type val) (expr_type ret)));
                       mret tt
                     else mret tt
                 | _ => mret tt
                 end);
            _ ← (if meta_force meta then
                   match ret with
                   | EvalOnceExpr _ _ _ _ _ _ _ _ =>
                       regs_heap (run_res (force fuel ret))
                   | _ => raise AssertionError
                   end
                 else mret tt);
            mret ret
        end
    end.

(** [RegInfo.__contains__] *)
Definition RegInfo_contains (key : Register) (r : RegInfo) : bool :=
  bool_decide (is_Some (contents r !! key)).

(** [RegInfo.set_with_meta].  The text of the message is abridged. *)
Definition set_with_meta (key : Register) (v : Expression) (m : RegMeta)
    : Eff RegInfo unit :=
  r ← get_state;
  match active_instr r with
  | None => raise AssertionError
  | Some instr =>
      if negb (reg_in key (outputs instr)) then
        raise (DecompFailure ("Undeclared write to " +:+ key))
      else
        _ ← assert (negb (String.eqb key zero));
        modify_state
          (set_contents (<[key := {| value := v; meta := m |}]> (contents r)))
  end.

(** [RegInfo.global_set_with_meta] *)
Definition global_set_with_meta (key : Register) (v : Expression)
    (m : RegMeta) : Eff RegInfo unit :=
  r ← get_state;
  _ ← assert (bool_decide (active_instr r = None));
  _ ← assert (negb (String.eqb key zero));
  modify_state
    (set_contents (<[key := {| value := v; meta := m |}]> (contents r))).

(** [RegInfo.update_meta] *)
Definition update_meta (key : Register) (m : RegMeta) : Eff RegInfo unit :=
  r ← get_state;
  _ ← assert (negb (String.eqb key zero));
  match contents r !! key with
  | None => raise KeyError
  | Some data =>
      modify_state
        (set_contents
           (<[key := {| value := value data; meta := m |}]> (contents r)))
  end.

(** [RegInfo.__delitem__] *)
Definition RegInfo_delitem (key : Register) : Eff RegInfo unit :=
  r ← get_state;
  _ ← assert (negb (String.eqb key zero));
  match contents r !! key with
  | None => raise KeyError
  | Some _ => modify_state (set_contents (delete key (contents r)))
  end.

(** [RegInfo.get_raw], [RegInfo.get_meta] *)
Definition get_raw (key : Register) (r : RegInfo) : option Expression :=
  value <$> contents r !! key.
Definition get_meta (key : Register) (r : RegInfo) : option RegMeta :=
  meta <$> contents r !! key.

(** ** [NodeState] and the translation of one node *)

Inductive NodeKind : Type :=
| BasicNode | ConditionalNode | ReturnNode | SwitchNode | TerminalNode.

Record SwitchControl : Type := {
  control_expr : Expression;
  jump_table : option Expression;
  switch_offset : Z;
  is_irregular : bool;
}.

(** A flow-graph node as [translate.py] sees it. *)
Record Node : Type := {
  node_id : nat;
  node_kind : NodeKind;
  instructions : list Instruction;
  parents : list nat;
  immediate_dominator : option nat;
  immediately_dominates : list nat;
  block_index : Z;
}.

Record NodeState : Type := {
  node : Node;
  regs : RegInfo;
  local_var_writes : list (Expression * (Register * Expression));
  subroutine_args : list (Z * Expression);
  in_pattern : bool;
  to_write : list Statement;
  branch_condition : option Expression;
  switch_control : option SwitchControl;
  has_function_call : bool;
}.

Record BlockInfo : Type := {
  bi_to_write : list Statement;
  return_value : option Expression;
  bi_switch_control : option SwitchControl;
  bi_branch_condition : option Expression;
  final_register_states : RegInfo;
  bi_has_function_call : bool;
}.

Definition set_regs (r : RegInfo) (n : NodeState) : NodeState :=
  {| node := node n; regs := r; local_var_writes := local_var_writes n;
     subroutine_args := subroutine_args n; in_pattern := in_pattern n;
     to_write := to_write n; branch_condition := branch_condition n;
     switch_control := switch_control n;
     has_function_call := has_function_call n |}.

Definition set_in_pattern (b : bool) (n : NodeState) : NodeState :=
  {| node := node n; regs := regs n; local_var_writes := local_var_writes n;
     subroutine_args := subroutine_args n; in_pattern := b;
     to_write := to_write n; branch_condition := branch_condition n;
     switch_control := switch_control n;
     has_function_call := has_function_call n |}.

Definition set_to_write (l : list Statement) (n : NodeState) : NodeState :=
  {| node := node n; regs := regs n; local_var_writes := local_var_writes n;
     subroutine_args := subroutine_args n; in_pattern := in_pattern n;
     to_write := l; branch_condition := branch_condition n;
     switch_control := switch_control n;
     has_function_call := has_function_call n |}.

(** The state of a [NodeState] method: heap, [StackInfo], the node state. *)
Definition node_heap {A} (m : Eff Heap A)
    : Eff (Heap * StackInfo * NodeState) A :=
  zoom (fun st => fst (fst st)) (fun h st => (h, snd (fst st), snd st)) m.
Definition node_stack {A} (m : Eff StackInfo A)
    : Eff (Heap * StackInfo * NodeState) A :=
  zoom (fun st => snd (fst st)) (fun s st => (fst (fst st), s, snd st)) m.
Definition node_self {A} (m : Eff NodeState A)
    : Eff (Heap * StackInfo * NodeState) A :=
  zoom snd (fun n st => (fst st, n)) m.
Definition node_regs {A} (m : Eff RegInfo A)
    : Eff (Heap * StackInfo * NodeState) A :=
  node_self (zoom regs set_regs m).
(** [self.regs[key]] *)
Definition node_getitem (fuel : nat) (key : Register)
    : Eff (Heap * StackInfo * NodeState) Expression :=
  zoom (fun st => (fst st, regs (snd st)))
       (fun hr st => (fst hr, set_regs (snd hr) (snd st)))
       (RegInfo_getitem fuel key).

(** [NodeState.write_statement] *)
Definition write_statement (stmt : Statement)
    : Eff (Heap * StackInfo * NodeState) unit :=
  node_self (modify_state (fun n => set_to_write (to_write n ++ [stmt]) n)).

(** [NodeState.set_branch_condition] *)
Definition set_branch_condition (cond : Expression)
    : Eff (Heap * StackInfo * NodeState) unit :=
  n ← node_self get_state;
  _ ← assert (match node_kind (node n) with
              | ConditionalNode => true | _ => false end);
  _ ← assert (bool_decide (branch_condition n = None));
  node_self (modify_state (fun n =>
    {| node := node n; regs := regs n;
       local_var_writes := local_var_writes n;
       subroutine_args := subroutine_args n; in_pattern := in_pattern n;
       to_write := to_write n; branch_condition := Some cond;
       switch_control := switch_control n;
       has_function_call := has_function_call n |})).

(** [d.get(key)] on a dict kept as an association list. *)
Fixpoint assoc_get {K V} (is_key : K → bool) (l : list (K * V)) : option V :=
  match l with
  | [] => None
  | (k, v) :: l => if is_key k then Some v else assoc_get is_key l
  end.

Definition planned_key_eqb (reg : Register) (source : InstructionSource)
    (k : Register * InstructionSource) : bool :=
  String.eqb (fst k) reg && source_eqb (snd k) source.

(** [StackInfo.get_planned_var] *)
Definition get_planned_var (reg : Register) (source : InstructionSource)
    (s : StackInfo) : option Var :=
  match reg_vars s !! reg, source with
  | Some var, Some instr =>
      if negb (has_function_target instr) then Some var
      else assoc_get (planned_key_eqb reg source) (planned_vars s)
  | _, _ => assoc_get (planned_key_eqb reg source) (planned_vars s)
  end.

Definition is_AddressOf (e : option Expression) : bool :=
  match e with Some (AddressOf _ _) => true | _ => false end.

(** [uses_expr(expr, expr_filter, parent)] *)
Fixpoint uses_expr (fuel : nat) (h : Heap) (expr : Expression)
    (expr_filter : Expression → bool) (parent : option Expression)
    : Res bool :=
  match fuel with
  | O => OutOfFuel
  | S fuel =>
      if expr_filter expr && negb (is_AddressOf parent) then Ok true
      else
        (fix each (deps : list Expression) : Res bool :=
           match deps with
           | [] => Ok false
           | e :: deps =>
               r ← uses_expr fuel h e expr_filter (Some expr);
               if r : bool then Ok true else each deps
           end) (dependencies h expr)
  end.

Definition is_phi (e : Expression) : bool :=
  match e with
  | PlannedPhiExpr _ _ _ _ | NaivePhiExpr _ _ _ _ _ _ => true
  | _ => false
  end.

Definition is_EvalOnceExpr (e : Expression) : bool :=
  match e with EvalOnceExpr _ _ _ _ _ _ _ _ => true | _ => false end.

(** [NodeState._prevent_later_uses]: the loop over the registers. *)
Fixpoint prevent_later_uses_each (fuel : nat)
    (expr_filter : Expression → bool) (items : list (string * RegData))
    : Eff (Heap * StackInfo * NodeState) unit :=
  match items with
  | [] => mret tt
  | (r, data) :: items =>
      let expr := value data in
      _ ← (if is_phi expr then mret tt
           else
             h ← node_heap get_state;
             uses ← (if meta_force (meta data) then mret false
                     else
                       match uses_expr fuel h expr expr_filter None with
                       | Ok b => mret b
                       | Raise e => raise e
                       | OutOfFuel => fun st => (OutOfFuel, st)
                       end);
             if uses : bool then
               _ ← assert (is_EvalOnceExpr expr);
               node_regs (update_meta r (meta_set_force (meta data)))
             else mret tt);
      prevent_later_uses_each fuel expr_filter items
  end.

Definition prevent_later_uses (fuel : nat) (expr_filter : Expression → bool)
    : Eff (Heap * StackInfo * NodeState) unit :=
  n ← node_self get_state;
  prevent_later_uses_each fuel expr_filter (map_to_list (contents (regs n))).

(** [NodeState.prevent_later_var_uses] *)
Definition prevent_later_var_uses (fuel : nat) (vars : list Var)
    : Eff (Heap * StackInfo * NodeState) unit :=
  prevent_later_uses fuel
    (fun e => match var_for_expr e with
              | Some v => existsb (var_eqb v) vars
              | None => false
              end).

(** [needle in haystack] on strings. *)
Fixpoint string_prefix (p s : string) : bool :=
  match p, s with
  | EmptyString, _ => true
  | String a p, String b s => Ascii.eqb a b && string_prefix p s
  | _, _ => false
  end.
Fixpoint string_contains (needle haystack : string) : bool :=
  string_prefix needle haystack
  || match haystack with
     | EmptyString => false
     | String _ rest => string_contains needle rest
     end.

Definition append_temp_var (v : Var) (s : StackInfo) : StackInfo :=
  set_temp_vars (temp_vars s ++ [v]) s.

Definition append_debug_expr (v : Var) (e : Expression) (h : Heap) : Heap :=
  {| var_is_emitted := var_is_emitted h;
     var_name := var_name h;
     var_debug_exprs :=
       <[var_id v := default [] (var_debug_exprs h !! var_id v) ++ [e]]>
         (var_debug_exprs h);
     eo_forced_emit := eo_forced_emit h; eo_is_used := eo_is_used h;
     phi_num_usages := phi_num_usages h;
     phi_replacement_expr := phi_replacement_expr h;
     phi_name := phi_name h; used_naive_phis := used_naive_phis h;
     types := types h; next_oid := next_oid h |}.

(** [NodeState._eval_once] *)
Definition eval_once (fuel : nat) (expr : Expression)
    (emit_exactly_once transparent : bool) (reg : Register)
    (source : InstructionSource)
    : Eff (Heap * StackInfo * NodeState) Expression :=
  s ← node_stack get_state;
  let planned_var := get_planned_var reg source s in
  if string_contains "_fictive_" reg && is_EvalOnceExpr expr then
    _ ← assert (negb emit_exactly_once);
    _ ← assert (bool_decide (planned_var = None));
    mret expr
  else
    let trivial := transparent && is_trivial_expression expr in
    _ ← (if emit_exactly_once then node_heap (run_res (use fuel expr))
         else mret tt);
    '(var, expr) ←
      match planned_var with
      | Some var =>
          expr ← node_heap (as_type expr (var_type var) true);
          _ ← prevent_later_var_uses fuel [var];
          mret (var, expr)
      | None =>
          let prefix := reg_formatter s reg in
          let prefix :=
            if String.eqb prefix "condition_bit" then "cond" else prefix in
          let temp_name := "temp_" +:+ prefix in
          n ← node_self get_state;
          let temp_name :=
            if deterministic_vars s
            then temp_name +:+ "_" +:+ pretty (get_instruction_lineno (regs n))
            else temp_name in
          vid ← node_heap (state_fn fresh_oid);
          let var := {| var_id := vid; prefix := temp_name;
                        var_type := expr_type expr |} in
          _ ← node_stack (modify_state (append_temp_var var));
          mret (var, expr)
      end;
    oid ← node_heap (state_fn fresh_oid);
    let expr :=
      EvalOnceExpr oid expr var (expr_type expr) source emit_exactly_once
        trivial transparent in
    _ ← write_statement (EvalOnceStmt expr);
    _ ← node_heap (modify_state (append_debug_expr var expr));
    _ ← (match planned_var with
         | Some _ =>
             _ ← node_heap (modify_state (set_is_emitted var));
             node_heap (run_res (use fuel expr))
         | None => mret tt
         end);
    mret expr.

(** [RegMeta(in_pattern=..., function_return=...)] *)
Definition RegMeta_of (in_pattern function_return : bool) : RegMeta :=
  {| inherited := false; initial := false; is_read := false;
     function_return := function_return; uninteresting := false;
     meta_force := false; meta_in_pattern := in_pattern |}.

(** [NodeState.set_reg_real] *)
Definition set_reg_real (fuel : nat) (reg : Register) (uw_expr : Expression)
    (transparent : option bool) (emit_exactly_once function_return : bool)
    : Eff (Heap * StackInfo * NodeState) Expression :=
  n ← node_self get_state;
  match active_instr (regs n) with
  | None => raise AssertionError
  | Some source =>
      h ← node_heap get_state;
      let transparent :=
        match transparent with
        | None => should_wrap_transparently h uw_expr
        | Some t => t
        end in
      expr ← eval_once fuel uw_expr emit_exactly_once transparent reg
               (Some source);
      _ ← (if String.eqb reg zero then
             _ ← node_heap (run_res (use fuel expr));
             write_statement (ExprStmt expr)
           else
             n ← node_self get_state;
             node_regs (set_with_meta reg expr
                          (RegMeta_of (in_pattern n) function_return)));
      mret expr
  end.

(** *** Evaluating the instructions of a node *)

Section Evaluation.

(** The evaluation callback attached to each instruction ([instr.eval_fn],
    from the per-architecture instruction tables), and what
    [instruction.current_instr] turns an exception that crosses it into. *)
Variable eval_fn :
  Instruction → option (Eff (Heap * StackInfo * NodeState) unit).
Variable wrap_instr_failure : Instruction → Exn → Exn.

(** [NodeState.current_instr]: a context manager; its [finally] clause
    runs whether or not the body raised. *)
Definition with_current_instr {A} (instr : Instruction)
    (body : Eff (Heap * StackInfo * NodeState) A)
    : Eff (Heap * StackInfo * NodeState) A :=
  n ← node_self get_state;
  _ ← assert (bool_decide (active_instr (regs n) = None));
  _ ← node_regs (modify_state (set_active_instr (Some instr)));
  _ ← node_self (modify_state (set_in_pattern (instr_in_pattern instr)));
  ((fun st =>
      let '(r, st) := body st in
      let '(_, st) :=
        (_ ← node_regs (modify_state (set_active_instr None));
         node_self (modify_state (set_in_pattern false))) st in
      match r with
      | Ok a => (Ok a, st)
      | Raise e => (Raise (wrap_instr_failure instr e), st)
      | OutOfFuel => (OutOfFuel, st)
      end) : Eff (Heap * StackInfo * NodeState) A).

(** [evaluate_instruction] *)
Definition evaluate_instruction (instr : Instruction)
    : Eff (Heap * StackInfo * NodeState) unit :=
  n ← node_self get_state;
  _ ← (if is_return instr
       then assert (match node_kind (node n) with
                    | ReturnNode => true | _ => false end)
       else mret tt);
  _ ← (if is_conditional instr
       then assert (bool_decide (branch_condition n = None)
                    && bool_decide (switch_control n = None))
       else mret tt);
  _ ← (match eval_fn instr with
       | Some f => f
       | None => mret tt
       end);
  n ← node_self get_state;
  if is_conditional instr
  then assert (negb (bool_decide (branch_condition n = None))
               || negb (bool_decide (switch_control n = None)))
  else mret tt.

Fixpoint evaluate_each (instrs : list Instruction)
    : Eff (Heap * StackInfo * NodeState) unit :=
  match instrs with
  | [] => mret tt
  | instr :: instrs =>
      _ ← with_current_instr instr (evaluate_instruction instr);
      evaluate_each instrs
  end.

(** [translate_node_body] *)
Definition translate_node_body (fuel : nat)
    : Eff (Heap * StackInfo * NodeState) BlockInfo :=
  n ← node_self get_state;
  _ ← evaluate_each (instructions (node n));
  n ← node_self get_state;
  _ ← (match branch_condition n with
       | Some c => node_heap (run_res (use fuel c))
       | None => mret tt
       end);
  _ ← (match switch_control n with
       | Some sc => node_heap (run_res (use fuel (control_expr sc)))
       | None => mret tt
       end);
  n ← node_self get_state;
  mret {| bi_to_write := to_write n; return_value := None;
          bi_switch_control := switch_control n;
          bi_branch_condition := branch_condition n;
          final_register_states := regs n;
          bi_has_function_call := has_function_call n |}.

(** The message that [translate_block] prints for an exception: the text of
    a [DecompFailure]; for the other kinds, which the source renders from
    the traceback, the name of the exception. *)
Definition exn_message (e : Exn) : string :=
  match e with
  | DecompFailure msg => msg
  | AssertionError => "AssertionError"
  | KeyError => "KeyError"
  | ValueError => "ValueError"
  | OverflowError => "OverflowError"
  | ZeroDivisionError => "ZeroDivisionError"
  | AttributeError => "AttributeError"
  | IndexError => "IndexError"
  | InstrProcessingFailure _ _ => "InstrProcessingFailure"
  end.

(** [if isinstance(e, InstrProcessingFailure) and
    isinstance(e.__cause__, Exception): instr = e.instr; e = e.__cause__] *)
Definition exn_instr (e : Exn) : option string :=
  match e with
  | InstrProcessingFailure instr _ => Some instr
  | _ => None
  end.
Definition exn_cause (e : Exn) : Exn :=
  match e with
  | InstrProcessingFailure _ cause => cause
  | _ => e
  end.

(** The statements that [translate_block] writes for a failed node. *)
Definition error_stmts (e : Exn) : list Statement :=
  [CommentStmt ("Error: " +:+ exn_message (exn_cause e))]
  ++ match exn_instr e with
     | Some i => [CommentStmt ("At instruction: " +:+ i)]
     | None => []
     end.

(** [translate_block]: the [try ... except Exception] around
    [translate_node_body]. *)
Definition translate_block (fuel : nat) (stop_on_error : bool)
    : Eff (Heap * StackInfo * NodeState) BlockInfo :=
  fun st =>
    match translate_node_body fuel st with
    | (Ok block_info, st) => (Ok block_info, st)
    | (OutOfFuel, st) => (OutOfFuel, st)
    | (Raise e, st) =>
        if stop_on_error then (Raise e, st)
        else
          (cond ← node_heap (new_ErrorExpr None);
           n ← node_self get_state;
           mret {| bi_to_write := error_stmts e; return_value := None;
                   bi_switch_control := None;
                   bi_branch_condition := Some cond;
                   final_register_states := regs n;
                   bi_has_function_call := false |}) st
    end.

End Evaluation.


(** ** Division folding *)

(** *** Python's arithmetic on [int] and [float]

    [round_div] divides integers with [/], which yields the binary64 number
    nearest to the exact quotient (ties to even), rounds that number with
    [round], and compares integers with floats, which Python does exactly.
    A finite binary64 number is kept as [mant * 2 ^ expo]. *)

Record Float : Type := { mant : Z; expo : Z }.

(** The integer nearest to [n / d], ties to even, for [d > 0]. *)
Definition round_half_even (n d : Z) : Z :=
  let q := n / d in
  let r := n mod d in
  if 2 * r <? d then q
  else if d <? 2 * r then q + 1
  else if Z.even q then q else q + 1.

(** The exact value of [a * 2 ^ k] against [b], for any sign of [k]. *)
Definition scaled_geb (a b k : Z) : bool :=
  b * 2 ^ Z.max 0 k <=? a * 2 ^ Z.max 0 (- k).

(** [floor (log2 (a / b))] for positive [a] and [b]. *)
Definition quotient_exponent (a b : Z) : Z :=
  let e := Z.log2 a - Z.log2 b in
  if scaled_geb a b e then e else e - 1.

(** [a / b] for positive integers: the quotient is rounded to 53
    significant bits (fewer below [2 ^ -1022]); a result of [2 ^ 1024] or
    more raises [OverflowError]. *)
Definition positive_true_divide (a b : Z) : Res Float :=
  let e := quotient_exponent a b in
  let q := Z.max (e - 52) (-1074) in
  let m := if 0 <=? q then round_half_even a (b * 2 ^ q)
           else round_half_even (a * 2 ^ (- q)) b in
  if (0 <=? q) && (2 ^ 1024 <=? m * 2 ^ q) then Raise OverflowError
  else Ok {| mant := m; expo := q |}.

(** [a / b] on Python integers. *)
Definition int_true_divide (a b : Z) : Res Float :=
  if b =? 0 then Raise ZeroDivisionError
  else if a =? 0 then Ok {| mant := 0; expo := 0 |}
  else
    f ← positive_true_divide (Z.abs a) (Z.abs b);
    Ok {| mant := Z.sgn a * Z.sgn b * mant f; expo := expo f |}.

(** [round(f)] *)
Definition float_round (f : Float) : Z :=
  if 0 <=? expo f then mant f * 2 ^ expo f
  else round_half_even (mant f) (2 ^ (- expo f)).

(** [f <= n] and [n <= f] for a float [f] and an integer [n]. *)
Definition float_le_int (f : Float) (n : Z) : bool :=
  if 0 <=? expo f then mant f * 2 ^ expo f <=? n
  else mant f <=? n * 2 ^ (- expo f).
Definition int_le_float (n : Z) (f : Float) : bool :=
  if 0 <=? expo f then n <=? mant f * 2 ^ expo f
  else n * 2 ^ (- expo f) <=? mant f.

(** [a << n] *)
Definition py_lshift (a n : Z) : Res Z :=
  if n <? 0 then Raise ValueError else Ok (a * 2 ^ n).

(** [round_div], the local function of [fold_divmod] *)
Definition round_div (x y : Z) : Res (option Z) :=
  if y <=? 1 then Ok None
  else
    q ← int_true_divide x y;
    let result := float_round q in
    lo ← int_true_divide x (y + 1);
    if float_le_int lo result then
      hi ← int_true_divide x (y - 1);
      if int_le_float result hi then Ok (Some result) else Ok None
    else Ok None.

(** *** [fold_divmod] *)

Definition mult_high_op (op : string) : bool :=
  String.eqb op "MULT_HI" || String.eqb op "MULTU_HI".

Definition possible_match_op (op : string) : bool :=
  mult_high_op op || String.eqb op "-" || String.eqb op "+"
  || String.eqb op ">>".

(** [BinaryOp.is_floating] *)
Definition is_floating (h : Heap) (l r : Expression) : bool :=
  is_float (expr_type l) (types h) && is_float (expr_type r) (types h).

(** [early_unwrap_ints(e)] on the current heap. *)
Definition unwrap_ints (e : Expression) : Eff Heap Expression :=
  h ← get_state; mret (early_unwrap_ints h e).

(** [e == Literal(v)]; the literal is a new object with a new type. *)
Definition equals_new_Literal (e : Expression) (v : Z) : Eff Heap bool :=
  lit ← new_Literal v; mret (expr_eqb e lit).

(** Try [m]; when it does not return from the function, go on with [k]. *)
Definition or_else {S A} (m : Eff S (option A)) (k : Eff S A) : Eff S A :=
  r ← m;
  match r with
  | Some a => mret a
  | None => k
  end.

(** "Detect signed power-of-two division: (x >> N) + M2C_CARRY" *)
Definition fold_carry (op : string) (left_expr right_expr : Expression)
    : Eff Heap (option Expression) :=
  match left_expr, right_expr with
  | BinaryOp _ ll lop (Literal lv _ _) _, CarryBit _ _ =>
      if String.eqb lop ">>" && String.eqb op "+" then
        new_denom ← pure_res (py_lshift 1 lv);
        lit ← new_Literal new_denom;
        e ← BinaryOp_sint ll "/" lit true;
        mret (Some e)
      else mret None
  | _, _ => mret None
  end.

(** "Fold `/` with `>>`: ((x / N) >> M) --> x / (N << M)" *)
Definition fold_div_shift (op : string) (left_expr right_expr : Expression)
    : Eff Heap (option Expression) :=
  match left_expr, right_expr with
  | BinaryOp _ ll lop (Literal lv _ _) _, Literal rv _ _ =>
      if String.eqb lop "/" && String.eqb op ">>" then
        new_denom ← pure_res (py_lshift lv rv);
        if new_denom <? 2 ^ 32 then
          lit ← new_Literal new_denom;
          e ← BinaryOp_int ll "/" lit;
          mret (Some e)
        else mret None
      else mret None
  | _, _ => mret None
  end.

Definition literal_value (e : Expression) : option Z :=
  match e with Literal v _ _ => Some v | _ => None end.

(** "Detect `%`: (x - ((x / y) * y)) --> x % y" *)
Definition fold_mod (op : string) (left_expr right_expr : Expression)
    : Eff Heap (option Expression) :=
  match right_expr with
  | BinaryOp _ rl rop rr _ =>
      if String.eqb op "-" && String.eqb rop "*" then
        div_expr ← unwrap_ints rl;
        mod_base ← unwrap_ints rr;
        match div_expr with
        | BinaryOp _ dl dop dr _ =>
            dl' ← unwrap_ints dl;
            if expr_eqb dl' left_expr then
              divisor ← unwrap_ints dr;
              matches ←
                (if String.eqb dop "/" && expr_eqb divisor mod_base
                 then mret true
                 else if String.eqb dop ">>" then
                   match literal_value divisor, literal_value mod_base with
                   | Some dv, Some mv =>
                       p ← pure_res (py_lshift 1 dv); mret (p =? mv)
                   | _, _ => mret false
                   end
                 else mret false);
              if matches : bool then
                e ← BinaryOp_int left_expr "%" rr; mret (Some e)
              else mret None
            else mret None
        | _ => mret None
        end
      else mret None
  | _ => mret None
  end.

(** "Detect dividing by a negative: ((x >> 31) - (x / N)) --> x / -N":
    the new values of [left_expr] and [right_expr]. *)
Definition swap_negative (op : string) (left_expr right_expr : Expression)
    : Eff Heap (Expression * Expression) :=
  match left_expr with
  | BinaryOp _ ll lop lr _ =>
      if String.eqb op "-" && String.eqb lop ">>" then
        lr' ← unwrap_ints lr;
        is31 ← equals_new_Literal lr' 31;
        match right_expr with
        | BinaryOp _ rl rop (Literal rv _ _) rt =>
            if is31 && String.eqb rop "/" then
              lit ← new_Literal (- rv);
              oid ← state_fn fresh_oid;
              mret (BinaryOp oid rl rop lit rt, left_expr)
            else mret (left_expr, right_expr)
        | _ => mret (left_expr, right_expr)
        end
      else mret (left_expr, right_expr)
  | _ => mret (left_expr, right_expr)
  end.

(** "Remove outer error term: ((x / N) + ((x / N) >> 31)) --> x / N" *)
Definition fold_error_term_add (op : string)
    (left_expr right_expr : Expression) : Eff Heap (option Expression) :=
  match left_expr, right_expr with
  | BinaryOp _ _ lop (Literal lv _ _) _, BinaryOp _ rl rop rr _ =>
      if String.eqb op "+" && String.eqb lop "/" && (lv <=? 2 ^ 29) then
        rl' ← unwrap_ints rl;
        if expr_eqb rl' left_expr && String.eqb rop ">>" then
          rr' ← unwrap_ints rr;
          is31 ← equals_new_Literal rr' 31;
          if is31 : bool then mret (Some left_expr) else mret None
        else mret None
      else mret None
  | _, _ => mret None
  end.

(** "Remove outer error term: ((x / N) - (x >> 31)) --> x / N" *)
Definition fold_error_term_sub (op : string)
    (left_expr right_expr : Expression) : Eff Heap (option Expression) :=
  match left_expr, right_expr with
  | BinaryOp _ dl dop (Literal dv _ _ as dr) _, BinaryOp _ rl rop rr _ =>
      if String.eqb op "-" && String.eqb dop "/" && String.eqb rop ">>" then
        rr' ← unwrap_ints rr;
        is31 ← equals_new_Literal rr' 31;
        if is31 : bool then
          let div_expr := left_expr in
          shift_var_expr ← unwrap_ints rl;
          div_var_expr ← unwrap_ints dl;
          if expr_eqb div_var_expr shift_var_expr then
            if 2 ^ 30 <=? dv then
              e ← BinaryOp_int dl dop dr; mret (Some e)
            else mret (Some div_expr)
          else
            match shift_var_expr with
            | BinaryOp _ sl sop sr _ =>
                dl' ← unwrap_ints dl;
                sl' ← unwrap_ints sl;
                if expr_eqb dl' sl' && String.eqb sop "<<" && is_Literal sr
                then mret (Some div_expr) else mret None
            | _ => mret None
            end
        else mret None
      else mret None
  | _, _ => mret None
  end.

(** The local variables that the last blocks of [fold_divmod] update:
    [expr.op], [left_expr], [right_expr], [divisor_shift]. *)
Record FoldState : Type := {
  fs_op : string;
  fs_left : Expression;
  fs_right : Expression;
  fs_shift : Z;
}.


(** "Shift on the result of the mul: MULT_HI(x, N) >> M" *)
Definition shift_on_result (fs : FoldState) : Eff Heap FoldState :=
  match fs_left fs, fs_right fs with
  | BinaryOp _ el eop er _, Literal rv _ _ =>
      if String.eqb (fs_op fs) ">>" then
        let divisor_shift := fs_shift fs + rv in
        left_expr ← unwrap_ints el;
        right_expr ← unwrap_ints er;
        let '(left_expr, right_expr) :=
          if is_Literal left_expr && negb (is_Literal right_expr)
          then (right_expr, left_expr) else (left_expr, right_expr) in
        match left_expr with
        | BinaryOp _ ml mop mr _ =>
            if String.eqb mop "MULT_HI" && String.eqb eop "+" then
              ml' ← unwrap_ints ml;
              if expr_eqb ml' right_expr then
                left_expr' ← unwrap_ints ml;
                right_expr' ← unwrap_ints mr;
                mret {| fs_op := mop; fs_left := left_expr';
                        fs_right := right_expr'; fs_shift := divisor_shift |}
              else
                mret {| fs_op := eop; fs_left := left_expr;
                        fs_right := right_expr; fs_shift := divisor_shift |}
            else
              mret {| fs_op := eop; fs_left := left_expr;
                      fs_right := right_expr; fs_shift := divisor_shift |}
        | _ =>
            mret {| fs_op := eop; fs_left := left_expr;
                    fs_right := right_expr; fs_shift := divisor_shift |}
        end
      else mret fs
  | _, _ => mret fs
  end.

(** "Shift on the LHS of the mul: MULT_HI(x >> M, N)" *)
Definition shift_on_lhs (fs : FoldState) : Eff Heap FoldState :=
  match fs_left fs with
  | BinaryOp _ ll lop (Literal lv _ _) _ =>
      if mult_high_op (fs_op fs) && String.eqb lop ">>" then
        left_expr ← unwrap_ints ll;
        mret {| fs_op := fs_op fs; fs_left := left_expr;
                fs_right := fs_right fs; fs_shift := fs_shift fs + lv |}
      else mret fs
  | _ => mret fs
  end.

(** The last block: the divisor is rebuilt with [round_div]. *)
Definition fold_mult_high (fs : FoldState) : Eff Heap (option Expression) :=
  match fs_right fs with
  | Literal rv _ _ =>
      if mult_high_op (fs_op fs) then
        x ← pure_res (py_lshift 1 (32 + fs_shift fs));
        denom ← pure_res (round_div x rv);
        match denom with
        | Some d =>
            lit ← new_Literal d;
            e ← BinaryOp_int (fs_left fs) "/" lit;
            mret (Some e)
        | None => mret None
        end
      else mret None
  | _ => mret None
  end.

(** [fold_divmod] *)
Definition fold_divmod (original_expr : Expression) : Eff Heap Expression :=
  match original_expr with
  | BinaryOp _ e_left op e_right _ =>
      h ← get_state;
      if is_floating h e_left e_right || negb (possible_match_op op)
      then mret original_expr
      else
        left_expr ← unwrap_ints e_left;
        right_expr ← unwrap_ints e_right;
        or_else (fold_carry op left_expr right_expr)
          (or_else (fold_div_shift op left_expr right_expr)
             (or_else (fold_mod op left_expr right_expr)
                ('(left_expr, right_expr) ←
                   swap_negative op left_expr right_expr;
                 or_else (fold_error_term_add op left_expr right_expr)
                   (or_else (fold_error_term_sub op left_expr right_expr)
                      (fs ← shift_on_result
                              {| fs_op := op; fs_left := left_expr;
                                 fs_right := right_expr; fs_shift := 0 |};
                       fs ← shift_on_lhs fs;
                       or_else (fold_mult_high fs) (mret original_expr))))))
  | _ => raise AttributeError
  end.

(** [handle_sra] for a shift amount other than 16 and 24 (the two amounts
    it looks at as sign extensions): its last statement.  [lhs] and [shift]
    are [args.reg(1)] and [args.imm(2)]. *)
Definition handle_sra_default (lhs shift : Expression)
    : Eff Heap Expression :=
  l ← as_sintish false lhs;
  r ← as_intish shift;
  t ← state_fn (heap_new_type T_s32);
  oid ← state_fn fresh_oid;
  fold_divmod (BinaryOp oid l ">>" r t).

(** Modelled from the spec: the reference compiler.  The instruction
    sequence for a signed 32-bit [x / d] is the one of GCC's [expmed.c],
    which the docstring of [fold_divmod] names: a multiplier [M] and a shift
    [s] chosen by [choose_multiplier], the high word of [x * M], [+ x] when
    [M] does not fit in 31 bits, [>> s] when [s] is not 0, and [- (x >> 31)]
    to round towards zero. *)
Fixpoint reduce_multiplier (fuel : nat) (mlow mhigh post_shift : Z)
    : Z * Z :=
  match fuel with
  | O => (mhigh, post_shift)
  | S fuel =>
      if (post_shift <=? 0) || (mhigh / 2 <=? mlow / 2)
      then (mhigh, post_shift)
      else reduce_multiplier fuel (mlow / 2) (mhigh / 2) (post_shift - 1)
  end.

Definition choose_multiplier (d : Z) : Z * Z :=
  let lgup := Z.log2_up d in
  reduce_multiplier (Z.to_nat lgup)
    (2 ^ (32 + lgup) / d) ((2 ^ (32 + lgup) + 2 ^ (lgup + 1)) / d) lgup.

Inductive DivInstr : Type :=
| mult_hi (M : Z)
| add_dividend
| sra (s : Z)
| sub_sign.

Definition division_sequence (d : Z) : list DivInstr :=
  let '(M, s) := choose_multiplier d in
  [mult_hi M]
  ++ (if 2 ^ 31 <=? M then [add_dividend] else [])
  ++ (if 0 <? s then [sra s] else [])
  ++ [sub_sign].

(** Modelled from the spec: the translation of one instruction of the
    sequence.  [x] is the dividend and [acc] the value computed so far; the
    expression of every instruction is built with the constructors of
    [BinaryOp] and handed to [fold_divmod], as [handle_sra] and [handle_add]
    do. *)
Definition translate_div_instr (x acc : Expression) (i : DivInstr)
    : Eff Heap Expression :=
  match i with
  | mult_hi M =>
      lit ← new_Literal M;
      e ← BinaryOp_sint x "MULT_HI" lit false;
      fold_divmod e
  | add_dividend =>
      e ← BinaryOp_intptr acc "+" x;
      fold_divmod e
  | sra s =>
      lit ← new_Literal s;
      handle_sra_default acc lit
  | sub_sign =>
      lit ← new_Literal 31;
      sign ← handle_sra_default x lit;
      e ← BinaryOp_intptr acc "-" sign;
      fold_divmod e
  end.

Fixpoint translate_div_sequence (x acc : Expression) (l : list DivInstr)
    : Eff Heap Expression :=
  match l with
  | [] => mret acc
  | i :: l =>
      acc ← translate_div_instr x acc i;
      translate_div_sequence x acc l
  end.

Definition translate_division (x : Expression) (d : Z)
    : Eff Heap Expression :=
  translate_div_sequence x x (division_sequence d).




(** [m] returns normally from every state, with a value that satisfies
    [P]. *)
Definition returns {S A} (m : Eff S A) (P : A → Prop) : Prop :=
  ∀ s, ∃ a s', m s = (Ok a, s') ∧ P a.


(** The shapes of the expressions of a division sequence. *)
Definition is_binop (l : Expression) (op : string) (r : Expression)
    (e : Expression) : Prop :=
  ∃ oid t, e = BinaryOp oid l op r t.
Definition is_literal (v : Z) (e : Expression) : Prop :=
  ∃ t, e = Literal v t false.





(** Whenever [m] returns normally, its value satisfies [P]. *)
Definition results {S A} (m : Eff S A) (P : A → Prop) : Prop :=
  ∀ s a s', m s = (Ok a, s') → P a.


(** ** Naive phis: [assign_naive_phis] *)

Definition set_replacement_expr (oid : nat) (e : Expression) (h : Heap)
    : Heap :=
  {| var_is_emitted := var_is_emitted h;
     var_name := var_name h; var_debug_exprs := var_debug_exprs h;
     eo_forced_emit := eo_forced_emit h; eo_is_used := eo_is_used h;
     phi_num_usages := phi_num_usages h;
     phi_replacement_expr := <[oid := e]> (phi_replacement_expr h);
     phi_name := phi_name h; used_naive_phis := used_naive_phis h;
     types := types h; next_oid := next_oid h |}.

Definition set_phi_name (oid : nat) (name : string) (h : Heap) : Heap :=
  {| var_is_emitted := var_is_emitted h;
     var_name := var_name h; var_debug_exprs := var_debug_exprs h;
     eo_forced_emit := eo_forced_emit h; eo_is_used := eo_is_used h;
     phi_num_usages := phi_num_usages h;
     phi_replacement_expr := phi_replacement_expr h;
     phi_name := <[oid := name]> (phi_name h);
     used_naive_phis := used_naive_phis h;
     types := types h; next_oid := next_oid h |}.

(** The flow graph: [graph_nodes] is [flow_graph.nodes] as a list of node
    identities, and [node_at] follows a reference to a [Node] object
    ([Node.parents], [Node.immediate_dominator], [NaivePhiExpr.node]). *)
Record FlowGraph : Type := {
  graph_nodes : list nat;
  node_at : nat → Node;
}.

(** Modelled from the spec: [FlowGraph.entry_node], the first node of the
    graph. *)
Definition entry_node (G : FlowGraph) : Res nat :=
  match graph_nodes G with
  | n :: _ => Ok n
  | [] => Raise IndexError
  end.

(** [d[k] = v] on a dict kept as an association list in insertion order. *)
Fixpoint dict_set {K V} (eqb : K → K → bool) (k : K) (v : V)
    (d : list (K * V)) : list (K * V) :=
  match d with
  | [] => [(k, v)]
  | (k', v') :: d =>
      if eqb k' k then (k', v) :: d else (k', v') :: dict_set eqb k v d
  end.

(** [d[k].append(v)] on a [defaultdict(list)]. *)
Fixpoint dict_append {K V} (eqb : K → K → bool) (k : K) (v : V)
    (d : list (K * list V)) : list (K * list V) :=
  match d with
  | [] => [(k, [v])]
  | (k', vs) :: d =>
      if eqb k' k then (k', vs ++ [v]) :: d
      else (k', vs) :: dict_append eqb k v d
  end.

(** [instr_nodes], the dict built at the head of [assign_naive_phis]. *)
Definition instr_nodes (G : FlowGraph) : list (Instruction * nat) :=
  foldl (fun d n =>
           foldl (fun d inst => dict_set instr_eqb inst n d) d
                 (instructions (node_at G n)))
        [] (graph_nodes G).

(** [PlannedVar]s are objects with a mutable [_parent]; the dict
    [persistent_state.planned_vars] maps a register and a source to one. *)
Record PlannedVars : Type := {
  persistent_planned_vars : list ((Register * InstructionSource) * nat);
  planned_var_parent : gmap nat nat;
  next_planned_var : nat;
}.

Definition set_planned_var_parent (m : gmap nat nat) (s : PlannedVars)
    : PlannedVars :=
  {| persistent_planned_vars := persistent_planned_vars s;
     planned_var_parent := m; next_planned_var := next_planned_var s |}.

(** The loop of [PlannedVar.get_representative]: the root and the vars seen
    on the way. *)
Fixpoint find_root (fuel : nat) (parent : gmap nat nat) (root : nat)
    (seen : list nat) : Res (nat * list nat) :=
  match fuel with
  | O => OutOfFuel
  | S fuel =>
      match parent !! root with
      | Some p => find_root fuel parent p (seen ++ [root])
      | None => Ok (root, seen)
      end
  end.

(** [PlannedVar.get_representative] *)
Definition get_representative (fuel : nat) (var : nat)
    : Eff PlannedVars nat :=
  s ← get_state;
  '(root, seen) ← pure_res (find_root fuel (planned_var_parent s) var []);
  _ ← put_state
        (set_planned_var_parent
           (foldl (fun m v => <[v := root]> m) (planned_var_parent s) seen)
           s);
  mret root.

(** [PlannedVar.join] *)
Definition PlannedVar_join (fuel : nat) (self other : nat)
    : Eff PlannedVars unit :=
  a ← get_representative fuel self;
  b ← get_representative fuel other;
  if negb (Nat.eqb a b) then
    modify_state (fun s =>
      set_planned_var_parent (<[a := b]> (planned_var_parent s)) s)
  else mret tt.

(** [StackInfo.get_persistent_planned_var] *)
Definition get_persistent_planned_var (reg : Register)
    (source : InstructionSource) : Eff PlannedVars nat :=
  s ← get_state;
  match assoc_get (planned_key_eqb reg source) (persistent_planned_vars s) with
  | Some ret => mret ret
  | None =>
      let ret := next_planned_var s in
      _ ← put_state
            {| persistent_planned_vars :=
                 persistent_planned_vars s ++ [((reg, source), ret)];
               planned_var_parent := planned_var_parent s;
               next_planned_var := S ret |};
      mret ret
  end.

(** What [assign_naive_phis] works on: the heap, the [StackInfo], the
    [BlockInfo] attached to every translated node ([node.block.block_info])
    and the planned vars of the persistent state. *)
Record PhiState : Type := {
  ps_heap : Heap;
  ps_stack : StackInfo;
  ps_blocks : gmap nat BlockInfo;
  ps_planned : PlannedVars;
}.

Definition phis_heap {A} (m : Eff Heap A) : Eff PhiState A :=
  zoom ps_heap
    (fun h s => {| ps_heap := h; ps_stack := ps_stack s;
                   ps_blocks := ps_blocks s; ps_planned := ps_planned s |}) m.
Definition phis_stack {A} (m : Eff StackInfo A) : Eff PhiState A :=
  zoom ps_stack
    (fun t s => {| ps_heap := ps_heap s; ps_stack := t;
                   ps_blocks := ps_blocks s; ps_planned := ps_planned s |}) m.
Definition phis_blocks {A} (m : Eff (gmap nat BlockInfo) A)
    : Eff PhiState A :=
  zoom ps_blocks
    (fun b s => {| ps_heap := ps_heap s; ps_stack := ps_stack s;
                   ps_blocks := b; ps_planned := ps_planned s |}) m.
Definition phis_planned {A} (m : Eff PlannedVars A) : Eff PhiState A :=
  zoom ps_planned
    (fun p s => {| ps_heap := ps_heap s; ps_stack := ps_stack s;
                   ps_blocks := ps_blocks s; ps_planned := p |}) m.

Definition set_final_register_states (r : RegInfo) (b : BlockInfo)
    : BlockInfo :=
  {| bi_to_write := bi_to_write b; return_value := return_value b;
     bi_switch_control := bi_switch_control b;
     bi_branch_condition := bi_branch_condition b;
     final_register_states := r;
     bi_has_function_call := bi_has_function_call b |}.

Definition set_bi_to_write (l : list Statement) (b : BlockInfo) : BlockInfo :=
  {| bi_to_write := l; return_value := return_value b;
     bi_switch_control := bi_switch_control b;
     bi_branch_condition := bi_branch_condition b;
     final_register_states := final_register_states b;
     bi_has_function_call := bi_has_function_call b |}.

(** [get_block_info(node)] *)
Definition get_block_info (n : nat) : Eff PhiState BlockInfo :=
  s ← get_state;
  match ps_blocks s !! n with
  | Some b => mret b
  | None => raise AssertionError
  end.

(** [get_block_info(node).final_register_states[reg]] *)
Definition final_register_state (fuel : nat) (n : nat) (reg : Register)
    : Eff PhiState Expression :=
  b ← get_block_info n;
  zoom (fun s => (ps_heap s, ps_stack s, final_register_states b))
       (fun hsr s =>
          {| ps_heap := hsr.1.1; ps_stack := hsr.1.2;
             ps_blocks :=
               <[n := set_final_register_states hsr.2 b]> (ps_blocks s);
             ps_planned := ps_planned s |})
       (RegInfo_getitem fuel reg).

(** [block_info.to_write.append(stmt)] *)
Definition block_write (n : nat) (stmt : Statement) : Eff PhiState unit :=
  b ← get_block_info n;
  phis_blocks (modify_state
    (insert n (set_bi_to_write (bi_to_write b ++ [stmt]) b))).

(** The node of a phi source. *)
Definition source_node (G : FlowGraph) (source : InstructionSource)
    : Res nat :=
  match source with
  | None => entry_node G
  | Some instr =>
      match assoc_get (instr_eqb instr) (instr_nodes G) with
      | Some n => Ok n
      | None => Raise KeyError
      end
  end.

(** The first loop over [phi.sources]: "Group parent nodes by the value of
    their phi register". *)
Fixpoint group_sources (fuel : nat) (G : FlowGraph) (reg : Register)
    (type : Ty) (sources : list InstructionSource)
    (equivalent_nodes : list (Expression * list nat))
    : Eff PhiState (list (Expression * list nat)) :=
  match sources with
  | [] => mret equivalent_nodes
  | source :: sources =>
      n ← pure_res (source_node G source);
      expr ← final_register_state fuel n reg;
      _ ← phis_heap (state_fn (heap_unify (expr_type expr) type));
      h ← phis_heap get_state;
      group_sources fuel G reg type sources
        (dict_append expr_eqb (transparent_unwrap h expr) n equivalent_nodes)
  end.

(** The loop of the [else] branch, over the nodes of every group. *)
Fixpoint assign_sources (fuel : nat) (phi : Expression) (reg : Register)
    (type : Ty) (ns : list nat) : Eff PhiState unit :=
  match ns with
  | [] => mret tt
  | n :: ns =>
      expr ← final_register_state fuel n reg;
      _ ← phis_heap (run_res (use fuel expr));
      typed_expr ← phis_heap (as_type expr type true);
      _ ← block_write n (SetNaivePhiStmt phi typed_expr);
      assign_sources fuel phi reg type ns
  end.

(** [StackInfo.add_planned_inherited_phi] *)
Definition add_planned_inherited_phi (n : nat) (reg : Register)
    (s : StackInfo) : StackInfo :=
  if bool_decide ((reg, n) ∈ planned_inherited_phis s) then s
  else set_planned_inherited_phis (planned_inherited_phis s ++ [(reg, n)]) s.

(** [all(early_unwrap(e) == first_uw for e in exprs[1:])] *)
Definition same_value (h : Heap) (first : Expression)
    (others : list Expression) : bool :=
  forallb (fun e => expr_eqb (early_unwrap h e) (early_unwrap h first)) others.

(** The body of the [while] loop of [assign_naive_phis]. *)
Definition assign_naive_phi (fuel : nat) (G : FlowGraph) (phi : Expression)
    : Eff PhiState unit :=
  match phi with
  | NaivePhiExpr oid reg n type sources uses_dominator =>
      h ← phis_heap get_state;
      _ ← assert (0 <? num_usages h oid)%nat;
      _ ← assert (2 <=? length sources)%nat;
      _ ← assert (2 <=? length (parents (node_at G n)))%nat;
      equivalent_nodes ← group_sources fuel G reg type sources [];
      match map fst equivalent_nodes with
      | [] => raise IndexError
      | first :: others =>
          h ← phis_heap get_state;
          if same_value h first others then
            let phi_expr :=
              match others with
              | [] => first
              | _ => early_unwrap h first
              end in
            r ← phis_heap (as_type phi_expr type true);
            _ ← phis_heap (modify_state (set_replacement_expr oid r));
            h ← phis_heap get_state;
            _ ← phis_heap
                  (run_res (use_times fuel (num_usages h oid) phi_expr));
            if uses_dominator && bool_decide (others = []) then
              phis_stack (modify_state (add_planned_inherited_phi n reg))
            else mret tt
          else
            assign_sources fuel phi reg type
              (concat (map snd equivalent_nodes))
      end
  | _ => raise AttributeError
  end.

(** The [while] loop: new phis may be appended to [used_naive_phis] while it
    runs.  [steps] bounds the number of iterations. *)
Fixpoint assign_loop (steps fuel : nat) (G : FlowGraph) (i : nat)
    : Eff PhiState unit :=
  match steps with
  | O => pure_res OutOfFuel
  | S steps =>
      h ← phis_heap get_state;
      match used_naive_phis h !! i with
      | None => mret tt
      | Some phi =>
          _ ← assign_naive_phi fuel G phi;
          assign_loop steps fuel G (S i)
      end
  end.

(** [stack_info.get_persistent_planned_var(phi.reg, source).join(var)] for
    every further source. *)
Fixpoint join_sources (fuel : nat) (reg : Register)
    (sources : list InstructionSource) (var : nat) : Eff PlannedVars unit :=
  match sources with
  | [] => mret tt
  | source :: sources =>
      v ← get_persistent_planned_var reg source;
      _ ← PlannedVar_join fuel v var;
      join_sources fuel reg sources var
  end.

(** The body of the last loop: a phi without replacement gets a name. *)
Definition name_naive_phi (fuel : nat) (G : FlowGraph) (phi : Expression)
    : Eff PhiState unit :=
  match phi with
  | NaivePhiExpr oid reg n type sources uses_dominator =>
      h ← phis_heap get_state;
      match replacement_expr h oid with
      | Some _ => mret tt
      | None =>
          s ← phis_stack get_state;
          let output_reg_name := reg_formatter s reg in
          let prefix := "phi_" +:+ output_reg_name in
          let prefix :=
            if deterministic_vars s
            then prefix +:+ "_" +:+ pretty (block_index (node_at G n))
            else prefix in
          name ← phis_stack (state_fn (temp_var prefix));
          _ ← phis_heap (modify_state (set_phi_name oid name));
          _ ← phis_stack (modify_state (fun s =>
                set_naive_phi_vars (naive_phi_vars s ++ [phi]) s));
          match sources with
          | [] => raise IndexError
          | source :: sources =>
              var ← phis_planned (get_persistent_planned_var reg source);
              phis_planned (join_sources fuel reg sources var)
          end
      end
  | _ => raise AttributeError
  end.

Fixpoint name_naive_phis (fuel : nat) (G : FlowGraph)
    (phis : list Expression) : Eff PhiState unit :=
  match phis with
  | [] => mret tt
  | phi :: phis =>
      _ ← name_naive_phi fuel G phi;
      name_naive_phis fuel G phis
  end.

(** [assign_naive_phis] *)
Definition assign_naive_phis (steps fuel : nat) (G : FlowGraph)
    : Eff PhiState unit :=
  _ ← assign_loop steps fuel G 0;
  h ← phis_heap get_state;
  name_naive_phis fuel G (used_naive_phis h).



(** The replacement expressions of the heap are [R]. *)
Definition same_replacements (R : gmap nat Expression) (h : Heap) : Prop :=
  phi_replacement_expr h = R.

(** The statements of the blocks are [W], the replacement expressions
    [R]. *)
Definition phi_frame (W : nat → option (list Statement))
    (R : gmap nat Expression) (st : PhiState) : Prop :=
  (∀ k, bi_to_write <$> ps_blocks st !! k = W k)
  ∧ same_replacements R (ps_heap st).




(** ** Phi nodes at the head of a dominated node *)

(** Work lists: the head of the list is the end of the Python list, where
    [stack.pop()] takes from and [stack.extend] adds to. *)
Definition stack_extend (stack : list nat) (items : list nat) : list nat :=
  rev items ++ stack.

(** What the instructions of a block, from the last to the first, make of a
    register: the body of the [for] loop of [reg_sources]. *)
Inductive LastWrite : Type :=
| WrittenBy (instr : Instruction)
| IsClobbered
| NotWritten.

Fixpoint last_write (reg : Register) (reversed : list Instruction)
    : LastWrite :=
  match reversed with
  | [] => NotWritten
  | instr :: reversed =>
      if reg_in reg (outputs instr) then WrittenBy instr
      else if reg_in reg (clobbers instr) then IsClobbered
      else last_write reg reversed
  end.

(** The [while] loop of [reg_sources]. *)
Fixpoint reg_sources_loop (fuel : nat) (G : FlowGraph) (dominator : nat)
    (reg : Register) (stack : list nat) (seen : gset nat)
    (sources : list InstructionSource) (uses_dominator : bool)
    : Res (list InstructionSource * bool) :=
  match fuel with
  | O => OutOfFuel
  | S fuel =>
      match stack with
      | [] => Ok (sources, uses_dominator)
      | n :: stack =>
          let uses_dominator :=
            if Nat.eqb n dominator then true else uses_dominator in
          if bool_decide (n ∈ seen) then
            reg_sources_loop fuel G dominator reg stack seen sources
              uses_dominator
          else
            let seen := {[n]} ∪ seen in
            match last_write reg (rev (instructions (node_at G n))) with
            | WrittenBy instr =>
                reg_sources_loop fuel G dominator reg stack seen
                  (sources ++ [Some instr]) uses_dominator
            | IsClobbered => Ok ([], false)
            | NotWritten =>
                reg_sources_loop fuel G dominator reg
                  (stack_extend stack (parents (node_at G n))) seen sources
                  uses_dominator
            end
      end
  end.

(** [reg_sources] *)
Definition reg_sources (fuel : nat) (G : FlowGraph) (n : nat)
    (reg : Register) : Res (list InstructionSource * bool) :=
  match immediate_dominator (node_at G n) with
  | None => Raise AssertionError
  | Some dominator =>
      reg_sources_loop fuel G dominator reg
        (stack_extend [] (parents (node_at G n))) {[dominator]} [] false
  end.

(** [s.update(items)] on a set kept as a list without repetition. *)
Definition set_update {A} `{EqDecision A} (s items : list A) : list A :=
  foldl (fun s x => if bool_decide (x ∈ s) then s else s ++ [x]) s items.

(** Modelled from the spec: [locs_clobbered_until_dominator], which the
    source imports from the flow graph module.  It is the traversal of
    [vars_clobbered_until_dominator] below, collecting the outputs and the
    clobbers of every instruction between the node and its immediate
    dominator. *)
Fixpoint locs_clobbered_loop (fuel : nat) (G : FlowGraph) (stack : list nat)
    (seen : gset nat) (clobbered : list Location) : Res (list Location) :=
  match fuel with
  | O => OutOfFuel
  | S fuel =>
      match stack with
      | [] => Ok clobbered
      | n :: stack =>
          if bool_decide (n ∈ seen) then
            locs_clobbered_loop fuel G stack seen clobbered
          else
            locs_clobbered_loop fuel G
              (stack_extend stack (parents (node_at G n))) ({[n]} ∪ seen)
              (foldl (fun c instr =>
                        set_update (set_update c (outputs instr))
                          (clobbers instr))
                     clobbered (instructions (node_at G n)))
      end
  end.

Definition locs_clobbered_until_dominator (fuel : nat) (G : FlowGraph)
    (n : nat) : Res (list Location) :=
  match immediate_dominator (node_at G n) with
  | None => Raise AssertionError
  | Some dominator =>
      locs_clobbered_loop fuel G (stack_extend [] (parents (node_at G n)))
        {[dominator]} []
  end.

(** The registers among the outputs of an instruction that have a planned
    var: the two inner loops of [vars_clobbered_until_dominator]. *)
Definition planned_output_vars (s : StackInfo) (instr : Instruction)
    : list Var :=
  omap (fun loc =>
          match loc with
          | LReg r => get_planned_var r (Some instr) s
          | LStack _ => None
          end) (outputs instr).

Definition var_set_add (vars : list Var) (v : Var) : list Var :=
  if existsb (var_eqb v) vars then vars else vars ++ [v].

(** The [while] loop of [vars_clobbered_until_dominator]. *)
Fixpoint vars_clobbered_loop (fuel : nat) (G : FlowGraph) (s : StackInfo)
    (stack : list nat) (seen : gset nat) (clobbered : list Var)
    : Res (list Var) :=
  match fuel with
  | O => OutOfFuel
  | S fuel =>
      match stack with
      | [] => Ok clobbered
      | n :: stack =>
          if bool_decide (n ∈ seen) then
            vars_clobbered_loop fuel G s stack seen clobbered
          else
            vars_clobbered_loop fuel G s
              (stack_extend stack (parents (node_at G n))) ({[n]} ∪ seen)
              (foldl (fun c instr =>
                        foldl var_set_add c (planned_output_vars s instr))
                     clobbered (instructions (node_at G n)))
      end
  end.

(** [vars_clobbered_until_dominator] *)
Definition vars_clobbered_until_dominator (fuel : nat) (G : FlowGraph)
    (s : StackInfo) (n : nat) : Res (list Var) :=
  match immediate_dominator (node_at G n) with
  | None => Raise AssertionError
  | Some dominator =>
      vars_clobbered_loop fuel G s (stack_extend [] (parents (node_at G n)))
        {[dominator]} []
  end.

(** [StackInfo.is_planned_inherited_phi] *)
Definition is_planned_inherited_phi (n : nat) (reg : Register)
    (s : StackInfo) : bool :=
  bool_decide ((reg, n) ∈ planned_inherited_phis s).

(** [RegMeta(inherited=True, force=..., initial=...)] *)
Definition RegMeta_inherited (force initial : bool) : RegMeta :=
  {| inherited := true; initial := initial; is_read := false;
     function_return := false; uninteresting := false; meta_force := force;
     meta_in_pattern := false |}.

(** The first loop of [create_dominated_node_state]: the registers of the
    parent are inherited. *)
Fixpoint inherit_registers (items : list (string * RegData))
    : Eff RegInfo unit :=
  match items with
  | [] => mret tt
  | (reg, data) :: items =>
      _ ← global_set_with_meta reg (value data)
            (RegMeta_inherited (meta_force (meta data))
               (initial (meta data)));
      inherit_registers items
  end.

(** The sources of a phi: those of [reg_sources], and those of the value
    that the dominator holds when it is one of them.  [None] stands for the
    [static_assert_unreachable] of the source. *)
Definition phi_sources (parent_regs : RegInfo) (reg : Register)
    (sources : list InstructionSource) (uses_dominator : bool)
    : option (list InstructionSource) :=
  if uses_dominator then
    match get_raw reg parent_regs with
    | None => Some []
    | Some (EvalOnceExpr _ _ _ _ source _ _ _) => Some (sources ++ [source])
    | Some (PlannedPhiExpr _ _ _ dom_sources)
    | Some (NaivePhiExpr _ _ _ _ dom_sources _) =>
        Some (sources ++ dom_sources)
    | Some _ => None
    end
  else Some sources.

(** The phi for [reg] at the head of [child]: a [PlannedPhiExpr] when every
    source has the same planned var, a [NaivePhiExpr] otherwise. *)
Definition new_phi (s : StackInfo) (child : nat) (reg : Register)
    (source : InstructionSource) (sources : list InstructionSource)
    (uses_dominator : bool) : Eff Heap Expression :=
  match get_planned_var reg source s with
  | Some var =>
      if forallb (fun src =>
                    match get_planned_var reg src s with
                    | Some v => var_eqb v var
                    | None => false
                    end) sources
      then
        oid ← state_fn fresh_oid;
        mret (PlannedPhiExpr oid var (var_type var) (source :: sources))
      else
        t ← state_fn (heap_new_type T_any_reg);
        oid ← state_fn fresh_oid;
        mret (NaivePhiExpr oid reg child t (source :: sources) uses_dominator)
  | None =>
      t ← state_fn (heap_new_type T_any_reg);
      oid ← state_fn fresh_oid;
      mret (NaivePhiExpr oid reg child t (source :: sources) uses_dominator)
  end.

(** The body of the loop over [phi_regs]. *)
Definition dominated_phi (fuel : nat) (G : FlowGraph) (parent_regs : RegInfo)
    (child : nat) (reg : Register) : Eff (Heap * StackInfo * RegInfo) unit :=
  st ← get_state;
  let s := st.1.2 in
  let new_regs := st.2 in
  let inherited_meta :=
    if is_planned_inherited_phi child reg s then get_meta reg new_regs
    else None in
  match inherited_meta with
  | Some meta => regs_self (update_meta reg (meta_clear_initial meta))
  | None =>
      '(sources, uses_dominator) ← pure_res (reg_sources fuel G child reg);
      match phi_sources parent_regs reg sources uses_dominator with
      | None => raise AssertionError
      | Some (source :: sources) =>
          expr ← regs_heap
                   (new_phi s child reg source sources uses_dominator);
          regs_self (global_set_with_meta reg expr
                       (RegMeta_inherited false false))
      | Some [] =>
          if RegInfo_contains reg new_regs then regs_self (RegInfo_delitem reg)
          else mret tt
      end
  end.

Fixpoint dominated_phis (fuel : nat) (G : FlowGraph) (parent_regs : RegInfo)
    (child : nat) (phi_regs : list Location)
    : Eff (Heap * StackInfo * RegInfo) unit :=
  match phi_regs with
  | [] => mret tt
  | LReg reg :: phi_regs =>
      _ ← dominated_phi fuel G parent_regs child reg;
      dominated_phis fuel G parent_regs child phi_regs
  | LStack _ :: phi_regs =>
      dominated_phis fuel G parent_regs child phi_regs
  end.

(** [create_dominated_node_state] *)
Definition create_dominated_node_state (fuel : nat) (G : FlowGraph)
    (parent_state : NodeState) (child : nat)
    : Eff (Heap * StackInfo) NodeState :=
  fun hs =>
    let registers :=
      (_ ← regs_self
             (inherit_registers
                (map_to_list (contents (regs parent_state))));
       phi_regs ← pure_res (locs_clobbered_until_dominator fuel G child);
       dominated_phis fuel G (regs parent_state) child phi_regs)
      : Eff (Heap * StackInfo * RegInfo) unit in
    match registers (hs, RegInfo_empty) with
    | (Ok _, (hs, new_regs)) =>
        let child_state :=
          {| node := node_at G child; regs := new_regs;
             local_var_writes := []; subroutine_args := [];
             in_pattern := false; to_write := []; branch_condition := None;
             switch_control := None; has_function_call := false |} in
        let prevent :=
          (s ← node_stack get_state;
           clobbered_vars ←
             pure_res (vars_clobbered_until_dominator fuel G s child);
           prevent_later_var_uses fuel clobbered_vars)
          : Eff (Heap * StackInfo * NodeState) unit in
        match prevent (hs, child_state) with
        | (Ok _, (hs, child_state)) => (Ok child_state, hs)
        | (Raise e, (hs, _)) => (Raise e, hs)
        | (OutOfFuel, (hs, _)) => (OutOfFuel, hs)
        end
    | (Raise e, (hs, _)) => (Raise e, hs)
    | (OutOfFuel, (hs, _)) => (OutOfFuel, hs)
    end.

(** ** The translation of all the nodes *)

Section Translation.

Variable eval_fn :
  Instruction → option (Eff (Heap * StackInfo * NodeState) unit).
Variable wrap_instr_failure : Instruction → Exn → Exn.

(** A method of a [NodeState] object, run on the object [state]; the result
    comes with the object as the method leaves it. *)
Definition with_node_state {A} (state : NodeState)
    (m : Eff (Heap * StackInfo * NodeState) A)
    : Eff (Heap * StackInfo) (A * NodeState) :=
  fun hs =>
    let '(r, hsn) := m (hs, state) in
    (match r with
     | Ok a => Ok (a, hsn.2)
     | Raise e => Raise e
     | OutOfFuel => OutOfFuel
     end, hsn.1).

(** Modelled from the spec: [Block.add_block_info], which attaches the
    result of the translation to the block of the node. *)
Definition add_block_info (n : nat) (block_info : BlockInfo)
    (blocks : gmap nat BlockInfo) : gmap nat BlockInfo :=
  <[n := block_info]> blocks.

(** The loop over [reversed(state.node.immediately_dominates)]; the new
    states are appended to the translation stack, whose end is the head of
    the list. *)
Fixpoint push_dominated (fuel : nat) (G : FlowGraph) (state : NodeState)
    (reversed_children : list nat) (translate_stack : list NodeState)
    : Eff (Heap * StackInfo) (list NodeState) :=
  match reversed_children with
  | [] => mret translate_stack
  | child :: reversed_children =>
      match node_kind (node_at G child) with
      | TerminalNode =>
          push_dominated fuel G state reversed_children translate_stack
      | _ =>
          child_state ← create_dominated_node_state fuel G state child;
          push_dominated fuel G state reversed_children
            (child_state :: translate_stack)
      end
  end.

(** [translate_all_blocks]; the state is the heap, the [StackInfo], the
    block infos and [return_blocks]. *)
Fixpoint translate_all_blocks (steps fuel : nat) (stop_on_error : bool)
    (G : FlowGraph) (translate_stack : list NodeState)
    : Eff (Heap * StackInfo * (gmap nat BlockInfo * list BlockInfo)) unit :=
  match steps with
  | O => pure_res OutOfFuel
  | S steps =>
      match translate_stack with
      | [] => mret tt
      | state :: translate_stack =>
          '(block_info, state) ←
            zoom (fun st => st.1) (fun hs st => (hs, st.2))
              (with_node_state state
                 (translate_block eval_fn wrap_instr_failure fuel
                    stop_on_error));
          let n := node_id (node state) in
          _ ← zoom (fun st => st.2) (fun b st => (st.1, b))
                (modify_state (fun b =>
                   (add_block_info n block_info b.1,
                    match node_kind (node state) with
                    | ReturnNode => b.2 ++ [block_info]
                    | _ => b.2
                    end)));
          translate_stack ←
            zoom (fun st => st.1) (fun hs st => (hs, st.2))
              (push_dominated fuel G state
                 (rev (immediately_dominates (node state))) translate_stack);
          translate_all_blocks steps fuel stop_on_error G translate_stack
      end
  end.

End Translation.

(** ** Well-formed phis *)

(** There is a path from [D] to [n] whose inner nodes are neither [D] nor
    [X].  When [D] is the immediate dominator of [n], this holds for every
    [X] other than [D]: no other node lies on all the paths from [D] to
    [n]. *)
Inductive walks_back (G : FlowGraph) (D X : nat) : nat → Prop :=
| walks_back_dominator n :
    D ∈ parents (node_at G n) → walks_back G D X n
| walks_back_step n p :
    p ∈ parents (node_at G n) → p ≠ D → p ≠ X →
    walks_back G D X p → walks_back G D X n.

(** [n] lies on a path from [D] to [child], strictly between them. *)
Inductive between (G : FlowGraph) (D child : nat) : nat → Prop :=
| between_parent p :
    p ∈ parents (node_at G child) → p ≠ D → between G D child p
| between_step n p :
    between G D child n → p ∈ parents (node_at G n) → p ≠ D →
    between G D child p.

(** The second and the third assertion of [assign_naive_phis], which do not
    depend on the heap; on a [PlannedPhiExpr], the second. *)
Definition phi_wf (G : FlowGraph) (e : Expression) : bool :=
  match e with
  | NaivePhiExpr _ _ n _ sources _ =>
      (2 <=? length sources)%nat
      && (2 <=? length (parents (node_at G n)))%nat
  | PlannedPhiExpr _ _ _ sources => (2 <=? length sources)%nat
  | _ => true
  end.

(** The three assertions at the head of the loop of [assign_naive_phis]. *)
Definition naive_phi_checks (G : FlowGraph) (h : Heap) (phi : Expression)
    : bool :=
  match phi with
  | NaivePhiExpr oid _ n _ sources _ =>
      (0 <? num_usages h oid)%nat
      && (2 <=? length sources)%nat
      && (2 <=? length (parents (node_at G n)))%nat
  | _ => false
  end.

(** The [NaivePhiExpr]s nested in an expression. *)
Fixpoint naive_phis (e : Expression) : list Expression :=
  match e with
  | CommentExpr e _ _ _ | UnaryOp _ _ e _ | ExprCondition _ e _ _
  | Cast e _ _ _ | StructAccess e _ _ _ _ _ | AddressOf e _ | Lwl e _ _
  | Load3Bytes e _ | UnalignedLoad e _
  | EvalOnceExpr _ e _ _ _ _ _ _ => naive_phis e
  | BinaryOp _ l _ r _ | ArrayAccess l r _ => naive_phis l ++ naive_phis r
  | TernaryOp _ c l r _ => naive_phis c ++ naive_phis l ++ naive_phis r
  | FuncCall _ f args _ =>
      naive_phis f ++
        (fix go (l : list Expression) : list Expression :=
           match l with
           | [] => []
           | x :: l => naive_phis x ++ go l
           end) args
  | NaivePhiExpr _ _ _ _ _ _ => [e]
  | _ => []
  end.

(** The phis nested in [e] are well formed. *)
Definition phis_wf (G : FlowGraph) (e : Expression) : Prop :=
  ∀ p, p ∈ naive_phis e → phi_wf G p = true.

(** Every value of the register map is a well-formed phi, or no phi, and
    holds well-formed phis only. *)
Definition regs_wf (G : FlowGraph) (r : RegInfo) : Prop :=
  ∀ reg data, contents r !! reg = Some data →
    phi_wf G (value data) = true ∧ phis_wf G (value data).

(** Every phi of the queue passes the three assertions, and the replacement
    expressions hold well-formed phis only. *)
Definition queue_ok (G : FlowGraph) (h : Heap) : Prop :=
  (∀ p, p ∈ used_naive_phis h → naive_phi_checks G h p = true)
  ∧ (∀ o r, phi_replacement_expr h !! o = Some r → phis_wf G r).

(** The invariant of the translation of a node: that of the queue, of the
    registers, and of the conditions that are used at the end of the
    node. *)
Definition node_wf (G : FlowGraph) (st : Heap * StackInfo * NodeState)
    : Prop :=
  queue_ok G st.1.1
  ∧ regs_wf G (regs st.2)
  ∧ (∀ c, branch_condition st.2 = Some c → phis_wf G c)
  ∧ (∀ sc, switch_control st.2 = Some sc → phis_wf G (control_expr sc)).

(** The invariant of the methods of a [RegInfo]. *)
Definition regs_state_wf (G : FlowGraph) (st : Heap * StackInfo * RegInfo)
    : Prop :=
  queue_ok G st.1.1 ∧ regs_wf G st.2.

(** The states of the translation stack. *)
Definition state_wf (G : FlowGraph) (state : NodeState) : Prop :=
  regs_wf G (regs state)
  ∧ (∀ c, branch_condition state = Some c → phis_wf G c)
  ∧ (∀ sc, switch_control state = Some sc → phis_wf G (control_expr sc)).

(** The final register states of the translated nodes. *)
Definition blocks_wf (G : FlowGraph) (blocks : gmap nat BlockInfo) : Prop :=
  ∀ n b, blocks !! n = Some b → regs_wf G (final_register_states b).

(** The invariant of [translate_all_blocks]. *)
Definition translation_wf (G : FlowGraph)
    (st : Heap * StackInfo * (gmap nat BlockInfo * list BlockInfo)) : Prop :=
  queue_ok G st.1.1 ∧ blocks_wf G st.2.1.

(** The invariant of the loop of [assign_naive_phis]. *)
Definition phis_inv (G : FlowGraph) (st : PhiState) : Prop :=
  queue_ok G (ps_heap st) ∧ blocks_wf G (ps_blocks st).

(** The immediate dominators of the graph: no node other than the
    dominator lies on all the paths from the dominator to the node. *)
Definition dominators_ok (G : FlowGraph) : Prop :=
  ∀ child D X, immediate_dominator (node_at G child) = Some D → X ≠ D →
    walks_back G D X child.

(** The states at the head of the iterations of the [while] loop of
    [assign_naive_phis], from the state [st0] at its start. *)
Inductive assign_loop_reaches (fuel : nat) (G : FlowGraph) (st0 : PhiState)
    : nat → PhiState → Prop :=
| reaches_start : assign_loop_reaches fuel G st0 0 st0
| reaches_next i st phi st' :
    assign_loop_reaches fuel G st0 i st →
    used_naive_phis (ps_heap st) !! i = Some phi →
    assign_naive_phi fuel G phi st = (Ok tt, st') →
    assign_loop_reaches fuel G st0 (S i) st'.

(** What a computation returns from a state with [P] satisfies [Q]. *)
Definition yields {S A} (P : S → Prop) (m : Eff S A) (Q : A → Prop) : Prop :=
  ∀ s a s', P s → m s = (Ok a, s') → Q a.

(** A computation keeps [P], and what it returns satisfies [Q]. *)
Definition hoare {S A} (P : S → Prop) (m : Eff S A) (Q : A → Prop) : Prop :=
  preserves P m ∧ yields P m Q.

(** The invariant of the loop of [reg_sources]: the nodes seen are closed
    under the parents that the loop follows, up to the stack; the dominator
    is still on the stack while it is not used; and the sources are the
    last writes of as many nodes. *)
Definition sources_inv (G : FlowGraph) (D child : nat) (reg : Register)
    (stack : list nat) (seen : gset nat) (sources : list InstructionSource)
    (uses_dominator : bool) : Prop :=
  let written n := last_write reg (rev (instructions (node_at G n))) in
  D ∈ seen
  ∧ (∀ p, p ∈ parents (node_at G child) → p ∈ seen ∨ p ∈ stack)
  ∧ (∀ n p, n ∈ seen → n ≠ D → written n = NotWritten →
       p ∈ parents (node_at G n) → p ∈ seen ∨ p ∈ stack)
  ∧ (∀ n, n ∈ seen → n ≠ D → written n ≠ IsClobbered)
  ∧ (uses_dominator = false →
       (D ∈ parents (node_at G child) → D ∈ stack)
       ∧ (∀ n, n ∈ seen → n ≠ D → written n = NotWritten →
            D ∈ parents (node_at G n) → D ∈ stack))
  ∧ (∃ found, NoDup found ∧ length found = length sources
              ∧ ∀ n, n ∈ found ↔
                  n ∈ seen ∧ n ≠ D ∧ ∃ i, written n = WrittenBy i).

(** The invariant of the loop of [locs_clobbered_until_dominator]: the
    nodes of the stack and the instructions that gave the locations are
    between the node and its dominator. *)
Definition locs_inv (G : FlowGraph) (D child : nat) (stack : list nat)
    (seen : gset nat) (clobbered : list Location) : Prop :=
  D ∈ seen
  ∧ (∀ n, n ∈ stack → n ≠ D → between G D child n)
  ∧ (∀ loc, loc ∈ clobbered →
       ∃ m instr, between G D child m ∧ instr ∈ instructions (node_at G m)
                  ∧ (loc ∈ outputs instr ∨ loc ∈ clobbers instr)).
(** ** [translate_to_ast]: from the translation of the nodes to the phis *)

Definition set_return_value (v : option Expression) (b : BlockInfo)
    : BlockInfo :=
  {| bi_to_write := bi_to_write b; return_value := v;
     bi_switch_control := bi_switch_control b;
     bi_branch_condition := bi_branch_condition b;
     final_register_states := final_register_states b;
     bi_has_function_call := bi_has_function_call b |}.

Definition meta_set_uninteresting (b : bool) (m : RegMeta) : RegMeta :=
  {| inherited := inherited m; initial := initial m; is_read := is_read m;
     function_return := function_return m; uninteresting := b;
     meta_force := meta_force m; meta_in_pattern := meta_in_pattern m |}.

Definition meta_set_function_return (b : bool) (m : RegMeta) : RegMeta :=
  {| inherited := inherited m; initial := initial m; is_read := is_read m;
     function_return := b; uninteresting := uninteresting m;
     meta_force := meta_force m; meta_in_pattern := meta_in_pattern m |}.

Definition meta_set_in_pattern (b : bool) (m : RegMeta) : RegMeta :=
  {| inherited := inherited m; initial := initial m; is_read := is_read m;
     function_return := function_return m; uninteresting := uninteresting m;
     meta_force := meta_force m; meta_in_pattern := b |}.

(** *** [propagate_register_meta] *)

(** [isinstance(n, TerminalNode)] *)
Definition is_TerminalNode (n : Node) : bool :=
  match node_kind n with TerminalNode => true | _ => false end.

(** [get_block_info(n).final_register_states.get_meta(reg)] *)
Definition block_meta (n : nat) (reg : Register)
    : Eff PhiState (option RegMeta) :=
  b ← get_block_info n;
  mret (get_meta reg (final_register_states b)).

(** An assignment to a field of the meta that [get_meta] gives for [reg] in
    the block of [n], when there is one.  The meta is the object that the
    register map holds; every write of a register makes a [RegMeta] of its
    own ([RegMeta(...)] or [replace(meta, ...)]), so that no two registers
    and no two blocks share one. *)
Definition set_block_meta (n : nat) (reg : Register) (f : RegMeta → RegMeta)
    : Eff PhiState unit :=
  b ← get_block_info n;
  let r := final_register_states b in
  match contents r !! reg with
  | Some data =>
      phis_blocks (modify_state
        (insert n
           (set_final_register_states
              (set_contents
                 (<[reg := {| value := value data; meta := f (meta data) |}]>
                    (contents r)) r) b)))
  | None => mret tt
  end.

(** "Set [is_read] based on [read_inherited]": the loop over the parents of
    a node, and the loop over the nodes. *)
Fixpoint mark_parents_read (reg : Register) (ps : list nat)
    : Eff PhiState unit :=
  match ps with
  | [] => mret tt
  | p :: ps =>
      par_meta ← block_meta p reg;
      _ ← (match par_meta with
           | Some _ => set_block_meta p reg meta_set_is_read
           | None => mret tt
           end);
      mark_parents_read reg ps
  end.

Fixpoint read_from_inherited (G : FlowGraph) (reg : Register)
    (ns : list nat) : Eff PhiState unit :=
  match ns with
  | [] => mret tt
  | n :: ns =>
      b ← get_block_info n;
      _ ← (if bool_decide (reg ∈ read_inherited (final_register_states b))
           then mark_parents_read reg (parents (node_at G n))
           else mret tt);
      read_from_inherited G reg ns
  end.

(** "Propagate [is_read] backwards": the loop over the parents of the node
    taken from [todo], and the [while] loop.  The head of [todo] is the end
    of the Python list. *)
Fixpoint read_backwards_parents (reg : Register) (meta : option RegMeta)
    (ps : list nat) (todo : list nat) : Eff PhiState (list nat) :=
  match ps with
  | [] => mret todo
  | p :: ps =>
      par_meta ← block_meta p reg;
      if match par_meta with
         | Some par_meta => negb (is_read par_meta)
         | None => false
         end
         && match meta with
            | Some meta => inherited meta && is_read meta
            | None => false
            end
      then
        _ ← set_block_meta p reg meta_set_is_read;
        read_backwards_parents reg meta ps (p :: todo)
      else read_backwards_parents reg meta ps todo
  end.

Fixpoint read_backwards (fuel : nat) (G : FlowGraph) (reg : Register)
    (todo : list nat) : Eff PhiState unit :=
  match fuel with
  | O => pure_res OutOfFuel
  | S fuel =>
      match todo with
      | [] => mret tt
      | n :: todo =>
          meta ← block_meta n reg;
          todo ← read_backwards_parents reg meta (parents (node_at G n)) todo;
          read_backwards fuel G reg todo
      end
  end.

(** "Start by assuming inherited values are all set". *)
Definition meta_assume_inherited (m : RegMeta) : RegMeta :=
  if inherited m then
    meta_set_in_pattern true
      (meta_set_function_return true (meta_set_uninteresting true m))
  else
    meta_set_uninteresting
      (uninteresting m
       || (is_read m || function_return m || meta_in_pattern m)) m.

Fixpoint assume_inherited (reg : Register) (ns : list nat)
    : Eff PhiState unit :=
  match ns with
  | [] => mret tt
  | n :: ns =>
      _ ← set_block_meta n reg meta_assume_inherited;
      assume_inherited reg ns
  end.

(** The bits of the parents: [all_uninteresting], [all_function_return] and
    [all_in_pattern]. *)
Fixpoint parents_bits (reg : Register) (ps : list nat)
    (all : bool * bool * bool) : Eff PhiState (bool * bool * bool) :=
  match ps with
  | [] => mret all
  | p :: ps =>
      par_meta ← block_meta p reg;
      parents_bits reg ps
        (match par_meta with
         | Some par_meta =>
             (all.1.1 && uninteresting par_meta,
              all.1.2 && function_return par_meta,
              all.2 && meta_in_pattern par_meta)
         | None => all
         end)
  end.

Section PropagateRegisterMeta.

(** [Node.children], a method of the flow graph module: the nodes that
    control goes on to from a node. *)
Variable children : nat → list nat.

(** The last [while] loop: the bits that are not set in every parent are
    unset, and the children are looked at again. *)
Fixpoint unset_forwards (fuel : nat) (G : FlowGraph) (reg : Register)
    (todo : list nat) : Eff PhiState unit :=
  match fuel with
  | O => pure_res OutOfFuel
  | S fuel =>
      match todo with
      | [] => mret tt
      | n :: todo =>
          if is_TerminalNode (node_at G n) then
            unset_forwards fuel G reg todo
          else
            meta ← block_meta n reg;
            match meta with
            | None => unset_forwards fuel G reg todo
            | Some meta =>
                if negb (inherited meta) then
                  unset_forwards fuel G reg todo
                else
                  '(all_uninteresting, all_function_return,
                    all_in_pattern) ←
                    parents_bits reg (parents (node_at G n))
                      (true, true, true);
                  todo ←
                    (if uninteresting meta && negb all_uninteresting
                        && negb (is_read meta) then
                       _ ← set_block_meta n reg
                             (meta_set_uninteresting false);
                       mret (stack_extend todo (children n))
                     else mret todo);
                  todo ←
                    (if function_return meta && negb all_function_return
                     then
                       _ ← set_block_meta n reg
                             (meta_set_function_return false);
                       mret (stack_extend todo (children n))
                     else mret todo);
                  todo ←
                    (if meta_in_pattern meta && negb all_in_pattern then
                       _ ← set_block_meta n reg
                             (meta_set_in_pattern false);
                       mret (stack_extend todo (children n))
                     else mret todo);
                  unset_forwards fuel G reg todo
            end
      end
  end.

(** [propagate_register_meta(flow_graph.nodes, reg)] *)
Definition propagate_register_meta (fuel : nat) (G : FlowGraph)
    (reg : Register) : Eff PhiState unit :=
  let non_terminal :=
    List.filter (λ n, negb (is_TerminalNode (node_at G n)))
      (graph_nodes G) in
  _ ← read_from_inherited G reg non_terminal;
  _ ← read_backwards fuel G reg (rev non_terminal);
  _ ← assume_inherited reg non_terminal;
  unset_forwards fuel G reg (rev non_terminal).

Fixpoint propagate_register_metas (fuel : nat) (G : FlowGraph)
    (regs : list Register) : Eff PhiState unit :=
  match regs with
  | [] => mret tt
  | reg :: regs =>
      _ ← propagate_register_meta fuel G reg;
      propagate_register_metas fuel G regs
  end.

End PropagateRegisterMeta.

(** *** [determine_return_register] *)

(** [priority], the local function of [determine_return_register] *)
Definition priority (block_info : BlockInfo) (reg : Register) : Z :=
  match get_meta reg (final_register_states block_info) with
  | None => 4
  | Some meta =>
      if uninteresting meta then 2
      else if meta_in_pattern meta then 1
      else if function_return meta then 0
      else 3
  end.

(** [determine_return_register]; [max] is taken of a list that is not
    empty. *)
Definition determine_return_register (return_blocks : list BlockInfo)
    (fn_decl_provided : bool) (base_return_regs : list Register)
    : option Register :=
  match return_blocks with
  | [] => None
  | first :: others =>
      (foldl
         (λ (best : option Register * Z) reg,
            let max_prio :=
              foldl Z.max (priority first reg)
                (map (λ b, priority b reg) others) in
            if max_prio =? 4 then best
            else if (max_prio <=? 2) && negb fn_decl_provided then best
            else if best.2 <? max_prio then (Some reg, max_prio)
            else best)
         (None, -1) base_return_regs).1
  end.

(** *** The nodes of [return_blocks] *)

(** The nodes in the order in which [translate_all_blocks] takes them from
    [translate_stack]: the node at the end of the stack, then the stack
    with the nodes appended that this node immediately dominates, in
    reverse order and without the [TerminalNode]s. *)
Fixpoint translation_order (steps : nat) (G : FlowGraph) (stack : list nat)
    : list nat :=
  match steps with
  | O => []
  | S steps =>
      match stack with
      | [] => []
      | n :: stack =>
          n :: translation_order steps G
                 (stack_extend stack
                    (List.filter
                       (λ child, negb (is_TerminalNode (node_at G child)))
                       (rev (immediately_dominates (node_at G n)))))
      end
  end.

(** [isinstance(node, ReturnNode)] *)
Definition is_ReturnNode (n : Node) : bool :=
  match node_kind n with ReturnNode => true | _ => false end.

(** The nodes whose block infos [translate_all_blocks] appends to
    [return_blocks], when it starts from the node [n]. *)
Definition return_nodes (steps : nat) (G : FlowGraph) (n : nat) : list nat :=
  List.filter (λ m, is_ReturnNode (node_at G m))
    (translation_order steps G [n]).

(** *** The return values and the parameters *)

(** The loop over [return_blocks] that marks the return values.  The
    elements of [return_blocks] are the block infos attached to the return
    nodes, the same objects: they are referred to by their nodes, and what
    the loop does to them is done to the block infos of the nodes. *)
Fixpoint mark_return_values (fuel : nat) (return_reg : Register)
    (return_type : Ty) (return_nodes : list nat) : Eff PhiState unit :=
  match return_nodes with
  | [] => mret tt
  | n :: return_nodes =>
      b ← get_block_info n;
      _ ← (if RegInfo_contains return_reg (final_register_states b) then
             ret_val ← final_register_state fuel n return_reg;
             ret_val ← phis_heap (as_type ret_val return_type true);
             _ ← phis_heap (run_res (use fuel ret_val));
             b ← get_block_info n;
             phis_blocks (modify_state
               (insert n (set_return_value (Some ret_val) b)))
           else mret tt);
      mark_return_values fuel return_reg return_type return_nodes
  end.

(** [return_blocks] as [determine_return_register] reads it. *)
Fixpoint block_infos (ns : list nat) : Eff PhiState (list BlockInfo) :=
  match ns with
  | [] => mret []
  | n :: ns =>
      b ← get_block_info n;
      bs ← block_infos ns;
      mret (b :: bs)
  end.

(** Modelled from the spec: [FunctionSignature] and [FunctionParam], of the
    types module, as far as [translate_to_ast] reads them after the
    translation: the return type, whether the parameters are known, and
    for every parameter its type and whether it has a name. *)
Record FunctionSignature : Type := {
  sig_return_type : Ty;
  params_known : bool;
  params : list (Ty * bool);
}.

(** [while len(fn_sig.params) < len(stack_info.arguments):
    fn_sig.params.append(FunctionParam())]; a new parameter has a type of
    its own, [Type.any()], and no name. *)
Fixpoint pad_params (missing : nat) (ps : list (Ty * bool))
    : Eff Heap (list (Ty * bool)) :=
  match missing with
  | O => mret ps
  | S missing =>
      t ← state_fn (heap_new_type T_any);
      pad_params missing (ps ++ [(t, false)])
  end.

(** The loop over [zip(fn_sig.params, stack_info.arguments)].  A parameter
    without a name is given the name that [arg.format] returns;
    [PassedInArg.format] asserts that the offset is a multiple of four, and
    changes nothing. *)
Fixpoint unify_params (ps : list (Ty * bool)) (args : list Expression)
    : Eff Heap unit :=
  match ps, args with
  | (t, named) :: ps, arg :: args =>
      _ ← state_fn (heap_unify t (expr_type arg));
      _ ← (if named then mret tt
           else assert (arg_value arg mod 4 =? 0));
      unify_params ps args
  | _, _ => mret tt
  end.

(** "Guess parameters" *)
Definition guess_parameters (fn_sig : FunctionSignature)
    : Eff PhiState unit :=
  if params_known fn_sig then mret tt
  else
    s ← phis_stack get_state;
    ps ← phis_heap
           (pad_params (length (arguments s) - length (params fn_sig))
              (params fn_sig));
    phis_heap (unify_params ps (arguments s)).

Section TranslateToAst.

(** The instruction table and the wrapping of failures, as for
    [translate_all_blocks]; [Node.children]; [arch.base_return_regs]; and
    [Type.is_void], a method of the types module. *)
Variable eval_fn :
  Instruction → option (Eff (Heap * StackInfo * NodeState) unit).
Variable wrap_instr_failure : Instruction → Exn → Exn.
Variable children : nat → list nat.
Variable base_return_regs : list Register.
Variable is_void : Ty → TS → bool.

(** [translate_to_ast], from the call of [translate_all_blocks] to the call
    of [assign_naive_phis]: it leaves the state that [assign_naive_phis]
    starts from.  [state] is the state of the entry node; [void] is
    [options.void] and [type_provided] is [fn_sym.type_provided];
    [return_nodes] are the nodes whose block infos [translate_all_blocks]
    has appended to [return_blocks], in that order, which [return_nodes]
    above computes. *)
Definition translate_to_ast (steps fuel : nat) (stop_on_error void : bool)
    (type_provided : bool) (G : FlowGraph) (fn_sig : FunctionSignature)
    (state : NodeState) (return_nodes : list nat) : Eff PhiState unit :=
  _ ← zoom (λ s, (ps_heap s, ps_stack s, (ps_blocks s, [])))
        (λ t s, {| ps_heap := t.1.1; ps_stack := t.1.2;
                   ps_blocks := t.2.1; ps_planned := ps_planned s |})
        (translate_all_blocks eval_fn wrap_instr_failure steps fuel
           stop_on_error G [state]);
  _ ← propagate_register_metas children fuel G base_return_regs;
  let return_type := sig_return_type fn_sig in
  h ← phis_heap get_state;
  return_reg ←
    (if negb void && negb (is_void return_type (types h)) then
       return_blocks ← block_infos return_nodes;
       mret (determine_return_register return_blocks type_provided
               base_return_regs)
     else mret None);
  _ ← (match return_reg with
       | Some return_reg =>
           mark_return_values fuel return_reg return_type return_nodes
       | None =>
           t ← phis_heap (state_fn (heap_new_type T_void));
           _ ← phis_heap (state_fn (heap_unify return_type t));
           mret tt
       end);
  guess_parameters fn_sig.

End TranslateToAst.

(** ** Further invariants *)

(** The identity of a phi. *)
Definition phi_oid (e : Expression) : nat :=
  match e with
  | NaivePhiExpr oid _ _ _ _ _ => oid
  | _ => 0%nat
  end.

Definition is_NaivePhiExpr (e : Expression) : bool :=
  match e with NaivePhiExpr _ _ _ _ _ _ => true | _ => false end.

(** The queue holds each phi once: exactly those with a usage. *)
Definition queue_exact (h : Heap) : Prop :=
  Forall (λ p, is_NaivePhiExpr p = true) (used_naive_phis h)
  ∧ NoDup (map phi_oid (used_naive_phis h))
  ∧ ∀ oid, (0 < num_usages h oid)%nat ↔ oid ∈ map phi_oid (used_naive_phis h).

(** What [late_unwrap] stops at. *)
Definition late_unwrapped (h : Heap) (e : Expression) : bool :=
  match e with
  | EvalOnceExpr _ _ var _ _ _ trivial _ => uses_var h var trivial
  | NaivePhiExpr oid _ _ _ _ _ =>
      negb (bool_decide (is_Some (replacement_expr h oid)))
  | _ => true
  end.

(** How [regs[key]] may leave the registers [r0]: the values as they were,
    and the meta of [key] marked as read. *)
Definition read_only (key : Register) (r0 r : RegInfo) : Prop :=
  active_instr r = active_instr r0
  ∧ read_inherited r0 ⊆ read_inherited r
  ∧ ∀ k, contents r !! k = contents r0 !! k
         ∨ (k = key
            ∧ ∃ d, contents r0 !! k = Some d
                   ∧ contents r !! k
                     = Some {| value := value d;
                               meta := meta_set_is_read (meta d) |}).

(** What [_prevent_later_uses] asks of a register: its value is no phi, it
    is not forced yet, and it uses an expression of the filter. *)
Definition to_force (fuel : nat) (h : Heap) (expr_filter : Expression → bool)
    (data : RegData) : Prop :=
  is_phi (value data) = false ∧ meta_force (meta data) = false
  ∧ uses_expr fuel h (value data) expr_filter None = Ok true.

Definition forced (data : RegData) : RegData :=
  {| value := value data; meta := meta_set_force (meta data) |}.

(** [instr] is the last instruction of [instrs] that writes or clobbers
    [reg], and it writes it. *)
Definition is_last_write (reg : Register) (instrs : list Instruction)
    (instr : Instruction) : Prop :=
  ∃ pre post,
    instrs = pre ++ instr :: post
    ∧ reg_in reg (outputs instr) = true
    ∧ ∀ i, i ∈ post →
        reg_in reg (outputs i) = false ∧ reg_in reg (clobbers i) = false.

(** A node that the traversal from [child] up to [D] may reach. *)
Definition reached (G : FlowGraph) (D child n : nat) : Prop :=
  n ∈ parents (node_at G child)
  ∨ ∃ m, between G D child m ∧ n ∈ parents (node_at G m).

(** The nodes of the graph are listed once, with their parents. *)
Definition graph_closed (G : FlowGraph) : Prop :=
  NoDup (graph_nodes G)
  ∧ ∀ n p, n ∈ graph_nodes G → p ∈ parents (node_at G n) →
      p ∈ graph_nodes G.

(** The parents that a traversal may still push. *)
Definition budget (G : FlowGraph) (seen : gset nat) (nodes : list nat)
    : nat :=
  sum_list (map (λ n, if decide (n ∈ seen) then 0%nat
                      else length (parents (node_at G n))) nodes).

(** ** [fold_mul_chains] *)

(** [fold], the local function of [fold_mul_chains]: the base of a chain
    and its multiplier.  The source unwraps an [EvalOnceExpr] with
    [early_unwrap] and recurses on the result; the recursion is written here
    on the wrapped expression (see [fold_mul_unfold] for the source's
    form).  [lnum << value] raises [ValueError] on a negative count. *)
Fixpoint fold_mul (h : Heap) (expr : Expression) (toplevel allow_sll : bool)
    : Res (Expression * Z) :=
  match expr with
  | BinaryOp _ e_left op e_right _ =>
      '(lbase, lnum) ← fold_mul h e_left false (negb (String.eqb op "<<"));
      '(rbase, rnum) ← fold_mul h e_right false (negb (String.eqb op "<<"));
      let value := match e_right with Literal v _ _ => v | _ => 0 end in
      if String.eqb op "<<" && is_Literal e_right && allow_sll then
        if toplevel && (lnum =? 1) && negb ((1 <=? value) && (value <=? 4))
        then Ok (expr, 1)
        else n ← py_lshift lnum value; Ok (lbase, n)
      else if String.eqb op "*" && is_Literal e_right
              && (allow_sll || negb (value mod 2 =? 0)) then
        Ok (lbase, lnum * value)
      else if expr_eqb (early_unwrap h lbase) (early_unwrap h rbase) then
        if String.eqb op "+" then Ok (lbase, lnum + rnum)
        else if String.eqb op "-" then Ok (lbase, lnum - rnum)
        else Ok (expr, 1)
      else Ok (expr, 1)
  | UnaryOp _ op e _ =>
      if String.eqb op "-" && negb toplevel then
        '(base, num) ← fold_mul h e false true;
        Ok (base, - num)
      else Ok (expr, 1)
  | EvalOnceExpr oid wrapped_expr _ _ _ emit_exactly_once _ _ =>
      if negb (forced_emit h oid) && negb emit_exactly_once then
        '(base, num) ← fold_mul h wrapped_expr false allow_sll;
        if negb (num =? 1) then Ok (base, num) else Ok (expr, 1)
      else Ok (expr, 1)
  | _ => Ok (expr, 1)
  end.

(** [fold_mul_chains] *)
Definition fold_mul_chains (expr : Expression) : Eff Heap Expression :=
  h ← get_state;
  '(base, num) ← pure_res (fold_mul h expr true true);
  if num =? 1 then mret expr
  else
    lit ← new_Literal num;
    BinaryOp_int base "*" lit.

(** The value of an integer expression: the operators that [fold_mul_chains]
    reads are interpreted, a wrapper has the value of what it wraps, a
    literal its value, and [atom] gives the value of every other
    expression. *)
Fixpoint int_value (atom : Expression → Z) (e : Expression) : Z :=
  match e with
  | Literal v _ _ => v
  | EvalOnceExpr _ wrapped_expr _ _ _ _ _ _ => int_value atom wrapped_expr
  | UnaryOp _ op x _ =>
      if String.eqb op "-" then - int_value atom x else atom e
  | BinaryOp _ l op r _ =>
      if String.eqb op "+" then int_value atom l + int_value atom r
      else if String.eqb op "-" then int_value atom l - int_value atom r
      else if String.eqb op "*" then int_value atom l * int_value atom r
      else if String.eqb op "<<" then int_value atom l * 2 ^ int_value atom r
      else atom e
  | _ => atom e
  end.

(** The expressions that [fold] visits in an expression. *)
Fixpoint chain_parts (e : Expression) : list Expression :=
  e :: match e with
       | BinaryOp _ l _ r _ => chain_parts l ++ chain_parts r
       | UnaryOp _ _ x _ => chain_parts x
       | EvalOnceExpr _ w _ _ _ _ _ _ => chain_parts w
       | _ => []
       end.

(** Equal parts of [e] have equal values: what is compared by identity is
    one object. *)
Definition equal_parts_agree (atom : Expression → Z) (e : Expression)
    : Prop :=
  ∀ a b, a ∈ chain_parts e → b ∈ chain_parts e → expr_eqb a b = true →
    int_value atom a = int_value atom b.

Definition equal_parts_agreeb (atom : Expression → Z) (e : Expression)
    : bool :=
  forallb (λ a, forallb (λ b, implb (expr_eqb a b)
                                (int_value atom a =? int_value atom b))
                  (chain_parts e)) (chain_parts e).
(** ** The union-find of [PlannedVar] *)

(** [root] ends the chain of parents that starts at [var], [n] steps
    away. *)
Inductive root_of (parent : gmap nat nat) : nat → nat → nat → Prop :=
  | root_here var :
      parent !! var = None → root_of parent var var 0
  | root_step var p root n :
      parent !! var = Some p → root_of parent p root n →
      root_of parent var root (S n).

(** The representative of a var with representative [r], after the vars
    of representative [a] were joined to those of representative [b]. *)
Definition joined (a b r : nat) : nat := if Nat.eqb r a then b else r.
(** ** The registers of a dominated node *)

(** What [create_dominated_node_state] stores for a register of the
    dominator: the value, under
    [RegMeta(inherited=True, force=..., initial=...)]. *)
Definition inherited_data (d : RegData) : RegData :=
  {| value := value d;
     meta := RegMeta_inherited (meta_force (meta d)) (initial (meta d)) |}.

(** Every register is marked inherited and unread, and none is [zero]. *)
Definition fresh_regs (r : RegInfo) : Prop :=
  ∀ k d, contents r !! k = Some d →
    inherited (meta d) = true ∧ is_read (meta d) = false ∧ k ≠ zero.

(** The registers outside [touched] are those of [base]. *)
Definition frame_inv (touched : list Location) (base : gmap string RegData)
    (st : Heap * StackInfo * RegInfo) : Prop :=
  (∀ k, LReg k ∉ touched → contents st.2 !! k = base !! k)
  ∧ fresh_regs st.2.

(** The fields of a [NodeState] other than the registers. *)
Definition same_node (n0 n : NodeState) : Prop := set_regs (regs n0) n = n0.
(** ** [rlwi_mask] *)

(** [bits_upto], the local function of [rlwi_mask]:
    [(1 << (32 - m)) - 1]. *)
Definition bits_upto (m : Z) : Res Z :=
  n ← py_lshift 1 (32 - m); Ok (n - 1).

(** [rlwi_mask] *)
Definition rlwi_mask (mask_begin mask_end : Z) : Res Z :=
  let all_ones := 4294967295 in
  if mask_begin <=? mask_end then
    a ← bits_upto mask_begin;
    b ← bits_upto (mask_end + 1);
    Ok (a - b)
  else
    a ← bits_upto (mask_end + 1);
    b ← bits_upto mask_begin;
    Ok (Z.lxor (a - b) all_ones).

(** Bit [i] of a word, counted as the processor manual does: bit 0 is the
    most significant one, bit 31 the least significant one. *)
Definition ppc_bit (w i : Z) : bool := Z.testbit w (31 - i).
(** ** Parentheses in formatted expressions *)

(** The loop of [balanced_parentheses], from the balance [bal]. *)
Fixpoint balanced_loop (bal : Z) (s : list ascii) : bool :=
  match s with
  | [] => bal =? 0
  | c :: s =>
      if Ascii.eqb c "(" then balanced_loop (bal + 1) s
      else if Ascii.eqb c ")" then
        if bal =? 0 then false else balanced_loop (bal - 1) s
      else balanced_loop bal s
  end.

(** [balanced_parentheses] *)
Definition balanced_parentheses (s : list ascii) : bool := balanced_loop 0 s.

(** [ret[1:-1]] *)
Definition strip_ends (ret : list ascii) : list ascii :=
  removelast (tail ret).

(** [format_expr], from [ret], the result of [expr.format(fmt)]. *)
Definition format_expr (ret : list ascii) : list ascii :=
  if match ret with c :: _ => Ascii.eqb c "(" | [] => false end
     && balanced_parentheses (strip_ends ret)
  then strip_ends ret
  else ret.

(** The opening parentheses of [s] less the closing ones. *)
Fixpoint excess (s : list ascii) : Z :=
  match s with
  | [] => 0
  | c :: s =>
      (if Ascii.eqb c "(" then 1 else if Ascii.eqb c ")" then -1 else 0)
      + excess s
  end.
(** ** Negation of conditions *)

(** [isinstance(e, Condition)] *)
Definition is_Condition (e : Expression) : bool :=
  match e with
  | ErrorExpr _ _ _ | BinaryOp _ _ _ _ _ | UnaryOp _ _ _ _
  | ExprCondition _ _ _ _ => true
  | _ => false
  end.

(** [BinaryOp.is_comparison] *)
Definition is_comparison (op : string) : bool :=
  existsb (String.eqb op) ["=="; "!="; ">"; "<"; ">="; "<="].

(** [op in ["<", ">", "<=", ">="]] *)
Definition is_ordering (op : string) : bool :=
  existsb (String.eqb op) ["<"; ">"; "<="; ">="].

(** The table of [BinaryOp.negated], on the six comparisons. *)
Definition negated_op (op : string) : string :=
  if String.eqb op "==" then "!="
  else if String.eqb op "!=" then "=="
  else if String.eqb op ">" then "<="
  else if String.eqb op "<" then ">="
  else if String.eqb op ">=" then "<"
  else ">".

(** [UnaryOp("!", e, type=Type.bool())] *)
Definition new_not (e : Expression) : Eff Heap Expression :=
  t ← state_fn (heap_new_type T_bool);
  oid ← state_fn fresh_oid;
  mret (UnaryOp oid "!" e t).

(** [Condition.negated]: the methods of [ErrorExpr], [BinaryOp], [UnaryOp]
    and [ExprCondition].  The other expressions have no such method. *)
Fixpoint negated (e : Expression) : Eff Heap Expression :=
  match e with
  | ErrorExpr _ _ _ => mret e
  | BinaryOp _ e_left op e_right _ =>
      if (String.eqb op "&&" || String.eqb op "||")
         && is_Condition e_left && is_Condition e_right then
        l ← negated e_left;
        r ← negated e_right;
        t ← state_fn (heap_new_type T_bool);
        oid ← state_fn fresh_oid;
        mret (BinaryOp oid l (if String.eqb op "&&" then "||" else "&&") r t)
      else
        h ← get_state;
        if negb (is_comparison op)
           || (is_floating h e_left e_right && is_ordering op) then
          new_not e
        else
          t ← state_fn (heap_new_type T_bool);
          oid ← state_fn fresh_oid;
          mret (BinaryOp oid e_left (negated_op op) e_right t)
  | UnaryOp _ op x _ =>
      if String.eqb op "!"
         && match x with
            | UnaryOp _ _ _ _ | BinaryOp _ _ _ _ _ => true
            | _ => false
            end
      then mret x
      else new_not e
  | ExprCondition _ x t is_negated =>
      oid ← state_fn fresh_oid;
      mret (ExprCondition oid x t (negb is_negated))
  | _ => raise AttributeError
  end.

(** The truth of a condition, when [cmp] gives that of the expressions
    that are no conjunction, disjunction or negation. *)
Fixpoint truth (cmp : Expression → bool) (e : Expression) : bool :=
  match e with
  | BinaryOp _ l op r _ =>
      if String.eqb op "&&" then truth cmp l && truth cmp r
      else if String.eqb op "||" then truth cmp l || truth cmp r
      else cmp e
  | UnaryOp _ op x _ =>
      if String.eqb op "!" then negb (truth cmp x) else cmp e
  | ExprCondition _ x _ is_negated => xorb is_negated (truth cmp x)
  | _ => cmp e
  end.

(** [cmp] gives opposite comparisons opposite truths, whatever the
    identities and the types of the two [BinaryOp], except for the
    orderings of two floating-point values. *)
Definition opposite_comparisons (cmp : Expression → bool) : Prop :=
  ∀ (h : Heap) oid oid' l r t t' op,
    is_comparison op = true →
    is_floating h l r && is_ordering op = false →
    cmp (BinaryOp oid' l (negated_op op) r t')
    = negb (cmp (BinaryOp oid l op r t)).

(** No [ErrorExpr] is negated in [e]. *)
Fixpoint no_error_negated (e : Expression) : bool :=
  match e with
  | ErrorExpr _ _ _ => false
  | BinaryOp _ l op r _ =>
      if (String.eqb op "&&" || String.eqb op "||")
         && is_Condition l && is_Condition r
      then no_error_negated l && no_error_negated r
      else true
  | _ => true
  end.

(** The comparisons of integers, with the values of [int_value]. *)
Definition int_cmp (atom : Expression → Z) (e : Expression) : bool :=
  match e with
  | BinaryOp _ l op r _ =>
      let a := int_value atom l in
      let b := int_value atom r in
      if String.eqb op "==" then a =? b
      else if String.eqb op "!=" then negb (a =? b)
      else if String.eqb op ">" then b <? a
      else if String.eqb op "<" then a <? b
      else if String.eqb op ">=" then b <=? a
      else if String.eqb op "<=" then a <=? b
      else negb (int_value atom e =? 0)
  | _ => negb (int_value atom e =? 0)
  end.
(** ** Escaping the bytes of a string constant *)

(** A hexadecimal digit in lower case, as [format(d, "x")] gives it. *)
Definition hex_digit (d : Z) : Z := if d <? 10 then 48 + d else 87 + d.

(** The [table] of [escape_byte]: the escapes [\0], [\b], [\f], [\n], [\r],
    [\t], [\v], of the backslash and of the double quote. *)
Definition escape_table (b : Z) : option (list Z) :=
  if b =? 0 then Some [92; 48]
  else if b =? 8 then Some [92; 98]
  else if b =? 12 then Some [92; 102]
  else if b =? 10 then Some [92; 110]
  else if b =? 13 then Some [92; 114]
  else if b =? 9 then Some [92; 116]
  else if b =? 11 then Some [92; 118]
  else if b =? 92 then Some [92; 92]
  else if b =? 34 then Some [92; 34]
  else None.

(** [escape_byte]; [bytes([b])] raises [ValueError] outside [range(256)]. *)
Definition escape_byte (b : Z) : Res (list Z) :=
  if (b <? 0) || (255 <? b) then Raise ValueError
  else
    match escape_table b with
    | Some escaped => Ok escaped
    | None =>
        if (b <? 32) || (b =? 255) || (b =? 127) then
          Ok [92; 120; hex_digit (b / 16); hex_digit (b mod 16)]
        else Ok [b]
    end.

(** [b"".join(map(escape_byte, data))] *)
Fixpoint escape_bytes (data : list Z) : Res (list Z) :=
  match data with
  | [] => Ok []
  | b :: data =>
      escaped ← escape_byte b;
      rest ← escape_bytes data;
      Ok (escaped ++ rest)
  end.

(** Reading an escaped string back: the value of a hexadecimal digit, the
    byte of an escape character, and the bytes of a string. *)
Definition hex_value (c : Z) : Z := if c <? 58 then c - 48 else c - 87.

Definition unescape_char (c : Z) : Z :=
  if c =? 48 then 0
  else if c =? 98 then 8
  else if c =? 102 then 12
  else if c =? 110 then 10
  else if c =? 114 then 13
  else if c =? 116 then 9
  else if c =? 118 then 11
  else c.

Fixpoint unescape (fuel : nat) (s : list Z) : option (list Z) :=
  match fuel, s with
  | _, [] => Some []
  | O, _ :: _ => None
  | S fuel, c :: s =>
      if c =? 92 then
        match s with
        | [] => None
        | x :: s =>
            if x =? 120 then
              match s with
              | h1 :: h2 :: s =>
                  cons (16 * hex_value h1 + hex_value h2) <$> unescape fuel s
              | _ => None
              end
            else cons (unescape_char x) <$> unescape fuel s
        end
      else cons c <$> unescape fuel s
  end.
(** ** The nodes that are translated *)

(** [m] is reached from [n] along [immediately_dominates], through nodes
    that are no [TerminalNode]. *)
Inductive dominated_from (G : FlowGraph) : nat → nat → Prop :=
  | dominated_self n : dominated_from G n n
  | dominated_child n child m :
      child ∈ immediately_dominates (node_at G n) →
      node_kind (node_at G child) ≠ TerminalNode →
      dominated_from G child m →
      dominated_from G n m.

(** The [node] of a [NodeState] is [N]. *)
Definition keeps_node (N : Node) (st : Heap * StackInfo * NodeState) : Prop :=
  node st.2 = N.
(** ** The planned vars of the sources of a phi *)

(** Every chain of parents ends within [d] steps. *)
Definition depth_bound (d : nat) (parent : gmap nat nat) : Prop :=
  ∀ v, ∃ r n, root_of parent v r n ∧ (n ≤ d)%nat.

(** The persistent planned var of [source] for [reg] has the representative
    [r]. *)
Definition source_root (p : PlannedVars) (reg : Register)
    (source : InstructionSource) (r : nat) : Prop :=
  ∃ v n,
    assoc_get (planned_key_eqb reg source) (persistent_planned_vars p)
    = Some v
    ∧ root_of (planned_var_parent p) v r n.

(** Vars that had one representative have one representative. *)
Definition classes_kept (parent parent' : gmap nat nat) : Prop :=
  ∀ x y r n m,
    root_of parent x r n → root_of parent y r m →
    ∃ r' n' m', root_of parent' x r' n' ∧ root_of parent' y r' m'.
End WithTypes.

(** ** A concrete type pool

    Types are flat handles: two handles unify exactly when they are the same
    handle, every handle is an integer type, and fresh handles are numbered
    from the pool's counter. *)
Definition flat_types : TypeSystem := {|
  TS := nat;
  unify := fun a b ts => (Nat.eqb a b, ts);
  is_float := fun _ _ => false;
  is_int := fun _ _ => true;
  weaken_void_ptr := fun t ts => (t, ts);
  get_pointer_target := fun _ _ => None;
  get_size_bytes := fun _ _ => Some 4;
  get_deref_field := fun t _ _ ts => ((None, t, 0), ts);
  new_type := fun _ ts => (ts, S ts);
|}.

(** A pool of integer types only: any two types unify. *)
Definition int_types : TypeSystem := {|
  TS := nat;
  unify := fun _ _ ts => (true, ts);
  is_float := fun _ _ => false;
  is_int := fun _ _ => true;
  weaken_void_ptr := fun t ts => (t, ts);
  get_pointer_target := fun _ _ => None;
  get_size_bytes := fun _ _ => Some 4;
  get_deref_field := fun t _ _ ts => ((None, t, 0), ts);
  new_type := fun _ ts => (ts, S ts);
|}.

Definition int_heap : @Heap int_types := @Build_Heap int_types
  ∅ ∅ ∅ ∅ ∅ ∅ ∅ ∅ [] 100%nat 100%nat.

Definition empty_heap : @Heap flat_types := @Build_Heap flat_types
  ∅ ∅ ∅ ∅ ∅ ∅ ∅ ∅ [] 100%nat 100%nat.

(** ** Concrete objects used in examples *)

Definition var_temp_a0 : Var :=
  {| var_id := 7; prefix := "temp_a0"; var_type := 0%nat |}.
Definition var_temp_v0 : Var :=
  {| var_id := 8; prefix := "temp_v0"; var_type := 0%nat |}.

(** [$a0] as set up at function entry: a transparent wrapper of an
    argument. *)
Definition arg0_wrapper : Expression :=
  EvalOnceExpr 1 (PassedInArg 0 0%nat) var_temp_a0 0%nat None
    false false true.

(** [$v0 = $a0 + 1]: an opaque wrapper of a computed value. *)
Definition sum_wrapper : Expression :=
  EvalOnceExpr 2
    (BinaryOp 3 arg0_wrapper "+" (Literal 1 0%nat false) 0%nat)
    var_temp_v0 0%nat None false false false.

(** [$at = 5]: a trivial wrapper of a literal. *)
Definition five_wrapper : Expression :=
  EvalOnceExpr 4 (Literal 5 0%nat false) var_temp_v0 0%nat None
    false true true.

(** A MIPS frame of 40 bytes: saved registers at 20..32, outgoing arguments
    below 16. *)
Definition mips_frame : StackInfo := {|
  arch := MIPS; deterministic_vars := false; reg_formatter := fun r => r;
  allocated_stack_size := 40; is_leaf := false; subroutine_arg_top := 16;
  callee_save_regs := ["s0"; "s1"; "ra"];
  callee_save_reg_region := (20, 32);
  unique_type_map := []; temp_vars := []; naive_phi_vars := [];
  reg_vars := ∅; planned_vars := []; arguments := [];
  temp_name_counter := ∅; stack_pointer_type := Some 1%nat;
  weak_stack_var_types := ∅; weak_stack_var_locations := ∅;
  planned_inherited_phis := [] |}.

(** A PowerPC frame of 16 bytes with [r31] saved at 12; the link register
    is saved in the caller's frame header, at 20. *)
Definition ppc_frame : StackInfo := {|
  arch := PPC; deterministic_vars := false; reg_formatter := fun r => r;
  allocated_stack_size := 16; is_leaf := false; subroutine_arg_top := 12;
  callee_save_regs := ["r31"];
  callee_save_reg_region := (12, 16);
  unique_type_map := []; temp_vars := []; naive_phi_vars := [];
  reg_vars := ∅; planned_vars := []; arguments := [];
  temp_name_counter := ∅; stack_pointer_type := Some 1%nat;
  weak_stack_var_types := ∅; weak_stack_var_locations := ∅;
  planned_inherited_phis := [] |}.

Definition var_temp_a0_again : Var :=
  {| var_id := 9; prefix := "temp_a0"; var_type := 0%nat |}.
Definition var_temp_a0_2 : Var :=
  {| var_id := 10; prefix := "temp_a0_2"; var_type := 0%nat |}.

(** A heap in which the four example vars are marked emitted. *)
Definition emitted_heap : @Heap flat_types := @Build_Heap flat_types
  (list_to_set [7; 8; 9; 10]%nat) ∅ ∅ ∅ ∅ ∅ ∅ ∅ [] 100%nat 100%nat.

(** [addu $v0, $a0, $a1] on line 12. *)
Definition instr_addu : Instruction := {|
  instr_id := 1; mnemonic := "addu";
  inputs := [LReg "a0"; LReg "a1"]; outputs := [LReg "v0"]; clobbers := [];
  has_function_target := false; lineno := 12; instr_in_pattern := false;
  is_return := false; is_conditional := false |}.

Definition initial_meta : RegMeta :=
  {| inherited := false; initial := true; is_read := false;
     function_return := false; uninteresting := true; meta_force := false;
     meta_in_pattern := false |}.

(** The register state at function entry, with [$a0] holding the first
    argument. *)
Definition entry_regs : RegInfo :=
  {| contents := {[ "a0" := {| value := arg0_wrapper; meta := initial_meta |} ]};
     read_inherited := ∅; active_instr := None |}.

(** The same state while [instr_addu] is being evaluated. *)
Definition regs_in_addu : RegInfo := set_active_instr (Some instr_addu) entry_regs.

Definition first_node : Node := {|
  node_id := 0; node_kind := BasicNode; instructions := [instr_addu];
  parents := []; immediate_dominator := None; immediately_dominates := [];
  block_index := 0 |}.

Definition entry_state : NodeState := {|
  node := first_node; regs := entry_regs; local_var_writes := [];
  subroutine_args := []; in_pattern := false; to_write := [];
  branch_condition := None; switch_control := None;
  has_function_call := false |}.

(** An instruction table with a bug: the handler of [addu] writes [$t0],
    which the instruction does not declare. *)
Definition buggy_eval_fn (instr : Instruction)
    : option (Eff (@Heap flat_types * StackInfo * NodeState) unit) :=
  Some (_ ← set_reg_real 5 "t0" (Literal 1 0%nat false) None false false;
        mret tt).

Definition instr_failure (instr : Instruction) (e : Exn) : Exn :=
  InstrProcessingFailure (mnemonic instr) e.

(** ** A function with a loop

    Four nodes: the entry (0) sets [$v0]; the loop head (1) is entered from
    the entry and from the loop body; the loop body (2) increments [$v0] and
    branches back to the head or on to the exit; the exit (3) is reached from
    the body and from the head, and tests [$v0]. *)
Definition instr_li : Instruction := {|
  instr_id := 10; mnemonic := "li";
  inputs := []; outputs := [LReg "v0"]; clobbers := [];
  has_function_target := false; lineno := 1; instr_in_pattern := false;
  is_return := false; is_conditional := false |}.
Definition instr_addiu : Instruction := {|
  instr_id := 12; mnemonic := "addiu";
  inputs := [LReg "v0"]; outputs := [LReg "v0"]; clobbers := [];
  has_function_target := false; lineno := 3; instr_in_pattern := false;
  is_return := false; is_conditional := false |}.
Definition instr_bnez (id : nat) (line : Z) : Instruction := {|
  instr_id := id; mnemonic := "bnez";
  inputs := [LReg "v0"]; outputs := []; clobbers := [];
  has_function_target := false; lineno := line; instr_in_pattern := false;
  is_return := false; is_conditional := true |}.

Definition loop_graph : FlowGraph := {|
  graph_nodes := [0; 1; 2; 3]%nat;
  node_at := fun n =>
    match n with
    | 0%nat =>
        {| node_id := 0; node_kind := BasicNode; instructions := [instr_li];
           parents := []; immediate_dominator := None;
           immediately_dominates := [1%nat]; block_index := 0 |}
    | 1%nat =>
        {| node_id := 1; node_kind := BasicNode; instructions := [];
           parents := [0; 2]%nat; immediate_dominator := Some 0%nat;
           immediately_dominates := [2; 3]%nat; block_index := 1 |}
    | 2%nat =>
        {| node_id := 2; node_kind := ConditionalNode;
           instructions := [instr_addiu; instr_bnez 13 4];
           parents := [1%nat]; immediate_dominator := Some 1%nat;
           immediately_dominates := []; block_index := 2 |}
    | _ =>
        {| node_id := 3; node_kind := ConditionalNode;
           instructions := [instr_bnez 14 6];
           parents := [2; 1]%nat; immediate_dominator := Some 1%nat;
           immediately_dominates := []; block_index := 3 |}
    end |}.

(** The instruction table of the example. *)
Definition loop_eval_fn (instr : Instruction)
    : option (Eff (@Heap int_types * StackInfo * NodeState) unit) :=
  if String.eqb (mnemonic instr) "li" then
    Some (lit ← node_heap (new_Literal 1);
          _ ← set_reg_real 9 "v0" lit None false false;
          mret tt)
  else if String.eqb (mnemonic instr) "addiu" then
    Some (x ← node_getitem 9 "v0";
          lit ← node_heap (new_Literal 1);
          e ← node_heap (BinaryOp_intptr x "+" lit);
          _ ← set_reg_real 9 "v0" e None false false;
          mret tt)
  else if String.eqb (mnemonic instr) "bnez" then
    Some (x ← node_getitem 9 "v0";
          lit ← node_heap (new_Literal 0);
          c ← node_heap (BinaryOp_int x "!=" lit);
          set_branch_condition c)
  else None.

Definition loop_entry_state : NodeState := {|
  node := node_at loop_graph 0; regs := RegInfo_empty; local_var_writes := [];
  subroutine_args := []; in_pattern := false; to_write := [];
  branch_condition := None; switch_control := None;
  has_function_call := false |}.

(** A state for the exit node, with no register set. *)
Definition loop_exit_state : NodeState := {|
  node := node_at loop_graph 3; regs := RegInfo_empty; local_var_writes := [];
  subroutine_args := []; in_pattern := false; to_write := [];
  branch_condition := None; switch_control := None;
  has_function_call := false |}.

(** The state at the end of [translate_all_blocks]. *)
Definition loop_translated
    : Res unit
      * (@Heap int_types * StackInfo * (gmap nat BlockInfo * list BlockInfo))
  := translate_all_blocks loop_eval_fn instr_failure 9 9 false loop_graph
       [loop_entry_state] (int_heap, mips_frame, (∅, [])).

Definition loop_phi_state : @PhiState int_types :=
  {| ps_heap := loop_translated.2.1.1; ps_stack := loop_translated.2.1.2;
     ps_blocks := loop_translated.2.2.1;
     ps_planned := {| persistent_planned_vars := [];
                      planned_var_parent := ∅; next_planned_var := 0 |} |}.

(** The phi of [$v0] at the head of the loop. *)
Definition loop_head_phi : Expression :=
  NaivePhiExpr 102 "v0" 1 101 [Some instr_addiu; Some instr_li] true.

(** The phi of [$v0] at the exit of the loop: the increment is listed twice
    among its sources, once as found on the way to the loop head and once
    as a source of the phi that the loop head holds. *)
Definition loop_exit_phi : Expression :=
  NaivePhiExpr 103 "v0" 3 102
    [Some instr_addiu; Some instr_addiu; Some instr_li] true.

(** ** A function with two branches that set the same value

    The entry (0) branches to 1 or 2, both set [$v0] to 1, and both go on to
    3, which tests [$v0]. *)
Definition instr_li_2 : Instruction := {|
  instr_id := 11; mnemonic := "li";
  inputs := []; outputs := [LReg "v0"]; clobbers := [];
  has_function_target := false; lineno := 2; instr_in_pattern := false;
  is_return := false; is_conditional := false |}.

Definition diamond_graph : FlowGraph := {|
  graph_nodes := [0; 1; 2; 3]%nat;
  node_at := fun n =>
    match n with
    | 0%nat =>
        {| node_id := 0; node_kind := BasicNode; instructions := [];
           parents := []; immediate_dominator := None;
           immediately_dominates := [1; 2; 3]%nat; block_index := 0 |}
    | 1%nat =>
        {| node_id := 1; node_kind := BasicNode; instructions := [instr_li];
           parents := [0%nat]; immediate_dominator := Some 0%nat;
           immediately_dominates := []; block_index := 1 |}
    | 2%nat =>
        {| node_id := 2; node_kind := BasicNode;
           instructions := [instr_li_2];
           parents := [0%nat]; immediate_dominator := Some 0%nat;
           immediately_dominates := []; block_index := 2 |}
    | _ =>
        {| node_id := 3; node_kind := ConditionalNode;
           instructions := [instr_bnez 14 6];
           parents := [1; 2]%nat; immediate_dominator := Some 0%nat;
           immediately_dominates := []; block_index := 3 |}
    end |}.

Definition diamond_entry_state : NodeState := {|
  node := node_at diamond_graph 0; regs := RegInfo_empty;
  local_var_writes := []; subroutine_args := []; in_pattern := false;
  to_write := []; branch_condition := None; switch_control := None;
  has_function_call := false |}.

Definition diamond_translated
    : Res unit
      * (@Heap int_types * StackInfo * (gmap nat BlockInfo * list BlockInfo))
  := translate_all_blocks loop_eval_fn instr_failure 9 9 false diamond_graph
       [diamond_entry_state] (int_heap, mips_frame, (∅, [])).

Definition diamond_phi_state : @PhiState int_types :=
  {| ps_heap := diamond_translated.2.1.1;
     ps_stack := diamond_translated.2.1.2;
     ps_blocks := diamond_translated.2.2.1;
     ps_planned := {| persistent_planned_vars := [];
                      planned_var_parent := ∅; next_planned_var := 0 |} |}.

(** ** A function that returns the value of one of two branches

    The entry (0) branches to 1 or 2, both set [$v0], and both go on to
    3, which returns.  No instruction reads [$v0]. *)
Definition return_graph : FlowGraph := {|
  graph_nodes := [0; 1; 2; 3]%nat;
  node_at := fun n =>
    match n with
    | 0%nat =>
        {| node_id := 0; node_kind := ConditionalNode; instructions := [];
           parents := []; immediate_dominator := None;
           immediately_dominates := [1; 2; 3]%nat; block_index := 0 |}
    | 1%nat =>
        {| node_id := 1; node_kind := BasicNode; instructions := [instr_li];
           parents := [0%nat]; immediate_dominator := Some 0%nat;
           immediately_dominates := []; block_index := 1 |}
    | 2%nat =>
        {| node_id := 2; node_kind := BasicNode;
           instructions := [instr_li_2];
           parents := [0%nat]; immediate_dominator := Some 0%nat;
           immediately_dominates := []; block_index := 2 |}
    | _ =>
        {| node_id := 3; node_kind := ReturnNode; instructions := [];
           parents := [1; 2]%nat; immediate_dominator := Some 0%nat;
           immediately_dominates := []; block_index := 3 |}
    end |}.

Definition return_children (n : nat) : list nat :=
  match n with
  | 0%nat => [1; 2]%nat
  | 1%nat | 2%nat => [3%nat]
  | _ => []
  end.

Definition return_entry_state : NodeState := {|
  node := node_at return_graph 0; regs := RegInfo_empty;
  local_var_writes := []; subroutine_args := []; in_pattern := false;
  to_write := []; branch_condition := None; switch_control := None;
  has_function_call := false |}.

(** A signature of which nothing is known. *)
Definition return_signature : FunctionSignature :=
  {| sig_return_type := 0%nat; params_known := false; params := [] |}.

(** The state at the start of [translate_to_ast]: no phi is queued and no
    node has a block info. *)
Definition return_start : @PhiState int_types :=
  {| ps_heap := int_heap; ps_stack := mips_frame; ps_blocks := ∅;
     ps_planned := {| persistent_planned_vars := [];
                      planned_var_parent := ∅; next_planned_var := 0 |} |}.

(** The state at the end of [translate_all_blocks] alone. *)
Definition return_blocks_translated
    : Res unit
      * (@Heap int_types * StackInfo * (gmap nat BlockInfo * list BlockInfo))
  := translate_all_blocks loop_eval_fn instr_failure 9 9 false return_graph
       [return_entry_state] (int_heap, mips_frame, (∅, [])).

(** The state in which [translate_to_ast] calls [assign_naive_phis]. *)
Definition return_translated : Res unit * @PhiState int_types :=
  translate_to_ast loop_eval_fn instr_failure return_children ["v0"; "f0"]
    (fun _ _ => false) 9 9 false false false return_graph return_signature
    return_entry_state (return_nodes 9 return_graph 0) return_start.

(** The phi of [$v0] at the return node. *)
Definition return_phi : Expression :=
  NaivePhiExpr 100 "v0" 3 100 [Some instr_li_2; Some instr_li] false.

(** The MIPS frame when a var is planned for [$v0] at [instr_addiu]. *)
Definition planned_frame : StackInfo := {|
  arch := MIPS; deterministic_vars := false; reg_formatter := fun r => r;
  allocated_stack_size := 40; is_leaf := false; subroutine_arg_top := 16;
  callee_save_regs := ["s0"; "s1"; "ra"];
  callee_save_reg_region := (20, 32);
  unique_type_map := []; temp_vars := []; naive_phi_vars := [];
  reg_vars := ∅; planned_vars := [(("v0", Some instr_addiu), var_temp_v0)];
  arguments := [];
  temp_name_counter := ∅; stack_pointer_type := Some 1%nat;
  weak_stack_var_types := ∅; weak_stack_var_locations := ∅;
  planned_inherited_phis := [] |}.

(** * Properties *)

Section Proofs.
Context `{TypeSystem}.

(** ** Invariants of stateful computations *)

Lemma preserves_bind {S A B} (P : S → Prop) (m : Eff S A) (k : A → Eff S B) :
  preserves P m → (∀ a, preserves P (k a)) → preserves P (m ≫= k).
Proof.
  intros Hm Hk s r s' HP E. unfold mbind, Eff_bind in E.
  destruct (m s) as [[a| |] s1] eqn:Em.
  - eapply Hk; [|exact E]. eapply Hm; eauto.
  - injection E as <- <-. eapply Hm; eauto.
  - injection E as <- <-. eapply Hm; eauto.
Qed.

Lemma preserves_ret {S A} (P : S → Prop) (a : A) : preserves P (mret a).
Proof. intros s r s' HP E. by injection E as <- <-. Qed.

Lemma preserves_raise {S A} (P : S → Prop) (e : Exn) :
  preserves P (raise e : Eff S A).
Proof. intros s r s' HP E. by injection E as <- <-. Qed.

Lemma preserves_assert {S} (P : S → Prop) (b : bool) : preserves P (assert b).
Proof. intros s r s' HP E. unfold assert in E. by destruct b; injection E as <- <-. Qed.

Lemma preserves_get_state {S} (P : S → Prop) : preserves P get_state.
Proof. intros s r s' HP E. by injection E as <- <-. Qed.

Lemma preserves_modify_state {S} (P : S → Prop) (f : S → S) :
  (∀ s, P s → P (f s)) → preserves P (modify_state f).
Proof. intros Hf s r s' HP E. injection E as <- <-. auto. Qed.

Lemma preserves_state_fn {S A} (P : S → Prop) (f : S → A * S) :
  (∀ s, P s → P (snd (f s))) → preserves P (state_fn f).
Proof.
  intros Hf s r s' HP E. unfold state_fn in E.
  specialize (Hf s HP). destruct (f s). by injection E as <- <-.
Qed.

Lemma preserves_run_res {S} (P : S → Prop) (f : S → Res S) :
  (∀ s s', P s → f s = Ok s' → P s') → preserves P (run_res f).
Proof.
  intros Hf s r s' HP E. unfold run_res in E.
  destruct (f s) eqn:Ef; injection E as <- <-; eauto.
Qed.

Lemma preserves_zoom {S T A} (P : S → Prop) (Q : T → Prop)
    (get : S → T) (set : T → S → S) (m : Eff T A) :
  (∀ s, P s → Q (get s)) → (∀ t s, P s → Q t → P (set t s)) →
  preserves Q m → preserves P (zoom get set m).
Proof.
  intros Hget Hset Hm s r s' HP E. unfold zoom in E.
  destruct (m (get s)) as [r1 t] eqn:Em. injection E as <- <-.
  apply Hset; [done|]. eapply Hm; eauto.
Qed.

Lemma preserves_True {S A} (m : Eff S A) : preserves (λ _, True) m.
Proof. by intros s r s' _ _. Qed.
(** ** The sharing protocol: what [use] can and cannot change *)

Lemma res_bind_Ok {A B} (m : Res A) (k : A → Res B) (b : B) :
  (m ≫= k) = Ok b → ∃ a, m = Ok a ∧ k a = Ok b.
Proof. destruct m; simpl; intros E; try discriminate. eauto. Qed.

Section UseRelation.
Variable R : Heap → Heap → Prop.
Hypothesis R_refl : ∀ h, R h h.
Hypothesis R_trans : ∀ a b c, R a b → R b c → R a c.
Hypothesis R_emitted : ∀ v h, R h (set_is_emitted v h).
Hypothesis R_used : ∀ o h, R h (set_is_used o h).
Hypothesis R_count : ∀ e o h, R h (count_phi_usage e o h).
Hypothesis R_types : ∀ ts h, R h (set_types ts h).

Lemma use_each_rel (u : Expression → Heap → Res Heap) :
  (∀ e h h', u e h = Ok h' → R h h') →
  ∀ deps h h', use_each u deps h = Ok h' → R h h'.
Proof.
  intros Hu deps. induction deps as [|e deps IH]; simpl; intros h h' E.
  - injection E as <-. apply R_refl.
  - apply res_bind_Ok in E as (h1 & E1 & E2).
    eapply R_trans; [eapply Hu, E1 | eapply IH, E2].
Qed.

Lemma use_rel fuel : ∀ e h h', use fuel e h = Ok h' → R h h'.
Proof.
  induction fuel as [|fuel IH]; intros e h h' E; [discriminate|].
  pose proof (use_each_rel (use fuel) IH) as Heach.
  destruct e; cbn [use] in E;
    try (eapply Heach, E; fail).
  - (* Cast *)
    unfold heap_unify in E. destruct (unify _ _ _) as [b ts].
    cbn [snd] in E.
    eapply R_trans; [apply (R_types ts)|].
    eapply Heach, E.
  - (* EvalOnceExpr *)
    apply res_bind_Ok in E as (h1 & E1 & E2). injection E2 as <-.
    eapply R_trans; [|apply R_used].
    destruct (trivial || _).
    + eapply IH, E1.
    + destruct (negb (is_used h oid)).
      * destruct (negb emit_exactly_once).
        -- eapply IH, E1.
        -- injection E1 as <-. apply R_refl.
      * injection E1 as <-. apply R_emitted.
  - (* NaivePhiExpr *)
    match type of E with
context [count_phi_usage ?p ?o h] =>
  eapply R_trans; [apply (R_count p o)|]
end.
    destruct (replacement_expr _ _).
    + eapply IH, E.
    + injection E as <-. apply R_refl.
Qed.
End UseRelation.

(** [use] never touches [forced_emit] or [replacement_expr], and only ever
    adds to [is_emitted] and [is_used]. *)
Lemma use_forced_emit fuel e h h' :
  use fuel e h = Ok h' → eo_forced_emit h' = eo_forced_emit h.
Proof.
  apply (use_rel (fun a b => eo_forced_emit b = eo_forced_emit a));
    try done; intros; simpl; try congruence.
  unfold count_phi_usage. by destruct (Nat.eqb _ _).
Qed.

Lemma use_replacement_expr fuel e h h' :
  use fuel e h = Ok h' → phi_replacement_expr h' = phi_replacement_expr h.
Proof.
  apply (use_rel (fun a b => phi_replacement_expr b = phi_replacement_expr a));
    try done; intros; simpl; try congruence.
  unfold count_phi_usage. by destruct (Nat.eqb _ _).
Qed.

Lemma use_is_emitted_mono fuel e h h' :
  use fuel e h = Ok h' → var_is_emitted h ⊆ var_is_emitted h'.
Proof.
  apply (use_rel (fun a b => var_is_emitted a ⊆ var_is_emitted b));
    try done; intros; simpl; try set_solver.
  unfold count_phi_usage. by destruct (Nat.eqb _ _).
Qed.

Lemma use_is_used_mono fuel e h h' :
  use fuel e h = Ok h' → eo_is_used h ⊆ eo_is_used h'.
Proof.
  apply (use_rel (fun a b => eo_is_used a ⊆ eo_is_used b));
    try done; intros; simpl; try set_solver.
  unfold count_phi_usage. by destruct (Nat.eqb _ _).
Qed.

(** *** Frame: [use] marks only the vars of the wrappers it walks through *)

Lemma wrapper_vars_args v (args : list Expression) d :
  d ∈ args → v ∈ wrapper_vars d →
  v ∈ (fix go (l : list Expression) : list nat :=
         match l with
         | [] => []
         | x :: l => wrapper_vars x ++ go l
         end) args.
Proof.
  induction args as [|a args IH]; intros Hd Hv.
  - by apply elem_of_nil in Hd.
  - apply elem_of_cons in Hd as [->|Hd]; apply elem_of_app; auto.
Qed.

Lemma dependencies_wrapper_vars h e d v :
  d ∈ dependencies h e → v ∈ wrapper_vars d → v ∈ wrapper_vars e.
Proof.
  destruct e; simpl; intros Hd Hv;
    repeat match goal with
    | Hd : _ ∈ [] |- _ => by apply elem_of_nil in Hd
    | Hd : _ ∈ _ :: _ |- _ => apply elem_of_cons in Hd as [->|Hd]
    end; try done; repeat (rewrite !elem_of_app); auto.
  - (* FuncCall *)
    apply elem_of_app in Hd as [Hd|Hd].
    + right. by eapply wrapper_vars_args.
    + apply list_elem_of_singleton in Hd as ->. by left.
  - (* EvalOnceExpr *)
    destruct (uses_var _ _ _).
    + by apply elem_of_nil in Hd.
    + apply list_elem_of_singleton in Hd as ->. by apply elem_of_cons; right.
Qed.

Lemma use_each_frame (u : Expression → Heap → Res Heap) (I : Heap → Heap → Prop)
    (Q : Expression → Prop) (P : Heap → Prop) :
  (∀ h, P h → I h h) →
  (∀ a b c, I a b → I b c → I a c) →
  (∀ e h h', Q e → P h → u e h = Ok h' → I h h' ∧ P h') →
  ∀ deps h h', Forall Q deps → P h → use_each u deps h = Ok h' →
    I h h' ∧ P h'.
Proof.
  intros Irefl Itrans Hu deps.
  induction deps as [|e deps IH]; simpl; intros h h' HQ HP E.
  - injection E as <-. auto.
  - apply res_bind_Ok in E as (h1 & E1 & E2).
    apply Forall_cons in HQ as [Hq HQ].
    destruct (Hu _ _ _ Hq HP E1) as [I1 P1].
    destruct (IH _ _ HQ P1 E2) as [I2 P2]. eauto.
Qed.

Lemma use_frame v fuel : ∀ e h h',
  v ∉ wrapper_vars e → var_protected h v → use fuel e h = Ok h' →
  (v ∈ var_is_emitted h' ↔ v ∈ var_is_emitted h) ∧ var_protected h' v.
Proof.
  set (I := fun a b : Heap => v ∈ var_is_emitted b ↔ v ∈ var_is_emitted a).
  induction fuel as [|fuel IH]; intros e h h' Hv Hp E; [discriminate|].
  assert (Heach : ∀ deps h h', Forall (fun d => v ∉ wrapper_vars d) deps →
            var_protected h v → use_each (use fuel) deps h = Ok h' →
            I h h' ∧ var_protected h' v).
  { apply use_each_frame; unfold I; [tauto|intros; tauto|].
    intros d h1 h2 Hd Hp1 E1. eapply IH; eassumption. }
  assert (Hdeps : ∀ h0, Forall (fun d => v ∉ wrapper_vars d) (dependencies h0 e)).
  { intros h0. apply Forall_forall. intros d Hd Hvd.
    apply Hv. by eapply dependencies_wrapper_vars. }
  destruct e; cbn [use] in E;
    try (eapply Heach, E; [apply Hdeps | done]; fail).
  - (* Cast *)
    unfold heap_unify in E. destruct (unify _ _ _) as [b ts]. cbn [snd] in E.
    eapply (Heach _ (set_types ts h)) in E; [done|apply Hdeps|done].
  - (* EvalOnceExpr *)
    apply res_bind_Ok in E as (h1 & E1 & E2). injection E2 as <-.
    simpl in Hv. apply not_elem_of_cons in Hv as [Hne Hv].
    cut ((v ∈ var_is_emitted h1 ↔ v ∈ var_is_emitted h) ∧ var_protected h1 v).
    { intros [? ?]. split; [done|]. done. }
    destruct (trivial || _).
    + by eapply IH.
    + destruct (negb (is_used h oid)).
      * destruct (negb emit_exactly_once); [by eapply IH|].
        by injection E1 as <-.
      * injection E1 as <-. split; [|done]. simpl. set_solver.
  - (* NaivePhiExpr *)
    set (h1 := count_phi_usage _ oid h) in *.
    assert (H1 : (v ∈ var_is_emitted h1 ↔ v ∈ var_is_emitted h)
                 ∧ phi_replacement_expr h1 = phi_replacement_expr h).
    { unfold h1, count_phi_usage. by destruct (Nat.eqb _ _). }
    destruct H1 as [H1 H2].
    assert (Hp1 : var_protected h1 v).
    { intros p r. rewrite H2. apply Hp. }
    destruct (replacement_expr h1 oid) as [r|] eqn:Er.
    + eapply IH in E; [|by eapply Hp1|done]. destruct E. split; [tauto|done].
    + by injection E as <-.
Qed.

(** *** Termination of [use] on a heap without replacement expressions *)

Lemma depth_args (args : list Expression) d :
  d ∈ args →
  (depth d ≤ (fix go (l : list Expression) : nat :=
               match l with
               | [] => O
               | x :: l => Nat.max (depth x) (go l)
               end) args)%nat.
Proof.
  induction args as [|a args IH]; intros Hd.
  - by apply elem_of_nil in Hd.
  - apply elem_of_cons in Hd as [->|Hd]; [lia|]. specialize (IH Hd). lia.
Qed.

Lemma dependencies_depth h e d :
  d ∈ dependencies h e → (depth d < depth e)%nat.
Proof.
  destruct e; simpl; intros Hd;
    repeat match goal with
    | Hd : _ ∈ [] |- _ => by apply elem_of_nil in Hd
    | Hd : _ ∈ _ :: _ |- _ => apply elem_of_cons in Hd as [->|Hd]
    end; try lia.
  - apply elem_of_app in Hd as [Hd|Hd].
    + apply depth_args in Hd. lia.
    + apply list_elem_of_singleton in Hd as ->. lia.
  - destruct (uses_var _ _ _).
    + by apply elem_of_nil in Hd.
    + apply list_elem_of_singleton in Hd as ->. lia.
Qed.

Lemma use_each_total (u : Expression → Heap → Res Heap) (P : Heap → Prop)
    (Q : Expression → Prop) :
  (∀ e h, Q e → P h → ∃ h', u e h = Ok h' ∧ P h') →
  ∀ deps h, Forall Q deps → P h → ∃ h', use_each u deps h = Ok h' ∧ P h'.
Proof.
  intros Hu deps. induction deps as [|e deps IH]; simpl; intros h HQ HP.
  - eauto.
  - apply Forall_cons in HQ as [Hq HQ].
    destruct (Hu _ _ Hq HP) as (h1 & -> & P1). simpl. by apply IH.
Qed.

Lemma use_total fuel : ∀ e h,
  phi_replacement_expr h = ∅ → (depth e < fuel)%nat →
  ∃ h', use fuel e h = Ok h' ∧ phi_replacement_expr h' = ∅.
Proof.
  induction fuel as [|fuel IH]; intros e h Hr Hd; [lia|].
  assert (Heach : ∀ h0, phi_replacement_expr h0 = ∅ →
            ∃ h', use_each (use fuel) (dependencies h0 e) h0 = Ok h'
                  ∧ phi_replacement_expr h' = ∅).
  { intros h0 Hr0.
    apply (use_each_total _ (fun h => phi_replacement_expr h = ∅)
             (fun d => (depth d < fuel)%nat)); [|apply Forall_forall|done].
    - intros d h1 ? ?. by apply IH.
    - intros d Hin. apply dependencies_depth in Hin. lia. }
  destruct e; cbn [use]; try (by apply Heach).
  - (* Cast *)
    unfold heap_unify. destruct (unify _ _ _) as [b ts]. cbn [snd].
    by apply (Heach (set_types ts h)).
  - (* EvalOnceExpr *)
    simpl in Hd.
    destruct (trivial || _).
    + destruct (IH e h Hr) as (h1 & -> & ?); [lia|]. simpl. eauto.
    + destruct (negb (is_used h oid)).
      * destruct (negb emit_exactly_once).
        -- destruct (IH e h Hr) as (h1 & -> & ?); [lia|]. simpl. eauto.
        -- simpl. eauto.
      * simpl. eauto.
  - (* NaivePhiExpr *)
    set (h1 := count_phi_usage _ oid h).
    assert (H1 : phi_replacement_expr h1 = ∅).
    { unfold h1, count_phi_usage. by destruct (Nat.eqb _ _). }
    unfold replacement_expr. rewrite H1, lookup_empty. eauto.
Qed.

(** ** [EvalOnceExpr.use] and [EvalOnceExpr.force] *)

Lemma is_emitted_set_is_emitted v h : is_emitted (set_is_emitted v h) v = true.
Proof. unfold is_emitted. apply bool_decide_eq_true. simpl. set_solver. Qed.

Lemma is_emitted_iff h h' v :
  (var_id v ∈ var_is_emitted h' ↔ var_id v ∈ var_is_emitted h) →
  is_emitted h' v = is_emitted h v.
Proof. intros Hiff. unfold is_emitted. by apply bool_decide_ext. Qed.

Lemma is_used_set_is_used oid h : is_used (set_is_used oid h) oid = true.
Proof. unfold is_used. apply bool_decide_eq_true. simpl. set_solver. Qed.

(** One [use] of a wrapper that is still transparent (or trivial) forwards to
    the wrapped expression and leaves the wrapper's own var alone. *)
Lemma use_transparent_step fuel oid w v ty src eeo trivial transparent h h' :
  trivial || transparent = true →
  is_emitted h v = false →
  var_id v ∉ wrapper_vars w →
  var_protected h (var_id v) →
  use fuel (EvalOnceExpr oid w v ty src eeo trivial transparent) h = Ok h' →
  is_emitted h' v = false ∧ var_protected h' (var_id v).
Proof.
  intros Htt Hem Hv Hp E. destruct fuel as [|fuel]; [discriminate|].
  cbn [use] in E. rewrite Hem in E.
  replace (trivial || transparent && negb false) with true in E
    by (destruct trivial, transparent; done).
  apply res_bind_Ok in E as (h1 & E1 & E2). injection E2 as <-.
  destruct (use_frame _ _ _ _ _ Hv Hp E1) as [Hiff Hp1].
  split; [|done].
  rewrite <- Hem. apply is_emitted_iff. simpl. done.
Qed.

(** Claim C9.  [force] on a trivial wrapper changes nothing; after a
    [force] that returned, a second [force] returns the very same heap (the
    wrapper, its var and everything reachable from the wrapped expression
    are untouched); and on a heap without replacement expressions the
    first [force] does return. *)
Theorem force_idempotent_trivial_safe
    oid w v ty src eeo trivial transparent (h : Heap) :
  let e := EvalOnceExpr oid w v ty src eeo trivial transparent in
  (trivial = true → ∀ fuel, force fuel e h = Ok h)
  ∧ (∀ fuel h1, force fuel e h = Ok h1 → ∀ fuel', force fuel' e h1 = Ok h1)
  ∧ (phi_replacement_expr h = ∅ → ∃ h1, force (S (depth e)) e h = Ok h1).
Proof.
  intros e. split; [|split].
  - intros -> fuel. unfold e, force. by rewrite andb_false_r.
  - intros fuel h1 E fuel'. unfold e, force in *.
    destruct (negb (forced_emit h oid) && negb trivial) eqn:Ec.
    + apply res_bind_Ok in E as (h2 & E1 & E2).
      apply use_forced_emit in E1, E2.
      assert (Hf : forced_emit h1 oid = true).
      { unfold forced_emit. apply bool_decide_eq_true.
        rewrite E2, E1. simpl. set_solver. }
      by rewrite Hf.
    + injection E as <-. by rewrite Ec.
  - intros Hr. subst e. unfold force.
    set (e := EvalOnceExpr oid w v ty src eeo trivial transparent).
    destruct (negb (forced_emit h oid) && negb trivial); [|eauto].
    set (h0 := set_is_emitted v (set_forced_emit oid h)).
    destruct (use_total (S (depth e)) e h0) as (h1 & E1 & Hr1); [done|lia|].
    destruct (use_total (S (depth e)) e h1) as (h2 & E2 & Hr2); [done|lia|].
    exists h2. rewrite E1. exact E2.
Qed.

Lemma use_times_transparent fuel oid w v ty src eeo trivial transparent n :
  trivial || transparent = true →
  var_id v ∉ wrapper_vars w →
  ∀ h h',
  is_emitted h v = false →
  var_protected h (var_id v) →
  use_times fuel n (EvalOnceExpr oid w v ty src eeo trivial transparent) h
    = Ok h' →
  is_emitted h' v = false.
Proof.
  intros Htt Hv. induction n as [|n IH]; simpl; intros h h' Hem Hp E.
  - by injection E as <-.
  - apply res_bind_Ok in E as (h1 & E1 & E2).
    destruct (use_transparent_step _ _ _ _ _ _ _ _ _ _ _ Htt Hem Hv Hp E1).
    by eapply IH.
Qed.

(** Claim C1, as the code has it.  For a wrapper that has not been used and
    whose var is not emitted (the var being the wrapper's own: no wrapper
    nested in it, and no replacement expression, mentions it):
    - a trivial or transparent wrapper forwards every [use] and its var
      stays unemitted however often it is used;
    - an opaque wrapper (neither trivial nor transparent) leaves its var
      unemitted on the first [use] and marks it emitted on the second;
    - on a heap without replacement expressions both calls return. *)
Theorem eval_once_use_protocol
    oid w v ty src eeo trivial transparent (h : Heap) :
  let e := EvalOnceExpr oid w v ty src eeo trivial transparent in
  is_used h oid = false →
  is_emitted h v = false →
  var_id v ∉ wrapper_vars w →
  var_protected h (var_id v) →
  (trivial || transparent = true →
     ∀ n fuel h', use_times fuel n e h = Ok h' → is_emitted h' v = false)
  ∧ (trivial = false → transparent = false →
     ∀ fuel1 fuel2 h1 h2,
       use fuel1 e h = Ok h1 → use fuel2 e h1 = Ok h2 →
       is_emitted h1 v = false ∧ is_emitted h2 v = true)
  ∧ (phi_replacement_expr h = ∅ →
     ∃ h1 h2, use (S (depth e)) e h = Ok h1 ∧ use (S (depth e)) e h1 = Ok h2).
Proof.
  intros e Hun Hem Hv Hp. split; [|split].
  - intros Htt n fuel h' E. by eapply use_times_transparent.
  - intros -> -> fuel1 fuel2 h1 h2 E1 E2.
    destruct fuel1 as [|fuel1]; [discriminate|].
    destruct fuel2 as [|fuel2]; [discriminate|].
    unfold e in *. cbn [use orb andb] in E1. rewrite Hun in E1.
    cbn [negb] in E1.
    apply res_bind_Ok in E1 as (h0 & E0 & E1). injection E1 as <-.
    assert (H0 : is_emitted h0 v = false).
    { destruct (negb eeo).
      - destruct (use_frame _ _ _ _ _ Hv Hp E0) as [Hiff _].
        rewrite <- Hem. by apply is_emitted_iff.
      - by injection E0 as <-. }
    split; [exact H0|].
    cbn [use orb andb] in E2. rewrite is_used_set_is_used in E2.
    cbn [negb] in E2. simpl in E2. injection E2 as <-.
    unfold is_emitted. apply bool_decide_eq_true. simpl. set_solver.
  - intros Hr.
    destruct (use_total (S (depth e)) e h) as (h1 & E1 & Hr1); [done|lia|].
    destruct (use_total (S (depth e)) e h1) as (h2 & E2 & Hr2); [done|lia|].
    eauto.
Qed.

(** ** The callee-saved region *)






(** ** Classification of stack offsets *)

(** The branch of [get_stack_var] named by [stack_class], for the two
    classes whose result is built on the spot. *)
Lemma get_stack_var_branch location store (h : Heap) (s : StackInfo) :
  (stack_class s location = CalleeSaved →
     get_stack_var location store (h, s) =
       (Ok (LocalVar location (fst (heap_new_type T_any_reg h)) None),
        (snd (heap_new_type T_any_reg h), s)))
  ∧ (stack_class s location = SubroutineArgument →
     get_stack_var location store (h, s) =
       (Ok (SubroutineArg location (fst (heap_new_type T_any_reg h))),
        (snd (heap_new_type T_any_reg h), s))).
Proof.
  unfold stack_class, get_stack_var.
  cbv [mbind Eff_bind zoom get_state fst snd].
  destruct (in_callee_save_reg_region s location).
  { split; [|done]. intros _. cbv [on_heap zoom state_fn mret Eff_ret fst snd].
    by destruct (heap_new_type _ _). }
  destruct (location_above_stack s location); [done|].
  destruct (in_subroutine_arg_region s location); [|done].
  split; [done|]. intros _. cbv [on_heap zoom state_fn mret Eff_ret fst snd].
  by destruct (heap_new_type _ _).
Qed.

(** Claim C5, as the code has it.  [get_stack_var] tries the predicates in
    the order callee-saved, above the frame, subroutine argument, and falls
    back to local: every offset gets exactly one class.  The predicates
    themselves exclude one another when the callee-saved region lies inside
    the frame, the subroutine-argument boundary is at or below that region
    and below the frame size, and the offset is not the PowerPC
    link-register slot [allocated_stack_size + 4]. *)
Theorem stack_class_partition (s : StackInfo) (location : Z) :
  (stack_class s location = CalleeSaved
     ↔ in_callee_save_reg_region s location = true)
  ∧ (stack_class s location = CallerArgument
     ↔ in_callee_save_reg_region s location = false
       ∧ location_above_stack s location = true)
  ∧ (stack_class s location = SubroutineArgument
     ↔ in_callee_save_reg_region s location = false
       ∧ location_above_stack s location = false
       ∧ in_subroutine_arg_region s location = true)
  ∧ (stack_class s location = LocalVariable
     ↔ in_callee_save_reg_region s location = false
       ∧ location_above_stack s location = false
       ∧ in_subroutine_arg_region s location = false)
  ∧ (snd (callee_save_reg_region s) ≤ allocated_stack_size s →
     subroutine_arg_top s ≤ fst (callee_save_reg_region s) →
     subroutine_arg_top s ≤ allocated_stack_size s →
     (arch s = PPC → location ≠ allocated_stack_size s + 4) →
     ¬ (in_callee_save_reg_region s location = true
        ∧ location_above_stack s location = true)
     ∧ ¬ (in_callee_save_reg_region s location = true
          ∧ in_subroutine_arg_region s location = true)
     ∧ ¬ (location_above_stack s location = true
          ∧ in_subroutine_arg_region s location = true)).
Proof.
  unfold stack_class.
  split; [|split; [|split; [|split]]].
  1-4: destruct (in_callee_save_reg_region s location),
         (location_above_stack s location),
         (in_subroutine_arg_region s location); naive_solver.
  intros Hup Hlow Htop Hlr.
  unfold in_callee_save_reg_region, location_above_stack,
    in_subroutine_arg_region.
  destruct (callee_save_reg_region s) as [lo hi]. simpl in Hup, Hlow.
  repeat case_bool_decide; repeat case_decide; simpl;
    destruct (is_leaf s); simpl;
    repeat split; intros [? ?]; try discriminate; try lia;
    repeat case_bool_decide; try discriminate; try lia; naive_solver.
Qed.

(** ** Names of temporaries *)

Lemma pretty_N_go_no_underscore x : ∀ s,
  has_underscore s = false → has_underscore (pretty_N_go x s) = false.
Proof.
  induction (N.lt_wf_0 x) as [x _ IH]; intros s Hs.
  assert (x = 0 ∨ 0 < x)%N as [->|Hpos] by lia.
  - by rewrite pretty_N_go_0.
  - rewrite pretty_N_go_step by done. apply IH.
    + by apply N.div_lt.
    + simpl. rewrite Hs. unfold pretty_N_char.
      by repeat case_match.
Qed.

Lemma pretty_nat_no_underscore (k : nat) : has_underscore (pretty k) = false.
Proof.
  unfold pretty, pretty_nat, pretty, pretty_N. case_decide; [done|].
  by apply pretty_N_go_no_underscore.
Qed.

Lemma string_app_cons c (s t : string) :
  String c s +:+ t = String c (s +:+ t).
Proof. reflexivity. Qed.

Lemma string_app_nil_l (s : string) : "" +:+ s = s.
Proof. reflexivity. Qed.

Lemma string_app_nil_r (s : string) : s +:+ "" = s.
Proof.
  induction s as [|c s IH]; [done|]. by rewrite string_app_cons, IH.
Qed.

Lemma string_app_inv_l (p s t : string) : p +:+ s = p +:+ t → s = t.
Proof.
  induction p as [|c p IH]; [done|].
  rewrite !string_app_cons. intros [= E]. auto.
Qed.

Lemma has_underscore_app_cons (s d : string) :
  has_underscore (s +:+ String ("_" : Ascii.ascii) d) = true.
Proof.
  induction s as [|c s IH]; [done|].
  rewrite string_app_cons. simpl. rewrite IH. apply orb_true_r.
Qed.

(** A name is split in one way only at its last underscore. *)
Lemma underscore_split (s1 s2 d1 d2 : string) :
  has_underscore d1 = false → has_underscore d2 = false →
  s1 +:+ "_" +:+ d1 = s2 +:+ "_" +:+ d2 → s1 = s2 ∧ d1 = d2.
Proof.
  intros H1 H2. revert s2.
  induction s1 as [|c s1 IH]; intros [|c' s2];
    rewrite ?string_app_cons, ?string_app_nil_l; intros [= E].
  - done.
  - subst d1. by rewrite has_underscore_app_cons in H1.
  - subst d2. by rewrite has_underscore_app_cons in H2.
  - subst. destruct (IH s2) as [-> ->]; done.
Qed.

Lemma numbered_name_first (p : string) : numbered_name p 1 = p.
Proof. unfold numbered_name. simpl. apply string_app_nil_r. Qed.

Lemma numbered_name_next (p : string) (k : nat) :
  (1 < k)%nat → numbered_name p k = p +:+ "_" +:+ pretty k.
Proof. intros Hk. unfold numbered_name. by rewrite decide_True. Qed.

(** Under one prefix the counter values give different names. *)
Lemma numbered_name_inj_counter (p : string) (k1 k2 : nat) :
  (1 ≤ k1)%nat → (1 ≤ k2)%nat →
  numbered_name p k1 = numbered_name p k2 → k1 = k2.
Proof.
  intros Hk1 Hk2 E. unfold numbered_name in E.
  apply string_app_inv_l in E.
  repeat case_decide; try discriminate; try lia.
  apply string_app_inv_l in E. by apply pretty_nat_inj in E.
Qed.

(** Across independent prefixes the names are different as well. *)
Lemma numbered_name_inj (ps : list string) (p q : string) (k1 k2 : nat) :
  prefixes_independent ps → p ∈ ps → q ∈ ps →
  (1 ≤ k1)%nat → (1 ≤ k2)%nat →
  numbered_name p k1 = numbered_name q k2 → p = q ∧ k1 = k2.
Proof.
  intros Hind Hp Hq Hk1 Hk2 E.
  destruct (decide (1 < k1)%nat) as [H1|H1];
    destruct (decide (1 < k2)%nat) as [H2|H2].
  - rewrite !numbered_name_next in E by done.
    apply underscore_split in E as [-> E];
      auto using pretty_nat_no_underscore.
    split; [done|]. by apply pretty_nat_inj in E.
  - replace k2 with 1%nat in * by lia.
    rewrite numbered_name_first, numbered_name_next in E by done.
    by destruct (Hind p q k1).
  - replace k1 with 1%nat in * by lia.
    rewrite numbered_name_first, numbered_name_next in E by done.
    by destruct (Hind q p k2).
  - replace k1 with 1%nat in * by lia. replace k2 with 1%nat in * by lia.
    by rewrite !numbered_name_first in E.
Qed.

Lemma Var_format_inv (ok : string → string → Prop) pool v h s n h' s' :
  pool_wf pool → v ∈ pool →
  (∀ p q k1 k2, ok p q → p ∈ map prefix pool → q ∈ map prefix pool →
     (1 ≤ k1)%nat → (1 ≤ k2)%nat →
     numbered_name p k1 = numbered_name q k2 → p = q ∧ k1 = k2) →
  (∀ p q, ok p q → ok q p) →
  names_issued pool h s → names_distinct ok pool h →
  Var_format v (h, s) = Ok (n, (h', s')) →
  names_issued pool h' s' ∧ names_distinct ok pool h'
  ∧ var_name h' !! var_id v = Some n
  ∧ var_is_emitted h' = var_is_emitted h
  ∧ (∀ u m, var_name h !! var_id u = Some m →
            var_name h' !! var_id u = Some m)
  ∧ (∀ u, var_id u ≠ var_id v →
          var_name h' !! var_id u = var_name h !! var_id u).
Proof.
  intros Hwf Hv Hinj Hsym Hiss Hdist E. unfold Var_format in E.
  destruct (is_emitted h v); [|discriminate].
  destruct (var_name h !! var_id v) as [m|] eqn:Em.
  { injection E as <- <- <-. repeat split; auto. }
  unfold temp_var in E. injection E as <- <- <-.
  set (p := prefix v). set (c := counter_of s p).
  fold (counter_of s p) in *. fold c.
  assert (Hcnt : ∀ q, (counter_of s q ≤ counter_of
            (set_temp_name_counter (<[p:=(c + 1)%nat]> (temp_name_counter s)) s) q)%nat
          ∧ counter_of
            (set_temp_name_counter (<[p:=(c + 1)%nat]> (temp_name_counter s)) s) p
            = (c + 1)%nat).
  { intros q. unfold counter_of. simpl. rewrite lookup_insert_eq. simpl.
    split; [|done]. destruct (decide (p = q)) as [<-|Hne].
    - rewrite lookup_insert_eq. simpl. fold (counter_of s p). lia.
    - by rewrite lookup_insert_ne. }
  assert (Hfresh : ∀ u, u ∈ pool → ok (prefix u) p →
            var_name h !! var_id u = Some (numbered_name p (c + 1)) → False).
  { intros u Hu Hok Eu. destruct (Hiss u _ Hu Eu) as (k & Hk & Ek).
    apply Hinj in Ek as [Ep Ek]; [| by apply Hsym | | |lia..].
    - unfold c in Ek. rewrite Ep in Ek. lia.
    - apply list_elem_of_fmap. eauto.
    - apply list_elem_of_fmap. eauto. }
  repeat split.
  - intros u m Hu Eu. simpl in Eu.
    destruct (decide (var_id v = var_id u)) as [Eid|Hne].
    + rewrite Eid, lookup_insert_eq in Eu. injection Eu as <-.
      assert (u = v) as -> by (by apply Hwf).
      exists (c + 1)%nat. split; [|done].
      destruct (Hcnt p) as [_ Hc]. fold p. lia.
    + rewrite lookup_insert_ne in Eu by done.
      destruct (Hiss u m Hu Eu) as (k & Hk & ->). exists k. split; [|done].
      destruct (Hcnt (prefix u)) as [Hle _]. lia.
  - intros v1 v2 m H1 H2 E1 E2 Hok. simpl in E1, E2.
    destruct (decide (var_id v = var_id v1)) as [Eid1|Hne1];
      destruct (decide (var_id v = var_id v2)) as [Eid2|Hne2].
    + apply Hwf; congruence.
    + rewrite Eid1, lookup_insert_eq in E1. injection E1 as <-.
      rewrite lookup_insert_ne in E2 by done.
      assert (v1 = v) as -> by (by apply Hwf).
      destruct (Hfresh v2 H2); auto.
    + rewrite Eid2, lookup_insert_eq in E2. injection E2 as <-.
      rewrite lookup_insert_ne in E1 by done.
      assert (v2 = v) as -> by (by apply Hwf).
      destruct (Hfresh v1 H1); auto.
    + rewrite lookup_insert_ne in E1, E2 by done. by eapply Hdist.
  - simpl. by rewrite lookup_insert_eq.
  - intros u m Eu. simpl.
    destruct (decide (var_id v = var_id u)) as [Eid|Hne].
    + rewrite Eid in Em. congruence.
    + by rewrite lookup_insert_ne.
  - intros u Hne. simpl. by rewrite lookup_insert_ne.
Qed.

Lemma Var_format_each_inv (ok : string → string → Prop) pool :
  pool_wf pool →
  (∀ p q k1 k2, ok p q → p ∈ map prefix pool → q ∈ map prefix pool →
     (1 ≤ k1)%nat → (1 ≤ k2)%nat →
     numbered_name p k1 = numbered_name q k2 → p = q ∧ k1 = k2) →
  (∀ p q, ok p q → ok q p) →
  ∀ vs h s names h' s',
  Forall (λ v, v ∈ pool) vs →
  names_issued pool h s → names_distinct ok pool h →
  Var_format_each vs (h, s) = Ok (names, (h', s')) →
  names_issued pool h' s' ∧ names_distinct ok pool h'
  ∧ Forall2 (λ v n, var_name h' !! var_id v = Some n) vs names
  ∧ (∀ u m, var_name h !! var_id u = Some m →
            var_name h' !! var_id u = Some m)
  ∧ (∀ u, var_id u ∉ map var_id vs →
          var_name h' !! var_id u = var_name h !! var_id u).
Proof.
  intros Hwf Hinj Hsym vs.
  induction vs as [|v vs IH]; intros h s names h' s' Hvs Hiss Hdist E.
  - injection E as <- <- <-. repeat split; auto.
  - cbn [Var_format_each] in E.
    apply res_bind_Ok in E as ([n [h1 s1]] & E1 & E).
    apply res_bind_Ok in E as ([ns [h2 s2]] & E2 & E).
    injection E as <- <- <-.
    apply Forall_cons in Hvs as [Hv Hvs].
    destruct (Var_format_inv ok pool v h s n h1 s1 Hwf Hv Hinj Hsym Hiss
                Hdist E1) as (Hiss1 & Hdist1 & Hn & _ & Hkeep1 & Hother1).
    destruct (IH h1 s1 ns h2 s2 Hvs Hiss1 Hdist1 E2)
      as (Hiss2 & Hdist2 & Hall & Hkeep2 & Hother2).
    split; [done|]. split; [done|]. split; [|split].
    + constructor; [by apply Hkeep2|done].
    + auto.
    + intros u Hu. simpl in Hu.
      apply not_elem_of_cons in Hu as [Hne Hu].
      rewrite Hother2 by done. by apply Hother1.
Qed.

Lemma Var_format_each_total vs : ∀ (h : Heap) (s : StackInfo),
  Forall (λ v, is_emitted h v = true) vs →
  ∃ names st', Var_format_each vs (h, s) = Ok (names, st').
Proof.
  induction vs as [|v vs IH]; intros h s Hem; [by eexists _, _|].
  apply Forall_cons in Hem as [Hv Hem]. cbn [Var_format_each].
  unfold Var_format. rewrite Hv.
  destruct (var_name h !! var_id v) as [n|].
  - destruct (IH h s Hem) as (ns & [h' s'] & E).
    simpl. rewrite E. by eexists _, _.
  - destruct (temp_var (prefix v) s) as [n s1].
    destruct (IH (set_var_name v n h) s1) as (ns & [h' s'] & E); [done|].
    simpl. rewrite E. by eexists _, _.
Qed.

(** Claim C8, as the code has it.  From a state in which no var of the pool
    has a name yet: formatting an unemitted var fails its assertion; a var
    that was formatted keeps its name, and formatting it again changes
    nothing; a var that is never formatted never gets a name; formatting
    emitted vars always returns; vars with one prefix get different names;
    and vars with different prefixes get different names too provided no
    prefix of the pool is another prefix of the pool followed by an
    underscore and a counter value. *)
Theorem var_names_lazy_and_distinct
    (pool vs : list Var) (h : Heap) (s : StackInfo) :
  pool_wf pool →
  Forall (λ v, v ∈ pool) vs →
  var_name h = ∅ →
  (∀ v, is_emitted h v = false → Var_format v (h, s) = Raise AssertionError)
  ∧ (∀ v n st1, Var_format v (h, s) = Ok (n, st1) →
       Var_format v st1 = Ok (n, st1))
  ∧ (Forall (λ v, is_emitted h v = true) vs →
       ∃ names st', Var_format_each vs (h, s) = Ok (names, st'))
  ∧ (∀ names h' s',
       Var_format_each vs (h, s) = Ok (names, (h', s')) →
       (∀ v, v ∈ pool → v ∉ vs → var_name h' !! var_id v = None)
       ∧ ∀ i j vi vj ni nj,
           vs !! i = Some vi → vs !! j = Some vj →
           names !! i = Some ni → names !! j = Some nj →
           (vi = vj → ni = nj)
           ∧ (vi ≠ vj → prefix vi = prefix vj → ni ≠ nj)
           ∧ (vi ≠ vj → prefixes_independent (map prefix pool) →
              ni ≠ nj)).
Proof.
  intros Hwf Hvs Hempty. split; [|split; [|split]].
  - intros v Hv. unfold Var_format. by rewrite Hv.
  - intros v n [h1 s1] E. unfold Var_format in *.
    destruct (is_emitted h v) eqn:Hem; [|discriminate].
    destruct (var_name h !! var_id v) as [m|] eqn:Em.
    + injection E as <- <- <-. by rewrite Hem, Em.
    + destruct (temp_var (prefix v) s) as [m s2].
      injection E as <- <- <-.
      replace (is_emitted (set_var_name v m h) v) with true by done.
      simpl. by rewrite lookup_insert_eq.
  - apply Var_format_each_total.
  - intros names h' s' E.
    assert (Hiss : names_issued pool h s).
    { intros v n _ Hn. by rewrite Hempty, lookup_empty in Hn. }
    assert (Hd : ∀ ok, names_distinct ok pool h).
    { intros ok v1 v2 n _ _ Hn. by rewrite Hempty, lookup_empty in Hn. }
    destruct (Var_format_each_inv (λ p q, p = q) pool Hwf) with
      (vs := vs) (h := h) (s := s) (names := names) (h' := h') (s' := s')
      as (_ & Hsame & Hall & _ & Hother); auto.
    { intros p q k1 k2 <- _ _ Hk1 Hk2 Ek. split; [done|].
      by eapply numbered_name_inj_counter. }
    split.
    + intros v Hv Hnot. rewrite Hother, Hempty; [apply lookup_empty|].
      intros Hin. apply list_elem_of_fmap in Hin as (u & Eu & Hu).
      assert (v = u) as ->; [|done].
      apply Hwf; [done| |done]. by eapply Forall_forall in Hvs.
    + intros i j vi vj ni nj Hi Hj Hni Hnj.
      assert (Ei : var_name h' !! var_id vi = Some ni)
        by (by eapply Forall2_lookup_lr in Hall).
      assert (Ej : var_name h' !! var_id vj = Some nj)
        by (by eapply Forall2_lookup_lr in Hall).
      assert (Hpi : vi ∈ pool).
      { eapply Forall_forall in Hvs; [done|]. by eapply list_elem_of_lookup_2. }
      assert (Hpj : vj ∈ pool).
      { eapply Forall_forall in Hvs; [done|]. by eapply list_elem_of_lookup_2. }
      split; [|split].
      * intros <-. congruence.
      * intros Hne Hp <-. apply Hne. by eapply Hsame.
      * intros Hne Hind <-. apply Hne.
        destruct (Var_format_each_inv (λ _ _, True) pool Hwf) with
          (vs := vs) (h := h) (s := s) (names := names) (h' := h') (s' := s')
          as (_ & Hdist & _); auto.
        { intros p q k1 k2 _ Hp Hq Hk1 Hk2 Ek.
          by eapply numbered_name_inj. }
        by eapply Hdist.
Qed.

(** ** Reads and writes of registers *)

Lemma getitem_undeclared fuel key instr (h : Heap) (s : StackInfo) regs :
  active_instr regs = Some instr →
  reg_in key (inputs instr) = false →
  ∃ oid desc t h',
    RegInfo_getitem fuel key (h, s, regs)
    = (Ok (ErrorExpr oid desc t), (h', s, regs)).
Proof.
  intros Hact Hin. unfold RegInfo_getitem.
  cbv [mbind Eff_bind regs_self zoom get_state fst snd].
  rewrite Hact, Hin. cbv [negb regs_heap new_ErrorExpr zoom state_fn fst snd
    mbind Eff_bind mret Eff_ret].
  destruct (heap_new_type T_any_reg h) as [t h1].
  destruct (fresh_oid h1) as [oid h2]. by eexists _, _, _, _.
Qed.


Lemma set_with_meta_undeclared key v m instr regs :
  active_instr regs = Some instr →
  reg_in key (outputs instr) = false →
  set_with_meta key v m regs
  = (Raise (DecompFailure ("Undeclared write to " +:+ key)), regs).
Proof.
  intros Hact Hout. unfold set_with_meta.
  cbv [mbind Eff_bind get_state]. by rewrite Hact, Hout.
Qed.

(** *** The zero register is never bound *)









(** Parts of the state that a method does not reach stay as they are. *)
Lemma regs_heap_preserves {A} (P : RegInfo → Prop) (m : Eff Heap A) :
  preserves (λ st : Heap * StackInfo * RegInfo, P (snd st)) (regs_heap m).
Proof.
  apply (preserves_zoom _ (λ _, True)); [done|by intros|apply preserves_True].
Qed.

Lemma regs_stack_preserves {A} (P : RegInfo → Prop)
    (m : Eff (Heap * StackInfo) A) :
  preserves (λ st : Heap * StackInfo * RegInfo, P (snd st)) (regs_stack m).
Proof.
  apply (preserves_zoom _ (λ _, True)); [done|by intros|apply preserves_True].
Qed.

Lemma regs_self_preserves {A} (P : RegInfo → Prop) (m : Eff RegInfo A) :
  preserves P m →
  preserves (λ st : Heap * StackInfo * RegInfo, P (snd st)) (regs_self m).
Proof. intros Hm. by apply (preserves_zoom _ P). Qed.










(** [translate_block] turns an exception of the node body into error
    statements, unless [stop_on_error] is set. *)
Lemma translate_block_catches eval_fn wrap fuel
    (st st' : Heap * StackInfo * NodeState) e :
  translate_node_body eval_fn wrap fuel st = (Raise e, st') →
  translate_block eval_fn wrap fuel true st = (Raise e, st')
  ∧ ∃ cond h',
      translate_block eval_fn wrap fuel false st
      = (Ok {| bi_to_write := error_stmts e; return_value := None;
               bi_switch_control := None;
               bi_branch_condition := Some cond;
               final_register_states := regs (snd st');
               bi_has_function_call := false |},
         (h', snd (fst st'), snd st')).
Proof.
  intros E. unfold translate_block. rewrite E. split; [done|].
  destruct st' as [[h1 s1] n1].
  cbv [mbind Eff_bind node_heap node_self zoom new_ErrorExpr state_fn
    get_state mret Eff_ret fst snd].
  destruct (heap_new_type T_any_reg h1) as [t h2].
  destruct (fresh_oid h2) as [oid h3]. by eexists _, _.
Qed.

(** Claim C3, as the code has it.  Inside an instruction, a read of a
    register that is not among the instruction's inputs does not raise: it
    returns an [ErrorExpr] and leaves the [StackInfo] and the register state
    as they were.  A write of a register that is not among the outputs raises
    [DecompFailure] before the register map is touched.  [translate_block]
    catches whatever the node body raises and writes error comments for the
    node; the exception leaves [translate_block] only when [stop_on_error]
    is set. *)
Theorem undeclared_register_access eval_fn wrap fuel key instr
    (h : Heap) (s : StackInfo) (regs0 : RegInfo) :
  active_instr regs0 = Some instr →
  (reg_in key (inputs instr) = false →
     ∃ oid desc t h',
       RegInfo_getitem fuel key (h, s, regs0)
       = (Ok (ErrorExpr oid desc t), (h', s, regs0)))
  ∧ (reg_in key (outputs instr) = false →
     ∀ v m,
       set_with_meta key v m regs0
       = (Raise (DecompFailure ("Undeclared write to " +:+ key)), regs0))
  ∧ (∀ (st st' : Heap * StackInfo * NodeState) e,
       translate_node_body eval_fn wrap fuel st = (Raise e, st') →
       translate_block eval_fn wrap fuel true st = (Raise e, st')
       ∧ ∃ cond h',
           translate_block eval_fn wrap fuel false st
           = (Ok {| bi_to_write := error_stmts e; return_value := None;
                    bi_switch_control := None;
                    bi_branch_condition := Some cond;
                    final_register_states := regs (snd st');
                    bi_has_function_call := false |},
              (h', snd (fst st'), snd st'))).
Proof.
  intros Hact. split; [|split].
  - intros Hin. by eapply getitem_undeclared.
  - intros Hout v m. by eapply set_with_meta_undeclared.
  - intros st st' e E. by apply translate_block_catches.
Qed.


(** ** Division folding *)

Lemma early_unwrap_ints_unfold h e :
  early_unwrap_ints h e =
    match early_unwrap h e with
    | Cast expr type reinterpret _ as uw_expr =>
        if reinterpret && is_int type (types h)
        then early_unwrap_ints h expr else uw_expr
    | uw_expr => uw_expr
    end.
Proof.
  induction e; try reflexivity.
  cbn [early_unwrap_ints early_unwrap].
  destruct (negb (forced_emit h oid) && negb emit_exactly_once); [|reflexivity].
  exact IHe.
Qed.



(** *** Computations that return *)

Lemma returns_ret {S A} (a : A) (P : A → Prop) :
  P a → returns (mret a : Eff S A) P.
Proof. intros Ha s. by exists a, s. Qed.

Lemma returns_bind {S A B} (m : Eff S A) (k : A → Eff S B) P Q :
  returns m P → (∀ a, P a → returns (k a) Q) → returns (m ≫= k) Q.
Proof.
  intros Hm Hk s. destruct (Hm s) as (a & s1 & E1 & Ha).
  destruct (Hk a Ha s1) as (b & s2 & E2 & Hb).
  exists b, s2. split; [|done].
  unfold mbind, Eff_bind. by rewrite E1.
Qed.



Lemma returns_state_fn {S A} (f : S → A * S) (P : A → Prop) :
  (∀ s, P (f s).1) → returns (state_fn f) P.
Proof.
  intros Hf s. unfold state_fn. specialize (Hf s).
  destruct (f s) as [a s']. by exists a, s'.
Qed.





Lemma returns_new_Literal v : returns (new_Literal v) (is_literal v).
Proof.
  unfold new_Literal. eapply returns_bind.
  - apply (returns_state_fn _ (λ _, True)). done.
  - intros t _. apply returns_ret. by exists t.
Qed.





(** *** Patterns that do not apply *)






















(** *** A pool of integer types *)



Lemma results_eq {S A} (m m' : Eff S A) P :
  m = m' → results m' P → results m P.
Proof. by intros ->. Qed.









Section IntegerTypes.
Hypothesis unify_succeeds : ∀ a b ts, (unify a b ts).1 = true.
Hypothesis no_float : ∀ t ts, is_float t ts = false.
Hypothesis all_int : ∀ t ts, is_int t ts = true.


Lemma returns_as_type_silent e t : returns (as_type e t true) (eq e).
Proof.
  intros h. unfold as_type.
  destruct (weaken_void_ptr t (types h)) as [t' ts].
  pose proof (unify_succeeds (expr_type e) t' ts) as Hu.
  destruct (unify (expr_type e) t' ts) as [u ts']. cbn in Hu. subst u.
  cbn. eauto.
Qed.



Lemma returns_as_type_new_silent c e : returns (as_type_new c true e) (eq e).
Proof.
  unfold as_type_new. eapply returns_bind.
  - apply (returns_state_fn _ (λ _, True)). done.
  - intros t _. apply returns_as_type_silent.
Qed.



Lemma returns_new_node {A} (f : Heap → A * Heap) (k : A → Eff Heap Expression) Q :
  (∀ a, returns (k a) Q) → returns (state_fn f ≫= k) Q.
Proof.
  intros Hk. eapply returns_bind.
  - apply (returns_state_fn _ (λ _, True)). done.
  - intros a _. apply Hk.
Qed.

Lemma returns_BinaryOp_int l op r :
  returns (BinaryOp_int l op r) (is_binop l op r).
Proof.
  unfold BinaryOp_int, as_intish.
  eapply returns_bind; [apply returns_as_type_new_silent|]. intros ? <-.
  eapply returns_bind; [apply returns_as_type_new_silent|]. intros ? <-.
  apply returns_new_node. intros t. apply returns_new_node. intros oid.
  apply returns_ret. by exists oid, t.
Qed.




































End IntegerTypes.




(** ** Naive phis *)

(** *** What the heap operations leave alone *)

Lemma as_type_heap e t s h r h' :
  as_type e t s h = (r, h') → ∃ ts, h' = set_types ts h.
Proof.
  unfold as_type. intros E.
  destruct (weaken_void_ptr t (types h)) as [t' ts0].
  destruct (unify (expr_type e) t' ts0) as [u ts1].
  destruct u.
  { destruct (s || is_Literal e); injection E as <- <-; eauto. }
  destruct (get_pointer_target t' ts0) as [pt|];
    [|injection E as <- <-; eauto].
  destruct (get_deref_field _ _ _ _) as [[[fp ft] ?] ts2].
  destruct fp as [p|]; [|injection E as <- <-; eauto].
  destruct (unify ft pt ts2) as [ok ts3].
  destruct ok; [|injection E as <- <-; eauto].
  destruct (valid_field_path _); [|injection E as <- <-; eauto].
  destruct s; injection E as <- <-; eauto.
Qed.












Lemma on_stack_heap {A} (Q : Heap → Prop) (f : StackInfo → A * StackInfo) :
  preserves (λ hs : Heap * StackInfo, Q hs.1) (on_stack f).
Proof.
  apply (preserves_zoom _ (λ _, True)); [done|by intros|apply preserves_True].
Qed.







(** *** What the loops over the sources change *)


Lemma phis_stack_frame {A} W R (m : Eff StackInfo A) :
  preserves (phi_frame W R) (phis_stack m).
Proof.
  apply (preserves_zoom _ (λ _, True)); [done| |apply preserves_True].
  by intros t st [? ?] _.
Qed.

Lemma phis_planned_frame {A} W R (m : Eff PlannedVars A) :
  preserves (phi_frame W R) (phis_planned m).
Proof.
  apply (preserves_zoom _ (λ _, True)); [done| |apply preserves_True].
  by intros t st [? ?] _.
Qed.



Lemma eff_bind_Ok {S A B} (m : Eff S A) (k : A → Eff S B) s b s' :
  (m ≫= k) s = (Ok b, s') →
  ∃ a s1, m s = (Ok a, s1) ∧ k a s1 = (Ok b, s').
Proof.
  unfold mbind, Eff_bind. destruct (m s) as [[a| |] s1]; try done.
  intros E. by exists a, s1.
Qed.

Lemma assert_Ok {S} (b : bool) (s s' : S) u :
  assert b s = (Ok u, s') → b = true ∧ s' = s.
Proof. unfold assert. destruct b; [|done]. by intros [= _ <-]. Qed.

Lemma zoom_Ok {S T A} (get : S → T) (set : T → S → S) (m : Eff T A) s a s' :
  zoom get set m s = (Ok a, s') →
  ∃ t, m (get s) = (Ok a, t) ∧ s' = set t s.
Proof.
  unfold zoom. destruct (m (get s)) as [r t]. intros E.
  injection E as -> <-. by exists t.
Qed.

















(** ** The assertions of [assign_naive_phis] *)


(** ** Phis in the queue pass the assertions *)

(** *** [use] and the queue *)

Lemma naive_phis_args p (args : list Expression) d :
  d ∈ args → p ∈ naive_phis d →
  p ∈ (fix go (l : list Expression) : list Expression :=
         match l with
         | [] => []
         | x :: l => naive_phis x ++ go l
         end) args.
Proof.
  induction args as [|a args IH]; intros Hd Hp.
  - by apply elem_of_nil in Hd.
  - apply elem_of_cons in Hd as [->|Hd]; apply elem_of_app; auto.
Qed.

Lemma dependencies_naive_phis h e d p :
  d ∈ dependencies h e → p ∈ naive_phis d → p ∈ naive_phis e.
Proof.
  destruct e; simpl; intros Hd Hp;
    repeat match goal with
    | Hd : _ ∈ [] |- _ => by apply elem_of_nil in Hd
    | Hd : _ ∈ _ :: _ |- _ => apply elem_of_cons in Hd as [->|Hd]
    end; try done; repeat (rewrite !elem_of_app); auto.
  - (* FuncCall *)
    apply elem_of_app in Hd as [Hd|Hd].
    + right. by eapply naive_phis_args.
    + apply list_elem_of_singleton in Hd as ->. by left.
  - (* EvalOnceExpr *)
    destruct (uses_var _ _ _).
    + by apply elem_of_nil in Hd.
    + by apply list_elem_of_singleton in Hd as ->.
Qed.

Lemma phis_wf_dependencies G h e d :
  phis_wf G e → d ∈ dependencies h e → phis_wf G d.
Proof. intros He Hd p Hp. apply He. by eapply dependencies_naive_phis. Qed.

Lemma queue_ok_count G e h oid reg n type sources ud :
  e = NaivePhiExpr oid reg n type sources ud →
  phi_wf G e = true → queue_ok G h → queue_ok G (count_phi_usage e oid h).
Proof.
  intros -> Hwf [Hq Hr]. split; [|by unfold count_phi_usage;
                                   destruct (Nat.eqb _ _)].
  assert (Hnum : ∀ h0 : Heap, ∀ o,
            (num_usages h0 o ≤
             num_usages (set_num_usages oid (num_usages h0 oid + 1) h0) o)%nat
            ∧ (0 < num_usages
                     (set_num_usages oid (num_usages h0 oid + 1) h0) oid)%nat).
  { intros h0 o. unfold num_usages, set_num_usages. cbn. split.
    - destruct (decide (o = oid)) as [->|Hne].
      + rewrite lookup_insert_eq. cbn. lia.
      + by rewrite lookup_insert_ne.
    - rewrite lookup_insert_eq. cbn. lia. }
  assert (Hkeep : ∀ h0 : Heap, ∀ p,
            naive_phi_checks G h0 p = true →
            naive_phi_checks G
              (set_num_usages oid (num_usages h0 oid + 1) h0) p = true).
  { intros h0 p. destruct p; try done. cbn [naive_phi_checks].
    intros [[H1 H2]%andb_prop H3]%andb_prop.
    rewrite H2, H3, !andb_true_r. apply Nat.ltb_lt in H1. apply Nat.ltb_lt.
    destruct (Hnum h0 oid0) as [Hle _]. lia. }
  intros p Hp. unfold count_phi_usage in *.
  destruct (Nat.eqb (num_usages h oid) 0) eqn:E0.
  - cbn in Hp. apply elem_of_app in Hp as [Hp|Hp].
    + apply Hkeep. exact (Hq _ Hp).
    + apply list_elem_of_singleton in Hp as ->. cbn [naive_phi_checks].
      cbn [phi_wf] in Hwf. rewrite <- andb_assoc, Hwf, andb_true_r.
      apply Nat.ltb_lt.
      apply (Hnum (append_used_naive_phi
                     (NaivePhiExpr oid reg n type sources ud) h) oid).
  - apply Hkeep, Hq. exact Hp.
Qed.

Lemma use_each_queue_ok G (u : Expression → Heap → Res Heap) :
  (∀ e h h', phis_wf G e → queue_ok G h → u e h = Ok h' → queue_ok G h') →
  ∀ deps h h', Forall (phis_wf G) deps → queue_ok G h →
    use_each u deps h = Ok h' → queue_ok G h'.
Proof.
  intros Hu deps. induction deps as [|e deps IH]; simpl; intros h h' HQ HP E.
  - by injection E as <-.
  - apply res_bind_Ok in E as (h1 & E1 & E2).
    apply Forall_cons in HQ as [Hq HQ]. eauto.
Qed.

Lemma use_queue_ok G fuel : ∀ e h h',
  phis_wf G e → queue_ok G h → use fuel e h = Ok h' → queue_ok G h'.
Proof.
  induction fuel as [|fuel IH]; intros e h h' He Hh E; [discriminate|].
  pose proof (use_each_queue_ok G (use fuel) IH) as Heach.
  assert (Hdeps : ∀ h0, Forall (phis_wf G) (dependencies h0 e)).
  { intros h0. apply Forall_forall. intros d Hd.
    by eapply phis_wf_dependencies. }
  destruct e; cbn [use] in E;
    try (eapply Heach, E; [apply Hdeps | done]; fail).
  - (* Cast *)
    unfold heap_unify in E. destruct (unify _ _ _) as [b ts]. cbn [snd] in E.
    eapply (Heach _ (set_types ts h)) in E; [done|apply Hdeps|exact Hh].
  - (* EvalOnceExpr *)
    apply res_bind_Ok in E as (h1 & E1 & E2). injection E2 as <-.
    cut (queue_ok G h1); [intros Hq1; exact Hq1|].
    assert (Hw : phis_wf G e) by exact He.
    destruct (trivial || _).
    + by eapply IH.
    + destruct (negb (is_used h oid)).
      * destruct (negb emit_exactly_once); [by eapply IH|].
        by injection E1 as <-.
      * injection E1 as <-. exact Hh.
  - (* NaivePhiExpr *)
    set (h1 := count_phi_usage _ oid h) in *.
    assert (H1 : queue_ok G h1).
    { eapply queue_ok_count; [done| |done]. apply He. cbn. set_solver. }
    destruct (replacement_expr h1 oid) as [r|] eqn:Er.
    + eapply IH in E; [done| |done]. destruct H1 as [_ Hr]. by eapply Hr.
    + by injection E as <-.
Qed.


(** *** The traversals up to the dominator *)

Lemma elem_of_stack_extend n stack items :
  n ∈ stack_extend stack items ↔ n ∈ items ∨ n ∈ stack.
Proof.
  unfold stack_extend. rewrite elem_of_app, !list_elem_of_In, <- in_rev.
  done.
Qed.

Lemma reg_sources_loop_inv G D child reg fuel :
  ∀ stack seen sources ud r,
    sources_inv G D child reg stack seen sources ud →
    reg_sources_loop fuel G D reg stack seen sources ud = Ok r →
    r = ([], false)
    ∨ ∃ seen', sources_inv G D child reg [] seen' r.1 r.2.
Proof.
  induction fuel as [|fuel IH]; intros stack seen sources ud r Hinv E;
    [discriminate|].
  cbn [reg_sources_loop] in E.
  destruct stack as [|n stack]; [injection E as <-; right; by exists seen|].
  destruct Hinv as (HD & Hpar & Hclos & Hclob & Hud & found & Hnd & Hlen & Hf).
  destruct (bool_decide (n ∈ seen)) eqn:Eseen.
  - apply bool_decide_eq_true in Eseen. apply IH in E; [done|].
    split; [done|]. split; [|split; [|split; [done|split]]].
    + intros p Hp. destruct (Hpar p Hp) as [?|[->|?]%elem_of_cons]; auto.
    + intros m p Hm HmD Hw Hp.
      destruct (Hclos m p Hm HmD Hw Hp) as [?|[->|?]%elem_of_cons]; auto.
    + destruct (Nat.eqb_spec n D) as [->|HnD]; [done|]. intros Hu.
      destruct (Hud Hu) as [H1 H2]. split.
      * intros Hp. by apply H1, elem_of_cons in Hp as [->|?].
      * intros m Hm HmD Hw Hp.
        by apply (H2 m Hm HmD Hw), elem_of_cons in Hp as [->|?].
    + by exists found.
  - apply bool_decide_eq_false in Eseen.
    assert (HnD : n ≠ D) by (intros ->; done).
    destruct (Nat.eqb_spec n D) as [|_]; [done|].
    destruct (last_write reg (rev (instructions (node_at G n)))) as [i| |]
      eqn:Ew.
    + apply IH in E; [done|].
      split; [set_solver|]. split; [|split; [|split; [|split]]].
      * intros p Hp.
        destruct (Hpar p Hp) as [?|[->|?]%elem_of_cons]; [left|left|right];
          set_solver.
      * intros m p [->%elem_of_singleton|Hm]%elem_of_union HmD Hw Hp;
          [congruence|].
        destruct (Hclos m p Hm HmD Hw Hp) as [?|[->|?]%elem_of_cons];
          [left|left|right]; set_solver.
      * intros m [->%elem_of_singleton|Hm]%elem_of_union HmD;
          [congruence|by apply Hclob].
      * intros Hu. destruct (Hud Hu) as [H1 H2]. split.
        -- intros Hp. by apply H1, elem_of_cons in Hp as [->|?].
        -- intros m [->%elem_of_singleton|Hm]%elem_of_union HmD Hw Hp;
             [congruence|].
           by apply (H2 m Hm HmD Hw), elem_of_cons in Hp as [->|?].
      * exists (found ++ [n]). split; [|split].
        -- apply NoDup_app. split; [done|]. split; [|apply NoDup_singleton].
           intros m Hm ->%list_elem_of_singleton. apply Hf in Hm. tauto.
        -- rewrite !length_app, Hlen. done.
        -- intros m. rewrite elem_of_app, list_elem_of_singleton, Hf.
           split.
           ++ intros [(? & ? & ?)| ->]; [split; [set_solver|done]|].
              split; [set_solver|]. split; [done|]. by exists i.
           ++ intros ([->%elem_of_singleton|Hm]%elem_of_union & ? & ?);
                [by right|by left].
    + injection E as <-. by left.
    + apply IH in E; [done|].
      split; [set_solver|]. split; [|split; [|split; [|split]]].
      * intros p Hp. rewrite elem_of_stack_extend.
        destruct (Hpar p Hp) as [?|[->|?]%elem_of_cons];
          [left|left|right; right]; set_solver.
      * intros m p [->%elem_of_singleton|Hm]%elem_of_union HmD Hw Hp;
          rewrite elem_of_stack_extend; [by right; left|].
        destruct (Hclos m p Hm HmD Hw Hp) as [?|[->|?]%elem_of_cons];
          [left|left|right; right]; set_solver.
      * intros m [->%elem_of_singleton|Hm]%elem_of_union HmD;
          [congruence|by apply Hclob].
      * intros Hu. destruct (Hud Hu) as [H1 H2]. split.
        -- intros Hp. rewrite elem_of_stack_extend. right.
           by apply H1, elem_of_cons in Hp as [->|?].
        -- intros m [->%elem_of_singleton|Hm]%elem_of_union HmD Hw Hp;
             rewrite elem_of_stack_extend; [by left|right].
           by apply (H2 m Hm HmD Hw), elem_of_cons in Hp as [->|?].
      * exists found. split; [done|]. split; [done|].
        intros m. rewrite Hf. split.
        -- intros (? & ? & ?). split; [set_solver|done].
        -- intros ([->%elem_of_singleton|Hm]%elem_of_union & ? & [i Hi]);
             [congruence|]. split; [done|]. split; [done|]. by exists i.
Qed.

Lemma reg_sources_inv G fuel child D reg r :
  immediate_dominator (node_at G child) = Some D →
  reg_sources fuel G child reg = Ok r →
  r = ([], false) ∨ ∃ seen, sources_inv G D child reg [] seen r.1 r.2.
Proof.
  unfold reg_sources. intros -> E.
  eapply reg_sources_loop_inv; [|exact E].
  split; [by apply elem_of_singleton|]. split; [|split; [|split; [|split]]].
  - intros p Hp. right. apply elem_of_stack_extend. by left.
  - by intros n p ->%elem_of_singleton.
  - by intros n ->%elem_of_singleton.
  - intros _. split.
    + intros Hp. apply elem_of_stack_extend. by left.
    + by intros n ->%elem_of_singleton.
  - exists []. split; [apply NoDup_nil_2|]. split; [done|].
    intros n. split; [by intros ?%elem_of_nil|].
    by intros (->%elem_of_singleton & ? & _).
Qed.

Lemma between_not_dominator G D child n : between G D child n → n ≠ D.
Proof. by intros [p ? ?|m p ? ? ?]. Qed.

Lemma between_parent_other G D child n :
  between G D child n → ∃ p, p ∈ parents (node_at G child) ∧ p ≠ D.
Proof. induction 1 as [p ? ?|m p ? IH ? ?]; [by exists p|done]. Qed.

Lemma two_elements {A} (x y : A) (l : list A) :
  x ∈ l → y ∈ l → x ≠ y → (2 ≤ length l)%nat.
Proof.
  intros Hx Hy Hne. destruct l as [|a [|b l]]; cbn; [|exfalso|lia].
  - by apply elem_of_nil in Hx.
  - apply list_elem_of_singleton in Hx, Hy. congruence.
Qed.

(** A node that has a node between itself and its immediate dominator has
    two parents. *)
Lemma between_two_parents G D child n :
  between G D child n → (∀ X, X ≠ D → walks_back G D X child) →
  (2 ≤ length (parents (node_at G child)))%nat.
Proof.
  intros (p & Hp & HpD)%between_parent_other Hwalk.
  destruct (Hwalk p HpD) as [m Hm|m q Hq _ Hqp _].
  - by apply (two_elements p D).
  - apply (two_elements p q); [done|done|congruence].
Qed.

Lemma last_write_NotWritten reg instrs :
  last_write reg instrs = NotWritten →
  ∀ instr, instr ∈ instrs →
    (LReg reg ∉ outputs instr) ∧ (LReg reg ∉ clobbers instr).
Proof.
  induction instrs as [|i instrs IH]; intros E instr Hin;
    [by apply elem_of_nil in Hin|].
  cbn [last_write] in E. unfold reg_in in E.
  destruct (bool_decide (LReg reg ∈ outputs i)) eqn:Eo; [done|].
  destruct (bool_decide (LReg reg ∈ clobbers i)) eqn:Ec; [done|].
  apply bool_decide_eq_false in Eo, Ec.
  apply elem_of_cons in Hin as [->|Hin]; [done|by apply IH].
Qed.

(** Without a source, every node between the node and its dominator has
    been seen and leaves the register alone. *)
Lemma sources_none_between G D child reg seen ud n :
  sources_inv G D child reg [] seen [] ud → between G D child n →
  n ∈ seen
  ∧ last_write reg (rev (instructions (node_at G n))) = NotWritten.
Proof.
  intros (HD & Hpar & Hclos & Hclob & _ & found & _ & Hlen & Hf) Hn.
  destruct found; [|done].
  assert (Hw : ∀ m, m ∈ seen → m ≠ D →
            last_write reg (rev (instructions (node_at G m))) = NotWritten).
  { intros m Hm HmD.
    destruct (last_write reg (rev (instructions (node_at G m)))) as [i| |]
      eqn:Ew; [|by destruct (Hclob m Hm HmD)|done].
    exfalso. apply (elem_of_nil m), Hf. split; [done|]. split; [done|].
    by exists i. }
  induction Hn as [p Hp HpD|m p Hm IH Hp HpD].
  - destruct (Hpar p Hp) as [?|?%elem_of_nil]; [|done]. auto.
  - destruct IH as [Hs Hwm].
    destruct (Hclos m p Hs (between_not_dominator _ _ _ _ Hm) Hwm Hp)
      as [?|?%elem_of_nil]; [|done]. auto.
Qed.

(** Without the dominator, the sources are not one. *)
Lemma sources_not_single G D child reg seen src :
  sources_inv G D child reg [] seen [src] false →
  (∀ X, X ≠ D → walks_back G D X child) → False.
Proof.
  intros (HD & Hpar & Hclos & Hclob & Hud & found & _ & Hlen & Hf) Hwalk.
  destruct (Hud eq_refl) as [Hud1 Hud2].
  destruct found as [|X [|? ?]]; [done| |done].
  assert (HX : X ≠ D) by (apply Hf, list_elem_of_singleton; done).
  assert (Hgo : ∀ n, walks_back G D X n →
            n = child
            ∨ (n ∈ seen ∧ n ≠ D
               ∧ last_write reg (rev (instructions (node_at G n)))
                   = NotWritten) → False).
  { induction 1 as [n Hn|n p Hp HpD HpX _ IH]; intros Hcase.
    - destruct Hcase as [->|(Hs & HnD & Hw)].
      + by apply Hud1, elem_of_nil in Hn.
      + by apply (Hud2 n Hs HnD Hw), elem_of_nil in Hn.
    - apply IH. right.
      assert (Hps : p ∈ seen).
      { destruct Hcase as [->|(Hs & HnD & Hw)].
        - by destruct (Hpar p Hp) as [?|?%elem_of_nil].
        - by destruct (Hclos n p Hs HnD Hw Hp) as [?|?%elem_of_nil]. }
      split; [done|]. split; [done|].
      destruct (last_write reg (rev (instructions (node_at G p)))) as [i| |]
        eqn:Ew; [|by destruct (Hclob p Hps HpD)|done].
      exfalso. apply HpX, list_elem_of_singleton, Hf.
      split; [done|]. split; [done|]. by exists i. }
  apply (Hgo child); [by apply Hwalk|by left].
Qed.

Lemma elem_of_set_update {A} `{EqDecision A} (x : A) (items s : list A) :
  x ∈ set_update s items → x ∈ s ∨ x ∈ items.
Proof.
  unfold set_update. revert s.
  induction items as [|i items IH]; intros s Hx; [by left|].
  cbn [foldl] in Hx. apply IH in Hx as [Hx|Hx]; [|right; by right].
  destruct (bool_decide (i ∈ s)); [by left|].
  apply elem_of_app in Hx as [?|Hx]; [by left|].
  apply list_elem_of_singleton in Hx as ->. right. by left.
Qed.

Lemma locs_of_instructions (loc : Location) (instrs : list Instruction) :
  ∀ c,
    loc ∈ foldl (fun c instr =>
                   set_update (set_update c (outputs instr)) (clobbers instr))
                c instrs →
    loc ∈ c ∨ ∃ instr, instr ∈ instrs
                       ∧ (loc ∈ outputs instr ∨ loc ∈ clobbers instr).
Proof.
  induction instrs as [|i instrs IH]; intros c Hloc; [by left|].
  cbn [foldl] in Hloc. apply IH in Hloc as [Hloc|(instr & Hin & Hloc)].
  - apply elem_of_set_update in Hloc as [Hloc|Hloc].
    + apply elem_of_set_update in Hloc as [Hloc|Hloc]; [by left|].
      right. exists i. split; [by left|by left].
    + right. exists i. split; [by left|by right].
  - right. exists instr. split; [by right|done].
Qed.

Lemma locs_clobbered_loop_inv G D child fuel :
  ∀ stack seen clobbered r,
    locs_inv G D child stack seen clobbered →
    locs_clobbered_loop fuel G stack seen clobbered = Ok r →
    ∃ seen', locs_inv G D child [] seen' r.
Proof.
  induction fuel as [|fuel IH]; intros stack seen clobbered r Hinv E;
    [discriminate|].
  cbn [locs_clobbered_loop] in E.
  destruct stack as [|n stack]; [injection E as <-; by exists seen|].
  destruct Hinv as (HD & Hstack & Hlocs).
  destruct (bool_decide (n ∈ seen)) eqn:Eseen.
  - apply IH in E; [done|]. split; [done|]. split; [|done].
    intros m Hm. apply Hstack. by right.
  - apply bool_decide_eq_false in Eseen.
    assert (HnD : n ≠ D) by (intros ->; done).
    assert (Hn : between G D child n) by (apply Hstack; [by left|done]).
    apply IH in E; [done|]. split; [|split].
    + apply elem_of_union. by right.
    + intros m [Hm|Hm]%elem_of_stack_extend HmD.
      * by apply (between_step _ _ _ n).
      * apply Hstack; [by right|done].
    + intros loc [Hloc|(instr & Hin & Hloc)]%locs_of_instructions;
        [by apply Hlocs|]. by exists n, instr.
Qed.

(** A location that [locs_clobbered_until_dominator] returns is written or
    clobbered by an instruction between the node and its dominator. *)
Lemma locs_clobbered_between G fuel child D locs loc :
  immediate_dominator (node_at G child) = Some D →
  locs_clobbered_until_dominator fuel G child = Ok locs → loc ∈ locs →
  ∃ m instr, between G D child m ∧ instr ∈ instructions (node_at G m)
             ∧ (loc ∈ outputs instr ∨ loc ∈ clobbers instr).
Proof.
  unfold locs_clobbered_until_dominator. intros -> E Hloc.
  apply (locs_clobbered_loop_inv G D child) in E as (seen & _ & _ & Hlocs);
    [by apply Hlocs|].
  split; [by apply elem_of_singleton|]. split.
  - intros n [Hn|?%elem_of_nil]%elem_of_stack_extend HnD; [|done].
    by apply between_parent.
  - by intros l ?%elem_of_nil.
Qed.

(** The sources and the parents of a new phi. *)
Lemma phi_sources_length G fuel child D reg parent_regs sources ud locs
    src rest :
  immediate_dominator (node_at G child) = Some D →
  (∀ X, X ≠ D → walks_back G D X child) →
  regs_wf G parent_regs →
  locs_clobbered_until_dominator fuel G child = Ok locs → LReg reg ∈ locs →
  reg_sources fuel G child reg = Ok (sources, ud) →
  phi_sources parent_regs reg sources ud = Some (src :: rest) →
  (2 ≤ length (src :: rest))%nat
  ∧ (2 ≤ length (parents (node_at G child)))%nat.
Proof.
  intros Hdom Hwalk Hregs Elocs Hreg Esrc Ephi.
  destruct (locs_clobbered_between _ _ _ _ _ _ Hdom Elocs Hreg)
    as (m & instr & Hm & Hin & Hw).
  split; [|by apply (between_two_parents G D child m)].
  apply (reg_sources_inv _ _ _ _ _ _ Hdom) in Esrc as [[= -> ->]|[seen Hinv]];
    [done|].
  cbn [fst snd] in Hinv.
  assert (Hne : sources ≠ []).
  { intros ->.
    destruct (sources_none_between _ _ _ _ _ _ _ Hinv Hm) as [_ Hnw].
    destruct (last_write_NotWritten _ _ Hnw instr) as [Ho Hc];
      [|by destruct Hw].
    apply list_elem_of_In. rewrite <- in_rev. by apply list_elem_of_In. }
  unfold phi_sources in Ephi. destruct ud.
  - unfold get_raw in Ephi.
    destruct (contents parent_regs !! reg) as [data|] eqn:Edata;
      [|by injection Ephi]. cbn in Ephi.
    destruct (Hregs reg data Edata) as [Hwf _].
    destruct sources as [|s0 sources]; [done|].
    destruct (value data); try discriminate Ephi;
      apply (f_equal (λ o, length (default [] o))) in Ephi;
      cbn [default from_option id] in Ephi; unfold id in Ephi;
      rewrite <- Ephi, length_app; cbn [length].
    all: cbn [phi_wf] in Hwf; try apply andb_true_iff in Hwf as [Hwf _];
      try apply Nat.leb_le in Hwf; lia.
  - injection Ephi as ->. destruct rest as [|? ?]; [|cbn; lia].
    exfalso. by apply (sources_not_single G D child reg seen src).
Qed.

(** *** Computations that keep the invariants *)

Lemma preserves_bind_yields {S A B} (P : S → Prop) (Q : A → Prop)
    (m : Eff S A) (k : A → Eff S B) :
  preserves P m → yields P m Q → (∀ a, Q a → preserves P (k a)) →
  preserves P (m ≫= k).
Proof.
  intros Hm HQ Hk s r s' HP E. unfold mbind, Eff_bind in E.
  destruct (m s) as [[a| |] s1] eqn:Em.
  - eapply Hk; [by eapply HQ|by eapply Hm|exact E].
  - injection E as <- <-. eapply Hm; eauto.
  - injection E as <- <-. eapply Hm; eauto.
Qed.

Lemma yields_bind {S A B} (P : S → Prop) (Q : A → Prop) (R : B → Prop)
    (m : Eff S A) (k : A → Eff S B) :
  preserves P m → yields P m Q → (∀ a, Q a → yields P (k a) R) →
  yields P (m ≫= k) R.
Proof.
  intros Hm HQ Hk s b s' HP E. apply eff_bind_Ok in E as (a & s1 & Em & Ek).
  eapply Hk; [by eapply HQ|by eapply Hm|exact Ek].
Qed.

Lemma yields_ret {S A} (P : S → Prop) (Q : A → Prop) (a : A) :
  Q a → yields P (mret a) Q.
Proof. intros Ha s b s' _ E. by injection E as <- _. Qed.

Lemma yields_raise {S A} (P : S → Prop) (Q : A → Prop) (e : Exn) :
  yields P (raise e : Eff S A) Q.
Proof. by intros s b s' _ E. Qed.

Lemma yields_weaken {S A} (P : S → Prop) (Q R : A → Prop) (m : Eff S A) :
  yields P m Q → (∀ a, Q a → R a) → yields P m R.
Proof. intros Hm HQR s a s' HP E. eapply HQR, Hm; eauto. Qed.

Lemma yields_True {S A} (P : S → Prop) (m : Eff S A) :
  yields P m (λ _, True).
Proof. by intros s a s' _ _. Qed.

Lemma preserves_pure_res {S A} (P : S → Prop) (r : Res A) :
  preserves P (pure_res r : Eff S A).
Proof. intros s r' s' HP E. by injection E as _ <-. Qed.

Lemma yields_pure_res {S A} (P : S → Prop) (r : Res A) :
  yields P (pure_res r : Eff S A) (λ a, r = Ok a).
Proof. intros s a s' _ E. by injection E as -> _. Qed.

Lemma yields_get_state {S} (P : S → Prop) : yields P get_state P.
Proof. intros s a s' HP E. by injection E as <- _. Qed.

Lemma yields_zoom {S T A} (P : S → Prop) (P' : T → Prop) (Q : A → Prop)
    (get : S → T) (set : T → S → S) (m : Eff T A) :
  (∀ s, P s → P' (get s)) → yields P' m Q → yields P (zoom get set m) Q.
Proof.
  intros Hget Hm s a s' HP E. apply zoom_Ok in E as (t & E & _).
  eapply Hm; [by apply Hget|exact E].
Qed.

(** *** The heap *)

Lemma queue_ok_fields G h h' :
  phi_num_usages h' = phi_num_usages h →
  used_naive_phis h' = used_naive_phis h →
  phi_replacement_expr h' = phi_replacement_expr h →
  queue_ok G h → queue_ok G h'.
Proof.
  intros En Eq Er [Hq Hr]. split.
  - intros p Hp. rewrite Eq in Hp. specialize (Hq p Hp).
    destruct p; try done. unfold naive_phi_checks, num_usages in *.
    by rewrite En.
  - intros o r. rewrite Er. apply Hr.
Qed.

Lemma queue_ok_empty G h :
  used_naive_phis h = [] → phi_replacement_expr h = ∅ → queue_ok G h.
Proof.
  intros Eq Er. split.
  - intros p. rewrite Eq. by intros ?%elem_of_nil.
  - intros o r. rewrite Er, lookup_empty. by intros.
Qed.

Lemma blocks_wf_empty G : blocks_wf G ∅.
Proof. intros n b. rewrite lookup_empty. by intros. Qed.

Lemma state_wf_entry G state :
  contents (regs state) = ∅ → branch_condition state = None →
  switch_control state = None → state_wf G state.
Proof.
  intros Er Eb Es. split; [|split].
  - intros reg data. rewrite Er, lookup_empty. by intros.
  - rewrite Eb. by intros.
  - rewrite Es. by intros.
Qed.

Lemma queue_ok_set_types G ts h : queue_ok G h → queue_ok G (set_types ts h).
Proof. by apply queue_ok_fields. Qed.

Lemma queue_ok_fresh_oid G : preserves (queue_ok G) (state_fn fresh_oid).
Proof. apply preserves_state_fn. intros h. by apply queue_ok_fields. Qed.

Lemma queue_ok_new_type G c :
  preserves (queue_ok G) (state_fn (heap_new_type c)).
Proof.
  apply preserves_state_fn. intros h Hh. unfold heap_new_type.
  destruct (new_type c (types h)). by apply queue_ok_set_types.
Qed.

Lemma queue_ok_unify G a b :
  preserves (queue_ok G) (state_fn (heap_unify a b)).
Proof.
  apply preserves_state_fn. intros h Hh. unfold heap_unify.
  destruct (unify a b (types h)). by apply queue_ok_set_types.
Qed.

Lemma queue_ok_as_type G e t s : preserves (queue_ok G) (as_type e t s).
Proof.
  intros h r h' Hh E. apply as_type_heap in E as [ts ->].
  by apply queue_ok_set_types.
Qed.

Lemma queue_ok_use G fuel e :
  phis_wf G e → preserves (queue_ok G) (run_res (use fuel e)).
Proof.
  intros He. apply preserves_run_res. intros h h' Hh E.
  by apply (use_queue_ok G fuel e h h').
Qed.

Lemma as_type_naive_phis e t s h r h' :
  as_type e t s h = (Ok r, h') → naive_phis r = naive_phis e.
Proof.
  unfold as_type. intros E.
  destruct (weaken_void_ptr t (types h)) as [t' ts0].
  destruct (unify (expr_type e) t' ts0) as [u ts1].
  destruct u.
  { by destruct (s || is_Literal e); injection E as <- _. }
  destruct (get_pointer_target t' ts0) as [pt|];
    [|by injection E as <- _].
  destruct (get_deref_field _ _ _ _) as [[[fp ft] ?] ts2].
  destruct fp as [p|]; [|by injection E as <- _].
  destruct (unify ft pt ts2) as [ok ts3].
  destruct ok; [|by injection E as <- _].
  destruct (valid_field_path _); [|done].
  by destruct s; injection E as <- _.
Qed.

Lemma yields_as_type G (P : Heap → Prop) e t s :
  phis_wf G e → yields P (as_type e t s) (phis_wf G).
Proof.
  intros He h r h' _ E. unfold phis_wf.
  by rewrite (as_type_naive_phis _ _ _ _ _ _ E).
Qed.

(** *** The registers *)

Lemma regs_wf_insert G key v m r r' :
  regs_wf G r → phi_wf G v = true → phis_wf G v →
  contents r' = <[key := {| value := v; meta := m |}]> (contents r) →
  regs_wf G r'.
Proof.
  intros Hr Hv1 Hv2 E reg data. rewrite E.
  destruct (decide (key = reg)) as [->|Hne].
  - rewrite lookup_insert_eq. by intros [= <-].
  - rewrite lookup_insert_ne by done. apply Hr.
Qed.

Lemma regs_wf_delete G key r r' :
  regs_wf G r → contents r' = delete key (contents r) → regs_wf G r'.
Proof.
  intros Hr E reg data. rewrite E. intros [_ Hd]%lookup_delete_Some.
  by apply (Hr reg data).
Qed.

Lemma regs_wf_empty G : regs_wf G RegInfo_empty.
Proof. by intros reg data. Qed.

Lemma regs_wf_global_set_with_meta G key v m :
  phi_wf G v = true → phis_wf G v →
  preserves (regs_wf G) (global_set_with_meta key v m).
Proof.
  intros Hv1 Hv2. unfold global_set_with_meta.
  apply (preserves_bind_yields _ (regs_wf G));
    [apply preserves_get_state|apply yields_get_state|]. intros r Hr.
  apply preserves_bind; [apply preserves_assert|]. intros _.
  apply preserves_bind; [apply preserves_assert|]. intros _.
  apply preserves_modify_state. intros r1 _.
  by apply (regs_wf_insert G key v m r).
Qed.

Lemma regs_wf_set_with_meta G key v m :
  phi_wf G v = true → phis_wf G v →
  preserves (regs_wf G) (set_with_meta key v m).
Proof.
  intros Hv1 Hv2. unfold set_with_meta.
  apply (preserves_bind_yields _ (regs_wf G));
    [apply preserves_get_state|apply yields_get_state|]. intros r Hr.
  destruct (active_instr r); [|apply preserves_raise].
  destruct (negb _); [apply preserves_raise|].
  apply preserves_bind; [apply preserves_assert|]. intros _.
  apply preserves_modify_state. intros r1 _.
  by apply (regs_wf_insert G key v m r).
Qed.

Lemma regs_wf_update_meta G key m :
  preserves (regs_wf G) (update_meta key m).
Proof.
  unfold update_meta.
  apply (preserves_bind_yields _ (regs_wf G));
    [apply preserves_get_state|apply yields_get_state|]. intros r Hr.
  apply preserves_bind; [apply preserves_assert|]. intros _.
  destruct (contents r !! key) as [data|] eqn:Ed; [|apply preserves_raise].
  apply preserves_modify_state. intros r1 _.
  destruct (Hr key data Ed).
  by apply (regs_wf_insert G key (value data) m r).
Qed.

Lemma regs_wf_delitem G key : preserves (regs_wf G) (RegInfo_delitem key).
Proof.
  unfold RegInfo_delitem.
  apply (preserves_bind_yields _ (regs_wf G));
    [apply preserves_get_state|apply yields_get_state|]. intros r Hr.
  apply preserves_bind; [apply preserves_assert|]. intros _.
  destruct (contents r !! key) as [data|] eqn:Ed; [|apply preserves_raise].
  apply preserves_modify_state. intros r1 _.
  by apply (regs_wf_delete G key r _ Hr).
Qed.

Lemma regs_wf_inherit_registers G items :
  (∀ reg data, (reg, data) ∈ items →
     phi_wf G (value data) = true ∧ phis_wf G (value data)) →
  preserves (regs_wf G) (inherit_registers items).
Proof.
  induction items as [|[reg data] items IH]; intros Hitems;
    [apply preserves_ret|].
  cbn [inherit_registers].
  destruct (Hitems reg data) as [H1 H2]; [by left|].
  apply preserves_bind; [by apply regs_wf_global_set_with_meta|]. intros _.
  apply IH. intros reg' data' Hin. apply (Hitems reg' data'). by right.
Qed.

Lemma regs_self_wf {A} G (m : Eff RegInfo A) :
  preserves (regs_wf G) m → preserves (regs_state_wf G) (regs_self m).
Proof.
  intros Hm. apply (preserves_zoom _ (regs_wf G)); [by intros st [_ ?]| |done].
  by intros r st [? _] ?.
Qed.

Lemma regs_heap_wf {A} G (m : Eff Heap A) :
  preserves (queue_ok G) m → preserves (regs_state_wf G) (regs_heap m).
Proof.
  intros Hm. apply (preserves_zoom _ (queue_ok G)); [by intros st [? _]| |done].
  by intros h st [_ ?] ?.
Qed.

Lemma regs_stack_wf {A} G (m : Eff (Heap * StackInfo) A) :
  preserves (λ hs : Heap * StackInfo, queue_ok G hs.1) m →
  preserves (regs_state_wf G) (regs_stack m).
Proof.
  intros Hm.
  apply (preserves_zoom _ (λ hs : Heap * StackInfo, queue_ok G hs.1));
    [by intros st [? _]| |done].
  by intros h st [_ ?] ?.
Qed.

(** *** The phis of a dominated node *)

Lemma queue_ok_new_phi G s child reg source sources ud :
  preserves (queue_ok G) (new_phi s child reg source sources ud).
Proof.
  unfold new_phi.
  assert (Hnaive : preserves (queue_ok G)
            (t ← state_fn (heap_new_type T_any_reg);
             oid ← state_fn fresh_oid;
             mret (NaivePhiExpr oid reg child t (source :: sources) ud))).
  { apply preserves_bind; [apply queue_ok_new_type|]. intros t.
    apply preserves_bind; [apply queue_ok_fresh_oid|]. intros oid.
    apply preserves_ret. }
  destruct (get_planned_var reg source s) as [var|]; [|exact Hnaive].
  destruct (forallb _ sources); [|exact Hnaive].
  apply preserves_bind; [apply queue_ok_fresh_oid|]. intros oid.
  apply preserves_ret.
Qed.

Lemma yields_new_phi G (P : Heap → Prop) s child reg source sources ud :
  (2 ≤ length (source :: sources))%nat →
  (2 ≤ length (parents (node_at G child)))%nat →
  yields P (new_phi s child reg source sources ud)
    (λ e, phi_wf G e = true ∧ phis_wf G e).
Proof.
  intros Hs Hp. unfold new_phi.
  assert (Hphi : ∀ oid t,
            phi_wf G (NaivePhiExpr oid reg child t (source :: sources) ud)
              = true).
  { intros oid t. cbn [phi_wf]. apply andb_true_iff.
    split; by apply Nat.leb_le. }
  assert (Hnaive : yields P
            (t ← state_fn (heap_new_type T_any_reg);
             oid ← state_fn fresh_oid;
             mret (NaivePhiExpr oid reg child t (source :: sources) ud))
            (λ e, phi_wf G e = true ∧ phis_wf G e)).
  { intros h e h' _ E. apply eff_bind_Ok in E as (t & h1 & _ & E).
    apply eff_bind_Ok in E as (oid & h2 & _ & E). injection E as <- _.
    split; [done|]. intros p Hin. cbn [naive_phis] in Hin.
    by apply list_elem_of_singleton in Hin as ->. }
  destruct (get_planned_var reg source s) as [var|]; [|exact Hnaive].
  destruct (forallb _ sources); [|exact Hnaive].
  intros h e h' _ E. apply eff_bind_Ok in E as (oid & h1 & _ & E).
  injection E as <- _. split.
  - cbn [phi_wf]. by apply Nat.leb_le.
  - by intros p ?%elem_of_nil.
Qed.

Lemma regs_state_wf_dominated_phi G fuel parent_regs child D locs reg :
  immediate_dominator (node_at G child) = Some D →
  (∀ X, X ≠ D → walks_back G D X child) →
  regs_wf G parent_regs →
  locs_clobbered_until_dominator fuel G child = Ok locs → LReg reg ∈ locs →
  preserves (regs_state_wf G) (dominated_phi fuel G parent_regs child reg).
Proof.
  intros Hdom Hwalk Hparent Elocs Hreg. unfold dominated_phi.
  apply preserves_bind; [apply preserves_get_state|]. intros st.
  destruct (if is_planned_inherited_phi child reg st.1.2
            then get_meta reg st.2 else None) as [meta|].
  { apply regs_self_wf, regs_wf_update_meta. }
  apply (preserves_bind_yields _
           (λ r, reg_sources fuel G child reg = Ok r));
    [apply preserves_pure_res|apply yields_pure_res|].
  intros [sources ud] Esrc.
  destruct (phi_sources parent_regs reg sources ud) as [[|src rest]|] eqn:Ephi;
    [| |apply preserves_raise].
  { destruct (RegInfo_contains reg st.2); [|apply preserves_ret].
    apply regs_self_wf, regs_wf_delitem. }
  destruct (phi_sources_length G fuel child D reg parent_regs sources ud locs
              src rest) as [Hs Hp]; [done..|].
  apply (preserves_bind_yields _ (λ e, phi_wf G e = true ∧ phis_wf G e)).
  - apply regs_heap_wf, queue_ok_new_phi.
  - apply (yields_zoom _ (λ _, True)); [done|]. by apply yields_new_phi.
  - intros e [He1 He2].
    by apply regs_self_wf, regs_wf_global_set_with_meta.
Qed.

Lemma regs_state_wf_dominated_phis G fuel parent_regs child D locs :
  immediate_dominator (node_at G child) = Some D →
  (∀ X, X ≠ D → walks_back G D X child) →
  regs_wf G parent_regs →
  locs_clobbered_until_dominator fuel G child = Ok locs →
  ∀ phi_regs, (∀ loc, loc ∈ phi_regs → loc ∈ locs) →
    preserves (regs_state_wf G)
      (dominated_phis fuel G parent_regs child phi_regs).
Proof.
  intros Hdom Hwalk Hparent Elocs.
  induction phi_regs as [|[reg|?] phi_regs IH]; intros Hsub;
    [apply preserves_ret| |].
  - cbn [dominated_phis]. apply preserves_bind.
    + apply (regs_state_wf_dominated_phi G fuel parent_regs child D locs);
        [done..|]. apply Hsub. by left.
    + intros _. apply IH. intros loc Hloc. apply Hsub. by right.
  - cbn [dominated_phis]. apply IH. intros loc Hloc. apply Hsub. by right.
Qed.

(** *** The methods of a [NodeState] *)

Lemma node_heap_wf {A} G (m : Eff Heap A) :
  preserves (queue_ok G) m → preserves (node_wf G) (node_heap m).
Proof.
  intros Hm. apply (preserves_zoom _ (queue_ok G)); [by intros st [? _]| |done].
  by intros h st (_ & ? & ? & ?) ?.
Qed.

Lemma node_stack_wf {A} G (m : Eff StackInfo A) :
  preserves (node_wf G) (node_stack m).
Proof.
  apply (preserves_zoom _ (λ _, True)); [done| |apply preserves_True].
  by intros h st (? & ? & ? & ?) _.
Qed.

Lemma node_regs_wf {A} G (m : Eff RegInfo A) :
  preserves (regs_wf G) m → preserves (node_wf G) (node_regs m).
Proof.
  intros Hm. unfold node_regs, node_self.
  apply (preserves_zoom _ (λ n, regs_wf G (regs n)
           ∧ (∀ c, branch_condition n = Some c → phis_wf G c)
           ∧ (∀ sc, switch_control n = Some sc
                → phis_wf G (control_expr sc)))).
  - by intros st (_ & ? & ? & ?).
  - by intros n st (? & _) (? & ? & ?).
  - apply (preserves_zoom _ (regs_wf G)); [by intros n [? _]| |done].
    by intros r n (_ & ? & ?) ?.
Qed.

Lemma node_self_wf G (f : NodeState → NodeState) :
  (∀ n, regs (f n) = regs n ∧ branch_condition (f n) = branch_condition n
        ∧ switch_control (f n) = switch_control n) →
  preserves (node_wf G) (node_self (modify_state f)).
Proof.
  intros Hf [[h s] n] r st' (Hq & Hr & Hb & Hs) E.
  unfold node_self, zoom, modify_state in E. injection E as _ <-.
  destruct (Hf n) as (E1 & E2 & E3). unfold node_wf. cbn [fst snd].
  by rewrite E1, E2, E3.
Qed.

Lemma node_wf_write_statement G stmt :
  preserves (node_wf G) (write_statement stmt).
Proof. by apply node_self_wf. Qed.

Lemma node_self_get_wf G :
  preserves (node_wf G) (node_self get_state).
Proof.
  intros [[h s] n] r st' Hst E.
  unfold node_self, zoom, get_state in E. by injection E as _ <-.
Qed.

Lemma node_heap_get_wf G :
  preserves (node_wf G) (node_heap get_state).
Proof.
  intros [[h s] n] r st' Hst E.
  unfold node_heap, zoom, get_state in E. by injection E as _ <-.
Qed.

Lemma node_wf_prevent_later_uses_each G fuel expr_filter items :
  preserves (node_wf G) (prevent_later_uses_each fuel expr_filter items).
Proof.
  induction items as [|[r data] items IH]; [apply preserves_ret|].
  cbn [prevent_later_uses_each]. apply preserves_bind; [|by intros _].
  destruct (is_phi (value data)); [apply preserves_ret|].
  apply preserves_bind; [apply node_heap_get_wf|]. intros h.
  apply preserves_bind.
  - destruct (meta_force (meta data)); [apply preserves_ret|].
    destruct (uses_expr fuel h (value data) expr_filter None);
      [apply preserves_ret|apply preserves_raise|].
    intros st r' st' Hst E. by injection E as _ <-.
  - intros [|]; [|apply preserves_ret].
    apply preserves_bind; [apply preserves_assert|]. intros _.
    apply node_regs_wf, regs_wf_update_meta.
Qed.

Lemma node_wf_prevent_later_uses G fuel expr_filter :
  preserves (node_wf G) (prevent_later_uses fuel expr_filter).
Proof.
  apply preserves_bind; [apply node_self_get_wf|]. intros n.
  apply node_wf_prevent_later_uses_each.
Qed.

Lemma node_wf_prevent_later_var_uses G fuel vars :
  preserves (node_wf G) (prevent_later_var_uses fuel vars).
Proof. apply node_wf_prevent_later_uses. Qed.

(** *** The state of a dominated node *)

Lemma create_dominated_node_state_wf G fuel parent_state child hs r hs' :
  dominators_ok G → regs_wf G (regs parent_state) → queue_ok G hs.1 →
  create_dominated_node_state fuel G parent_state child hs = (r, hs') →
  queue_ok G hs'.1 ∧ ∀ cs, r = Ok cs → state_wf G cs.
Proof.
  intros Hdom Hparent Hq E. unfold create_dominated_node_state in E.
  cbv zeta in E.
  match type of E with
  | context [match ?m (hs, RegInfo_empty) with _ => _ end] =>
      assert (Hregs : preserves (regs_state_wf G) m);
      [|destruct (m (hs, RegInfo_empty)) as [res [hs1 new_regs]] eqn:E1;
        apply Hregs in E1 as [Hq1 Hr1]; [|split; [done|apply regs_wf_empty]]]
  end.
  { apply preserves_bind.
    - apply regs_self_wf, regs_wf_inherit_registers.
      intros reg data Hin%elem_of_map_to_list. by apply (Hparent reg).
    - intros _.
      apply (preserves_bind_yields _
               (λ locs, locs_clobbered_until_dominator fuel G child
                        = Ok locs));
        [apply preserves_pure_res|apply yields_pure_res|].
      intros locs Elocs.
      destruct (immediate_dominator (node_at G child)) as [D|] eqn:ED;
        [|by unfold locs_clobbered_until_dominator in Elocs; rewrite ED in Elocs].
      apply (regs_state_wf_dominated_phis G fuel _ child D locs); try done.
      intros X HX. by apply Hdom. }
  cbn [fst snd] in Hq1, Hr1.
  destruct res as [u| |]; [|by injection E as <- <-..].
  match type of E with
  | context [match ?m (hs1, ?cs) with _ => _ end] =>
      assert (Hprev : preserves (node_wf G) m);
      [|destruct (m (hs1, cs)) as [res [hs2 cs2]] eqn:E2;
        apply Hprev in E2 as (Hq2 & Hr2 & Hb2 & Hs2);
        [|split; [exact Hq1|split; [exact Hr1|by split]]]]
  end.
  { apply preserves_bind; [apply node_stack_wf|]. intros s.
    apply preserves_bind; [apply preserves_pure_res|]. intros vars.
    apply node_wf_prevent_later_var_uses. }
  cbn [fst snd] in Hq2, Hr2, Hb2, Hs2.
  destruct res as [u'| |]; injection E as <- <-; (split; [done|]);
    intros cs [= <-]. split; [done|by split].
Qed.

(** *** Computations with a result *)

Lemma hoare_bind {S A B} (P : S → Prop) (Q : A → Prop) (R : B → Prop)
    (m : Eff S A) (k : A → Eff S B) :
  hoare P m Q → (∀ a, Q a → hoare P (k a) R) → hoare P (m ≫= k) R.
Proof.
  intros [Hm HQ] Hk. split.
  - apply (preserves_bind_yields P Q); [done..|]. intros a Ha.
    by apply Hk.
  - apply (yields_bind P Q); [done..|]. intros a Ha. by apply Hk.
Qed.

Lemma preserves_bind_hoare {S A B} (P : S → Prop) (Q : A → Prop)
    (m : Eff S A) (k : A → Eff S B) :
  hoare P m Q → (∀ a, Q a → preserves P (k a)) → preserves P (m ≫= k).
Proof. intros [Hm HQ]. by apply preserves_bind_yields. Qed.

Lemma hoare_ret {S A} (P : S → Prop) (Q : A → Prop) (a : A) :
  Q a → hoare P (mret a) Q.
Proof. intros Ha. split; [apply preserves_ret|by apply yields_ret]. Qed.

Lemma hoare_raise {S A} (P : S → Prop) (Q : A → Prop) (e : Exn) :
  hoare P (raise e : Eff S A) Q.
Proof. split; [apply preserves_raise|apply yields_raise]. Qed.

Lemma hoare_True {S A} (P : S → Prop) (m : Eff S A) :
  preserves P m → hoare P m (λ _, True).
Proof. intros Hm. split; [done|apply yields_True]. Qed.

Lemma hoare_weaken {S A} (P : S → Prop) (Q R : A → Prop) (m : Eff S A) :
  hoare P m Q → (∀ a, Q a → R a) → hoare P m R.
Proof. intros [Hm HQ] HQR. split; [done|by apply (yields_weaken P Q)]. Qed.

Lemma hoare_zoom {S T A} (P : S → Prop) (P' : T → Prop) (Q : A → Prop)
    (get : S → T) (set : T → S → S) (m : Eff T A) :
  (∀ s, P s → P' (get s)) → (∀ t s, P s → P' t → P (set t s)) →
  hoare P' m Q → hoare P (zoom get set m) Q.
Proof.
  intros Hget Hset [Hm HQ]. split.
  - by apply (preserves_zoom P P').
  - by apply (yields_zoom P P').
Qed.

Lemma hoare_get_state {S} (P : S → Prop) : hoare P get_state P.
Proof. split; [apply preserves_get_state|apply yields_get_state]. Qed.

Lemma hoare_pure_res {S A} (P : S → Prop) (r : Res A) :
  hoare P (pure_res r : Eff S A) (λ a, r = Ok a).
Proof. split; [apply preserves_pure_res|apply yields_pure_res]. Qed.

Lemma hoare_preserves {S A} (P : S → Prop) (Q : A → Prop) (m : Eff S A) :
  hoare P m Q → preserves P m.
Proof. by intros [? _]. Qed.

(** *** Reading a register *)

Lemma phis_wf_no_phis G e : naive_phis e = [] → phis_wf G e.
Proof. intros E p. rewrite E. by intros ?%elem_of_nil. Qed.

Lemma hoare_new_ErrorExpr G d :
  hoare (queue_ok G) (new_ErrorExpr d) (phis_wf G).
Proof.
  apply (hoare_bind _ (λ _, True));
    [apply hoare_True, queue_ok_new_type|]. intros t _.
  apply (hoare_bind _ (λ _, True));
    [apply hoare_True, queue_ok_fresh_oid|]. intros oid _.
  by apply hoare_ret, phis_wf_no_phis.
Qed.

Lemma hoare_new_Literal G v :
  hoare (queue_ok G) (new_Literal v) (phis_wf G).
Proof.
  apply (hoare_bind _ (λ _, True));
    [apply hoare_True, queue_ok_new_type|]. intros t _.
  by apply hoare_ret, phis_wf_no_phis.
Qed.

Lemma hoare_as_type G e t s :
  phis_wf G e → hoare (queue_ok G) (as_type e t s) (phis_wf G).
Proof.
  intros He. split; [apply queue_ok_as_type|by apply yields_as_type].
Qed.

Lemma hoare_as_type_new G c s e :
  phis_wf G e → hoare (queue_ok G) (as_type_new c s e) (phis_wf G).
Proof.
  intros He. apply (hoare_bind _ (λ _, True));
    [apply hoare_True, queue_ok_new_type|]. intros t _.
  by apply hoare_as_type.
Qed.

Lemma on_heap_wf {A} G (m : Eff Heap A) :
  preserves (queue_ok G) m →
  preserves (λ hs : Heap * StackInfo, queue_ok G hs.1) (on_heap m).
Proof. intros Hm. by apply (preserves_zoom _ (queue_ok G)). Qed.

Lemma queue_ok_get_argument G v :
  preserves (λ hs : Heap * StackInfo, queue_ok G hs.1) (get_argument v).
Proof.
  unfold get_argument.
  apply preserves_bind; [apply on_heap_wf, queue_ok_new_type|]. intros dflt.
  apply preserves_bind; [apply on_stack_heap|]. intros t.
  assert (Harg : ∀ c, preserves (λ hs : Heap * StackInfo, queue_ok G hs.1)
            (on_heap (as_type_new c true (PassedInArg (Z.land v (-4)) t)))).
  { intros c. apply on_heap_wf.
    by apply (hoare_preserves _ (phis_wf G)), hoare_as_type_new,
      phis_wf_no_phis. }
  destruct (bool_decide _).
  { apply preserves_bind; [apply Harg|]. intros e. apply preserves_ret. }
  destruct (bool_decide _); [|apply preserves_ret].
  apply preserves_bind; [apply Harg|]. intros e. apply preserves_ret.
Qed.

Lemma queue_ok_set_forced_emit G oid h :
  queue_ok G h → queue_ok G (set_forced_emit oid h).
Proof. by apply queue_ok_fields. Qed.

Lemma queue_ok_set_is_emitted G v h :
  queue_ok G h → queue_ok G (set_is_emitted v h).
Proof. by apply queue_ok_fields. Qed.

Lemma queue_ok_force G fuel e :
  phis_wf G e → preserves (queue_ok G) (run_res (force fuel e)).
Proof.
  intros He. apply preserves_run_res. intros h h' Hh E. unfold force in E.
  destruct e; try discriminate E.
  destruct (negb (forced_emit h oid) && negb trivial);
    [|by injection E as <-].
  apply res_bind_Ok in E as (h1 & E1 & E2).
  apply (use_queue_ok G) in E1;
    [|done|by apply queue_ok_set_is_emitted, queue_ok_set_forced_emit].
  by apply (use_queue_ok G) in E2.
Qed.

Lemma hoare_regs_self_get G :
  hoare (regs_state_wf G) (regs_self get_state) (regs_wf G).
Proof.
  split.
  - apply regs_self_wf, preserves_get_state.
  - intros [[h s] r] a st' [_ Hr] E.
    unfold regs_self, zoom, get_state in E. by injection E as <- _.
Qed.

Lemma hoare_getitem G fuel key :
  hoare (regs_state_wf G) (RegInfo_getitem fuel key) (phis_wf G).
Proof.
  unfold RegInfo_getitem.
  apply (hoare_bind _ (regs_wf G)); [apply hoare_regs_self_get|].
  intros regs0 Hregs0.
  assert (Herr : ∀ d, hoare (regs_state_wf G) (regs_heap (new_ErrorExpr d))
                        (phis_wf G)).
  { intros d. apply (hoare_zoom _ (queue_ok G));
      [by intros st [? _]|by intros h st [_ ?] ?|apply hoare_new_ErrorExpr]. }
  destruct (match active_instr regs0 with
            | Some instr => negb (reg_in key (inputs instr))
            | None => false
            end); [apply Herr|].
  destruct (String.eqb key zero).
  { apply (hoare_zoom _ (queue_ok G));
      [by intros st [? _]|by intros h st [_ ?] ?|apply hoare_new_Literal]. }
  destruct (contents regs0 !! key) as [data|] eqn:Edata; [|apply Herr].
  destruct (Hregs0 key data Edata) as [Hv1 Hv2].
  apply (hoare_bind _ (λ _, True)).
  { apply hoare_True, regs_self_wf, preserves_modify_state. intros r Hr.
    by apply (regs_wf_insert G key (value data)
                (meta_set_is_read (meta data)) r). }
  intros _ _. apply (hoare_bind _ (λ _, True)).
  { apply hoare_True. destruct (inherited _); [|apply preserves_ret].
    apply regs_self_wf, preserves_modify_state. by intros r Hr. }
  intros _ _. apply (hoare_bind _ (λ _, True)).
  { apply hoare_True, regs_heap_wf, preserves_get_state. }
  intros h _.
  assert (Hrest : hoare (regs_state_wf G)
    (_ ← match early_unwrap h (value data) with
         | PassedInArg v _ =>
             if initial (meta_set_is_read (meta data)) then
               '(val, arg) ← regs_stack (get_argument v);
               _ ← regs_stack (on_stack (λ s, (tt, add_argument arg s)));
               _ ← regs_heap (state_fn
                     (heap_unify (expr_type val) (expr_type (value data))));
               mret tt
             else mret tt
         | _ => mret tt
         end;
     _ ← (if meta_force (meta_set_is_read (meta data)) then
            match value data with
            | EvalOnceExpr _ _ _ _ _ _ _ _ =>
                regs_heap (run_res (force fuel (value data)))
            | _ => raise AssertionError
            end
          else mret tt);
     mret (value data)) (phis_wf G)).
  { apply (hoare_bind _ (λ _, True)).
    - apply hoare_True.
      destruct (early_unwrap h (value data)); try apply preserves_ret.
      destruct (initial _); [|apply preserves_ret].
      apply preserves_bind; [apply regs_stack_wf, queue_ok_get_argument|].
      intros [val arg].
      apply preserves_bind; [apply regs_stack_wf, on_stack_heap|].
      intros _.
      apply preserves_bind; [apply regs_heap_wf, queue_ok_unify|].
      intros _. apply preserves_ret.
    - intros _ _. apply (hoare_bind _ (λ _, True));
        [|by intros _ _; apply hoare_ret].
      apply hoare_True.
      destruct (meta_force _); [|apply preserves_ret].
      destruct (value data) eqn:Ev; try apply preserves_raise.
      by apply regs_heap_wf, queue_ok_force. }
  destruct (value data) eqn:Ev; try exact Hrest.
  destruct trivial; [|exact Hrest]. apply hoare_ret. exact Hv2.
Qed.

(** *** The loop of [assign_naive_phis] *)

Lemma phis_heap_inv {A} G (m : Eff Heap A) :
  preserves (queue_ok G) m → preserves (phis_inv G) (phis_heap m).
Proof.
  intros Hm. apply (preserves_zoom _ (queue_ok G)); [by intros st [? _]| |done].
  by intros h st [_ ?] ?.
Qed.

Lemma hoare_phis_heap {A} G (m : Eff Heap A) (Q : A → Prop) :
  hoare (queue_ok G) m Q → hoare (phis_inv G) (phis_heap m) Q.
Proof.
  intros Hm. apply (hoare_zoom _ (queue_ok G)); [by intros st [? _]| |done].
  by intros h st [_ ?] ?.
Qed.

Lemma phis_stack_inv {A} G (m : Eff StackInfo A) :
  preserves (phis_inv G) (phis_stack m).
Proof.
  apply (preserves_zoom _ (λ _, True)); [done| |apply preserves_True].
  by intros t st [? ?] _.
Qed.

Lemma hoare_get_block_info G n :
  hoare (phis_inv G) (get_block_info n)
    (λ b, regs_wf G (final_register_states b)).
Proof.
  unfold get_block_info.
  apply (hoare_bind _ (phis_inv G)); [apply hoare_get_state|].
  intros st [_ Hb]. destruct (ps_blocks st !! n) as [b|] eqn:Eb;
    [|apply hoare_raise].
  apply hoare_ret. by apply (Hb n).
Qed.

Lemma blocks_wf_insert G n b blocks :
  blocks_wf G blocks → regs_wf G (final_register_states b) →
  blocks_wf G (<[n := b]> blocks).
Proof.
  intros Hb Hr k b'. destruct (decide (n = k)) as [->|Hne].
  - rewrite lookup_insert_eq. by intros [= <-].
  - rewrite lookup_insert_ne by done. apply Hb.
Qed.

Lemma hoare_final_register_state G fuel n reg :
  hoare (phis_inv G) (final_register_state fuel n reg) (phis_wf G).
Proof.
  unfold final_register_state.
  apply (hoare_bind _ (λ b, regs_wf G (final_register_states b)));
    [apply hoare_get_block_info|]. intros b Hb.
  apply (hoare_zoom _ (regs_state_wf G)); [| |apply hoare_getitem].
  - by intros st [? _].
  - intros [[h s] r] st [_ Hbl] [Hq Hr]. split; [done|].
    by apply blocks_wf_insert.
Qed.

Lemma transparent_unwrap_naive_phis G h e :
  phis_wf G e → phis_wf G (transparent_unwrap h e).
Proof.
  induction e; intros He; try exact He. cbn [transparent_unwrap].
  destruct (transparent && negb (uses_var h var trivial)); [|exact He].
  by apply IHe.
Qed.

Lemma early_unwrap_naive_phis G h e :
  phis_wf G e → phis_wf G (early_unwrap h e).
Proof.
  induction e; intros He; try exact He. cbn [early_unwrap].
  destruct (negb (forced_emit h oid) && negb emit_exactly_once);
    [|exact He].
  by apply IHe.
Qed.

Lemma dict_append_keys {K V} (eqb : K → K → bool) (k : K) (v : V) d k' vs :
  (k', vs) ∈ dict_append eqb k v d → k' = k ∨ ∃ vs', (k', vs') ∈ d.
Proof.
  induction d as [|[k0 vs0] d IH]; cbn [dict_append].
  - intros [= -> _]%list_elem_of_singleton. by left.
  - destruct (eqb k0 k).
    + intros [[= -> _]|Hin]%elem_of_cons; right.
      * exists vs0. by left.
      * exists vs. by right.
    + intros [[= -> ->]|Hin]%elem_of_cons.
      * right. exists vs0. by left.
      * destruct (IH Hin) as [->|[vs' Hvs']]; [by left|].
        right. exists vs'. by right.
Qed.

Lemma hoare_group_sources G fuel reg type sources :
  ∀ groups,
    (∀ e ns, (e, ns) ∈ groups → phis_wf G e) →
    hoare (phis_inv G) (group_sources fuel G reg type sources groups)
      (λ groups, ∀ e ns, (e, ns) ∈ groups → phis_wf G e).
Proof.
  induction sources as [|source sources IH]; intros groups Hgroups;
    [by apply hoare_ret|].
  cbn [group_sources].
  apply (hoare_bind _ (λ _, True));
    [apply hoare_True, preserves_pure_res|]. intros n _.
  apply (hoare_bind _ (phis_wf G));
    [apply hoare_final_register_state|]. intros expr Hexpr.
  apply (hoare_bind _ (λ _, True));
    [apply hoare_True, phis_heap_inv, queue_ok_unify|]. intros _ _.
  apply (hoare_bind _ (λ _, True));
    [apply hoare_True, phis_heap_inv, preserves_get_state|]. intros h _.
  apply IH. intros e ns [->|[vs' Hin]]%dict_append_keys.
  - by apply transparent_unwrap_naive_phis.
  - by apply (Hgroups e vs').
Qed.

Lemma hoare_block_write G n stmt :
  preserves (phis_inv G) (block_write n stmt).
Proof.
  unfold block_write.
  apply (preserves_bind_yields _
           (λ b, regs_wf G (final_register_states b)));
    [apply hoare_get_block_info..|]. intros b Hb.
  apply (preserves_zoom _ (blocks_wf G)); [by intros st [_ ?]| |].
  - by intros t st [? _] ?.
  - apply preserves_modify_state. intros blocks Hblocks.
    by apply blocks_wf_insert.
Qed.

Lemma phis_inv_assign_sources G fuel phi reg type ns :
  preserves (phis_inv G) (assign_sources fuel phi reg type ns).
Proof.
  induction ns as [|n ns IH]; [apply preserves_ret|].
  cbn [assign_sources].
  apply (preserves_bind_yields _ (phis_wf G));
    [apply hoare_final_register_state..|]. intros expr Hexpr.
  apply preserves_bind; [by apply phis_heap_inv, queue_ok_use|]. intros _.
  apply preserves_bind; [apply phis_heap_inv, queue_ok_as_type|].
  intros typed_expr.
  apply preserves_bind; [apply hoare_block_write|]. by intros _.
Qed.

Lemma queue_ok_set_replacement_expr G oid r h :
  phis_wf G r → queue_ok G h → queue_ok G (set_replacement_expr oid r h).
Proof.
  intros Hr [Hq Hrep]. split; [exact Hq|].
  intros o r'. cbn [set_replacement_expr phi_replacement_expr].
  destruct (decide (oid = o)) as [->|Hne].
  - rewrite lookup_insert_eq. by intros [= <-].
  - rewrite lookup_insert_ne by done. apply Hrep.
Qed.

Lemma queue_ok_use_times G fuel n e :
  phis_wf G e → preserves (queue_ok G) (run_res (use_times fuel n e)).
Proof.
  intros He. apply preserves_run_res.
  induction n as [|n IH]; intros h h' Hh E.
  - by injection E as <-.
  - cbn [use_times] in E. apply res_bind_Ok in E as (h1 & E1 & E2).
    eapply IH; [|exact E2]. by apply (use_queue_ok G fuel e h h1).
Qed.

Lemma phis_inv_assign_naive_phi G fuel phi :
  preserves (phis_inv G) (assign_naive_phi fuel G phi).
Proof.
  unfold assign_naive_phi. destruct phi; try apply preserves_raise.
  apply preserves_bind; [apply phis_heap_inv, preserves_get_state|].
  intros h.
  apply preserves_bind; [apply preserves_assert|]. intros _.
  apply preserves_bind; [apply preserves_assert|]. intros _.
  apply preserves_bind; [apply preserves_assert|]. intros _.
  apply (preserves_bind_yields _
           (λ groups, ∀ e ns, (e, ns) ∈ groups → phis_wf G e)).
  { by apply hoare_group_sources; intros e ns ?%elem_of_nil. }
  { by apply hoare_group_sources; intros e ns ?%elem_of_nil. }
  intros groups Hgroups.
  destruct groups as [|[first ns] groups]; [apply preserves_raise|].
  cbn [map fst].
  assert (Hfirst : phis_wf G first) by (apply (Hgroups first ns); by left).
  apply preserves_bind; [apply phis_heap_inv, preserves_get_state|].
  intros h1.
  destruct (same_value h1 first (map fst groups));
    [|apply phis_inv_assign_sources].
  assert (Hexpr : phis_wf G
            match map fst groups with
            | [] => first
            | _ => early_unwrap h1 first
            end).
  { destruct (map fst groups); [done|by apply early_unwrap_naive_phis]. }
  apply (preserves_bind_hoare _ (phis_wf G));
    [by apply hoare_phis_heap, hoare_as_type|]. intros r Hr.
  apply preserves_bind.
  { apply phis_heap_inv, preserves_modify_state. intros h2.
    by apply queue_ok_set_replacement_expr. }
  intros _.
  apply preserves_bind; [apply phis_heap_inv, preserves_get_state|].
  intros h2.
  apply preserves_bind; [by apply phis_heap_inv, queue_ok_use_times|].
  intros _.
  destruct (_ && _); [apply phis_stack_inv|apply preserves_ret].
Qed.

(** The invariant holds at the head of every iteration. *)
Lemma assign_loop_reaches_inv G fuel st0 i st :
  phis_inv G st0 → assign_loop_reaches fuel G st0 i st → phis_inv G st.
Proof.
  intros H0. induction 1 as [|i st phi st' _ IH _ E]; [done|].
  by apply (phis_inv_assign_naive_phi G fuel phi st (Ok tt) st').
Qed.

Lemma naive_phi_checks_asserts G h phi :
  naive_phi_checks G h phi = true →
  ∃ oid reg n type sources ud,
    phi = NaivePhiExpr oid reg n type sources ud
    ∧ (0 <? num_usages h oid)%nat = true
    ∧ (2 <=? length sources)%nat = true
    ∧ (2 <=? length (parents (node_at G n)))%nat = true.
Proof.
  destruct phi; try done. cbn [naive_phi_checks].
  intros [[? ?]%andb_true_iff ?]%andb_true_iff. by eexists _, _, _, _, _, _.
Qed.

(** *** The translation of the nodes *)

Lemma hoare_node_self_get G :
  hoare (node_wf G) (node_self get_state) (state_wf G).
Proof.
  split; [apply node_self_get_wf|].
  intros [[h s] n] a st' (_ & ? & ? & ?) E.
  unfold node_self, zoom, get_state in E. by injection E as <- _.
Qed.

Lemma hoare_node_heap {A} G (m : Eff Heap A) (Q : A → Prop) :
  hoare (queue_ok G) m Q → hoare (node_wf G) (node_heap m) Q.
Proof.
  intros Hm. apply (hoare_zoom _ (queue_ok G)); [by intros st [? _]| |done].
  by intros h st (_ & ? & ? & ?) ?.
Qed.

Lemma hoare_node_getitem G fuel key :
  hoare (node_wf G) (node_getitem fuel key) (phis_wf G).
Proof.
  apply (hoare_zoom _ (regs_state_wf G)); [| |apply hoare_getitem].
  - by intros st (? & ? & _).
  - by intros [[h s] r] st (_ & _ & ? & ?) [? ?].
Qed.

Section TranslationInvariant.

Variable G : FlowGraph.
Variable eval_fn :
  Instruction → option (Eff (Heap * StackInfo * NodeState) unit).
Variable wrap_instr_failure : Instruction → Exn → Exn.
Hypothesis eval_fn_wf :
  ∀ instr f, eval_fn instr = Some f → preserves (node_wf G) f.

Lemma node_wf_with_current_instr {A} instr
    (body : Eff (Heap * StackInfo * NodeState) A) :
  preserves (node_wf G) body →
  preserves (node_wf G) (with_current_instr wrap_instr_failure instr body).
Proof.
  intros Hbody. unfold with_current_instr.
  assert (Hactive : ∀ i, preserves (node_wf G)
            (node_regs (modify_state (set_active_instr i)))).
  { intros i. apply node_regs_wf, preserves_modify_state. by intros r Hr. }
  assert (Hpattern : ∀ b, preserves (node_wf G)
            (node_self (modify_state (set_in_pattern b)))).
  { intros b. by apply node_self_wf. }
  apply preserves_bind; [apply node_self_get_wf|]. intros n.
  apply preserves_bind; [apply preserves_assert|]. intros _.
  apply preserves_bind; [apply Hactive|]. intros _.
  apply preserves_bind; [apply Hpattern|]. intros _.
  intros st r st' Hst E.
  destruct (body st) as [rb st1] eqn:Eb. apply Hbody in Eb; [|done].
  destruct ((_ ← node_regs (modify_state (set_active_instr None));
             node_self (modify_state (set_in_pattern false))) st1)
    as [rc st2] eqn:Ec.
  assert (Hst2 : node_wf G st2).
  { revert Ec. apply preserves_bind; [apply Hactive|by intros _|done]. }
  by destruct rb; injection E as <- <-.
Qed.

Lemma node_wf_evaluate_instruction instr :
  preserves (node_wf G) (evaluate_instruction eval_fn instr).
Proof.
  unfold evaluate_instruction.
  apply preserves_bind; [apply node_self_get_wf|]. intros n.
  apply preserves_bind.
  { destruct (is_return instr); [apply preserves_assert|apply preserves_ret]. }
  intros _. apply preserves_bind.
  { destruct (is_conditional instr);
      [apply preserves_assert|apply preserves_ret]. }
  intros _. apply preserves_bind.
  { destruct (eval_fn instr) as [f|] eqn:Ef; [|apply preserves_ret].
    by apply (eval_fn_wf instr). }
  intros _. apply preserves_bind; [apply node_self_get_wf|]. intros n'.
  destruct (is_conditional instr); [apply preserves_assert|apply preserves_ret].
Qed.

Lemma node_wf_evaluate_each instrs :
  preserves (node_wf G) (evaluate_each eval_fn wrap_instr_failure instrs).
Proof.
  induction instrs as [|instr instrs IH]; [apply preserves_ret|].
  cbn [evaluate_each]. apply preserves_bind; [|by intros _].
  apply node_wf_with_current_instr, node_wf_evaluate_instruction.
Qed.

Lemma hoare_translate_node_body fuel :
  hoare (node_wf G) (translate_node_body eval_fn wrap_instr_failure fuel)
    (λ b, regs_wf G (final_register_states b)).
Proof.
  unfold translate_node_body.
  apply (hoare_bind _ (λ _, True));
    [apply hoare_True, node_self_get_wf|]. intros n _.
  apply (hoare_bind _ (λ _, True));
    [apply hoare_True, node_wf_evaluate_each|]. intros _ _.
  apply (hoare_bind _ (state_wf G)); [apply hoare_node_self_get|].
  intros n1 (_ & Hb & Hs).
  apply (hoare_bind _ (λ _, True)).
  { apply hoare_True. destruct (branch_condition n1) as [c|];
      [|apply preserves_ret].
    by apply node_heap_wf, queue_ok_use, Hb. }
  intros _ _. apply (hoare_bind _ (λ _, True)).
  { apply hoare_True. destruct (switch_control n1) as [sc|];
      [|apply preserves_ret].
    by apply node_heap_wf, queue_ok_use, Hs. }
  intros _ _.
  apply (hoare_bind _ (state_wf G)); [apply hoare_node_self_get|].
  intros n2 (Hr & _). by apply hoare_ret.
Qed.

Lemma hoare_translate_block fuel stop_on_error :
  hoare (node_wf G)
    (translate_block eval_fn wrap_instr_failure fuel stop_on_error)
    (λ b, regs_wf G (final_register_states b)).
Proof.
  destruct (hoare_translate_node_body fuel) as [Hp Hy].
  assert (Herr : ∀ e, hoare (node_wf G)
            (cond ← node_heap (new_ErrorExpr None);
             n ← node_self get_state;
             mret {| bi_to_write := error_stmts e; return_value := None;
                     bi_switch_control := None;
                     bi_branch_condition := Some cond;
                     final_register_states := regs n;
                     bi_has_function_call := false |})
            (λ b, regs_wf G (final_register_states b))).
  { intros e. apply (hoare_bind _ (λ _, True)).
    - apply hoare_True, node_heap_wf.
      apply (hoare_preserves _ (phis_wf G)), hoare_new_ErrorExpr.
    - intros cond _.
      apply (hoare_bind _ (state_wf G)); [apply hoare_node_self_get|].
      intros n (Hr & _). by apply hoare_ret. }
  split.
  - intros st r st' Hst E. unfold translate_block in E.
    destruct (translate_node_body _ _ _ st) as [[b|e|] st1] eqn:Eb;
      apply Hp in Eb; try done; try by injection E as <- <-.
    destruct stop_on_error; [by injection E as <- <-|].
    by apply (Herr e) in E.
  - intros st b st' Hst E. unfold translate_block in E.
    destruct (translate_node_body _ _ _ st) as [[b1|e|] st1] eqn:Eb.
    + injection E as <- <-. by apply (Hy st b1 st1).
    + apply Hp in Eb; [|done].
      destruct stop_on_error; [done|]. by apply (Herr e) in E.
    + done.
Qed.

Lemma hoare_with_node_state {A} (Q : A → Prop) state
    (m : Eff (Heap * StackInfo * NodeState) A) :
  hoare (node_wf G) m Q → state_wf G state →
  hoare (λ hs : Heap * StackInfo, queue_ok G hs.1)
    (with_node_state state m) (λ an, Q an.1 ∧ state_wf G an.2).
Proof.
  intros [Hp Hy] (Hr & Hb & Hs). split.
  - intros hs r hs' Hq E. unfold with_node_state in E.
    destruct (m (hs, state)) as [r1 [hs1 n1]] eqn:Em.
    injection E as _ <-. by apply Hp in Em as [? _].
  - intros hs [a n] hs' Hq E. unfold with_node_state in E.
    destruct (m (hs, state)) as [r1 [hs1 n1]] eqn:Em.
    destruct r1 as [a1| |]; [|done..]. injection E as <- <- _.
    split.
    + by apply (Hy (hs, state) a1 (hs1, n1)).
    + by apply Hp in Em as (_ & ? & ? & ?).
Qed.

Lemma hoare_create_dominated_node_state fuel parent_state child :
  dominators_ok G → regs_wf G (regs parent_state) →
  hoare (λ hs : Heap * StackInfo, queue_ok G hs.1)
    (create_dominated_node_state fuel G parent_state child) (state_wf G).
Proof.
  intros Hdom Hparent. split.
  - intros hs r hs' Hq E.
    by apply create_dominated_node_state_wf in E as [? _].
  - intros hs cs hs' Hq E.
    apply create_dominated_node_state_wf in E as [_ Hcs]; [|done..].
    by apply Hcs.
Qed.

Lemma hoare_push_dominated fuel state :
  dominators_ok G → regs_wf G (regs state) →
  ∀ children translate_stack,
    Forall (state_wf G) translate_stack →
    hoare (λ hs : Heap * StackInfo, queue_ok G hs.1)
      (push_dominated fuel G state children translate_stack)
      (Forall (state_wf G)).
Proof.
  intros Hdom Hstate.
  induction children as [|child children IH]; intros translate_stack Hstack;
    [by apply hoare_ret|].
  cbn [push_dominated].
  assert (Hpush : hoare (λ hs : Heap * StackInfo, queue_ok G hs.1)
            (child_state ← create_dominated_node_state fuel G state child;
             push_dominated fuel G state children
               (child_state :: translate_stack))
            (Forall (state_wf G))).
  { apply (hoare_bind _ (state_wf G));
      [by apply hoare_create_dominated_node_state|].
    intros cs Hcs. apply IH. by constructor. }
  destruct (node_kind (node_at G child)); try exact Hpush. by apply IH.
Qed.

Lemma translation_wf_translate_all_blocks steps fuel stop_on_error :
  dominators_ok G →
  ∀ translate_stack,
    Forall (state_wf G) translate_stack →
    preserves (translation_wf G)
      (translate_all_blocks eval_fn wrap_instr_failure steps fuel
         stop_on_error G translate_stack).
Proof.
  intros Hdom.
  induction steps as [|steps IH]; intros translate_stack Hstack;
    [apply preserves_pure_res|].
  cbn [translate_all_blocks].
  destruct Hstack as [|state translate_stack Hstate Hstack];
    [apply preserves_ret|].
  assert (Hzoom : ∀ A (Q : A → Prop) (m : Eff (Heap * StackInfo) A),
            hoare (λ hs : Heap * StackInfo, queue_ok G hs.1) m Q →
            hoare (translation_wf G)
              (zoom (λ st : Heap * StackInfo
                            * (gmap nat BlockInfo * list BlockInfo), st.1)
                    (λ hs st, (hs, st.2)) m) Q).
  { intros A Q m Hm.
    apply (hoare_zoom _ (λ hs : Heap * StackInfo, queue_ok G hs.1));
      [by intros st [? _]|by intros hs st [_ ?] ?|done]. }
  apply (preserves_bind_hoare _
           (λ an : BlockInfo * NodeState,
              regs_wf G (final_register_states an.1) ∧ state_wf G an.2)).
  { apply Hzoom.
    apply (hoare_with_node_state
             (λ b, regs_wf G (final_register_states b)));
      [apply hoare_translate_block|done]. }
  intros [block_info state'] [Hbi Hstate'].
  apply preserves_bind.
  { apply (preserves_zoom _ (λ b : gmap nat BlockInfo * list BlockInfo,
                               blocks_wf G b.1));
      [by intros st [_ ?]|by intros b st [? _] ?|].
    apply preserves_modify_state. intros b Hb. by apply blocks_wf_insert. }
  intros _.
  apply (preserves_bind_hoare _ (Forall (state_wf G))).
  { apply Hzoom, hoare_push_dominated; [done| |done].
    by destruct Hstate' as [? _]. }
  intros stack' Hstack'. by apply IH.
Qed.

End TranslationInvariant.

(** *** What the instruction evaluators are made of *)

Lemma queue_ok_append_debug_expr G v e h :
  queue_ok G h → queue_ok G (append_debug_expr v e h).
Proof. by apply queue_ok_fields. Qed.

Lemma hoare_eval_once G fuel expr emit_exactly_once transparent reg source :
  phis_wf G expr →
  hoare (node_wf G)
    (eval_once fuel expr emit_exactly_once transparent reg source)
    (λ e, phi_wf G e = true ∧ phis_wf G e).
Proof.
  intros Hexpr. unfold eval_once.
  apply (hoare_bind _ (λ _, True)); [apply hoare_True, node_stack_wf|].
  intros s _.
  destruct (string_contains "_fictive_" reg && is_EvalOnceExpr expr) eqn:Ef.
  { apply andb_true_iff in Ef as [_ Ef].
    apply (hoare_bind _ (λ _, True)); [apply hoare_True, preserves_assert|].
    intros _ _.
    apply (hoare_bind _ (λ _, True)); [apply hoare_True, preserves_assert|].
    intros _ _. apply hoare_ret. by destruct expr. }
  apply (hoare_bind _ (λ _, True)).
  { apply hoare_True. destruct emit_exactly_once; [|apply preserves_ret].
    by apply node_heap_wf, queue_ok_use. }
  intros _ _.
  apply (hoare_bind _ (λ ve : Var * Expression, phis_wf G ve.2)).
  { destruct (get_planned_var reg source s) as [var|].
    - apply (hoare_bind _ (phis_wf G));
        [by apply hoare_node_heap, hoare_as_type|]. intros e He.
      apply (hoare_bind _ (λ _, True));
        [apply hoare_True, node_wf_prevent_later_var_uses|]. intros _ _.
      by apply hoare_ret.
    - apply (hoare_bind _ (λ _, True));
        [apply hoare_True, node_self_get_wf|]. intros n _.
      apply (hoare_bind _ (λ _, True));
        [apply hoare_True, node_heap_wf, queue_ok_fresh_oid|]. intros vid _.
      apply (hoare_bind _ (λ _, True));
        [apply hoare_True, node_stack_wf|]. intros _ _.
      by apply hoare_ret. }
  intros [var e] He. cbn [snd] in He.
  apply (hoare_bind _ (λ _, True));
    [apply hoare_True, node_heap_wf, queue_ok_fresh_oid|]. intros oid _.
  apply (hoare_bind _ (λ _, True));
    [apply hoare_True, node_wf_write_statement|]. intros _ _.
  apply (hoare_bind _ (λ _, True)).
  { apply hoare_True, node_heap_wf, preserves_modify_state. intros h.
    apply queue_ok_append_debug_expr. }
  intros _ _.
  apply (hoare_bind _ (λ _, True)); [|by intros _ _; apply hoare_ret].
  apply hoare_True.
  destruct (get_planned_var reg source s); [|apply preserves_ret].
  apply preserves_bind.
  { apply node_heap_wf, preserves_modify_state. intros h.
    apply queue_ok_set_is_emitted. }
  intros _. by apply node_heap_wf, queue_ok_use.
Qed.

Lemma hoare_set_reg_real G fuel reg uw_expr transparent emit_exactly_once
    function_return :
  phis_wf G uw_expr →
  hoare (node_wf G)
    (set_reg_real fuel reg uw_expr transparent emit_exactly_once
       function_return)
    (phis_wf G).
Proof.
  intros Hexpr. unfold set_reg_real.
  apply (hoare_bind _ (λ _, True)); [apply hoare_True, node_self_get_wf|].
  intros n _. destruct (active_instr (regs n)); [|apply hoare_raise].
  apply (hoare_bind _ (λ _, True)); [apply hoare_True, node_heap_get_wf|].
  intros h _.
  apply (hoare_bind _ (λ e, phi_wf G e = true ∧ phis_wf G e));
    [by apply hoare_eval_once|]. intros e [He1 He2].
  apply (hoare_bind _ (λ _, True)); [|by intros _ _; apply hoare_ret].
  apply hoare_True. destruct (String.eqb reg zero).
  - apply preserves_bind; [by apply node_heap_wf, queue_ok_use|].
    intros _. apply node_wf_write_statement.
  - apply preserves_bind; [apply node_self_get_wf|]. intros n'.
    by apply node_regs_wf, regs_wf_set_with_meta.
Qed.

Lemma node_wf_set_branch_condition G cond :
  phis_wf G cond → preserves (node_wf G) (set_branch_condition cond).
Proof.
  intros Hcond. unfold set_branch_condition.
  apply preserves_bind; [apply node_self_get_wf|]. intros n.
  apply preserves_bind; [apply preserves_assert|]. intros _.
  apply preserves_bind; [apply preserves_assert|]. intros _.
  intros [[h s] n0] r st' (Hq & Hr & Hb & Hs) E.
  unfold node_self, zoom, modify_state in E. injection E as _ <-.
  split; [done|]. split; [done|]. split; [|done].
  by intros c [= <-].
Qed.

Lemma phis_wf_BinaryOp G oid l op r t :
  phis_wf G l → phis_wf G r → phis_wf G (BinaryOp oid l op r t).
Proof.
  intros Hl Hr p. cbn [naive_phis]. intros [?|?]%elem_of_app; auto.
Qed.

Lemma hoare_BinaryOp_int G l op r :
  phis_wf G l → phis_wf G r →
  hoare (queue_ok G) (BinaryOp_int l op r) (phis_wf G).
Proof.
  intros Hl Hr. unfold BinaryOp_int.
  apply (hoare_bind _ (phis_wf G)); [by apply hoare_as_type_new|].
  intros l' Hl'.
  apply (hoare_bind _ (phis_wf G)); [by apply hoare_as_type_new|].
  intros r' Hr'.
  apply (hoare_bind _ (λ _, True));
    [apply hoare_True, queue_ok_new_type|]. intros t _.
  apply (hoare_bind _ (λ _, True));
    [apply hoare_True, queue_ok_fresh_oid|]. intros oid _.
  by apply hoare_ret, phis_wf_BinaryOp.
Qed.

Lemma hoare_BinaryOp_intptr G l op r :
  phis_wf G l → phis_wf G r →
  hoare (queue_ok G) (BinaryOp_intptr l op r) (phis_wf G).
Proof.
  intros Hl Hr. unfold BinaryOp_intptr.
  apply (hoare_bind _ (phis_wf G)); [by apply hoare_as_type_new|].
  intros l' Hl'.
  apply (hoare_bind _ (phis_wf G)); [by apply hoare_as_type_new|].
  intros r' Hr'.
  apply (hoare_bind _ (λ _, True));
    [apply hoare_True, queue_ok_new_type|]. intros t _.
  apply (hoare_bind _ (λ _, True));
    [apply hoare_True, queue_ok_fresh_oid|]. intros oid _.
  by apply hoare_ret, phis_wf_BinaryOp.
Qed.

(** ** [translate_to_ast] keeps the invariant of the phis *)

Lemma phis_inv_block_meta G n reg :
  preserves (phis_inv G) (block_meta n reg).
Proof.
  unfold block_meta.
  apply preserves_bind; [apply hoare_get_block_info|]. intros b.
  apply preserves_ret.
Qed.

(** An assignment to a meta changes no value. *)
Lemma phis_inv_set_block_meta G n reg f :
  preserves (phis_inv G) (set_block_meta n reg f).
Proof.
  unfold set_block_meta.
  apply (preserves_bind_hoare _
           (λ b, regs_wf G (final_register_states b)));
    [apply hoare_get_block_info|]. intros b Hb.
  destruct (contents (final_register_states b) !! reg) as [data|] eqn:Ed;
    [|apply preserves_ret].
  apply (preserves_zoom _ (blocks_wf G)); [by intros st [_ ?]| |].
  - by intros t st [? _] ?.
  - apply preserves_modify_state. intros blocks Hblocks.
    apply blocks_wf_insert; [done|].
    destruct (Hb reg data Ed) as [Hv1 Hv2].
    by apply (regs_wf_insert G reg (value data) (f (meta data))
                (final_register_states b)).
Qed.

Lemma phis_inv_mark_parents_read G reg ps :
  preserves (phis_inv G) (mark_parents_read reg ps).
Proof.
  induction ps as [|p ps IH]; [apply preserves_ret|].
  cbn [mark_parents_read].
  apply preserves_bind; [apply phis_inv_block_meta|]. intros par_meta.
  apply preserves_bind; [|by intros _].
  destruct par_meta; [apply phis_inv_set_block_meta|apply preserves_ret].
Qed.

Lemma phis_inv_read_from_inherited G reg ns :
  preserves (phis_inv G) (read_from_inherited G reg ns).
Proof.
  induction ns as [|n ns IH]; [apply preserves_ret|].
  cbn [read_from_inherited].
  apply preserves_bind; [apply hoare_get_block_info|]. intros b.
  apply preserves_bind; [|by intros _].
  destruct (bool_decide _);
    [apply phis_inv_mark_parents_read|apply preserves_ret].
Qed.

Lemma phis_inv_read_backwards_parents G reg meta ps :
  ∀ todo, preserves (phis_inv G) (read_backwards_parents reg meta ps todo).
Proof.
  induction ps as [|p ps IH]; intros todo; [apply preserves_ret|].
  cbn [read_backwards_parents].
  apply preserves_bind; [apply phis_inv_block_meta|]. intros par_meta.
  destruct (_ && _); [|apply IH].
  apply preserves_bind; [apply phis_inv_set_block_meta|]. intros _.
  apply IH.
Qed.

Lemma phis_inv_read_backwards G fuel reg :
  ∀ todo, preserves (phis_inv G) (read_backwards fuel G reg todo).
Proof.
  induction fuel as [|fuel IH]; intros todo; [apply preserves_pure_res|].
  cbn [read_backwards]. destruct todo as [|n todo]; [apply preserves_ret|].
  apply preserves_bind; [apply phis_inv_block_meta|]. intros meta.
  apply preserves_bind; [apply phis_inv_read_backwards_parents|].
  intros todo'. apply IH.
Qed.

Lemma phis_inv_assume_inherited G reg ns :
  preserves (phis_inv G) (assume_inherited reg ns).
Proof.
  induction ns as [|n ns IH]; [apply preserves_ret|].
  cbn [assume_inherited].
  apply preserves_bind; [apply phis_inv_set_block_meta|]. by intros _.
Qed.

Lemma phis_inv_parents_bits G reg ps :
  ∀ all, preserves (phis_inv G) (parents_bits reg ps all).
Proof.
  induction ps as [|p ps IH]; intros all; [apply preserves_ret|].
  cbn [parents_bits].
  apply preserves_bind; [apply phis_inv_block_meta|]. intros par_meta.
  apply IH.
Qed.

Lemma phis_inv_unset_forwards G children fuel reg :
  ∀ todo, preserves (phis_inv G) (unset_forwards children fuel G reg todo).
Proof.
  induction fuel as [|fuel IH]; intros todo; [apply preserves_pure_res|].
  cbn [unset_forwards]. destruct todo as [|n todo]; [apply preserves_ret|].
  destruct (is_TerminalNode _); [apply IH|].
  apply preserves_bind; [apply phis_inv_block_meta|]. intros [meta|];
    [|apply IH].
  destruct (negb _); [apply IH|].
  apply preserves_bind; [apply phis_inv_parents_bits|].
  intros [[all_uninteresting all_function_return] all_in_pattern].
  apply preserves_bind.
  { destruct (_ && _); [|apply preserves_ret].
    apply preserves_bind; [apply phis_inv_set_block_meta|]. intros _.
    apply preserves_ret. }
  intros todo1.
  apply preserves_bind.
  { destruct (_ && _); [|apply preserves_ret].
    apply preserves_bind; [apply phis_inv_set_block_meta|]. intros _.
    apply preserves_ret. }
  intros todo2.
  apply preserves_bind.
  { destruct (_ && _); [|apply preserves_ret].
    apply preserves_bind; [apply phis_inv_set_block_meta|]. intros _.
    apply preserves_ret. }
  intros todo3. apply IH.
Qed.

Lemma phis_inv_propagate_register_meta G children fuel reg :
  preserves (phis_inv G) (propagate_register_meta children fuel G reg).
Proof.
  unfold propagate_register_meta.
  apply preserves_bind; [apply phis_inv_read_from_inherited|]. intros _.
  apply preserves_bind; [apply phis_inv_read_backwards|]. intros _.
  apply preserves_bind; [apply phis_inv_assume_inherited|]. intros _.
  apply phis_inv_unset_forwards.
Qed.

Lemma phis_inv_propagate_register_metas G children fuel regs :
  preserves (phis_inv G) (propagate_register_metas children fuel G regs).
Proof.
  induction regs as [|reg regs IH]; [apply preserves_ret|].
  cbn [propagate_register_metas].
  apply preserves_bind; [apply phis_inv_propagate_register_meta|].
  by intros _.
Qed.

Lemma phis_inv_block_infos G ns :
  preserves (phis_inv G) (block_infos ns).
Proof.
  induction ns as [|n ns IH]; [apply preserves_ret|].
  cbn [block_infos].
  apply preserves_bind; [apply hoare_get_block_info|]. intros b.
  apply preserves_bind; [done|]. intros bs. apply preserves_ret.
Qed.

(** The return values are register values of the final states: the phis
    that [use] puts on the queue there are well formed. *)
Lemma phis_inv_mark_return_values G fuel return_reg return_type ns :
  preserves (phis_inv G)
    (mark_return_values fuel return_reg return_type ns).
Proof.
  induction ns as [|n ns IH]; [apply preserves_ret|].
  cbn [mark_return_values].
  apply preserves_bind; [apply hoare_get_block_info|]. intros b.
  apply preserves_bind; [|by intros _].
  destruct (RegInfo_contains _ _); [|apply preserves_ret].
  apply (preserves_bind_hoare _ (phis_wf G));
    [apply hoare_final_register_state|]. intros ret_val Hret.
  apply (preserves_bind_hoare _ (phis_wf G));
    [by apply hoare_phis_heap, hoare_as_type|]. intros ret_val' Hret'.
  apply preserves_bind; [by apply phis_heap_inv, queue_ok_use|]. intros _.
  apply (preserves_bind_hoare _
           (λ b, regs_wf G (final_register_states b)));
    [apply hoare_get_block_info|]. intros b' Hb'.
  apply (preserves_zoom _ (blocks_wf G)); [by intros st [_ ?]| |].
  - by intros t st [? _] ?.
  - apply preserves_modify_state. intros blocks Hblocks.
    by apply blocks_wf_insert.
Qed.

Lemma queue_ok_pad_params G missing :
  ∀ ps, preserves (queue_ok G) (pad_params missing ps).
Proof.
  induction missing as [|missing IH]; intros ps; [apply preserves_ret|].
  cbn [pad_params].
  apply preserves_bind; [apply queue_ok_new_type|]. intros t. apply IH.
Qed.

Lemma queue_ok_unify_params G ps :
  ∀ args, preserves (queue_ok G) (unify_params ps args).
Proof.
  induction ps as [|[t named] ps IH]; intros args; [apply preserves_ret|].
  destruct args as [|arg args]; [apply preserves_ret|].
  cbn [unify_params].
  apply preserves_bind; [apply queue_ok_unify|]. intros _.
  apply preserves_bind; [|intros _; apply IH].
  destruct named; [apply preserves_ret|apply preserves_assert].
Qed.

Lemma phis_inv_guess_parameters G fn_sig :
  preserves (phis_inv G) (guess_parameters fn_sig).
Proof.
  unfold guess_parameters. destruct (params_known fn_sig);
    [apply preserves_ret|].
  apply preserves_bind; [apply phis_stack_inv|]. intros s.
  apply preserves_bind; [apply phis_heap_inv, queue_ok_pad_params|].
  intros ps. apply phis_heap_inv, queue_ok_unify_params.
Qed.

(** At the start of [translate_to_ast] no phi exists: the entry state is
    well formed whatever its registers hold. *)
Lemma state_wf_no_phis G state :
  (∀ reg data, contents (regs state) !! reg = Some data →
     is_phi (value data) = false ∧ naive_phis (value data) = []) →
  branch_condition state = None → switch_control state = None →
  state_wf G state.
Proof.
  intros Hr Eb Es. split; [|split].
  - intros reg data Hd. destruct (Hr reg data Hd) as [Hphi Hnone]. split.
    + by destruct (value data).
    + by apply phis_wf_no_phis.
  - rewrite Eb. by intros.
  - rewrite Es. by intros.
Qed.

Section TranslateToAstInvariant.

Variable G : FlowGraph.
Variable eval_fn :
  Instruction → option (Eff (Heap * StackInfo * NodeState) unit).
Variable wrap_instr_failure : Instruction → Exn → Exn.
Hypothesis eval_fn_wf :
  ∀ instr f, eval_fn instr = Some f → preserves (node_wf G) f.
Hypothesis dominators : dominators_ok G.

Lemma phis_inv_translate_to_ast children base_return_regs is_void steps fuel
    stop_on_error void type_provided fn_sig state return_nodes :
  state_wf G state →
  preserves (phis_inv G)
    (translate_to_ast eval_fn wrap_instr_failure children base_return_regs
       is_void steps fuel stop_on_error void type_provided G fn_sig state
       return_nodes).
Proof.
  intros Hstate. unfold translate_to_ast.
  apply preserves_bind.
  { apply (preserves_zoom _ (translation_wf G)).
    - by intros st [? ?].
    - by intros t st _ [? ?].
    - apply (translation_wf_translate_all_blocks G eval_fn
               wrap_instr_failure eval_fn_wf); [done|].
      by apply Forall_cons. }
  intros _.
  apply preserves_bind; [apply phis_inv_propagate_register_metas|].
  intros _.
  apply preserves_bind; [apply phis_heap_inv, preserves_get_state|].
  intros h.
  apply preserves_bind.
  { destruct (_ && _); [|apply preserves_ret].
    apply preserves_bind; [apply phis_inv_block_infos|]. intros bs.
    apply preserves_ret. }
  intros [return_reg|].
  - apply preserves_bind; [apply phis_inv_mark_return_values|]. intros _.
    apply phis_inv_guess_parameters.
  - apply preserves_bind.
    { apply preserves_bind; [apply phis_heap_inv, queue_ok_new_type|].
      intros t.
      apply preserves_bind; [apply phis_heap_inv, queue_ok_unify|].
      intros _. apply preserves_ret. }
    intros _. apply phis_inv_guess_parameters.
Qed.

End TranslateToAstInvariant.

(** Claim C10: every [NaivePhiExpr] that the loop of [assign_naive_phis]
    takes from the queue passes the three assertions at the head of the
    loop: it has been used, it has at least two sources, and its node has
    at least two parents.  The loop starts from the state in which
    [translate_to_ast] calls [assign_naive_phis]: after
    [translate_all_blocks], [propagate_register_meta], the loop that marks
    and uses the return values, and the guessing of the parameters; the
    queue then holds the phis that the translation of the nodes has used
    and those that are used as return values.  The flow graph gives
    immediate dominators, the instruction evaluators keep the invariant of
    the node state (they build no phi of their own), and [translate_to_ast]
    starts without ill-formed phis, as it does when no phi exists yet:
    with an empty queue, no block info, and registers that hold no phi.
    The phis are then those that [create_dominated_node_state] builds from
    the sources that [reg_sources] finds, and the queue holds those that
    [use] counted.  This holds whatever the return nodes, the return
    registers of the architecture, the signature and the options are. *)
Theorem naive_phi_assertions_hold G eval_fn wrap_instr_failure children
    base_return_regs is_void steps fuel stop_on_error void type_provided
    fn_sig state return_nodes st0 st1 loop_fuel i st phi :
  dominators_ok G →
  (∀ instr f, eval_fn instr = Some f → preserves (node_wf G) f) →
  state_wf G state →
  phis_inv G st0 →
  translate_to_ast eval_fn wrap_instr_failure children base_return_regs
    is_void steps fuel stop_on_error void type_provided G fn_sig state
    return_nodes st0 = (Ok tt, st1) →
  assign_loop_reaches loop_fuel G st1 i st →
  used_naive_phis (ps_heap st) !! i = Some phi →
  ∃ oid reg n type sources uses_dominator,
    phi = NaivePhiExpr oid reg n type sources uses_dominator
    ∧ assert (0 <? num_usages (ps_heap st) oid)%nat st = (Ok tt, st)
    ∧ assert (2 <=? length sources)%nat st = (Ok tt, st)
    ∧ assert (2 <=? length (parents (node_at G n)))%nat st = (Ok tt, st).
Proof.
  intros Hdom Heval Hstate Hst0 Etrans Hreach Hphi.
  apply (phis_inv_translate_to_ast G eval_fn wrap_instr_failure Heval Hdom
           children base_return_regs is_void steps fuel stop_on_error void
           type_provided fn_sig state return_nodes Hstate) in Etrans;
    [|done].
  apply (assign_loop_reaches_inv G) in Hreach as [Hqueue _]; [|done].
  destruct Hqueue as [Hqueue _].
  apply list_elem_of_lookup_2, Hqueue, naive_phi_checks_asserts in Hphi
    as (oid & reg & n & type & sources & ud & -> & H1 & H2 & H3).
  exists oid, reg, n, type, sources, ud. unfold assert.
  by rewrite H1, H2, H3.
Qed.



(** ** Unwrapping *)

Lemma early_unwrap_idem h e :
  early_unwrap h (early_unwrap h e) = early_unwrap h e.
Proof.
  induction e; try reflexivity. cbn [early_unwrap].
  destruct (negb (forced_emit h oid) && negb emit_exactly_once) eqn:E;
    [done|]. cbn [early_unwrap]. by rewrite E.
Qed.

Lemma transparent_unwrap_idem h e :
  transparent_unwrap h (transparent_unwrap h e) = transparent_unwrap h e.
Proof.
  induction e; try reflexivity. cbn [transparent_unwrap].
  destruct (transparent && negb (uses_var h var trivial)) eqn:E;
    [done|]. cbn [transparent_unwrap]. by rewrite E.
Qed.

Lemma unwrap_deep_early_unwrap h e :
  unwrap_deep (early_unwrap h e) = unwrap_deep e.
Proof.
  induction e; try reflexivity. cbn [early_unwrap].
  by destruct (negb (forced_emit h oid) && negb emit_exactly_once).
Qed.

Lemma unwrap_deep_transparent_unwrap h e :
  unwrap_deep (transparent_unwrap h e) = unwrap_deep e.
Proof.
  induction e; try reflexivity. cbn [transparent_unwrap].
  by destruct (transparent && negb (uses_var h var trivial)).
Qed.

Lemma unwrap_deep_no_wrapper e : is_EvalOnceExpr (unwrap_deep e) = false.
Proof. by induction e. Qed.

Lemma early_unwrap_ints_early_unwrap h e :
  early_unwrap_ints h (early_unwrap h e) = early_unwrap_ints h e.
Proof.
  induction e; try reflexivity. cbn [early_unwrap].
  destruct (negb (forced_emit h oid) && negb emit_exactly_once) eqn:E.
  - cbn [early_unwrap_ints]. by rewrite E.
  - done.
Qed.

Lemma early_unwrap_ints_idem h e :
  early_unwrap_ints h (early_unwrap_ints h e) = early_unwrap_ints h e.
Proof.
  induction e; try reflexivity.
  - cbn [early_unwrap_ints].
    destruct (reinterpret && is_int type (types h)) eqn:E; [done|].
    cbn [early_unwrap_ints]. by rewrite E.
  - cbn [early_unwrap_ints].
    destruct (negb (forced_emit h oid) && negb emit_exactly_once) eqn:E;
      [done|]. cbn [early_unwrap_ints]. by rewrite E.
Qed.

(** Property X1: The unwrapping functions compose: each is idempotent, [unwrap_deep]
    absorbs the two that stop earlier and never returns a wrapper, and
    [early_unwrap_ints] absorbs [early_unwrap]. *)
Theorem unwrap_functions_compose (h : Heap) (e : Expression) :
  early_unwrap h (early_unwrap h e) = early_unwrap h e
  ∧ transparent_unwrap h (transparent_unwrap h e) = transparent_unwrap h e
  ∧ early_unwrap_ints h (early_unwrap_ints h e) = early_unwrap_ints h e
  ∧ unwrap_deep (unwrap_deep e) = unwrap_deep e
  ∧ unwrap_deep (early_unwrap h e) = unwrap_deep e
  ∧ unwrap_deep (transparent_unwrap h e) = unwrap_deep e
  ∧ early_unwrap_ints h (early_unwrap h e) = early_unwrap_ints h e
  ∧ is_EvalOnceExpr (unwrap_deep e) = false.
Proof.
  split; [apply early_unwrap_idem|].
  split; [apply transparent_unwrap_idem|].
  split; [apply early_unwrap_ints_idem|].
  split; [by induction e|].
  split; [apply unwrap_deep_early_unwrap|].
  split; [apply unwrap_deep_transparent_unwrap|].
  split; [apply early_unwrap_ints_early_unwrap|].
  apply unwrap_deep_no_wrapper.
Qed.

(** ** Trivial expressions *)

Lemma use_trivial fuel : ∀ e (h : Heap),
  is_trivial_expression e = true → (depth e < fuel)%nat →
  use fuel e h = Ok h.
Proof.
  induction fuel as [|fuel IH]; intros e h Ht Hd; [lia|].
  destruct e; try discriminate Ht; cbn [use dependencies use_each]; try done.
  cbn [is_trivial_expression] in Ht. cbn [depth] in Hd.
  rewrite IH; [done|done|lia].
Qed.

(** Property X2: A trivial expression is wrapped transparently, and using it changes
    nothing: it holds no wrapper and no phi. *)
Theorem trivial_expression_is_free (h : Heap) (e : Expression) :
  is_trivial_expression e = true →
  should_wrap_transparently h e = true
  ∧ wrapper_vars e = []
  ∧ ∀ fuel h', (depth e < fuel)%nat → use fuel e h' = Ok h'.
Proof.
  intros Ht. split; [|split].
  - induction e; try discriminate Ht; try reflexivity.
    cbn [is_trivial_expression] in Ht. cbn [should_wrap_transparently].
    by apply IHe.
  - induction e; try discriminate Ht; try reflexivity.
    cbn [is_trivial_expression] in Ht. cbn [wrapper_vars]. by apply IHe.
  - intros fuel h' Hd. by apply use_trivial.
Qed.

(** ** [late_unwrap] *)

Lemma late_unwrap_stops fuel : ∀ (h : Heap) e r,
  late_unwrap fuel h e = Ok r → late_unwrapped h r = true.
Proof.
  induction fuel as [|fuel IH]; intros h e r E; [discriminate|].
  destruct e; cbn [late_unwrap] in E; try by injection E as <-.
  - destruct (negb (uses_var h var trivial)) eqn:Eu; [by eapply IH|].
    injection E as <-. cbn [late_unwrapped].
    by apply negb_false_iff in Eu.
  - destruct (replacement_expr h oid) as [r0|] eqn:Er; [by eapply IH|].
    injection E as <-. cbn [late_unwrapped]. rewrite Er.
    apply negb_true_iff, bool_decide_eq_false. by intros [? ?].
Qed.

Lemma late_unwrap_fixed fuel (h : Heap) r :
  late_unwrapped h r = true → late_unwrap (S fuel) h r = Ok r.
Proof.
  intros Hr. destruct r; try reflexivity; cbn [late_unwrap late_unwrapped] in *.
  - by rewrite Hr.
  - apply negb_true_iff, bool_decide_eq_false in Hr.
    destruct (replacement_expr h oid); [|done]. by destruct Hr.
Qed.

(** Property X3: What [late_unwrap] returns is no wrapper that can still be unwrapped
    and no phi with a replacement; unwrapping it again changes nothing, and
    neither does more fuel. *)
Theorem late_unwrap_result_is_final fuel (h : Heap) (e r : Expression) :
  late_unwrap fuel h e = Ok r →
  late_unwrapped h r = true
  ∧ (∀ fuel', late_unwrap (S fuel') h r = Ok r)
  ∧ (∀ fuel', (fuel ≤ fuel')%nat → late_unwrap fuel' h e = Ok r).
Proof.
  intros E. split; [by eapply late_unwrap_stops|]. split.
  - intros fuel'. eapply late_unwrap_fixed, late_unwrap_stops, E.
  - revert e E. induction fuel as [|fuel IH]; intros e E fuel' Hle;
      [discriminate|].
    destruct fuel' as [|fuel']; [lia|].
    destruct e; cbn [late_unwrap] in E |- *; try exact E.
    + destruct (negb (uses_var h var trivial)); [|exact E].
      apply IH; [done|lia].
    + destruct (replacement_expr h oid); [|exact E].
      apply IH; [done|lia].
Qed.


(** ** What [use] and [force] never undo *)

Section UseRelationPhi.
Variable R : Heap → Heap → Prop.
Hypothesis R_refl : ∀ h, R h h.
Hypothesis R_trans : ∀ a b c, R a b → R b c → R a c.
Hypothesis R_emitted : ∀ v h, R h (set_is_emitted v h).
Hypothesis R_used : ∀ o h, R h (set_is_used o h).
Hypothesis R_count : ∀ oid reg n type sources ud h,
  R h (count_phi_usage (NaivePhiExpr oid reg n type sources ud) oid h).
Hypothesis R_types : ∀ ts h, R h (set_types ts h).

Lemma use_rel_phi fuel : ∀ e h h', use fuel e h = Ok h' → R h h'.
Proof.
  induction fuel as [|fuel IH]; intros e h h' E; [discriminate|].
  pose proof (use_each_rel R R_refl R_trans (use fuel) IH) as Heach.
  destruct e; cbn [use] in E;
    try (eapply Heach, E; fail).
  - unfold heap_unify in E. destruct (unify _ _ _) as [b ts].
    cbn [snd] in E.
    eapply R_trans; [apply (R_types ts)|].
    eapply Heach, E.
  - apply res_bind_Ok in E as (h1 & E1 & E2). injection E2 as <-.
    eapply R_trans; [|apply R_used].
    destruct (trivial || _).
    + eapply IH, E1.
    + destruct (negb (is_used h oid)).
      * destruct (negb emit_exactly_once).
        -- eapply IH, E1.
        -- injection E1 as <-. apply R_refl.
      * injection E1 as <-. apply R_emitted.
  - eapply R_trans; [apply R_count|].
    destruct (replacement_expr _ _).
    + eapply IH, E.
    + injection E as <-. apply R_refl.
Qed.
End UseRelationPhi.

Lemma num_usages_count phi oid (h : Heap) o :
  num_usages (count_phi_usage phi oid h) o
  = if decide (o = oid) then S (num_usages h oid) else num_usages h o.
Proof.
  unfold count_phi_usage.
  assert (E : ∀ h0 : Heap,
            num_usages (set_num_usages oid (num_usages h0 oid + 1) h0) o
            = if decide (o = oid) then S (num_usages h0 oid)
              else num_usages h0 o).
  { intros h0. unfold num_usages at 1. cbn [set_num_usages phi_num_usages].
    destruct (decide (o = oid)) as [->|Hne].
    - rewrite lookup_insert_eq. cbn. lia.
    - by rewrite lookup_insert_ne. }
  destruct (Nat.eqb (num_usages h oid) 0); by rewrite E.
Qed.

Lemma used_naive_phis_count phi oid (h : Heap) :
  used_naive_phis (count_phi_usage phi oid h)
  = if Nat.eqb (num_usages h oid) 0 then used_naive_phis h ++ [phi]
    else used_naive_phis h.
Proof. unfold count_phi_usage. by destruct (Nat.eqb (num_usages h oid) 0). Qed.

Lemma use_num_usages_mono fuel e (h h' : Heap) :
  use fuel e h = Ok h' → ∀ o, (num_usages h o ≤ num_usages h' o)%nat.
Proof.
  apply (use_rel_phi (λ a b, ∀ o, (num_usages a o ≤ num_usages b o)%nat));
    try done.
  - intros a b c Hab Hbc o. specialize (Hab o). specialize (Hbc o). lia.
  - intros oid reg n type sources ud h0 o. rewrite num_usages_count.
    destruct (decide (o = oid)) as [->|]; lia.
Qed.

Lemma use_queue_prefix fuel e (h h' : Heap) :
  use fuel e h = Ok h' → used_naive_phis h `prefix_of` used_naive_phis h'.
Proof.
  apply (use_rel_phi
           (λ a b, used_naive_phis a `prefix_of` used_naive_phis b));
    try done.
  - intros a b c. apply PreOrder_Transitive.
  - intros oid reg n type sources ud h0. rewrite used_naive_phis_count.
    destruct (Nat.eqb _ _); [by apply prefix_app_r|done].
Qed.

Lemma force_Ok fuel e (h h' : Heap) :
  force fuel e h = Ok h' →
  h' = h
  ∨ ∃ oid w var ty src eeo trivial transparent h1,
      e = EvalOnceExpr oid w var ty src eeo trivial transparent
      ∧ use fuel e (set_is_emitted var (set_forced_emit oid h)) = Ok h1
      ∧ use fuel e h1 = Ok h'.
Proof.
  unfold force. destruct e; try discriminate.
  destruct (negb (forced_emit h oid) && negb trivial);
    [|intros [= <-]; by left].
  intros (h1 & E1 & E2)%res_bind_Ok. right.
  by exists oid, e, var, type, source, emit_exactly_once, trivial,
    transparent, h1.
Qed.

(** Property X4: Neither [use] nor [force] takes a decision back: the vars marked for
    emission, the wrappers marked as used or forced and the usage counts of
    the phis only grow, the queue of the phis is only appended to, and no
    replacement expression is touched. *)
Theorem use_and_force_only_add fuel (e : Expression) (h h' : Heap) :
  use fuel e h = Ok h' ∨ force fuel e h = Ok h' →
  var_is_emitted h ⊆ var_is_emitted h'
  ∧ eo_is_used h ⊆ eo_is_used h'
  ∧ eo_forced_emit h ⊆ eo_forced_emit h'
  ∧ (∀ oid, (num_usages h oid ≤ num_usages h' oid)%nat)
  ∧ used_naive_phis h `prefix_of` used_naive_phis h'
  ∧ phi_replacement_expr h' = phi_replacement_expr h.
Proof.
  assert (Huse : ∀ e0 (a b : Heap), use fuel e0 a = Ok b →
            var_is_emitted a ⊆ var_is_emitted b
            ∧ eo_is_used a ⊆ eo_is_used b
            ∧ eo_forced_emit a ⊆ eo_forced_emit b
            ∧ (∀ oid, (num_usages a oid ≤ num_usages b oid)%nat)
            ∧ used_naive_phis a `prefix_of` used_naive_phis b
            ∧ phi_replacement_expr b = phi_replacement_expr a).
  { intros e0 a b E.
    split; [by eapply use_is_emitted_mono|].
    split; [by eapply use_is_used_mono|].
    split; [by rewrite (use_forced_emit _ _ _ _ E)|].
    split; [by eapply use_num_usages_mono|].
    split; [by eapply use_queue_prefix|by eapply use_replacement_expr]. }
  intros [E|E]; [by eapply Huse|].
  apply force_Ok in E
    as [->|(oid & w & var & ty & src & eeo & tr & tp & h1 & -> & E1 & E2)];
    [done|].
  apply Huse in E1 as (A1 & A2 & A3 & A4 & A5 & A6).
  apply Huse in E2 as (B1 & B2 & B3 & B4 & B5 & B6).
  cbn [set_is_emitted set_forced_emit var_is_emitted eo_is_used
       eo_forced_emit used_naive_phis phi_replacement_expr] in *.
  split; [set_solver|]. split; [set_solver|]. split; [set_solver|].
  split; [intros o; specialize (A4 o); specialize (B4 o);
          unfold num_usages in *; cbn in *; lia|].
  split; [by etrans|congruence].
Qed.

Lemma queue_exact_count oid reg n type sources ud (h : Heap) :
  queue_exact h →
  queue_exact (count_phi_usage (NaivePhiExpr oid reg n type sources ud) oid h).
Proof.
  intros (Hphis & Hnd & Hnum).
  split; [|split].
  - rewrite used_naive_phis_count. destruct (Nat.eqb _ _); [|done].
    apply Forall_app. split; [done|]. by constructor.
  - rewrite used_naive_phis_count.
    destruct (Nat.eqb (num_usages h oid) 0) eqn:E0; [|done].
    apply Nat.eqb_eq in E0. rewrite map_app. apply NoDup_app.
    split; [done|]. split; [|apply NoDup_singleton].
    intros o Ho Hin. cbn in Hin. apply list_elem_of_singleton in Hin as ->.
    apply (proj2 (Hnum oid)) in Ho. lia.
  - intros o. rewrite num_usages_count, used_naive_phis_count.
    destruct (decide (o = oid)) as [->|Hne].
    + split; [intros _|lia].
      destruct (Nat.eqb (num_usages h oid) 0) eqn:E0.
      * rewrite map_app, elem_of_app. right. by apply list_elem_of_singleton.
      * apply Nat.eqb_neq in E0. apply Hnum. lia.
    + rewrite Hnum. destruct (Nat.eqb (num_usages h oid) 0); [|done].
      rewrite map_app, elem_of_app. split; [by left|].
      intros [?|Hin]; [done|]. cbn in Hin.
      by apply list_elem_of_singleton in Hin.
Qed.

Lemma queue_exact_empty (h : Heap) :
  used_naive_phis h = [] → phi_num_usages h = ∅ → queue_exact h.
Proof.
  intros Eq En. unfold queue_exact, num_usages. rewrite Eq, En.
  split; [constructor|]. split; [constructor|].
  intros oid. rewrite lookup_empty. cbn. split; [lia|].
  by intros ?%elem_of_nil.
Qed.

Lemma queue_exact_fields (h h' : Heap) :
  phi_num_usages h' = phi_num_usages h →
  used_naive_phis h' = used_naive_phis h →
  queue_exact h → queue_exact h'.
Proof.
  intros En Eq (Hphis & Hnd & Hnum). unfold queue_exact, num_usages.
  rewrite En, Eq. done.
Qed.

(** Property X5: [NaivePhiExpr.use] puts a phi in the queue on its first use only: if
    the queue holds each phi once, and exactly the phis with a usage, it
    still does after any [use]. *)
Theorem phi_queue_holds_each_used_phi_once fuel (e : Expression)
    (h h' : Heap) :
  queue_exact h → use fuel e h = Ok h' → queue_exact h'.
Proof.
  intros Hq E.
  refine (use_rel_phi (λ a b, queue_exact a → queue_exact b)
            _ _ _ _ _ _ fuel e h h' E Hq).
  - by intros.
  - intros a b c Hab Hbc Ha. auto.
  - intros v h0. by apply queue_exact_fields.
  - intros o h0. by apply queue_exact_fields.
  - intros oid reg n type sources ud h0. apply queue_exact_count.
  - intros ts h0. by apply queue_exact_fields.
Qed.


(** ** Writing, reading and deleting registers *)

Lemma string_eqb_false (a b : string) : String.eqb a b = false → a ≠ b.
Proof. intros E ->. by rewrite String.eqb_refl in E. Qed.

(** Property X6: A register write that returns is read back by [get_raw] and
    [get_meta], and leaves the other registers, the active instruction and
    the set of inherited reads alone.  [set_with_meta] returns exactly when
    the register is not zero and an instruction that declares it as an
    output is active, [global_set_with_meta] exactly when the register is
    not zero and no instruction is active; a write that does not return
    changes nothing. *)
Theorem register_write_is_read_back key v m (r : RegInfo) :
  (∀ r', set_with_meta key v m r = (Ok tt, r')
         ∨ global_set_with_meta key v m r = (Ok tt, r') →
     get_raw key r' = Some v
     ∧ get_meta key r' = Some m
     ∧ RegInfo_contains key r' = true
     ∧ (∀ k, k ≠ key → contents r' !! k = contents r !! k)
     ∧ active_instr r' = active_instr r
     ∧ read_inherited r' = read_inherited r
     ∧ key ≠ zero)
  ∧ ((∃ r', set_with_meta key v m r = (Ok tt, r')) ↔
     key ≠ zero
     ∧ ∃ instr, active_instr r = Some instr
                ∧ reg_in key (outputs instr) = true)
  ∧ ((∃ r', global_set_with_meta key v m r = (Ok tt, r')) ↔
     key ≠ zero ∧ active_instr r = None)
  ∧ (∀ res r', set_with_meta key v m r = (res, r')
               ∨ global_set_with_meta key v m r = (res, r') →
     res ≠ Ok tt → r' = r).
Proof.
  assert (Hset : ∀ res r',
            set_with_meta key v m r = (res, r') →
            (res = Ok tt
             ∧ r' = set_contents
                      (<[key := {| value := v; meta := m |}]> (contents r)) r
             ∧ key ≠ zero
             ∧ ∃ instr, active_instr r = Some instr
                        ∧ reg_in key (outputs instr) = true)
            ∨ (res ≠ Ok tt ∧ r' = r
               ∧ ¬ (key ≠ zero
                    ∧ ∃ instr, active_instr r = Some instr
                               ∧ reg_in key (outputs instr) = true))).
  { intros res r' E.
    unfold set_with_meta, mbind, Eff_bind, get_state, assert, modify_state
      in E.
    destruct (active_instr r) as [instr|] eqn:Ea.
    - destruct (reg_in key (outputs instr)) eqn:Eo; cbn in E.
      + destruct (String.eqb key zero) eqn:Ek; cbn in E.
        * injection E as <- <-. right. split; [done|]. split; [done|].
          intros [Hne _]. by apply String.eqb_neq in Hne; congruence.
        * injection E as <- <-. left. split; [done|]. split; [done|].
          split; [by apply string_eqb_false|]. by exists instr.
      + injection E as <- <-. right. split; [done|]. split; [done|].
        intros [_ (i & [= <-] & Hi)]. congruence.
    - injection E as <- <-. right. split; [done|]. split; [done|].
      by intros [_ (i & ? & _)]. }
  assert (Hglobal : ∀ res r',
            global_set_with_meta key v m r = (res, r') →
            (res = Ok tt
             ∧ r' = set_contents
                      (<[key := {| value := v; meta := m |}]> (contents r)) r
             ∧ key ≠ zero ∧ active_instr r = None)
            ∨ (res ≠ Ok tt ∧ r' = r
               ∧ ¬ (key ≠ zero ∧ active_instr r = None))).
  { intros res r' E.
    unfold global_set_with_meta, mbind, Eff_bind, get_state, assert,
      modify_state in E.
    destruct (active_instr r) as [instr|] eqn:Ea; cbn in E.
    - injection E as <- <-. right. split; [done|]. split; [done|].
      by intros [_ ?].
    - destruct (String.eqb key zero) eqn:Ek; cbn in E.
      + injection E as <- <-. right. split; [done|]. split; [done|].
        intros [Hne _]. by apply String.eqb_neq in Hne; congruence.
      + injection E as <- <-. left. split; [done|]. split; [done|].
        split; [by apply string_eqb_false|done]. }
  split; [|split; [|split]].
  - intros r' Hw.
    assert (Hr' : key ≠ zero
                  ∧ r' = set_contents
                           (<[key := {| value := v; meta := m |}]>
                              (contents r)) r).
    { destruct Hw as [E|E].
      - by destruct (Hset _ _ E) as [(_ & ? & ? & _)|(? & _)].
      - by destruct (Hglobal _ _ E) as [(_ & ? & ? & _)|(? & _)]. }
    destruct Hr' as [Hne ->].
    unfold get_raw, get_meta, RegInfo_contains. cbn [set_contents contents
      active_instr read_inherited]. rewrite lookup_insert_eq. cbn.
    split; [done|]. split; [done|].
    split; [first [done|by apply bool_decide_eq_true]|].
    split; [by intros k Hk; rewrite lookup_insert_ne|]. done.
  - split.
    + intros [r' E].
      by destruct (Hset _ _ E) as [(_ & _ & ? & ?)|(? & _)].
    + intros Hc.
      destruct (set_with_meta key v m r) as [res r'] eqn:E.
      destruct (Hset _ _ eq_refl) as [(-> & _)|(_ & _ & Hn)]; [|done].
      by exists r'.
  - split.
    + intros [r' E].
      by destruct (Hglobal _ _ E) as [(_ & _ & ? & ?)|(? & _)].
    + intros Hc.
      destruct (global_set_with_meta key v m r) as [res r'] eqn:E.
      destruct (Hglobal _ _ eq_refl) as [(-> & _)|(_ & _ & Hn)]; [|done].
      by exists r'.
  - intros res r' [E|E] Hres.
    + by destruct (Hset _ _ E) as [(? & _)|(_ & ? & _)].
    + by destruct (Hglobal _ _ E) as [(? & _)|(_ & ? & _)].
Qed.

(** Property X7: [update_meta] and [__delitem__] on a register that is not set raise
    [KeyError] and change nothing.  On a register that is set, [update_meta]
    replaces the meta and keeps the value, [__delitem__] removes the
    register; both leave the other registers alone. *)
Theorem register_update_and_delete key m (r : RegInfo) :
  key ≠ zero →
  (contents r !! key = None →
     update_meta key m r = (Raise KeyError, r)
     ∧ RegInfo_delitem key r = (Raise KeyError, r))
  ∧ (∀ data, contents r !! key = Some data →
     ∃ r1 r2,
       update_meta key m r = (Ok tt, r1)
       ∧ get_raw key r1 = Some (value data) ∧ get_meta key r1 = Some m
       ∧ (∀ k, k ≠ key → contents r1 !! k = contents r !! k)
       ∧ RegInfo_delitem key r = (Ok tt, r2)
       ∧ RegInfo_contains key r2 = false ∧ get_raw key r2 = None
       ∧ (∀ k, k ≠ key → contents r2 !! k = contents r !! k)).
Proof.
  intros Hne.
  assert (Ek : String.eqb key zero = false) by by apply String.eqb_neq.
  unfold update_meta, RegInfo_delitem, mbind, Eff_bind, get_state, assert,
    modify_state. rewrite Ek. cbn. split.
  - by intros ->.
  - intros data ->.
    exists (set_contents
              (<[key := {| value := value data; meta := m |}]> (contents r))
              r), (set_contents (delete key (contents r)) r).
    split; [reflexivity|].
    unfold get_raw, get_meta, RegInfo_contains.
    cbn [set_contents contents].
    rewrite lookup_insert_eq, lookup_delete_eq.
    split; [done|]. split; [done|].
    split; [by intros k Hk; rewrite lookup_insert_ne|].
    split; [done|]. split.
    { apply bool_decide_eq_false. by intros [? ?]. }
    split; [done|]. by intros k Hk; rewrite lookup_delete_ne.
Qed.

(** *** Reading *)

Lemma read_only_refl key r : read_only key r r.
Proof. split; [done|]. split; [done|]. by left. Qed.

Lemma read_only_getitem fuel key r0 :
  preserves (λ st : Heap * StackInfo * RegInfo, read_only key r0 st.2)
    (RegInfo_getitem fuel key).
Proof.
  unfold RegInfo_getitem.
  assert (Hheap : ∀ A (m : Eff Heap A),
            preserves (λ st : Heap * StackInfo * RegInfo,
                         read_only key r0 st.2) (regs_heap m)).
  { intros A m. apply (regs_heap_preserves (read_only key r0)). }
  assert (Hstack : ∀ A (m : Eff (Heap * StackInfo) A),
            preserves (λ st : Heap * StackInfo * RegInfo,
                         read_only key r0 st.2) (regs_stack m)).
  { intros A m. apply (regs_stack_preserves (read_only key r0)). }
  apply (preserves_bind_hoare _ (read_only key r0)).
  { split.
    - apply (regs_self_preserves (read_only key r0)), preserves_get_state.
    - intros [[h s] r] a st' Hr E.
      unfold regs_self, zoom, get_state in E. by injection E as <- _. }
  intros regs0 Hregs0.
  destruct (match active_instr regs0 with
            | Some instr => negb (reg_in key (inputs instr))
            | None => false
            end); [apply Hheap|].
  destruct (String.eqb key zero); [apply Hheap|].
  destruct (contents regs0 !! key) as [data|] eqn:Edata; [|apply Hheap].
  apply preserves_bind.
  { apply (regs_self_preserves (read_only key r0)), preserves_modify_state.
    intros r (Ha & Hi & Hc). split; [done|]. split; [done|].
    intros k. cbn [set_contents contents].
    destruct (decide (k = key)) as [->|Hne].
    - rewrite lookup_insert_eq. right. split; [done|].
      destruct Hregs0 as (_ & _ & Hc0).
      destruct (Hc0 key) as [E|(_ & d & Ed & E)].
      + exists data. by rewrite <- E.
      + exists d. split; [done|]. rewrite Edata in E. by injection E as ->.
    - rewrite lookup_insert_ne by done. apply Hc. }
  intros _. apply preserves_bind.
  { destruct (inherited _); [|apply preserves_ret].
    apply (regs_self_preserves (read_only key r0)), preserves_modify_state.
    intros r (Ha & Hi & Hc). split; [done|]. split; [|done].
    cbn [set_read_inherited read_inherited]. set_solver. }
  intros _. apply preserves_bind; [apply Hheap|]. intros h.
  assert (Hrest : preserves
    (λ st : Heap * StackInfo * RegInfo, read_only key r0 st.2)
    (_ ← match early_unwrap h (value data) with
         | PassedInArg v _ =>
             if initial (meta_set_is_read (meta data)) then
               '(val, arg) ← regs_stack (get_argument v);
               _ ← regs_stack (on_stack (λ s, (tt, add_argument arg s)));
               _ ← regs_heap (state_fn
                     (heap_unify (expr_type val) (expr_type (value data))));
               mret tt
             else mret tt
         | _ => mret tt
         end;
     _ ← (if meta_force (meta_set_is_read (meta data)) then
            match value data with
            | EvalOnceExpr _ _ _ _ _ _ _ _ =>
                regs_heap (run_res (force fuel (value data)))
            | _ => raise AssertionError
            end
          else mret tt);
     mret (value data))).
  { apply preserves_bind.
    - destruct (early_unwrap h (value data)); try apply preserves_ret.
      destruct (initial _); [|apply preserves_ret].
      apply preserves_bind; [apply Hstack|]. intros [val arg].
      apply preserves_bind; [apply Hstack|]. intros _.
      apply preserves_bind; [apply Hheap|]. intros _. apply preserves_ret.
    - intros _. apply preserves_bind; [|intros _; apply preserves_ret].
      destruct (meta_force _); [|apply preserves_ret].
      destruct (value data); try apply preserves_raise. apply Hheap. }
  destruct (value data); try exact Hrest.
  destruct trivial; [apply preserves_ret|exact Hrest].
Qed.

(** Property X8: Reading a register changes no value, whatever is read and however the
    read ends: every register holds the value it held, the metas of the
    other registers are as they were, that of the register read is as it was
    or marked as read, and no instruction becomes active or inactive. *)
Theorem reading_a_register_changes_no_value fuel key
    (st st' : Heap * StackInfo * RegInfo) (res : Res Expression) :
  RegInfo_getitem fuel key st = (res, st') →
  (∀ k, get_raw k st'.2 = get_raw k st.2)
  ∧ (∀ k, k ≠ key → get_meta k st'.2 = get_meta k st.2)
  ∧ (get_meta key st'.2 = get_meta key st.2
     ∨ get_meta key st'.2 = meta_set_is_read <$> get_meta key st.2)
  ∧ active_instr st'.2 = active_instr st.2
  ∧ read_inherited st.2 ⊆ read_inherited st'.2.
Proof.
  intros E.
  apply (read_only_getitem fuel key st.2) in E as (Ha & Hi & Hc);
    [|apply read_only_refl].
  unfold get_raw, get_meta.
  split; [|split; [|split; [|done]]].
  - intros k. destruct (Hc k) as [->|(_ & d & -> & ->)]; done.
  - intros k Hne. by destruct (Hc k) as [->|(? & _)].
  - destruct (Hc key) as [->|(_ & d & -> & ->)]; [by left|by right].
Qed.


(** ** The instructions of a node *)

Section Instructions.

Variable eval_fn :
  Instruction → option (Eff (Heap * StackInfo * NodeState) unit).
Variable wrap_instr_failure : Instruction → Exn → Exn.

Lemma with_current_instr_resets {A} instr
    (body : Eff (Heap * StackInfo * NodeState) A)
    (st st' : Heap * StackInfo * NodeState) res :
  with_current_instr wrap_instr_failure instr body st = (res, st') →
  match active_instr (regs st.2) with
  | Some _ => res = Raise AssertionError ∧ st' = st
  | None =>
      active_instr (regs st'.2) = None ∧ in_pattern st'.2 = false
      ∧ ∃ rb st1,
          body (st.1, set_in_pattern (instr_in_pattern instr)
                        (set_regs (set_active_instr (Some instr)
                                     (regs st.2)) st.2))
          = (rb, st1)
          ∧ st' = (st1.1, set_in_pattern false
                            (set_regs (set_active_instr None (regs st1.2))
                               st1.2))
          ∧ res = match rb with
                  | Ok a => Ok a
                  | Raise e => Raise (wrap_instr_failure instr e)
                  | OutOfFuel => OutOfFuel
                  end
  end.
Proof.
  destruct st as [[h s] n]. unfold with_current_instr.
  unfold mbind at 1, Eff_bind. cbn [node_self zoom get_state fst snd].
  unfold mbind at 1, Eff_bind, assert.
  destruct (active_instr (regs n)) as [i|] eqn:Ea; cbn [bool_decide].
  { rewrite bool_decide_eq_false_2 by done. by intros [= <- <-]. }
  rewrite bool_decide_eq_true_2 by done.
  unfold mbind at 1, Eff_bind.
  cbn [node_regs node_self zoom modify_state fst snd].
  unfold mbind at 1, Eff_bind.
  cbn [node_regs node_self zoom modify_state fst snd].
  destruct (body _) as [rb [[h1 s1] n1]] eqn:Eb.
  unfold mbind, Eff_bind.
  cbn [node_regs node_self zoom modify_state fst snd].
  intros E. split; [|split].
  - by destruct rb; injection E as <- <-.
  - by destruct rb; injection E as <- <-.
  - exists rb, (h1, s1, n1). split; [reflexivity|].
    by destruct rb; injection E as <- <-.
Qed.

(** Property X9: [NodeState.current_instr] cleans up like its [finally] clause: however
    the evaluation of the instructions of a node ends, and whatever the
    evaluators do, no instruction is left active; after at least one
    instruction the node is in no pattern. *)
Theorem no_instruction_left_active instrs
    (st st' : Heap * StackInfo * NodeState) res :
  active_instr (regs st.2) = None →
  evaluate_each eval_fn wrap_instr_failure instrs st = (res, st') →
  active_instr (regs st'.2) = None
  ∧ (instrs ≠ [] → in_pattern st'.2 = false).
Proof.
  revert st. induction instrs as [|instr instrs IH]; intros st Ha E.
  - injection E as _ <-. done.
  - cbn [evaluate_each] in E. unfold mbind, Eff_bind in E.
    destruct (with_current_instr _ instr _ st) as [r1 st1] eqn:E1.
    apply with_current_instr_resets in E1. rewrite Ha in E1.
    destruct E1 as (Ha1 & Hp1 & _).
    destruct r1 as [[]| |]; [|by injection E as _ <-..].
    destruct (IH st1 Ha1 E) as [Ha' Hp']. split; [done|]. intros _.
    destruct instrs as [|i2 instrs]; [|by apply Hp'].
    by injection E as _ <-.
Qed.

(** Property X10: An instruction whose evaluation returns has passed the checks of
    [evaluate_instruction]: a return instruction is in a return node, and a
    conditional instruction found no condition set and has set the branch
    condition or the switch control. *)
Theorem evaluated_instruction_is_consistent instr
    (st st' : Heap * StackInfo * NodeState) :
  evaluate_instruction eval_fn instr st = (Ok tt, st') →
  (is_return instr = true → node_kind (node st.2) = ReturnNode)
  ∧ (is_conditional instr = true →
     branch_condition st.2 = None ∧ switch_control st.2 = None
     ∧ (branch_condition st'.2 ≠ None ∨ switch_control st'.2 ≠ None)).
Proof.
  destruct st as [[h s] n]. unfold evaluate_instruction. intros E.
  apply eff_bind_Ok in E as (n0 & st0 & E0 & E).
  unfold node_self, zoom, get_state in E0. injection E0 as <- <-.
  apply eff_bind_Ok in E as ([] & st1 & E1 & E).
  apply eff_bind_Ok in E as ([] & st2 & E2 & E).
  apply eff_bind_Ok in E as ([] & st3 & E3 & E).
  apply eff_bind_Ok in E as (n3 & st4 & E4 & E).
  destruct st3 as [[h3 s3] n3'].
  unfold node_self, zoom, get_state in E4. injection E4 as <- <-.
  cbn [fst snd] in *. split.
  - intros Hr. rewrite Hr in E1. apply assert_Ok in E1 as [E1 _].
    by destruct (node_kind (node n)).
  - intros Hc. rewrite Hc in E2, E.
    assert (Est1 : st1 = (h, s, n)).
    { destruct (is_return instr); [by apply assert_Ok in E1 as [_ ->]|].
      by injection E1 as <-. }
    subst st1. apply assert_Ok in E2 as [E2 _].
    apply andb_true_iff in E2 as [Eb Es].
    apply bool_decide_eq_true in Eb, Es.
    apply assert_Ok in E as [E ->]. cbn [snd].
    split; [done|]. split; [done|].
    apply orb_true_iff in E as [E|E]; apply negb_true_iff,
      bool_decide_eq_false in E; auto.
Qed.

End Instructions.

(** Property X11: [set_branch_condition] returns in a conditional node without a branch
    condition only; the condition it sets is then the branch condition, and
    setting another one fails and leaves the first. *)
Theorem branch_condition_is_set_once cond
    (st st' : Heap * StackInfo * NodeState) :
  set_branch_condition cond st = (Ok tt, st') →
  node_kind (node st.2) = ConditionalNode
  ∧ branch_condition st.2 = None
  ∧ branch_condition st'.2 = Some cond
  ∧ ∀ cond', set_branch_condition cond' st' = (Raise AssertionError, st').
Proof.
  destruct st as [[h s] n]. unfold set_branch_condition. intros E.
  apply eff_bind_Ok in E as (n0 & st0 & E0 & E).
  unfold node_self, zoom, get_state in E0. injection E0 as <- <-.
  apply eff_bind_Ok in E as ([] & st1 & E1 & E).
  apply assert_Ok in E1 as [Ek ->].
  apply eff_bind_Ok in E as ([] & st2 & E2 & E).
  apply assert_Ok in E2 as [Eb ->]. apply bool_decide_eq_true in Eb.
  unfold node_self, zoom, modify_state in E. injection E as <-.
  cbn [fst snd node branch_condition].
  split; [by destruct (node_kind (node n))|]. split; [done|].
  split; [done|]. intros cond'.
  unfold mbind, Eff_bind, node_self, zoom, get_state, assert.
  cbn [fst snd node branch_condition]. rewrite Ek.
  by rewrite bool_decide_eq_false_2.
Qed.


(** ** Preventing later uses *)

Lemma update_meta_Ok key m (r r' : RegInfo) :
  update_meta key m r = (Ok tt, r') →
  ∃ data, contents r !! key = Some data
          ∧ r' = set_contents
                   (<[key := {| value := value data; meta := m |}]>
                      (contents r)) r.
Proof.
  unfold update_meta, mbind, Eff_bind, get_state, assert, modify_state.
  destruct (negb (String.eqb key zero)); [|done]. cbn.
  destruct (contents r !! key) as [data|]; [|done].
  intros [= <-]. by exists data.
Qed.

Lemma update_meta_state key m (r r' : RegInfo) res :
  update_meta key m r = (res, r') → res = Ok tt ∨ r' = r.
Proof.
  unfold update_meta, mbind, Eff_bind, get_state, assert, modify_state.
  destruct (negb (String.eqb key zero)); [|by intros [= _ <-]; right]. cbn.
  destruct (contents r !! key) as [data|]; [|by intros [= _ <-]; right].
  intros [= <- _]. by left.
Qed.

Lemma node_regs_run {A} (m : Eff RegInfo A) (h : Heap) (s : StackInfo)
    (n : NodeState) :
  node_regs m (h, s, n) = ((m (regs n)).1, (h, s, set_regs (m (regs n)).2 n)).
Proof.
  unfold node_regs, node_self, zoom. cbn [fst snd].
  by destruct (m (regs n)).
Qed.

Lemma prevent_later_uses_each_spec fuel expr_filter (h : Heap)
    (s : StackInfo) : ∀ items (n : NodeState) res st',
  NoDup items.*1 →
  (∀ k d, (k, d) ∈ items → contents (regs n) !! k = Some d) →
  prevent_later_uses_each fuel expr_filter items (h, s, n) = (res, st') →
  st'.1 = (h, s)
  ∧ (∀ k, contents (regs st'.2) !! k = contents (regs n) !! k
          ∨ ∃ d, (k, d) ∈ items ∧ to_force fuel h expr_filter d
                 ∧ contents (regs st'.2) !! k = Some (forced d))
  ∧ (res = Ok tt →
     ∀ k d, (k, d) ∈ items → to_force fuel h expr_filter d →
       contents (regs st'.2) !! k = Some (forced d)).
Proof.
  induction items as [|[r data] items IH]; intros n res st' Hnd Hitems E.
  { injection E as <- <-. split; [done|]. split; [by left|].
    by intros _ k d ?%elem_of_nil. }
  apply NoDup_cons in Hnd as [Hr Hnd]. cbn [prevent_later_uses_each] in E.
  assert (Hdata : contents (regs n) !! r = Some data)
    by (apply Hitems; by left).
  assert (Hskip : ¬ to_force fuel h expr_filter data →
            prevent_later_uses_each fuel expr_filter items (h, s, n)
            = (res, st') →
            st'.1 = (h, s)
            ∧ (∀ k, contents (regs st'.2) !! k = contents (regs n) !! k
                    ∨ ∃ d, (k, d) ∈ (r, data) :: items
                           ∧ to_force fuel h expr_filter d
                           ∧ contents (regs st'.2) !! k = Some (forced d))
            ∧ (res = Ok tt →
               ∀ k d, (k, d) ∈ (r, data) :: items →
                 to_force fuel h expr_filter d →
                 contents (regs st'.2) !! k = Some (forced d))).
  { intros Hno E'. apply IH in E' as (E1 & E2 & E3); [|done|].
    - split; [done|]. split.
      + intros k. destruct (E2 k) as [?|(d & ? & ? & ?)]; [by left|].
        right. exists d. split; [by right|done].
      + intros Hres k d [Heq|Hin]%elem_of_cons Hd;
          [by injection Heq as -> ->|]. by apply E3.
    - intros k d Hin. apply Hitems. by right. }
  unfold mbind at 1, Eff_bind in E.
  destruct (is_phi (value data)) eqn:Ephi.
  { cbn in E. apply Hskip; [|exact E]. intros (? & _). congruence. }
  unfold mbind at 1, Eff_bind in E. cbn [node_heap zoom get_state fst snd] in E.
  unfold mbind at 1, Eff_bind in E.
  destruct (meta_force (meta data)) eqn:Eforce.
  { cbn in E. apply Hskip; [|exact E]. intros (_ & ? & _). congruence. }
  destruct (uses_expr fuel h (value data) expr_filter None) as [[|]| |] eqn:Eu.
  - (* the register is forced *)
    cbn [mret Eff_ret] in E. unfold mbind at 1, Eff_bind, assert in E.
    destruct (is_EvalOnceExpr (value data)) eqn:Ew.
    2: { injection E as <- <-. split; [done|]. split; [by left|done]. }
    rewrite node_regs_run in E.
    destruct (update_meta r (meta_set_force (meta data)) (regs n))
      as [ru r1] eqn:Eup. cbn [fst snd] in E.
    destruct ru as [[]| |].
    2,3: apply update_meta_state in Eup as [?| ->]; [done|];
         injection E as <- <-; (split; [done|]); (split; [|done]);
         intros k; left; by destruct n.
    apply update_meta_Ok in Eup as (data' & Hdata' & ->).
    rewrite Hdata in Hdata'. injection Hdata' as <-.
    apply IH in E as (E1 & E2 & E3); [|done|].
    + assert (Hforce : to_force fuel h expr_filter data) by done.
      assert (Hr' : contents (regs st'.2) !! r = Some (forced data)).
      { destruct (E2 r) as [->|(d & Hin & _)].
        - cbn. by rewrite lookup_insert_eq.
        - exfalso. apply Hr. apply list_elem_of_fmap. by exists (r, d). }
      split; [done|]. split.
      * intros k. destruct (decide (k = r)) as [->|Hne].
        -- right. exists data. split; [by left|done].
        -- destruct (E2 k) as [E|(d & ? & ? & ?)].
           ++ left. rewrite E. cbn. by rewrite lookup_insert_ne.
           ++ right. exists d. split; [by right|done].
      * intros Hres k d [Heq|Hin]%elem_of_cons Hd;
          [by injection Heq as -> ->|]. by apply E3.
    + intros k d Hin. cbn.
      rewrite lookup_insert_ne; [apply Hitems; by right|].
      intros <-. apply Hr. apply list_elem_of_fmap. by exists (r, d).
  - cbn in E. apply Hskip; [|exact E]. intros (_ & _ & ?). congruence.
  - injection E as <- <-. split; [done|]. split; [by left|done].
  - injection E as <- <-. split; [done|]. split; [by left|done].
Qed.

(** Property X12: [_prevent_later_uses] changes metas only, and only by forcing: the
    heap, the stack and every value are as they were, however it ends.  When
    it returns, every register whose value is no phi, that was not forced
    and that uses an expression of the filter is forced. *)
Theorem prevent_later_uses_only_forces fuel expr_filter
    (st st' : Heap * StackInfo * NodeState) res :
  prevent_later_uses fuel expr_filter st = (res, st') →
  st'.1 = st.1
  ∧ (∀ k, get_raw k (regs st'.2) = get_raw k (regs st.2))
  ∧ (∀ k, get_meta k (regs st'.2) = get_meta k (regs st.2)
          ∨ get_meta k (regs st'.2)
            = meta_set_force <$> get_meta k (regs st.2))
  ∧ (res = Ok tt →
     ∀ k data, contents (regs st.2) !! k = Some data →
       to_force fuel st.1.1 expr_filter data →
       get_meta k (regs st'.2) = Some (meta_set_force (meta data))).
Proof.
  destruct st as [[h s] n]. unfold prevent_later_uses. intros E.
  unfold mbind, Eff_bind in E. cbn [node_self zoom get_state fst snd] in E.
  apply prevent_later_uses_each_spec in E as (E1 & E2 & E3).
  - cbn [fst snd]. unfold get_raw, get_meta. split; [done|]. split; [|split].
    + intros k. destruct (E2 k) as [->|(d & Hin & _ & ->)]; [done|].
      apply elem_of_map_to_list in Hin. by rewrite Hin.
    + intros k. destruct (E2 k) as [->|(d & Hin & _ & ->)]; [by left|].
      apply elem_of_map_to_list in Hin. rewrite Hin. by right.
    + intros Hres k data Hk Hf.
      rewrite (E3 Hres k data); [done| |done]. by apply elem_of_map_to_list.
  - apply NoDup_fst_map_to_list.
  - intros k d Hin. by apply elem_of_map_to_list.
Qed.


(** ** The sources of a register *)

Lemma last_write_WrittenBy reg reversed instr :
  last_write reg reversed = WrittenBy instr →
  ∃ pre post,
    reversed = pre ++ instr :: post
    ∧ reg_in reg (outputs instr) = true
    ∧ ∀ i, i ∈ pre →
        reg_in reg (outputs i) = false ∧ reg_in reg (clobbers i) = false.
Proof.
  induction reversed as [|i reversed IH]; [done|]. cbn [last_write].
  destruct (reg_in reg (outputs i)) eqn:Eo.
  - intros [= <-]. exists [], reversed. split; [done|]. split; [done|].
    by intros i' ?%elem_of_nil.
  - destruct (reg_in reg (clobbers i)) eqn:Ec; [done|].
    intros (pre & post & -> & Hw & Hpre)%IH.
    exists (i :: pre), post. split; [done|]. split; [done|].
    intros i' [->|Hin]%elem_of_cons; [done|by apply Hpre].
Qed.

Lemma last_write_is_last_write reg instrs instr :
  last_write reg (rev instrs) = WrittenBy instr →
  is_last_write reg instrs instr.
Proof.
  intros (pre & post & E & Hw & Hpre)%last_write_WrittenBy.
  exists (rev post), (rev pre). split; [|split; [done|]].
  - rewrite <- (rev_involutive instrs), E, rev_app_distr. cbn [rev].
    by rewrite <- app_assoc.
  - intros i Hin. apply Hpre.
    apply list_elem_of_In, in_rev, list_elem_of_In. exact Hin.
Qed.

Lemma reached_between G D child n :
  reached G D child n → n ≠ D → between G D child n.
Proof.
  intros [Hp|(m & Hm & Hp)] Hne; [by apply between_parent|].
  by apply (between_step _ _ _ m).
Qed.

Lemma reg_sources_loop_sound G D child reg fuel :
  ∀ stack seen sources ud r,
    D ∈ seen →
    (∀ n, n ∈ stack → reached G D child n) →
    (∀ src, src ∈ sources →
       ∃ instr n, src = Some instr ∧ between G D child n
                  ∧ is_last_write reg (instructions (node_at G n)) instr) →
    (ud = true → reached G D child D) →
    reg_sources_loop fuel G D reg stack seen sources ud = Ok r →
    (∀ src, src ∈ r.1 →
       ∃ instr n, src = Some instr ∧ between G D child n
                  ∧ is_last_write reg (instructions (node_at G n)) instr)
    ∧ (r.2 = true → reached G D child D).
Proof.
  induction fuel as [|fuel IH];
    intros stack seen sources ud r HD Hstack Hsources Hud E; [discriminate|].
  cbn [reg_sources_loop] in E.
  destruct stack as [|n stack]; [by injection E as <-|].
  assert (Hn : reached G D child n) by (apply Hstack; by left).
  assert (Hstack' : ∀ m, m ∈ stack → reached G D child m).
  { intros m Hm. apply Hstack. by right. }
  assert (Hud' : (if Nat.eqb n D then true else ud) = true →
                 reached G D child D).
  { destruct (Nat.eqb_spec n D) as [->|_]; [done|exact Hud]. }
  destruct (bool_decide (n ∈ seen)) eqn:Eseen; [by eapply IH|].
  apply bool_decide_eq_false in Eseen.
  assert (HnD : n ≠ D) by (intros ->; done).
  assert (Hbetween : between G D child n) by by apply reached_between.
  assert (HD' : D ∈ {[n]} ∪ seen) by set_solver.
  destruct (last_write reg (rev (instructions (node_at G n)))) as [i| |]
    eqn:Ew.
  - eapply IH; [exact HD'|exact Hstack'| |exact Hud'|exact E].
    intros src [Hsrc|Hsrc]%elem_of_app; [by apply Hsources|].
    apply list_elem_of_singleton in Hsrc as ->. exists i, n.
    split; [done|]. split; [done|]. by apply last_write_is_last_write.
  - injection E as <-. split; [by intros src ?%elem_of_nil|done].
  - eapply IH; [exact HD'| |exact Hsources|exact Hud'|exact E].
    intros m [Hm|Hm]%elem_of_stack_extend; [|by apply Hstack'].
    right. by exists n.
Qed.

(** Property X13: Every source that [reg_sources] returns is an instruction that writes
    the register, the last one of its node to write or clobber it, in a
    node between the node and its immediate dominator; and the dominator is
    reported as used only if it is a parent of the node or of a node in
    between. *)
Theorem reg_sources_are_last_writes G fuel child D reg sources
    uses_dominator :
  immediate_dominator (node_at G child) = Some D →
  reg_sources fuel G child reg = Ok (sources, uses_dominator) →
  (∀ src, src ∈ sources →
     ∃ instr n, src = Some instr ∧ between G D child n
                ∧ is_last_write reg (instructions (node_at G n)) instr)
  ∧ (uses_dominator = true → reached G D child D).
Proof.
  unfold reg_sources. intros -> E.
  apply (reg_sources_loop_sound G D child) in E; [done|set_solver| | |done].
  - intros n [Hn|?%elem_of_nil]%elem_of_stack_extend; [by left|done].
  - by intros src ?%elem_of_nil.
Qed.

(** *** Termination *)

Lemma budget_mono G (seen seen' : gset nat) nodes :
  seen ⊆ seen' → (budget G seen' nodes ≤ budget G seen nodes)%nat.
Proof.
  intros Hsub. unfold budget. induction nodes as [|n nodes IH]; [done|].
  cbn. destruct (decide (n ∈ seen)), (decide (n ∈ seen'));
    try lia. exfalso. set_solver.
Qed.

Lemma budget_seen G (seen : gset nat) nodes n :
  NoDup nodes → n ∈ nodes → n ∉ seen →
  (budget G ({[n]} ∪ seen) nodes + length (parents (node_at G n))
   ≤ budget G seen nodes)%nat.
Proof.
  unfold budget. induction nodes as [|m nodes IH]; intros Hnd Hin Hn;
    [by apply elem_of_nil in Hin|].
  apply NoDup_cons in Hnd as [Hm Hnd]. cbn.
  apply elem_of_cons in Hin as [->|Hin].
  - destruct (decide (m ∈ {[m]} ∪ seen)); [|set_solver].
    destruct (decide (m ∈ seen)); [done|].
    pose proof (budget_mono G seen ({[m]} ∪ seen) nodes) as Hle.
    unfold budget in Hle. specialize (Hle ltac:(set_solver)). cbn in Hle.
    lia.
  - specialize (IH Hnd Hin Hn). cbn in IH.
    assert (Hne : m ≠ n) by (intros ->; done).
    destruct (decide (m ∈ {[n]} ∪ seen)), (decide (m ∈ seen));
      try lia; exfalso; set_solver.
Qed.

Lemma budget_le_edges G (seen : gset nat) nodes :
  (budget G seen nodes
   ≤ sum_list (map (λ n, length (parents (node_at G n))) nodes))%nat.
Proof.
  unfold budget. induction nodes as [|n nodes IH]; [done|].
  cbn. destruct (decide (n ∈ seen)); lia.
Qed.

Lemma reg_sources_loop_returns G D reg fuel :
  graph_closed G →
  ∀ stack seen sources ud,
    (∀ n, n ∈ stack → n ∈ graph_nodes G) →
    (length stack + budget G seen (graph_nodes G) < fuel)%nat →
    ∃ r, reg_sources_loop fuel G D reg stack seen sources ud = Ok r.
Proof.
  intros [Hnd Hclosed].
  induction fuel as [|fuel IH]; intros stack seen sources ud Hstack Hfuel;
    [lia|].
  cbn [reg_sources_loop]. destruct stack as [|n stack]; [by eexists|].
  cbn [length] in Hfuel.
  assert (Hn : n ∈ graph_nodes G) by (apply Hstack; by left).
  assert (Hstack' : ∀ m, m ∈ stack → m ∈ graph_nodes G).
  { intros m Hm. apply Hstack. by right. }
  destruct (bool_decide (n ∈ seen)) eqn:Eseen; [apply IH; [done|lia]|].
  apply bool_decide_eq_false in Eseen.
  pose proof (budget_seen G seen (graph_nodes G) n Hnd Hn Eseen) as Hb.
  destruct (last_write reg (rev (instructions (node_at G n)))) as [i| |].
  - apply IH; [done|lia].
  - by eexists.
  - apply IH.
    + intros m [Hm|Hm]%elem_of_stack_extend; [by eapply Hclosed|by apply Hstack'].
    + unfold stack_extend. rewrite length_app, length_rev. lia.
Qed.

Lemma vars_clobbered_loop_returns G s fuel :
  graph_closed G →
  ∀ stack seen clobbered,
    (∀ n, n ∈ stack → n ∈ graph_nodes G) →
    (length stack + budget G seen (graph_nodes G) < fuel)%nat →
    ∃ r, vars_clobbered_loop fuel G s stack seen clobbered = Ok r.
Proof.
  intros [Hnd Hclosed].
  induction fuel as [|fuel IH]; intros stack seen clobbered Hstack Hfuel;
    [lia|].
  cbn [vars_clobbered_loop]. destruct stack as [|n stack]; [by eexists|].
  cbn [length] in Hfuel.
  assert (Hn : n ∈ graph_nodes G) by (apply Hstack; by left).
  assert (Hstack' : ∀ m, m ∈ stack → m ∈ graph_nodes G).
  { intros m Hm. apply Hstack. by right. }
  destruct (bool_decide (n ∈ seen)) eqn:Eseen; [apply IH; [done|lia]|].
  apply bool_decide_eq_false in Eseen.
  pose proof (budget_seen G seen (graph_nodes G) n Hnd Hn Eseen) as Hb.
  apply IH.
  - intros m [Hm|Hm]%elem_of_stack_extend; [by eapply Hclosed|by apply Hstack'].
  - unfold stack_extend. rewrite length_app, length_rev. lia.
Qed.

(** Property X14: On a graph whose node list holds every node once, together with its
    parents, the two traversals up to the immediate dominator return: the
    number of parents of the node plus the number of edges of the graph
    bounds the loop, whatever cycles the graph has. *)
Theorem dominator_traversals_terminate G (s : StackInfo) fuel child D reg :
  graph_closed G → child ∈ graph_nodes G →
  immediate_dominator (node_at G child) = Some D →
  (length (parents (node_at G child))
   + sum_list (map (λ n, length (parents (node_at G n))) (graph_nodes G))
   < fuel)%nat →
  (∃ r, reg_sources fuel G child reg = Ok r)
  ∧ (∃ vars, vars_clobbered_until_dominator fuel G s child = Ok vars).
Proof.
  intros Hclosed Hchild HD Hfuel.
  pose proof (budget_le_edges G {[D]} (graph_nodes G)) as Hb.
  assert (Hstack : ∀ n,
            n ∈ stack_extend [] (parents (node_at G child)) →
            n ∈ graph_nodes G).
  { intros n [Hn|?%elem_of_nil]%elem_of_stack_extend; [|done].
    destruct Hclosed as [_ Hc]. by eapply Hc. }
  assert (Hlen : length (stack_extend [] (parents (node_at G child)))
                 = length (parents (node_at G child))).
  { unfold stack_extend. by rewrite length_app, length_rev, Nat.add_0_r. }
  unfold reg_sources, vars_clobbered_until_dominator. rewrite HD. split.
  - apply reg_sources_loop_returns; [done|done|]. rewrite Hlen. lia.
  - apply vars_clobbered_loop_returns; [done|done|]. rewrite Hlen. lia.
Qed.
(** ** [fold_mul_chains] keeps the value *)

Lemma early_unwrap_wrapper (h : Heap) oid w var ty src eeo tr tp :
  negb (forced_emit h oid) && negb eeo = true →
  early_unwrap h (EvalOnceExpr oid w var ty src eeo tr tp)
  = early_unwrap h w.
Proof. intros E. cbn [early_unwrap]. by rewrite E. Qed.

Lemma fold_mul_through_unwrap (h : Heap) w : ∀ allow_sll x,
  ('(base, num) ← fold_mul h w false allow_sll;
   if negb (num =? 1) then Ok (base, num) else Ok (x, 1))
  = ('(base, num) ← fold_mul h (early_unwrap h w) false allow_sll;
     if negb (num =? 1) then Ok (base, num) else Ok (x, 1)).
Proof.
  induction w; intros allow_sll x; try reflexivity.
  cbn [early_unwrap].
  destruct (negb (forced_emit h oid) && negb emit_exactly_once) eqn:Ec;
    [|reflexivity].
  rewrite <- IHw. cbn [fold_mul]. rewrite Ec.
  destruct (fold_mul h w false allow_sll) as [[base num]| |]; [|done..].
  cbn. destruct (num =? 1) eqn:En; cbn; [done|]. by rewrite En.
Qed.

(** The source's recursion: [fold] of a wrapper that [early_unwrap] opens
    goes on with [early_unwrap(expr)]. *)
Lemma fold_mul_unfold (h : Heap) oid w var ty src eeo tr tp toplevel
    allow_sll :
  let e := EvalOnceExpr oid w var ty src eeo tr tp in
  negb (forced_emit h oid) && negb eeo = true →
  fold_mul h e toplevel allow_sll
  = ('(base, num) ← fold_mul h (early_unwrap h e) false allow_sll;
     if negb (num =? 1) then Ok (base, num) else Ok (e, 1)).
Proof.
  intros e Ec. unfold e. rewrite early_unwrap_wrapper by done.
  rewrite <- fold_mul_through_unwrap. cbn [fold_mul]. by rewrite Ec.
Qed.

Lemma int_value_early_unwrap atom (h : Heap) e :
  int_value atom (early_unwrap h e) = int_value atom e.
Proof.
  induction e; try reflexivity. cbn [early_unwrap].
  by destruct (negb (forced_emit h oid) && negb emit_exactly_once).
Qed.

Lemma chain_parts_self e : e ∈ chain_parts e.
Proof. destruct e; by left. Qed.

Lemma chain_parts_trans a b c :
  a ∈ chain_parts b → b ∈ chain_parts c → a ∈ chain_parts c.
Proof.
  intros Ha. induction c; cbn [chain_parts];
    intros [->|Hb]%elem_of_cons; try done;
    try (by apply elem_of_nil in Hb).
  - apply elem_of_app in Hb as [Hb|Hb]; right; apply elem_of_app; auto.
  - right. auto.
  - right. auto.
Qed.

Lemma early_unwrap_part (h : Heap) e : early_unwrap h e ∈ chain_parts e.
Proof.
  induction e; try apply chain_parts_self. cbn [early_unwrap].
  destruct (negb (forced_emit h oid) && negb emit_exactly_once);
    [|apply chain_parts_self].
  cbn [chain_parts]. by right.
Qed.

Lemma equal_parts_agree_part atom e x :
  equal_parts_agree atom e → x ∈ chain_parts e → equal_parts_agree atom x.
Proof.
  intros He Hx a b Ha Hb. apply He; by eapply chain_parts_trans.
Qed.

Lemma equal_parts_agreeb_spec atom e :
  equal_parts_agreeb atom e = true → equal_parts_agree atom e.
Proof.
  unfold equal_parts_agreeb. rewrite forallb_forall. intros Hall a b Ha Hb E.
  apply list_elem_of_In, Hall in Ha. rewrite forallb_forall in Ha.
  apply list_elem_of_In, Ha in Hb. rewrite E in Hb. cbn in Hb.
  by apply Z.eqb_eq.
Qed.

Lemma string_eqb_true (a b : string) : String.eqb a b = true → a = b.
Proof. by intros ?%String.eqb_eq. Qed.

Lemma fold_mul_value atom (h : Heap) e :
  ∀ toplevel allow_sll base num,
    equal_parts_agree atom e →
    fold_mul h e toplevel allow_sll = Ok (base, num) →
    int_value atom e = int_value atom base * num ∧ base ∈ chain_parts e.
Proof.
  assert (Hself : ∀ x, int_value atom x = int_value atom x * 1
                       ∧ x ∈ chain_parts x).
  { intros x. split; [lia|apply chain_parts_self]. }
  induction e; intros toplevel allow_sll base num Hagree E;
    try (injection E as <- <-; apply Hself).
  - (* BinaryOp *)
    cbn [fold_mul] in E.
    apply res_bind_Ok in E as ([lbase lnum] & El & E).
    apply res_bind_Ok in E as ([rbase rnum] & Er & E).
    assert (Hl : e1 ∈ chain_parts (BinaryOp oid e1 op e2 type)).
    { right. apply elem_of_app. left. apply chain_parts_self. }
    assert (Hr : e2 ∈ chain_parts (BinaryOp oid e1 op e2 type)).
    { right. apply elem_of_app. right. apply chain_parts_self. }
    apply IHe1 in El as [Vl Pl];
      [|by apply (equal_parts_agree_part atom _ e1 Hagree)].
    apply IHe2 in Er as [Vr Pr];
      [|by apply (equal_parts_agree_part atom _ e2 Hagree)].
    assert (Plb : lbase ∈ chain_parts (BinaryOp oid e1 op e2 type))
      by by eapply chain_parts_trans.
    assert (Prb : rbase ∈ chain_parts (BinaryOp oid e1 op e2 type))
      by by eapply chain_parts_trans.
    destruct (String.eqb op "<<" && is_Literal e2 && allow_sll) eqn:Esll.
    { apply andb_true_iff in Esll as [[Eop Elit]%andb_true_iff _].
      apply string_eqb_true in Eop as ->.
      destruct e2; try discriminate Elit.
      destruct (toplevel && (lnum =? 1) && _);
        [injection E as <- <-; apply Hself|].
      apply res_bind_Ok in E as (n & En & E). injection E as <- <-.
      unfold py_lshift in En.
      match type of En with context [?v <? 0] => destruct (v <? 0) end;
        [done|].
      injection En as <-. split; [|done].
      cbn [int_value String.eqb Ascii.eqb Bool.eqb] in *. cbn. rewrite Vl.
      ring. }
    destruct (String.eqb op "*" && is_Literal e2 && _) eqn:Emul.
    { apply andb_true_iff in Emul as [[Eop Elit]%andb_true_iff _].
      apply string_eqb_true in Eop as ->.
      destruct e2; try discriminate Elit. injection E as <- <-.
      split; [|done]. cbn. rewrite Vl. ring. }
    destruct (expr_eqb (early_unwrap h lbase) (early_unwrap h rbase)) eqn:Eeq;
      [|injection E as <- <-; apply Hself].
    assert (Veq : int_value atom lbase = int_value atom rbase).
    { rewrite <- (int_value_early_unwrap atom h lbase),
        <- (int_value_early_unwrap atom h rbase).
      apply Hagree; [| |done].
      - eapply chain_parts_trans; [apply early_unwrap_part|done].
      - eapply chain_parts_trans; [apply early_unwrap_part|done]. }
    destruct (String.eqb op "+") eqn:Eadd.
    { apply string_eqb_true in Eadd as ->. injection E as <- <-.
      split; [|done]. cbn. rewrite Vl, Vr, Veq. ring. }
    destruct (String.eqb op "-") eqn:Esub;
      [|injection E as <- <-; apply Hself].
    apply string_eqb_true in Esub as ->. injection E as <- <-.
    split; [|done]. cbn. rewrite Vl, Vr, Veq. ring.
  - (* UnaryOp *)
    cbn [fold_mul] in E.
    destruct (String.eqb op "-" && negb toplevel) eqn:Eneg;
      [|injection E as <- <-; apply Hself].
    apply andb_true_iff in Eneg as [Eop _].
    apply string_eqb_true in Eop as ->.
    apply res_bind_Ok in E as ([b n] & Ef & E). injection E as <- <-.
    apply IHe in Ef as [V P].
    + split; [cbn; rewrite V; ring|by right].
    + apply (equal_parts_agree_part atom _ e Hagree). right.
      apply chain_parts_self.
  - (* EvalOnceExpr *)
    cbn [fold_mul] in E.
    destruct (negb (forced_emit h oid) && negb emit_exactly_once);
      [|injection E as <- <-; apply Hself].
    apply res_bind_Ok in E as ([b n] & Ef & E).
    destruct (negb (n =? 1)); injection E as <- <-; [|apply Hself].
    apply IHe in Ef as [V P].
    + split; [exact V|by right].
    + apply (equal_parts_agree_part atom _ e Hagree). right.
      apply chain_parts_self.
Qed.

Lemma fold_mul_raises (h : Heap) e :
  ∀ toplevel allow_sll,
    match fold_mul h e toplevel allow_sll with
    | Ok _ => True
    | Raise exn => exn = ValueError
    | OutOfFuel => False
    end.
Proof.
  induction e; intros toplevel allow_sll; try done; cbn [fold_mul].
  - specialize (IHe1 false (negb (String.eqb op "<<"))).
    specialize (IHe2 false (negb (String.eqb op "<<"))).
    destruct (fold_mul h e1 _ _) as [[lbase lnum]| |]; [|done..].
    destruct (fold_mul h e2 _ _) as [[rbase rnum]| |]; [|done..].
    cbn. destruct (_ && _ && allow_sll).
    { destruct (_ && _ && _); [done|]. unfold py_lshift.
      by destruct (_ <? 0). }
    destruct (_ && _ && _); [done|]. destruct (expr_eqb _ _); [|done].
    destruct (String.eqb op "+"); [done|]. by destruct (String.eqb op "-").
  - destruct (_ && _); [|done]. specialize (IHe false true).
    by destruct (fold_mul h e false true) as [[b n]| |].
  - destruct (_ && _); [|done]. specialize (IHe false allow_sll).
    destruct (fold_mul h e false allow_sll) as [[b n]| |]; [|done..].
    cbn. by destruct (negb (n =? 1)).
Qed.

(** Property X15: [fold_mul_chains] keeps the value of an expression over the
    integers.  It returns the expression itself or a new product of a part of the
    expression and a literal other than 1, and the product has the value of
    the expression, whatever the values of the parts that are no sums,
    differences, products or shifts; the one exception it raises is the
    [ValueError] of a shift by a negative literal. *)
Theorem fold_mul_chains_keeps_value atom (e : Expression) (h h' : Heap)
    (res : Res Expression) :
  (∀ a b ts, (unify a b ts).1 = true) →
  equal_parts_agree atom e →
  fold_mul_chains e h = (res, h') →
  match res with
  | Ok r =>
      int_value atom r = int_value atom e
      ∧ (r = e
         ∨ ∃ oid base num t t',
             r = BinaryOp oid base "*" (Literal num t false) t'
             ∧ base ∈ chain_parts e ∧ num ≠ 1)
  | Raise exn => exn = ValueError ∧ h' = h
  | OutOfFuel => False
  end.
Proof.
  intros Hunify Hagree E. unfold fold_mul_chains in E.
  unfold mbind at 1, Eff_bind, get_state in E.
  unfold mbind at 1, Eff_bind, pure_res in E.
  pose proof (fold_mul_raises h e true true) as Hraise.
  destruct (fold_mul h e true true) as [[base num]| |] eqn:Ef;
    [|by injection E as <- <-..].
  apply (fold_mul_value atom) in Ef as [V P]; [|done].
  destruct (num =? 1) eqn:En.
  { injection E as <- <-. split; [done|by left]. }
  apply Z.eqb_neq in En.
  destruct (returns_new_Literal num h) as (lit & h1 & E1 & t & ->).
  unfold mbind at 1, Eff_bind in E. rewrite E1 in E.
  destruct (returns_BinaryOp_int Hunify base "*" (Literal num t false) h1)
    as (r0 & h2 & E2 & oid & t' & ->).
  rewrite E2 in E. injection E as <- <-. split.
  - cbn. rewrite V. ring.
  - right. by exists oid, base, num, t, t'.
Qed.

(** ** The union-find of [PlannedVar] *)

Lemma root_of_root parent var root n :
  root_of parent var root n → parent !! root = None.
Proof. by induction 1. Qed.

Lemma root_of_fun parent var r1 n1 r2 n2 :
  root_of parent var r1 n1 → root_of parent var r2 n2 → r1 = r2 ∧ n1 = n2.
Proof.
  intros Hr1. revert r2 n2.
  induction Hr1 as [var E|var p root n E _ IH]; intros r2 n2 Hr2;
    inversion Hr2 as [v E2|v p2 r n2' E2 Hp2]; subst; try congruence;
    [done|].
  assert (p2 = p) as -> by congruence.
  destruct (IH _ _ Hp2) as [-> ->]. done.
Qed.

Lemma find_root_spec parent var root n :
  root_of parent var root n →
  ∀ fuel seen, (n < fuel)%nat →
    ∃ chain,
      find_root fuel parent var seen = Ok (root, seen ++ chain)
      ∧ Forall (λ x, x ≠ root ∧ ∃ k, (k ≤ n)%nat ∧ root_of parent x root k)
          chain.
Proof.
  induction 1 as [var E|var p root n E Hp IH]; intros fuel seen Hfuel;
    (destruct fuel as [|fuel]; [lia|]); cbn [find_root]; rewrite E.
  - exists []. by rewrite app_nil_r.
  - destruct (IH fuel (seen ++ [var])) as (chain & -> & Hall); [lia|].
    exists (var :: chain). split; [by rewrite <- app_assoc|].
    apply Forall_cons. split.
    + split.
      * intros ->. apply root_of_root in Hp. congruence.
      * exists (S n). split; [lia|]. by eapply root_step.
    + eapply Forall_impl; [exact Hall|]. intros x (Hx & k & Hk & Hr).
      split; [done|]. exists k. split; [lia|done].
Qed.

(** One step of path compression. *)
Lemma root_of_compress_one parent c root k :
  c ≠ root → root_of parent c root k →
  ∀ x r n, root_of parent x r n →
    ∃ n', (n' ≤ n)%nat ∧ root_of (<[c := root]> parent) x r n'.
Proof.
  intros Hc Hroot x r n Hx.
  induction Hx as [x E|x p r n E Hp (n' & Hn & IH)].
  - exists 0%nat. split; [lia|]. apply root_here.
    rewrite lookup_insert_ne; [done|]. intros ->.
    inversion Hroot; subst; congruence.
  - destruct (decide (x = c)) as [->|Hx].
    + destruct (root_of_fun _ _ _ _ _ _ Hroot (root_step _ _ _ _ _ E Hp))
        as [-> _].
      exists 1%nat. split; [lia|]. eapply root_step.
      * by rewrite lookup_insert_eq.
      * apply root_here. rewrite lookup_insert_ne by done.
        by eapply root_of_root.
    + exists (S n'). split; [lia|]. eapply root_step; [|exact IH].
      by rewrite lookup_insert_ne.
Qed.

Lemma root_of_compress chain : ∀ parent root,
  Forall (λ x, x ≠ root ∧ ∃ k, root_of parent x root k) chain →
  ∀ x r n, root_of parent x r n →
    ∃ n', (n' ≤ n)%nat
          ∧ root_of (foldl (λ m v, <[v := root]> m) parent chain) x r n'.
Proof.
  induction chain as [|c chain IH]; intros parent root Hall x r n Hx.
  { exists n. by split. }
  apply Forall_cons in Hall as [[Hc [k Hk]] Hall]. cbn [foldl].
  destruct (root_of_compress_one parent c root k Hc Hk x r n Hx)
    as (n1 & Hn1 & Hx1).
  destruct (IH (<[c := root]> parent) root) with (x := x) (r := r) (n := n1)
    as (n' & Hn' & Hx'); [|done|].
  - eapply Forall_impl; [exact Hall|]. intros y [Hy [j Hj]]. split; [done|].
    destruct (root_of_compress_one parent c root k Hc Hk y root j Hj)
      as (j' & _ & Hj'). by exists j'.
  - exists n'. split; [lia|done].
Qed.

Lemma get_representative_spec fuel var root n (s : PlannedVars) :
  root_of (planned_var_parent s) var root n → (n < fuel)%nat →
  ∃ s',
    get_representative fuel var s = (Ok root, s')
    ∧ persistent_planned_vars s' = persistent_planned_vars s
    ∧ next_planned_var s' = next_planned_var s
    ∧ ∀ x r k, root_of (planned_var_parent s) x r k →
        ∃ k', (k' ≤ k)%nat ∧ root_of (planned_var_parent s') x r k'.
Proof.
  intros Hroot Hfuel.
  destruct (find_root_spec _ _ _ _ Hroot fuel [] Hfuel) as (chain & E & Hall).
  unfold get_representative.
  unfold mbind, Eff_bind, get_state, pure_res, put_state, mret, Eff_ret.
  rewrite E. cbn. eexists. split; [reflexivity|]. cbn.
  split; [done|]. split; [done|].
  apply root_of_compress. eapply Forall_impl; [exact Hall|].
  intros y (Hy & k & _ & Hk). split; [done|]. by exists k.
Qed.

Lemma root_of_link parent a b :
  a ≠ b → parent !! a = None → parent !! b = None →
  ∀ x r n, root_of parent x r n →
    ∃ n', (n' ≤ S n)%nat ∧ root_of (<[a := b]> parent) x (joined a b r) n'.
Proof.
  intros Hab Ha Hb x r n Hx. unfold joined.
  induction Hx as [x E|x p r n E Hp (n' & Hn & IH)].
  - destruct (Nat.eqb_spec x a) as [->|Hx].
    + exists 1%nat. split; [lia|]. eapply root_step.
      * by rewrite lookup_insert_eq.
      * apply root_here. by rewrite lookup_insert_ne.
    + exists 0%nat. split; [lia|]. apply root_here.
      by rewrite lookup_insert_ne.
  - exists (S n'). split; [lia|]. eapply root_step; [|exact IH].
    rewrite lookup_insert_ne; [done|]. congruence.
Qed.

(** Property X16: [PlannedVar.join] merges two classes and nothing else.  When the chains
    of parents of [self] and [other] end, in [a] and [b], and [fuel] exceeds
    their lengths, [join] returns; afterwards every var that had the
    representative [a] has [b], every other var keeps its representative,
    and [get_representative] returns it; no chain has grown by more than
    one step. *)
Theorem join_merges_two_classes fuel self other a b na nb
    (s : PlannedVars) :
  root_of (planned_var_parent s) self a na →
  root_of (planned_var_parent s) other b nb →
  (na < fuel)%nat → (nb < fuel)%nat →
  ∃ s',
    PlannedVar_join fuel self other s = (Ok tt, s')
    ∧ persistent_planned_vars s' = persistent_planned_vars s
    ∧ next_planned_var s' = next_planned_var s
    ∧ ∀ x r n, root_of (planned_var_parent s) x r n →
        (∃ n', (n' ≤ S n)%nat
               ∧ root_of (planned_var_parent s') x (joined a b r) n')
        ∧ ∀ fuel', (S n < fuel')%nat →
            (get_representative fuel' x s').1 = Ok (joined a b r).
Proof.
  intros Ha Hb Hna Hnb.
  destruct (get_representative_spec fuel self a na s Ha Hna)
    as (s1 & E1 & Hp1 & Hv1 & Hr1).
  destruct (Hr1 _ _ _ Hb) as (nb' & Hnb' & Hb1).
  destruct (get_representative_spec fuel other b nb' s1 Hb1 ltac:(lia))
    as (s2 & E2 & Hp2 & Hv2 & Hr2).
  assert (Hr : ∀ x r n, root_of (planned_var_parent s) x r n →
            ∃ n', (n' ≤ n)%nat ∧ root_of (planned_var_parent s2) x r n').
  { intros x r n Hx. destruct (Hr1 _ _ _ Hx) as (n1 & Hn1 & Hx1).
    destruct (Hr2 _ _ _ Hx1) as (n2 & Hn2 & Hx2). exists n2. split; [lia|done]. }
  assert (Hlink : ∃ s',
    PlannedVar_join fuel self other s = (Ok tt, s')
    ∧ persistent_planned_vars s' = persistent_planned_vars s
    ∧ next_planned_var s' = next_planned_var s
    ∧ ∀ x r n, root_of (planned_var_parent s) x r n →
        ∃ n', (n' ≤ S n)%nat
              ∧ root_of (planned_var_parent s') x (joined a b r) n').
  { unfold PlannedVar_join. unfold mbind at 1, Eff_bind. rewrite E1.
    unfold mbind at 1, Eff_bind. rewrite E2.
    destruct (Nat.eqb_spec a b) as [->|Hab]; cbn [negb].
    - exists s2. split; [done|]. split; [congruence|]. split; [congruence|].
      intros x r n Hx. destruct (Hr _ _ _ Hx) as (n' & Hn' & Hx').
      exists n'. split; [lia|]. unfold joined.
      by destruct (Nat.eqb_spec r b) as [->|].
    - eexists. split; [reflexivity|]. cbn. split; [congruence|].
      split; [congruence|]. intros x r n Hx.
      destruct (Hr _ _ _ Hx) as (n' & Hn' & Hx').
      destruct (Hr _ _ _ Ha) as (? & _ & Ha2).
      destruct (Hr _ _ _ Hb) as (? & _ & Hb2).
      destruct (root_of_link (planned_var_parent s2) a b Hab
                  (root_of_root _ _ _ _ Ha2) (root_of_root _ _ _ _ Hb2)
                  x r n' Hx') as (n'' & Hn'' & Hx'').
      exists n''. split; [lia|done]. }
  destruct Hlink as (s' & E & Hp & Hv & Hroots).
  exists s'. split; [done|]. split; [done|]. split; [done|].
  intros x r n Hx. destruct (Hroots _ _ _ Hx) as (n' & Hn' & Hx').
  split; [by exists n'|]. intros fuel' Hfuel'.
  destruct (get_representative_spec fuel' x _ n' s' Hx' ltac:(lia))
    as (s3 & -> & _). done.
Qed.

(** ** The registers of a dominated node *)

Lemma foldl_insert_list_to_map {A B} (f : A → B) (items : list (string * A)) :
  ∀ base : gmap string B,
    NoDup items.*1 →
    foldl (λ m kd, <[kd.1 := f kd.2]> m) base items
    = (f <$> (list_to_map items : gmap string A)) ∪ base.
Proof.
  induction items as [|[k d] items IH]; intros base Hnd.
  { cbn. by rewrite fmap_empty, (left_id_L ∅ (∪)). }
  apply NoDup_cons in Hnd as [Hk Hnd]. cbn [foldl list_to_map foldr fst snd].
  rewrite IH by done. cbn. rewrite fmap_insert, <- insert_union_l.
  rewrite <- insert_union_r; [done|].
  rewrite lookup_fmap. by rewrite (not_elem_of_list_to_map_1 _ _ Hk).
Qed.

Lemma global_set_with_meta_Ok key v m (r r' : RegInfo) :
  global_set_with_meta key v m r = (Ok tt, r') →
  key ≠ zero
  ∧ r' = set_contents (<[key := {| value := v; meta := m |}]> (contents r)) r.
Proof.
  unfold global_set_with_meta, mbind, Eff_bind, get_state, assert,
    modify_state.
  destruct (bool_decide (active_instr r = None)); [|done]. cbn.
  destruct (String.eqb key zero) eqn:Ek; [done|]. cbn.
  intros [= <-]. split; [|done]. by apply String.eqb_neq.
Qed.

Lemma global_set_with_meta_state key v m (r r' : RegInfo) res :
  global_set_with_meta key v m r = (res, r') → res = Ok tt ∨ r' = r.
Proof.
  unfold global_set_with_meta, mbind, Eff_bind, get_state, assert,
    modify_state.
  destruct (bool_decide (active_instr r = None));
    [|by intros [= _ <-]; right]. cbn.
  destruct (negb (String.eqb key zero)); [|by intros [= _ <-]; right]. cbn.
  intros [= <- _]. by left.
Qed.

Lemma RegInfo_delitem_state key (r r' : RegInfo) res :
  RegInfo_delitem key r = (res, r') →
  r' = r ∨ (key ≠ zero ∧ r' = set_contents (delete key (contents r)) r).
Proof.
  unfold RegInfo_delitem, mbind, Eff_bind, get_state, assert, modify_state.
  destruct (String.eqb key zero) eqn:Ek; [by intros [= _ <-]; left|]. cbn.
  destruct (contents r !! key); [|by intros [= _ <-]; left].
  intros [= _ <-]. right. split; [|done]. by apply String.eqb_neq.
Qed.

Lemma inherit_registers_contents items : ∀ r r' : RegInfo,
  inherit_registers items r = (Ok tt, r') →
  contents r'
  = foldl (λ m kd, <[kd.1 := inherited_data kd.2]> m) (contents r) items
  ∧ Forall (λ kd, kd.1 ≠ zero) items.
Proof.
  induction items as [|[k d] items IH]; intros r r' E.
  { by injection E as <-. }
  cbn [inherit_registers] in E.
  apply eff_bind_Ok in E as ([] & r1 & E1 & E).
  apply global_set_with_meta_Ok in E1 as [Hk ->].
  apply IH in E as [-> Hall]. split; [done|]. by apply Forall_cons.
Qed.

Lemma fresh_regs_insert key d (r : RegInfo) :
  key ≠ zero → inherited (meta d) = true → is_read (meta d) = false →
  fresh_regs r → fresh_regs (set_contents (<[key := d]> (contents r)) r).
Proof.
  intros Hk Hi Hr Hfresh k d'. cbn.
  destruct (decide (k = key)) as [->|Hne].
  - rewrite lookup_insert_eq. by intros [= <-].
  - rewrite lookup_insert_ne by done. apply Hfresh.
Qed.

Lemma frame_inv_regs_heap {A} touched base (m : Eff Heap A) :
  preserves (frame_inv touched base) (regs_heap m).
Proof.
  apply (preserves_zoom _ (λ _, True)); [done| |apply preserves_True].
  by intros h st ? _.
Qed.

Lemma frame_inv_regs_self {A} touched base (m : Eff RegInfo A) :
  preserves (λ r, (∀ k, LReg k ∉ touched → contents r !! k = base !! k)
                  ∧ fresh_regs r) m →
  preserves (frame_inv touched base) (regs_self m).
Proof.
  intros Hm.
  apply (preserves_zoom _
           (λ r, (∀ k, LReg k ∉ touched → contents r !! k = base !! k)
                 ∧ fresh_regs r)); [done| |done].
  by intros r st _ ?.
Qed.

Lemma frame_inv_dominated_phi fuel G parent_regs child reg touched base :
  LReg reg ∈ touched →
  preserves (frame_inv touched base)
    (dominated_phi fuel G parent_regs child reg).
Proof.
  intros Hreg. unfold dominated_phi.
  apply (preserves_bind_hoare _ (frame_inv touched base));
    [apply hoare_get_state|]. intros st [_ Hfresh].
  assert (Hne : ∀ k, LReg k ∉ touched → k ≠ reg) by (intros k ? ->; done).
  destruct (if is_planned_inherited_phi child reg st.1.2
            then get_meta reg st.2 else None) as [m|] eqn:Em.
  { assert (Hm : inherited m = true ∧ is_read m = false).
    { destruct (is_planned_inherited_phi child reg st.1.2); [|done].
      unfold get_meta in Em.
      destruct (contents st.2 !! reg) as [d|] eqn:Ed; [|done].
      injection Em as <-. by destruct (Hfresh _ _ Ed) as (? & ? & _). }
    apply frame_inv_regs_self. intros r res r' [Hframe Hf] E.
    destruct (update_meta_state _ _ _ _ _ E) as [->| ->]; [|done].
    apply update_meta_Ok in E as (data & Hdata & ->). split.
    - intros k Hk. cbn. rewrite lookup_insert_ne; [by apply Hframe|].
      intros E'. by apply (Hne k Hk).
    - destruct (Hf _ _ Hdata) as (_ & _ & Hz).
      apply fresh_regs_insert; [done|apply Hm..|done]. }
  apply preserves_bind; [apply preserves_pure_res|].
  intros [sources uses_dominator].
  destruct (phi_sources parent_regs reg sources uses_dominator)
    as [[|source rest]|]; [| |apply preserves_raise].
  - destruct (RegInfo_contains reg st.2); [|apply preserves_ret].
    apply frame_inv_regs_self. intros r res r' [Hframe Hf] E.
    apply RegInfo_delitem_state in E as [->|[Hz ->]]; [done|]. split.
    + intros k Hk. cbn. rewrite lookup_delete_ne; [by apply Hframe|].
      intros E'. by apply (Hne k Hk).
    + intros k d. cbn. intros Hd. apply (Hf k d).
      by apply lookup_delete_Some in Hd as [_ ?].
  - apply preserves_bind; [apply frame_inv_regs_heap|]. intros expr.
    apply frame_inv_regs_self. intros r res r' [Hframe Hf] E.
    destruct (global_set_with_meta_state _ _ _ _ _ _ E) as [->| ->]; [|done].
    apply global_set_with_meta_Ok in E as [Hz ->]. split.
    + intros k Hk. cbn. rewrite lookup_insert_ne; [by apply Hframe|].
      intros E'. by apply (Hne k Hk).
    + by apply fresh_regs_insert.
Qed.

Lemma frame_inv_dominated_phis fuel G parent_regs child touched base :
  ∀ phi_regs, (∀ loc, loc ∈ phi_regs → loc ∈ touched) →
    preserves (frame_inv touched base)
      (dominated_phis fuel G parent_regs child phi_regs).
Proof.
  induction phi_regs as [|[reg|?] phi_regs IH]; intros Hsub;
    [apply preserves_ret| |]; cbn [dominated_phis].
  - apply preserves_bind.
    + apply frame_inv_dominated_phi. apply Hsub. by left.
    + intros _. apply IH. intros loc Hloc. apply Hsub. by right.
  - apply IH. intros loc Hloc. apply Hsub. by right.
Qed.

Lemma same_node_prevent_later_uses fuel expr_filter n0 :
  preserves (λ st : Heap * StackInfo * NodeState, same_node n0 st.2)
    (prevent_later_uses fuel expr_filter).
Proof.
  assert (Heach : ∀ items,
    preserves (λ st : Heap * StackInfo * NodeState, same_node n0 st.2)
      (prevent_later_uses_each fuel expr_filter items)).
  { induction items as [|[r data] items IH]; [apply preserves_ret|].
    cbn [prevent_later_uses_each]. apply preserves_bind; [|by intros _].
    destruct (is_phi (value data)); [apply preserves_ret|].
    apply preserves_bind.
    { intros [[h s] n] res st' Hst E.
      unfold node_heap, zoom, get_state in E. by injection E as _ <-. }
    intros h. apply preserves_bind.
    - destruct (meta_force (meta data)); [apply preserves_ret|].
      destruct (uses_expr fuel h (value data) expr_filter None);
        [apply preserves_ret|apply preserves_raise|].
      intros st r' st' Hst E. by injection E as _ <-.
    - intros [|]; [|apply preserves_ret].
      apply preserves_bind; [apply preserves_assert|]. intros _.
      intros [[h' s] n] res st' Hst E. rewrite node_regs_run in E.
      injection E as _ <-. cbn [snd] in *. unfold same_node in *.
      by destruct n. }
  apply preserves_bind; [|intros n; apply Heach].
  intros [[h s] n] res st' Hst E.
  unfold node_self, zoom, get_state in E. by injection E as _ <-.
Qed.

Lemma prevent_later_uses_contents fuel expr_filter
    (st st' : Heap * StackInfo * NodeState) res :
  prevent_later_uses fuel expr_filter st = (res, st') →
  ∀ k, contents (regs st'.2) !! k = contents (regs st.2) !! k
       ∨ ∃ d, contents (regs st.2) !! k = Some d
              ∧ contents (regs st'.2) !! k = Some (forced d).
Proof.
  destruct st as [[h s] n]. unfold prevent_later_uses. intros E.
  unfold mbind, Eff_bind in E. cbn [node_self zoom get_state fst snd] in E.
  apply prevent_later_uses_each_spec in E as (_ & E2 & _).
  - intros k. destruct (E2 k) as [->|(d & Hin & _ & ->)]; [by left|].
    right. exists d. split; [|done]. by apply elem_of_map_to_list.
  - apply NoDup_fst_map_to_list.
  - intros k d Hin. by apply elem_of_map_to_list.
Qed.

(** Property X17: A dominated node starts from the registers of its dominator.  When
    [create_dominated_node_state] returns, the state is that of [child] with
    nothing written; a register that is not clobbered on a path to the
    dominator has the value it has in the dominator, and the [force] and
    [initial] of its meta, or [force] set; and every register it holds is
    marked inherited and unread, and is not [zero]. *)
Theorem dominated_state_inherits fuel G parent_state child hs cs hs' :
  create_dominated_node_state fuel G parent_state child hs = (Ok cs, hs') →
  ∃ phi_regs,
    locs_clobbered_until_dominator fuel G child = Ok phi_regs
    ∧ cs = {| node := node_at G child; regs := regs cs;
              local_var_writes := []; subroutine_args := [];
              in_pattern := false; to_write := []; branch_condition := None;
              switch_control := None; has_function_call := false |}
    ∧ (∀ reg, LReg reg ∉ phi_regs →
         contents (regs cs) !! reg
         = inherited_data <$> contents (regs parent_state) !! reg
         ∨ contents (regs cs) !! reg
           = forced ∘ inherited_data <$> contents (regs parent_state) !! reg)
    ∧ fresh_regs (regs cs).
Proof.
  intros E. unfold create_dominated_node_state in E. cbv zeta in E.
  set (base := inherited_data <$> contents (regs parent_state)).
  match type of E with
  | context [match ?m (hs, RegInfo_empty) with _ => _ end] =>
      destruct (m (hs, RegInfo_empty)) as [res [hs1 new_regs]] eqn:E1
  end.
  destruct res as [[]| |]; [|by destruct hs1..].
  apply eff_bind_Ok in E1 as ([] & st1 & Einh & E1).
  apply eff_bind_Ok in E1 as (phi_regs & st1' & Elocs & Ephis).
  unfold pure_res in Elocs.
  destruct (locs_clobbered_until_dominator fuel G child) as [locs| |];
    [|done..].
  injection Elocs as -> <-. exists phi_regs. split; [done|].
  (* the registers of the dominator *)
  assert (Hst1 : frame_inv phi_regs base st1).
  { unfold regs_self, zoom in Einh. cbn [fst snd] in Einh.
    destruct (inherit_registers _ RegInfo_empty) as [res r1] eqn:Er1.
    destruct res as [[]| |]; [|done..]. injection Einh as <-.
    apply inherit_registers_contents in Er1 as [Ec Hz].
    rewrite foldl_insert_list_to_map in Ec by apply NoDup_fst_map_to_list.
    rewrite list_to_map_to_list in Ec. cbn [contents RegInfo_empty] in Ec.
    rewrite (right_id_L ∅ (∪)) in Ec. split; cbn [snd].
    - intros k _. by rewrite Ec.
    - intros k d. rewrite Ec, lookup_fmap. intros Hd.
      apply fmap_Some in Hd as (d0 & Hd0 & ->). split; [done|].
      split; [done|]. apply elem_of_map_to_list in Hd0.
      rewrite Forall_forall in Hz. apply (Hz (k, d0) Hd0). }
  apply (frame_inv_dominated_phis fuel G (regs parent_state) child phi_regs
           base phi_regs (λ _ Hin, Hin)) in Ephis as [Hframe Hfresh];
    [|done].
  cbn [snd] in Hframe, Hfresh.
  (* the vars that are clobbered *)
  match type of E with
  | context [match ?m (hs1, ?n0) with _ => _ end] =>
      set (child_state := n0) in *;
      destruct (m (hs1, child_state)) as [res [hs2 cs2]] eqn:E2
  end.
  destruct res as [[]| |]; [|done..]. injection E as -> ->.
  apply eff_bind_Ok in E2 as (s & st2 & Es & E2).
  unfold node_stack, zoom, get_state in Es. injection Es as _ <-.
  apply eff_bind_Ok in E2 as (vars & st2 & Ev & E2).
  unfold pure_res in Ev.
  destruct (vars_clobbered_until_dominator fuel G s child) as [vs| |];
    [|done..].
  injection Ev as -> <-. unfold prevent_later_var_uses in E2.
  assert (Hsame : same_node child_state cs).
  { apply (same_node_prevent_later_uses _ _ child_state _ _ _
             (eq_refl : same_node child_state
                          (hs1.1, hs1.2, child_state).2) E2). }
  pose proof (prevent_later_uses_contents _ _ _ _ _ E2) as Hc.
  cbn [fst snd] in Hsame, Hc. split; [|split].
  - unfold same_node, child_state in Hsame.
    destruct cs as [n0 r0 lw sa ip tw bc sc fc].
    unfold set_regs in Hsame. cbn in Hsame |- *. congruence.
  - intros reg Hreg. specialize (Hframe reg Hreg). unfold base in Hframe.
    rewrite lookup_fmap in Hframe. unfold child_state in Hc.
    cbn [regs] in Hc.
    destruct (Hc reg) as [->|(d & Hd & ->)]; [by left|].
    right. rewrite Hframe in Hd.
    destruct (contents (regs parent_state) !! reg) as [d0|]; [|done].
    by injection Hd as <-.
  - intros k d Hd. destruct (Hc k) as [Ek|(d0 & Hd0 & Ek)];
      rewrite Ek in Hd.
    + by apply (Hfresh k d).
    + injection Hd as <-. by apply (Hfresh k d0).
Qed.


(** ** The arguments of a function *)

Lemma arg_le_transitive : Transitive arg_le.
Proof. intros a b c. unfold arg_le. lia. Qed.

Lemma arg_le_total : Total arg_le.
Proof. intros a b. unfold arg_le. lia. Qed.

Lemma existsb_arg_value v (l : list Expression) :
  existsb (λ a, arg_value a =? v) l = true ↔ v ∈ arg_value <$> l.
Proof.
  rewrite existsb_exists, list_elem_of_fmap. split.
  - intros (a & Ha%list_elem_of_In & E%Z.eqb_eq). by exists a.
  - intros (a & -> & Ha). exists a. split; [by apply list_elem_of_In|].
    apply Z.eqb_refl.
Qed.

Lemma arg_lt_NoDup (l : list Expression) :
  StronglySorted (λ a b, arg_value a < arg_value b) l →
  NoDup (arg_value <$> l).
Proof.
  induction 1 as [|a l _ IH Hall]; [apply NoDup_nil_2|].
  cbn. apply NoDup_cons. split; [|done].
  intros (b & E & Hb)%list_elem_of_fmap. rewrite Forall_forall in Hall.
  specialize (Hall b Hb). lia.
Qed.

Lemma arg_le_NoDup_lt (l : list Expression) :
  StronglySorted arg_le l → NoDup (arg_value <$> l) →
  StronglySorted (λ a b, arg_value a < arg_value b) l.
Proof.
  induction 1 as [|a l _ IH Hall]; intros Hnd; [constructor|].
  cbn in Hnd. apply NoDup_cons in Hnd as [Ha Hnd].
  constructor; [by apply IH|]. rewrite Forall_forall in Hall |- *.
  intros b Hb. specialize (Hall b Hb). unfold arg_le in Hall.
  assert (arg_value a ≠ arg_value b); [|lia].
  intros E. apply Ha. rewrite E. apply list_elem_of_fmap. by exists b.
Qed.

(** Property X18: [add_argument] keeps the arguments in order.  When they are sorted by
    strictly increasing [value], they are so afterwards: an argument whose
    [value] is there already is dropped, another one is added and every
    argument is kept; adding the argument once more changes nothing, and no
    other field of the [StackInfo] changes. *)
Theorem add_argument_keeps_order (arg : Expression) (s : StackInfo) :
  StronglySorted (λ a b, arg_value a < arg_value b) (arguments s) →
  StronglySorted (λ a b, arg_value a < arg_value b)
    (arguments (add_argument arg s))
  ∧ (∀ a, a ∈ arguments (add_argument arg s) ↔
          a ∈ arguments s
          ∨ (a = arg ∧ arg_value arg ∉ arg_value <$> arguments s))
  ∧ arg_value arg ∈ arg_value <$> arguments (add_argument arg s)
  ∧ add_argument arg (add_argument arg s) = add_argument arg s
  ∧ set_arguments (arguments s) (add_argument arg s) = s.
Proof.
  intros Hsorted.
  destruct (existsb (λ a, arg_value a =? arg_value arg) (arguments s))
    eqn:Eex.
  - assert (E : add_argument arg s = s)
      by (unfold add_argument; by rewrite Eex).
    rewrite !E. apply existsb_arg_value in Eex.
    split; [done|]. split; [|split; [done|split; [done|by destruct s]]].
    intros a. split; [by left|]. by intros [?|[_ ?]].
  - assert (E : add_argument arg s
                = set_arguments (sort_arguments (arguments s ++ [arg])) s)
      by (unfold add_argument; by rewrite Eex).
    assert (Hnot : arg_value arg ∉ arg_value <$> arguments s).
    { rewrite <- existsb_arg_value. by rewrite Eex. }
    pose proof (merge_sort_Permutation arg_le (arguments s ++ [arg]))
      as Hperm.
    assert (Hmem : arg_value arg
                   ∈ arg_value <$> merge_sort arg_le (arguments s ++ [arg])).
    { rewrite Hperm, fmap_app. apply elem_of_app. right. by left. }
    assert (Eargs : arguments (add_argument arg s)
                    = merge_sort arg_le (arguments s ++ [arg]))
      by (rewrite E; by destruct s).
    rewrite Eargs. split; [|split; [|split; [done|split]]].
    + apply arg_le_NoDup_lt.
      * apply (@StronglySorted_merge_sort _ arg_le _ arg_le_transitive
                 arg_le_total).
      * rewrite Hperm, fmap_app. apply NoDup_app.
        split; [by apply arg_lt_NoDup|]. split; [|apply NoDup_singleton].
        intros v Hv [->|[]%elem_of_nil]%elem_of_cons. done.
    + intros a. rewrite Hperm, elem_of_app, list_elem_of_singleton.
      split; intros [?|?]; [by left|by right|by left|right; tauto].
    + apply existsb_arg_value in Hmem. rewrite <- Eargs in Hmem.
      unfold add_argument at 1. by rewrite Hmem.
    + rewrite E. by destruct s.
Qed.

(** ** The type of an argument *)

Lemma land_minus_4 (location : Z) : Z.land location (-4) = 4 * (location / 4).
Proof.
  change (-4) with (Z.lnot (Z.ones 2)).
  rewrite <- Z.ldiff_land, Z.ldiff_ones_r by lia.
  rewrite Z.shiftr_div_pow2, Z.shiftl_mul_pow2 by lia.
  change (2 ^ 2) with 4. lia.
Qed.

Lemma unique_type_for_memo key default (s : StackInfo) :
  ∀ default',
    unique_type_for key default' (unique_type_for key default s).2
    = unique_type_for key default s.
Proof.
  intros default'. unfold unique_type_for at 2 3.
  destruct (list_find (λ kv, kv.1 = key) (unique_type_map s))
    as [[i [k t]]|] eqn:Efind; cbn [snd].
  - unfold unique_type_for. by rewrite Efind.
  - unfold unique_type_for. cbn [unique_type_map set_unique_type_map].
    rewrite list_find_app_r by done. cbn.
    by rewrite decide_True.
Qed.

Lemma get_argument_Ok location (st st' : Heap * StackInfo) e a :
  get_argument location st = (Ok (e, a), st') →
  ∃ default,
    a = PassedInArg (Z.land location (-4))
          (unique_type_for (UK_arg (Z.land location (-4))) default st.2).1
    ∧ st'.2
      = (unique_type_for (UK_arg (Z.land location (-4))) default st.2).2
    ∧ (Z.land location (-4) ≠ location - 3 →
       Z.land location (-4) ≠ location - 2 → e = a).
Proof.
  unfold get_argument. intros E.
  apply eff_bind_Ok in E as (default & st1 & E1 & E).
  apply eff_bind_Ok in E as (t & st2 & E2 & E).
  exists default.
  assert (Hst1 : st1.2 = st.2).
  { unfold on_heap, zoom, state_fn in E1.
    destruct (heap_new_type T_any_reg st.1). by injection E1 as _ <-. }
  unfold on_stack, zoom, state_fn in E2. rewrite Hst1 in E2.
  destruct (unique_type_for _ default st.2) as [t' s'] eqn:Eu.
  injection E2 as -> <-. cbn [fst snd].
  assert (Hheap : ∀ m : Eff Heap Expression, ∀ r st3,
            on_heap m (st1.1, s') = (r, st3) → st3.2 = s').
  { intros m r st3. unfold on_heap, zoom. cbn [fst snd].
    destruct (m st1.1). by intros [= _ <-]. }
  destruct (bool_decide (_ = location - 3)) eqn:E3.
  { apply eff_bind_Ok in E as (e' & st3 & E & Eret).
    injection Eret as <- <- <-. apply Hheap in E.
    apply bool_decide_eq_true in E3. by repeat split. }
  destruct (bool_decide (_ = location - 2)) eqn:E4.
  { apply eff_bind_Ok in E as (e' & st3 & E & Eret).
    injection Eret as <- <- <-. apply Hheap in E.
    apply bool_decide_eq_true in E4. by repeat split. }
  by injection E as <- <- <-.
Qed.

(** Property X19: [get_argument] gives one argument for each word.  Two calls that return
    give the same [PassedInArg], with one type, exactly when the two offsets
    lie in the same word of four bytes; the [value] of the argument is the
    offset of the word, and the expression returned is the argument itself
    unless the offset is that of the second half of the word or of its last
    byte. *)
Theorem get_argument_one_per_word location1 location2
    (st st1 st2 : Heap * StackInfo) e1 a1 e2 a2 :
  get_argument location1 st = (Ok (e1, a1), st1) →
  get_argument location2 st1 = (Ok (e2, a2), st2) →
  (a1 = a2 ↔ location1 / 4 = location2 / 4)
  ∧ (∃ t, a1 = PassedInArg (4 * (location1 / 4)) t)
  ∧ (location1 mod 4 < 2 → e1 = a1).
Proof.
  intros E1 E2.
  apply get_argument_Ok in E1 as (d1 & -> & Hst1 & He1).
  apply get_argument_Ok in E2 as (d2 & -> & _ & _).
  rewrite Hst1. rewrite !land_minus_4 in *. split; [|split].
  - split.
    + intros [= E]. lia.
    + intros ->. by rewrite unique_type_for_memo.
  - by eexists.
  - intros Hmod. apply He1; pose proof (Z.div_mod location1 4); lia.
Qed.

(** ** [rlwi_mask] *)

Lemma bits_upto_Ok m : m ≤ 32 → bits_upto m = Ok (Z.ones (32 - m)).
Proof.
  intros Hm. unfold bits_upto, py_lshift.
  destruct (32 - m <? 0) eqn:E; [lia|]. cbn. rewrite Z.ones_equiv. f_equal.
  lia.
Qed.

Ltac bool_lia :=
  repeat match goal with
         | |- context [?a <=? ?b] => destruct (Z.leb_spec a b)
         | |- context [?a <? ?b] => destruct (Z.ltb_spec a b)
         end; cbn; first [reflexivity|lia].

Lemma ones_sub_testbit a b j :
  0 ≤ b ≤ a → 0 ≤ j →
  Z.testbit (Z.ones a - Z.ones b) j = (b <=? j) && (j <? a).
Proof.
  intros Hab Hj.
  assert (E : Z.ones a - Z.ones b = Z.shiftl (Z.ones (a - b)) b).
  { rewrite Z.shiftl_mul_pow2, !Z.ones_equiv by lia.
    replace a with ((a - b) + b) at 1 by lia. rewrite Z.pow_add_r by lia.
    lia. }
  rewrite E, Z.shiftl_spec by lia.
  destruct (Z.leb_spec b j).
  - rewrite Z.testbit_ones_nonneg by lia. bool_lia.
  - rewrite Z.testbit_neg_r by lia. bool_lia.
Qed.

(** Property X20: [rlwi_mask] is the [MASK(MB, ME)] of the processor manual.  For bit
    numbers from 0 to 31 it returns a 32-bit word; with [mask_begin] no
    larger than [mask_end] the bits from [mask_begin] to [mask_end] are set,
    otherwise those up to [mask_end] and those from [mask_begin] on, bit 0
    being the most significant one. *)
Theorem rlwi_mask_bits (mask_begin mask_end : Z) :
  0 ≤ mask_begin ≤ 31 → 0 ≤ mask_end ≤ 31 →
  ∃ mask,
    rlwi_mask mask_begin mask_end = Ok mask
    ∧ 0 ≤ mask < 2 ^ 32
    ∧ ∀ i, 0 ≤ i ≤ 31 →
        ppc_bit mask i
        = if mask_begin <=? mask_end
          then (mask_begin <=? i) && (i <=? mask_end)
          else (i <=? mask_end) || (mask_begin <=? i).
Proof.
  intros Hb He. unfold rlwi_mask, ppc_bit.
  rewrite !bits_upto_Ok by lia. cbn [mbind Res_bind].
  destruct (Z.leb_spec mask_begin mask_end) as [Hle|Hlt].
  - eexists. split; [reflexivity|]. split.
    + rewrite !Z.ones_equiv.
      pose proof (Z.pow_le_mono_r 2 (32 - (mask_end + 1)) (32 - mask_begin)).
      pose proof (Z.pow_le_mono_r 2 (32 - mask_begin) 32).
      pose proof (Z.pow_pos_nonneg 2 (32 - (mask_end + 1))). lia.
    + intros i Hi. rewrite ones_sub_testbit by lia. bool_lia.
  - eexists. split; [reflexivity|].
    assert (Hd : 0 ≤ Z.ones (32 - (mask_end + 1)) - Z.ones (32 - mask_begin)
                 < 2 ^ 32).
    { rewrite !Z.ones_equiv.
      pose proof (Z.pow_le_mono_r 2 (32 - mask_begin) (32 - (mask_end + 1))).
      pose proof (Z.pow_le_mono_r 2 (32 - (mask_end + 1)) 32).
      pose proof (Z.pow_pos_nonneg 2 (32 - mask_begin)). lia. }
    change 4294967295 with (Z.ones 32). split.
    + set (d := _ - _) in *.
      assert (Hnn : 0 ≤ Z.lxor d (Z.ones 32)).
      { apply Z.lxor_nonneg. split; intros _; [done|lia]. }
      split; [done|].
      destruct (decide (Z.lxor d (Z.ones 32) = 0)) as [->|Hnz]; [lia|].
      apply Z.log2_lt_pow2; [lia|].
      eapply Z.le_lt_trans; [apply Z.log2_lxor; [lia|done]|].
      apply Z.max_lub_lt; [|done].
      destruct (decide (d = 0)) as [->|]; [done|].
      apply Z.log2_lt_pow2; lia.
    + intros i Hi. rewrite Z.lxor_spec, ones_sub_testbit by lia.
      rewrite Z.testbit_ones_nonneg by lia. bool_lia.
Qed.

(** ** Parentheses in formatted expressions *)

Lemma excess_app s t : excess (s ++ t) = excess s + excess t.
Proof. induction s as [|c s IH]; cbn; [done|]. rewrite IH. lia. Qed.

Lemma balanced_loop_spec s : ∀ bal,
  0 ≤ bal →
  balanced_loop bal s = true ↔
  bal + excess s = 0 ∧ ∀ p, p `prefix_of` s → 0 ≤ bal + excess p.
Proof.
  induction s as [|c s IH]; intros bal Hbal; cbn [balanced_loop excess].
  { rewrite Z.eqb_eq. split.
    - intros ->. split; [done|]. intros p ->%prefix_nil_inv. cbn. lia.
    - intros [? _]. lia. }
  assert (Hpre : ∀ d,
            d = (if Ascii.eqb c "(" then 1
                 else if Ascii.eqb c ")" then -1 else 0) →
            0 ≤ bal + d →
            (bal + d + excess s = 0
             ∧ ∀ p, p `prefix_of` s → 0 ≤ bal + d + excess p) ↔
            (bal + (d + excess s) = 0
             ∧ ∀ p, p `prefix_of` c :: s → 0 ≤ bal + excess p)).
  { intros d Hd Hnn. split; intros [E Hp]; (split; [lia|]).
    - intros [|c' p] Hpre; [cbn; lia|].
      apply prefix_cons_inv_1 in Hpre as Hc. subst c'.
      apply prefix_cons_inv_2 in Hpre. cbn [excess]. rewrite <- Hd.
      specialize (Hp p Hpre). lia.
    - intros p Hpre. specialize (Hp (c :: p) (prefix_cons _ _ _ Hpre)).
      cbn [excess] in Hp. rewrite <- Hd in Hp. lia. }
  destruct (Ascii.eqb c "(") eqn:Eo.
  { rewrite IH by lia. apply (Hpre 1); [done|lia]. }
  destruct (Ascii.eqb c ")") eqn:Ec.
  - destruct (Z.eqb_spec bal 0) as [->|Hne].
    + split; [done|]. intros [_ Hp].
      specialize (Hp [c] (prefix_cons _ [] _ (prefix_nil _))).
      cbn in Hp. rewrite Eo, Ec in Hp. lia.
    + rewrite IH by lia. replace (bal - 1) with (bal + -1) by lia.
      apply (Hpre (-1)); [done|lia].
  - rewrite IH by lia. specialize (Hpre 0 eq_refl ltac:(lia)).
    rewrite Z.add_0_r in Hpre. exact Hpre.
Qed.

Lemma balanced_parentheses_excess (s : list ascii) :
  balanced_parentheses s = true → excess s = 0.
Proof.
  unfold balanced_parentheses. intros Hs.
  by apply balanced_loop_spec in Hs as [Hs _].
Qed.

(** Property X21: [balanced_parentheses] accepts the strings whose parentheses match:
    as many are closed as are opened, and at no point of the string more
    are closed than were opened before.  Other characters are ignored. *)
Theorem balanced_parentheses_spec (s : list ascii) :
  balanced_parentheses s = true ↔
  excess s = 0 ∧ ∀ p, p `prefix_of` s → 0 ≤ excess p.
Proof. unfold balanced_parentheses. by rewrite balanced_loop_spec. Qed.

Lemma removelast_snoc {A} (l : list A) x : removelast (l ++ [x]) = l.
Proof. apply removelast_last. Qed.

Lemma list_snoc_inv {A} (l : list A) : l = [] ∨ ∃ l' x, l = l' ++ [x].
Proof.
  induction l as [|a l IH] using rev_ind; [by left|]. right. by exists l, a.
Qed.

(** Property X22: [format_expr] removes only a pair of parentheses that match.  On a
    string whose parentheses match, it returns the string as it is or
    without its first and last characters, which are then an opening
    parenthesis and the one that closes it; the parentheses of the result
    match.  The pair that encloses a string is removed. *)
Theorem format_expr_strips_matching_pair (ret : list ascii) :
  balanced_parentheses ret = true →
  balanced_parentheses (format_expr ret) = true
  ∧ (format_expr ret = ret
     ∨ ret = ["("%char] ++ format_expr ret ++ [")"%char])
  ∧ ∀ s, balanced_parentheses s = true →
      ret = ["("%char] ++ s ++ [")"%char] → format_expr ret = s.
Proof.
  intros Hret. split; [|split].
  - unfold format_expr. destruct (_ && _) eqn:E; [|done].
    by apply andb_true_iff in E as [_ ?].
  - unfold format_expr. destruct (_ && _) eqn:E; [|by left]. right.
    apply andb_true_iff in E as [Hc Hs].
    destruct ret as [|c rest]; [done|]. apply Ascii.eqb_eq in Hc as ->.
    unfold strip_ends in *. cbn [tail] in *.
    destruct (list_snoc_inv rest) as [->|(mid & x & ->)]; [done|].
    rewrite removelast_snoc in *. cbn. do 2 f_equal.
    apply balanced_parentheses_excess in Hret as Hex.
    apply balanced_parentheses_excess in Hs as Hmid.
    cbn [excess] in Hex. rewrite excess_app, Hmid in Hex. cbn in Hex.
    destruct (Ascii.eqb x "("); [lia|].
    destruct (Ascii.eqb x ")") eqn:Ex; [|lia].
    by apply Ascii.eqb_eq in Ex as ->.
  - intros s Hs ->. unfold format_expr, strip_ends. cbn [tail app].
    rewrite removelast_snoc. cbn. by rewrite Hs.
Qed.

(** ** Negation of conditions *)

Lemma new_not_Ok e (h : Heap) :
  ∃ oid t h', new_not e h = (Ok (UnaryOp oid "!" e t), h').
Proof.
  unfold new_not, mbind, Eff_bind, state_fn, mret, Eff_ret.
  destruct (heap_new_type T_bool h) as [t h1].
  destruct (fresh_oid h1) as [oid h2]. by exists oid, t, h2.
Qed.

Lemma is_comparison_not_connective op :
  is_comparison op = true →
  String.eqb op "&&" = false ∧ String.eqb op "||" = false
  ∧ String.eqb (negated_op op) "&&" = false
  ∧ String.eqb (negated_op op) "||" = false.
Proof.
  unfold is_comparison. cbn [existsb]. rewrite !orb_true_iff.
  intros [E|[E|[E|[E|[E|[E|E]]]]]]; [| | | | | |done];
    apply String.eqb_eq in E as ->; done.
Qed.

Lemma int_cmp_opposite atom : opposite_comparisons (int_cmp atom).
Proof.
  intros h oid oid' l r t t' op Hop _. unfold is_comparison in Hop.
  cbn [existsb] in Hop. rewrite !orb_true_iff in Hop.
  destruct Hop as [E|[E|[E|[E|[E|[E|E]]]]]]; [| | | | | |done];
    apply String.eqb_eq in E as ->; cbn;
    repeat match goal with
           | |- context [?a <=? ?b] => destruct (Z.leb_spec a b)
           | |- context [?a <? ?b] => destruct (Z.ltb_spec a b)
           | |- context [?a =? ?b] => destruct (Z.eqb_spec a b)
           end; cbn; first [reflexivity|lia].
Qed.

(** Property X23: [negated] negates.  On a condition it returns a condition; if no
    [ErrorExpr] is negated on the way, the truth of the result is the
    opposite of that of the condition, for every reading of the comparisons
    that gives opposite comparisons opposite truths, the orderings of
    floating-point values excepted. *)
Theorem negated_is_negation cmp e : ∀ (h : Heap) res h',
  opposite_comparisons cmp →
  is_Condition e = true →
  negated e h = (res, h') →
  ∃ e', res = Ok e' ∧ is_Condition e' = true
        ∧ (no_error_negated e = true → truth cmp e' = negb (truth cmp e)).
Proof.
  intros h res h' Hcmp. revert h res h'.
  induction e; intros h res h' Hc E; try discriminate Hc;
    cbn [negated] in E.
  - (* ErrorExpr *)
    injection E as <- <-. eexists. split; [done|]. split; [done|].
    discriminate.
  - (* BinaryOp *)
    destruct ((String.eqb op "&&" || String.eqb op "||")
              && is_Condition e1 && is_Condition e2) eqn:Eand.
    + apply andb_true_iff in Eand as [[Eop Hc1]%andb_true_iff Hc2].
      unfold mbind at 1, Eff_bind in E.
      destruct (negated e1 h) as [r1 h1] eqn:E1.
      destruct (IHe1 _ _ _ Hc1 E1) as (l & -> & Hl & Tl).
      unfold mbind at 1, Eff_bind in E.
      destruct (negated e2 h1) as [r2 h2] eqn:E2.
      destruct (IHe2 _ _ _ Hc2 E2) as (r & -> & Hr & Tr).
      unfold mbind, Eff_bind, state_fn, mret, Eff_ret in E.
      destruct (heap_new_type T_bool h2) as [t h3].
      destruct (fresh_oid h3) as [oid' h4]. injection E as <- <-.
      eexists. split; [done|]. split; [done|].
      cbn [no_error_negated truth]. rewrite Eop, Hc1, Hc2. cbn [andb].
      intros [N1 N2]%andb_true_iff. specialize (Tl N1). specialize (Tr N2).
      destruct (String.eqb op "&&") eqn:Ea; cbn.
      * rewrite Tl, Tr. by rewrite negb_andb.
      * cbn in Eop. rewrite Eop, Tl, Tr. by rewrite negb_orb.
    + unfold mbind at 1, Eff_bind, get_state in E.
      destruct (negb (is_comparison op)
                || is_floating h e1 e2 && is_ordering op) eqn:Enot.
      * destruct (new_not_Ok (BinaryOp oid e1 op e2 type) h)
          as (oid' & t & h1 & E1).
        rewrite E1 in E. injection E as <- <-.
        eexists. split; [done|]. split; [done|]. done.
      * apply orb_false_iff in Enot as [Eis Efl].
        apply negb_false_iff in Eis.
        unfold mbind, Eff_bind, state_fn, mret, Eff_ret in E.
        destruct (heap_new_type T_bool h) as [t h3].
        destruct (fresh_oid h3) as [oid' h4]. injection E as <- <-.
        eexists. split; [done|]. split; [done|]. intros _.
        destruct (is_comparison_not_connective op Eis) as (A1 & A2 & A3 & A4).
        cbn [truth]. rewrite A1, A2, A3, A4. by apply (Hcmp h).
  - (* UnaryOp *)
    destruct (String.eqb op "!" && _) eqn:Enot.
    + injection E as <- <-. apply andb_true_iff in Enot as [Eop Hx].
      eexists. split; [done|]. split; [by destruct e|]. intros _.
      cbn [truth]. rewrite Eop. by rewrite negb_involutive.
    + destruct (new_not_Ok (UnaryOp oid op e type) h)
        as (oid' & t & h1 & E1).
      rewrite E1 in E. injection E as <- <-.
      eexists. split; [done|]. split; [done|]. done.
  - (* ExprCondition *)
    unfold mbind, Eff_bind, state_fn, mret, Eff_ret in E.
    destruct (fresh_oid h) as [oid' h1]. injection E as <- <-.
    eexists. split; [done|]. split; [done|]. intros _. cbn [truth].
    by destruct is_negated, (truth cmp e).
Qed.

(** ** Escaping the bytes of a string constant *)

Lemma hex_value_digit d : 0 ≤ d < 16 → hex_value (hex_digit d) = d.
Proof.
  intros Hd. unfold hex_value, hex_digit.
  destruct (Z.ltb_spec d 10).
  - destruct (Z.ltb_spec (48 + d) 58); lia.
  - destruct (Z.ltb_spec (87 + d) 58); lia.
Qed.

Lemma hex_digit_range d :
  0 ≤ d < 16 → 48 ≤ hex_digit d ≤ 102.
Proof. intros Hd. unfold hex_digit. destruct (Z.ltb_spec d 10); lia. Qed.

Ltac case_eqb :=
  repeat match goal with
         | H : context [?a =? ?b] |- _ => destruct (Z.eqb_spec a b)
         | H : context [?a <? ?b] |- _ => destruct (Z.ltb_spec a b)
         | |- context [?a =? ?b] => destruct (Z.eqb_spec a b)
         | |- context [?a <? ?b] => destruct (Z.ltb_spec a b)
         end.

Lemma escape_byte_spec b escaped :
  escape_byte b = Ok escaped →
  0 ≤ b ≤ 255
  ∧ Forall (λ c, 32 ≤ c < 255 ∧ c ≠ 127) escaped
  ∧ ∀ fuel rest,
      unescape (S fuel) (escaped ++ rest) = cons b <$> unescape fuel rest.
Proof.
  unfold escape_byte. destruct ((b <? 0) || (255 <? b)) eqn:Er; [done|].
  apply orb_false_iff in Er as [?%Z.ltb_ge ?%Z.ltb_ge].
  destruct (escape_table b) as [e|] eqn:Et.
  - intros [= ->]. split; [lia|]. unfold escape_table in Et.
    case_eqb; try discriminate Et; injection Et as <-; subst b;
      (split; [repeat constructor; lia|]); intros fuel rest; reflexivity.
  - assert (Hb : b ≠ 92 ∧ b ≠ 34)
      by (unfold escape_table in Et; case_eqb; done || lia).
    destruct ((b <? 32) || (b =? 255) || (b =? 127)) eqn:Ex; intros [= <-].
    + split; [lia|].
      assert (Hq : 0 ≤ b / 16 < 16).
      { split; [apply Z.div_pos; lia|apply Z.div_lt_upper_bound; lia]. }
      pose proof (Z.mod_pos_bound b 16 ltac:(lia)) as Hr.
      pose proof (hex_digit_range (b / 16) Hq).
      pose proof (hex_digit_range (b mod 16) Hr).
      split; [repeat constructor; lia|]. intros fuel rest.
      cbn [app unescape]. cbn.
      rewrite !hex_value_digit by done. do 2 f_equal.
      pose proof (Z.div_mod b 16). lia.
    + apply orb_false_iff in Ex as [[E1 E2]%orb_false_iff E3].
      apply Z.ltb_ge in E1. apply Z.eqb_neq in E2, E3.
      split; [lia|]. split; [repeat constructor; lia|]. intros fuel rest.
      cbn [app unescape]. destruct (Z.eqb_spec b 92); [lia|done].
Qed.

Lemma escape_bytes_spec data : ∀ s,
  escape_bytes data = Ok s →
  Forall (λ c, 32 ≤ c < 255 ∧ c ≠ 127) s
  ∧ ∀ fuel, (length data ≤ fuel)%nat → unescape fuel s = Some data.
Proof.
  induction data as [|b data IH]; intros s E.
  { injection E as <-. split; [constructor|]. by intros [|fuel]. }
  cbn [escape_bytes] in E.
  apply res_bind_Ok in E as (escaped & Eb & E).
  apply res_bind_Ok in E as (rest & Er & E). injection E as <-.
  apply escape_byte_spec in Eb as (_ & Hall & Hun).
  apply IH in Er as [Hrest Hdec]. split; [by apply Forall_app|].
  intros [|fuel] Hfuel; [cbn in Hfuel; lia|].
  rewrite Hun, Hdec; [done|cbn in Hfuel; lia].
Qed.

(** Property X24: The escaped form of a string constant is printable and determines the
    bytes.  When [escape_byte] returns for every byte of [data], no byte of
    the result is a control character, [0x7F] or [0xFF], and no other
    sequence of bytes has the same result. *)
Theorem escaped_bytes_are_printable_and_distinct (data s : list Z) :
  escape_bytes data = Ok s →
  Forall (λ c, 32 ≤ c < 255 ∧ c ≠ 127) s
  ∧ Forall (λ b, 0 ≤ b ≤ 255) data
  ∧ ∀ data', escape_bytes data' = Ok s → data' = data.
Proof.
  intros E. destruct (escape_bytes_spec data s E) as [Hs Hdec].
  split; [done|]. split.
  - clear Hs Hdec. revert s E.
    induction data as [|b data IH]; intros s E; [constructor|].
    cbn [escape_bytes] in E.
    apply res_bind_Ok in E as (escaped & Eb & E).
    apply res_bind_Ok in E as (rest & Er & E).
    apply escape_byte_spec in Eb as (Hb & _). constructor; [done|].
    by eapply IH.
  - intros data' E'. destruct (escape_bytes_spec data' s E') as [_ Hdec'].
    specialize (Hdec (length data `max` length data')%nat ltac:(lia)).
    specialize (Hdec' (length data `max` length data')%nat ltac:(lia)).
    congruence.
Qed.

(** ** The nodes that are translated *)

Lemma elem_of_rev {A} (x : A) (l : list A) : x ∈ rev l ↔ x ∈ l.
Proof. rewrite !list_elem_of_In. symmetry. apply in_rev. Qed.

Lemma keeps_node_heap {A} N (m : Eff Heap A) :
  preserves (keeps_node N) (node_heap m).
Proof.
  apply (preserves_zoom _ (λ _, True)); [done| |apply preserves_True].
  by intros h st ? _.
Qed.

Lemma keeps_node_stack {A} N (m : Eff StackInfo A) :
  preserves (keeps_node N) (node_stack m).
Proof.
  apply (preserves_zoom _ (λ _, True)); [done| |apply preserves_True].
  by intros h st ? _.
Qed.

Lemma keeps_node_self {A} N (m : Eff NodeState A) :
  preserves (λ n, node n = N) m → preserves (keeps_node N) (node_self m).
Proof.
  intros Hm. apply (preserves_zoom _ (λ n, node n = N)); [done| |done].
  by intros n st _ ?.
Qed.

Lemma keeps_node_regs {A} N (m : Eff RegInfo A) :
  preserves (keeps_node N) (node_regs m).
Proof.
  apply keeps_node_self.
  apply (preserves_zoom _ (λ _, True)); [done| |apply preserves_True].
  by intros r n ? _.
Qed.

Lemma keeps_node_self_get N : preserves (keeps_node N) (node_self get_state).
Proof. apply keeps_node_self, preserves_get_state. Qed.

Lemma keeps_node_self_modify N (f : NodeState → NodeState) :
  (∀ n, node (f n) = node n) →
  preserves (keeps_node N) (node_self (modify_state f)).
Proof.
  intros Hf. apply keeps_node_self, preserves_modify_state.
  intros n <-. apply Hf.
Qed.

Lemma keeps_node_getitem N fuel key :
  preserves (keeps_node N) (node_getitem fuel key).
Proof.
  apply (preserves_zoom _ (λ _, True)); [done| |apply preserves_True].
  by intros hr st ? _.
Qed.

Lemma keeps_node_set_branch_condition N cond :
  preserves (keeps_node N) (set_branch_condition cond).
Proof.
  unfold set_branch_condition.
  apply preserves_bind; [apply keeps_node_self_get|]. intros n.
  apply preserves_bind; [apply preserves_assert|]. intros _.
  apply preserves_bind; [apply preserves_assert|]. intros _.
  by apply keeps_node_self_modify.
Qed.

Lemma keeps_node_write_statement N stmt :
  preserves (keeps_node N) (write_statement stmt).
Proof. by apply keeps_node_self_modify. Qed.

Lemma keeps_node_prevent_later_uses N fuel expr_filter :
  preserves (keeps_node N) (prevent_later_uses fuel expr_filter).
Proof.
  intros [[h s] n] res st' Hn E.
  assert (Hrefl : same_node n (h, s, n).2)
    by (unfold same_node; by destruct n).
  pose proof (same_node_prevent_later_uses fuel expr_filter n _ _ _
                Hrefl E) as Hsame.
  unfold keeps_node, same_node in *. cbn [snd] in Hn. rewrite <- Hn, <- Hsame.
  by destruct st'.2.
Qed.

Lemma keeps_node_eval_once N fuel expr emit_exactly_once transparent reg
    source :
  preserves (keeps_node N)
    (eval_once fuel expr emit_exactly_once transparent reg source).
Proof.
  unfold eval_once.
  apply preserves_bind; [apply keeps_node_stack|]. intros s.
  destruct (_ && _).
  { apply preserves_bind; [apply preserves_assert|]. intros _.
    apply preserves_bind; [apply preserves_assert|]. intros _.
    apply preserves_ret. }
  apply preserves_bind.
  { destruct emit_exactly_once; [apply keeps_node_heap|apply preserves_ret]. }
  intros _. apply preserves_bind.
  { destruct (get_planned_var reg source s).
    - apply preserves_bind; [apply keeps_node_heap|]. intros e.
      apply preserves_bind; [apply keeps_node_prevent_later_uses|].
      intros _. apply preserves_ret.
    - apply preserves_bind; [apply keeps_node_self_get|]. intros n.
      apply preserves_bind; [apply keeps_node_heap|]. intros vid.
      apply preserves_bind; [apply keeps_node_stack|]. intros _.
      apply preserves_ret. }
  intros [var e].
  apply preserves_bind; [apply keeps_node_heap|]. intros oid.
  apply preserves_bind; [apply keeps_node_write_statement|]. intros _.
  apply preserves_bind; [apply keeps_node_heap|]. intros _.
  apply preserves_bind; [|intros _; apply preserves_ret].
  destruct (get_planned_var reg source s); [|apply preserves_ret].
  apply preserves_bind; [apply keeps_node_heap|]. intros _.
  apply keeps_node_heap.
Qed.

Lemma keeps_node_set_reg_real N fuel reg uw_expr transparent
    emit_exactly_once function_return :
  preserves (keeps_node N)
    (set_reg_real fuel reg uw_expr transparent emit_exactly_once
       function_return).
Proof.
  unfold set_reg_real.
  apply preserves_bind; [apply keeps_node_self_get|]. intros n.
  destruct (active_instr (regs n)); [|apply preserves_raise].
  apply preserves_bind; [apply keeps_node_heap|]. intros h.
  apply preserves_bind; [apply keeps_node_eval_once|]. intros expr.
  apply preserves_bind; [|intros _; apply preserves_ret].
  destruct (String.eqb reg zero).
  - apply preserves_bind; [apply keeps_node_heap|]. intros _.
    apply keeps_node_write_statement.
  - apply preserves_bind; [apply keeps_node_self_get|]. intros n'.
    apply keeps_node_regs.
Qed.

Lemma create_dominated_node_state_node fuel G parent_state child hs cs hs' :
  create_dominated_node_state fuel G parent_state child hs = (Ok cs, hs') →
  node cs = node_at G child.
Proof.
  intros E. unfold create_dominated_node_state in E. cbv zeta in E.
  match type of E with
  | context [match ?m (hs, RegInfo_empty) with _ => _ end] =>
      destruct (m (hs, RegInfo_empty)) as [res [hs1 new_regs]]
  end.
  destruct res as [[]| |]; [|done..].
  match type of E with
  | context [match ?m (hs1, ?n0) with _ => _ end] =>
      destruct (m (hs1, n0)) as [res [hs2 cs2]] eqn:E2
  end.
  destruct res as [[]| |]; [|done..]. injection E as -> ->.
  revert E2. apply (preserves_bind (keeps_node (node_at G child)));
    [apply keeps_node_stack| |done].
  intros s. apply preserves_bind; [apply preserves_pure_res|]. intros vars.
  apply keeps_node_prevent_later_uses.
Qed.

Lemma push_dominated_nodes fuel G state : ∀ children stack ns hs stack' hs',
  Forall2 (λ s n, node s = node_at G n) stack ns →
  push_dominated fuel G state children stack hs = (Ok stack', hs') →
  ∃ ns', Forall2 (λ s n, node s = node_at G n) stack' ns'
         ∧ ∀ x, x ∈ ns' ↔
                (x ∈ children ∧ node_kind (node_at G x) ≠ TerminalNode)
                ∨ x ∈ ns.
Proof.
  induction children as [|c children IH]; intros stack ns hs stack' hs' Hst E.
  { injection E as <- <-. exists ns. split; [done|]. intros x.
    rewrite elem_of_nil. tauto. }
  cbn [push_dominated] in E.
  assert (Hskip : node_kind (node_at G c) = TerminalNode →
            push_dominated fuel G state children stack hs = (Ok stack', hs') →
            ∃ ns', Forall2 (λ s n, node s = node_at G n) stack' ns'
                   ∧ ∀ x, x ∈ ns' ↔
                       (x ∈ c :: children
                        ∧ node_kind (node_at G x) ≠ TerminalNode)
                       ∨ x ∈ ns).
  { intros Hk E'. destruct (IH _ _ _ _ _ Hst E') as (ns' & Hst' & Hns').
    exists ns'. split; [done|]. intros x. rewrite Hns', elem_of_cons.
    split; [intros [[? ?]|?]; tauto|].
    intros [[[->|?] Hx]|?]; [congruence|tauto..]. }
  assert (Hpush : node_kind (node_at G c) ≠ TerminalNode →
            (child_state ← create_dominated_node_state fuel G state c;
             push_dominated fuel G state children (child_state :: stack)) hs
            = (Ok stack', hs') →
            ∃ ns', Forall2 (λ s n, node s = node_at G n) stack' ns'
                   ∧ ∀ x, x ∈ ns' ↔
                       (x ∈ c :: children
                        ∧ node_kind (node_at G x) ≠ TerminalNode)
                       ∨ x ∈ ns).
  { intros Hk E'. apply eff_bind_Ok in E' as (cs & hs1 & Ec & E').
    apply create_dominated_node_state_node in Ec.
    assert (Hst2 : Forall2 (λ s n, node s = node_at G n) (cs :: stack)
                     (c :: ns)) by by constructor.
    destruct (IH (cs :: stack) (c :: ns) _ _ _ Hst2 E')
      as (ns' & Hst' & Hns').
    exists ns'. split; [done|]. intros x. rewrite Hns', !elem_of_cons.
    split; [intros [[? ?]|[->|?]]; tauto|].
    intros [[[->|?] Hx]|?]; tauto. }
  destruct (node_kind (node_at G c)) eqn:Ek;
    first [by apply Hskip|by apply Hpush].
Qed.

Section Translated.

Variable G : FlowGraph.
Variable eval_fn :
  Instruction → option (Eff (Heap * StackInfo * NodeState) unit).
Variable wrap_instr_failure : Instruction → Exn → Exn.
Hypothesis eval_fn_keeps_node :
  ∀ instr f N, eval_fn instr = Some f → preserves (keeps_node N) f.

Lemma keeps_node_with_current_instr {A} N instr
    (body : Eff (Heap * StackInfo * NodeState) A) :
  preserves (keeps_node N) body →
  preserves (keeps_node N) (with_current_instr wrap_instr_failure instr body).
Proof.
  intros Hbody. unfold with_current_instr.
  apply preserves_bind; [apply keeps_node_self_get|]. intros n.
  apply preserves_bind; [apply preserves_assert|]. intros _.
  apply preserves_bind; [apply keeps_node_regs|]. intros _.
  apply preserves_bind; [by apply keeps_node_self_modify|]. intros _.
  intros st r st' Hst E.
  destruct (body st) as [rb st1] eqn:Eb. apply Hbody in Eb; [|done].
  destruct ((_ ← node_regs (modify_state (set_active_instr None));
             node_self (modify_state (set_in_pattern false))) st1)
    as [rc st2] eqn:Ec.
  assert (Hst2 : keeps_node N st2).
  { revert Ec. apply preserves_bind; [apply keeps_node_regs| |done].
    intros _. by apply keeps_node_self_modify. }
  by destruct rb; injection E as <- <-.
Qed.

Lemma keeps_node_evaluate_instruction N instr :
  preserves (keeps_node N) (evaluate_instruction eval_fn instr).
Proof.
  unfold evaluate_instruction.
  apply preserves_bind; [apply keeps_node_self_get|]. intros n.
  apply preserves_bind.
  { destruct (is_return instr); [apply preserves_assert|apply preserves_ret]. }
  intros _. apply preserves_bind.
  { destruct (is_conditional instr);
      [apply preserves_assert|apply preserves_ret]. }
  intros _. apply preserves_bind.
  { destruct (eval_fn instr) as [f|] eqn:Ef; [|apply preserves_ret].
    by apply (eval_fn_keeps_node instr). }
  intros _. apply preserves_bind; [apply keeps_node_self_get|]. intros n'.
  destruct (is_conditional instr); [apply preserves_assert|apply preserves_ret].
Qed.

Lemma keeps_node_evaluate_each N instrs :
  preserves (keeps_node N) (evaluate_each eval_fn wrap_instr_failure instrs).
Proof.
  induction instrs as [|instr instrs IH]; [apply preserves_ret|].
  cbn [evaluate_each]. apply preserves_bind; [|by intros _].
  apply keeps_node_with_current_instr, keeps_node_evaluate_instruction.
Qed.

Lemma keeps_node_translate_block N fuel stop_on_error :
  preserves (keeps_node N)
    (translate_block eval_fn wrap_instr_failure fuel stop_on_error).
Proof.
  assert (Hbody : preserves (keeps_node N)
            (translate_node_body eval_fn wrap_instr_failure fuel)).
  { unfold translate_node_body.
    apply preserves_bind; [apply keeps_node_self_get|]. intros n.
    apply preserves_bind; [apply keeps_node_evaluate_each|]. intros _.
    apply preserves_bind; [apply keeps_node_self_get|]. intros n1.
    apply preserves_bind.
    { destruct (branch_condition n1);
        [apply keeps_node_heap|apply preserves_ret]. }
    intros _. apply preserves_bind.
    { destruct (switch_control n1);
        [apply keeps_node_heap|apply preserves_ret]. }
    intros _. apply preserves_bind; [apply keeps_node_self_get|].
    intros n2. apply preserves_ret. }
  intros st r st' Hst E. unfold translate_block in E.
  destruct (translate_node_body _ _ _ st) as [[b|e|] st1] eqn:Eb;
    apply Hbody in Eb; try done; try by injection E as <- <-.
  destruct stop_on_error; [by injection E as <- <-|].
  revert E. apply preserves_bind; [apply keeps_node_heap| |done].
  intros cond. apply preserves_bind; [apply keeps_node_self_get|].
  intros n. apply preserves_ret.
Qed.

Lemma translate_all_blocks_nodes fuel stop_on_error :
  ∀ steps stack ns st st',
    Forall2 (λ s n, node s = node_at G n) stack ns →
    Forall (λ n, ∀ m, dominated_from G n m → node_id (node_at G m) = m) ns →
    translate_all_blocks eval_fn wrap_instr_failure steps fuel stop_on_error
      G stack st = (Ok tt, st') →
    ∀ m, is_Some (st'.2.1 !! m) ↔
         is_Some (st.2.1 !! m) ∨ ∃ n, n ∈ ns ∧ dominated_from G n m.
Proof.
  induction steps as [|steps IH]; intros stack ns st st' Hst Hids E; [done|].
  cbn [translate_all_blocks] in E.
  destruct Hst as [|state n stack ns Hn Hst].
  { injection E as <-. intros m. split; [by left|].
    intros [?|(n & []%elem_of_nil & _)]. done. }
  apply Forall_cons in Hids as [Hid Hids].
  apply eff_bind_Ok in E as ([block_info state1] & st1 & Eb & E).
  apply eff_bind_Ok in E as ([] & st2 & Eadd & E).
  apply eff_bind_Ok in E as (stack' & st3 & Epush & E).
  (* the block of the node *)
  assert (Hb : node state1 = node_at G n ∧ st1.2 = st.2).
  { unfold zoom, with_node_state in Eb. cbn [fst snd] in Eb.
    destruct (translate_block _ _ _ _ (st.1, state)) as [rb hsn] eqn:Etb.
    apply keeps_node_translate_block with (N := node_at G n) in Etb;
      [|done].
    destruct rb as [b| |]; [|done..]. by injection Eb as _ <- <-. }
  destruct Hb as [Hn1 Hst1].
  unfold zoom, modify_state in Eadd. cbn [fst snd] in Eadd.
  injection Eadd as <-.
  rewrite Hn1, (Hid n (dominated_self G n)) in Epush.
  (* the nodes that it dominates *)
  unfold zoom in Epush. cbn [fst snd] in Epush.
  destruct (push_dominated _ _ _ _ _ _) as [rp hs3] eqn:Ep.
  destruct rp as [stk| |]; [|done..]. injection Epush as -> <-.
  destruct (push_dominated_nodes _ _ _ _ _ _ _ _ _ Hst Ep)
    as (ns' & Hst' & Hns').
  assert (Hids' : Forall (λ n, ∀ m, dominated_from G n m →
                           node_id (node_at G m) = m) ns').
  { apply Forall_forall. intros x [[Hx Hk]|Hx]%Hns'.
    - intros m Hm. apply Hid. apply (dominated_child G n x m); [|done..].
      by apply elem_of_rev.
    - rewrite Forall_forall in Hids. by apply Hids. }
  pose proof (IH _ ns' _ _ Hst' Hids' E) as E'.
  cbn [fst snd] in E'. intros m. rewrite (E' m). unfold add_block_info.
  rewrite Hst1. split.
  - intros [Hm|(x & [[Hx Hk]|Hx]%Hns' & Hm)].
    + destruct (decide (m = n)) as [->|Hne].
      * right. exists n. split; [by left|apply dominated_self].
      * left. by rewrite lookup_insert_ne in Hm.
    + right. exists n. split; [by left|].
      apply (dominated_child G n x m); [|done..]. by apply elem_of_rev.
    + right. exists x. split; [by right|done].
  - intros [Hm|(x & [->|Hx]%elem_of_cons & Hm)].
    + left. destruct (decide (m = n)) as [->|Hne].
      * by rewrite lookup_insert_eq.
      * by rewrite lookup_insert_ne.
    + inversion Hm as [|? c ? Hc Hk Hcm]; subst.
      * left. by rewrite lookup_insert_eq.
      * right. exists c. split; [|done]. apply Hns'. left.
        split; [|done]. by apply elem_of_rev.
    + right. exists x. split; [|done]. apply Hns'. by right.
Qed.

(** Property X25: [translate_all_blocks] translates the dominator tree.  When it returns,
    a block info is attached to the nodes that had one and to the nodes
    that are reached from the first node along [immediately_dominates]
    without passing a [TerminalNode], and to no other node. *)
Theorem translate_all_blocks_covers_dominated steps fuel stop_on_error
    state n st st' :
  (∀ m, dominated_from G n m → node_id (node_at G m) = m) →
  node state = node_at G n →
  translate_all_blocks eval_fn wrap_instr_failure steps fuel stop_on_error
    G [state] st = (Ok tt, st') →
  ∀ m, is_Some (st'.2.1 !! m) ↔
       is_Some (st.2.1 !! m) ∨ dominated_from G n m.
Proof.
  intros Hid Hn E m.
  assert (Hst : Forall2 (λ s n, node s = node_at G n) [state] [n])
    by (by repeat constructor).
  assert (Hids : Forall (λ n, ∀ m, dominated_from G n m →
                          node_id (node_at G m) = m) [n])
    by (by repeat constructor).
  rewrite (translate_all_blocks_nodes fuel stop_on_error steps [state] [n]
             st st' Hst Hids E m).
  split; intros [?|Hm]; [by left| |by left|].
  - destruct Hm as (x & ->%list_elem_of_singleton & Hm). by right.
  - right. exists n. split; [by left|done].
Qed.

End Translated.

(** ** The block infos of [return_blocks] *)

Lemma push_dominated_order fuel G state :
  ∀ children stack ns hs stack' hs',
    Forall2 (λ s n, node s = node_at G n) stack ns →
    push_dominated fuel G state children stack hs = (Ok stack', hs') →
    Forall2 (λ s n, node s = node_at G n) stack'
      (stack_extend ns
         (List.filter (λ child, negb (is_TerminalNode (node_at G child)))
            children)).
Proof.
  unfold stack_extend.
  induction children as [|c children IH]; intros stack ns hs stack' hs' Hst E.
  { by injection E as <- <-. }
  cbn [push_dominated] in E. cbn [List.filter]. unfold is_TerminalNode at 1.
  destruct (node_kind (node_at G c)) eqn:Ek; cbn [negb];
    first [by apply (IH _ _ _ _ _ Hst E) | idtac];
    apply eff_bind_Ok in E as (cs & hs1 & Ec & E);
    apply create_dominated_node_state_node in Ec;
    cbn [rev]; rewrite <- app_assoc; cbn [app];
    (apply (IH (cs :: stack) (c :: ns) hs1 stack' hs');
       [by constructor|exact E]).
Qed.

Lemma block_infos_lookup ns bs (st : PhiState) :
  Forall2 (λ n b, ps_blocks st !! n = Some b) ns bs →
  block_infos ns st = (Ok bs, st).
Proof.
  induction 1 as [|n b ns bs Hn Hbs IH]; [done|].
  cbn [block_infos]. unfold mbind, Eff_bind at 1.
  assert (E : get_block_info n st = (Ok b, st)).
  { unfold get_block_info, mbind, Eff_bind, get_state. by rewrite Hn. }
  rewrite E. unfold Eff_bind. by rewrite IH.
Qed.

Section ReturnBlocks.

Variable G : FlowGraph.
Variable eval_fn :
  Instruction → option (Eff (Heap * StackInfo * NodeState) unit).
Variable wrap_instr_failure : Instruction → Exn → Exn.
Hypothesis eval_fn_keeps_node :
  ∀ instr f N, eval_fn instr = Some f → preserves (keeps_node N) f.

Lemma translate_all_blocks_return_blocks fuel stop_on_error :
  ∀ steps stack ns st st',
    Forall2 (λ s n, node s = node_at G n) stack ns →
    (∀ n, n ∈ translation_order steps G ns → node_id (node_at G n) = n) →
    NoDup (translation_order steps G ns) →
    translate_all_blocks eval_fn wrap_instr_failure steps fuel stop_on_error
      G stack st = (Ok tt, st') →
    (∃ bs, st'.2.2 = st.2.2 ++ bs
           ∧ Forall2 (λ n b, st'.2.1 !! n = Some b)
               (List.filter (λ m, is_ReturnNode (node_at G m))
                  (translation_order steps G ns)) bs)
    ∧ (∀ m, m ∉ translation_order steps G ns → st'.2.1 !! m = st.2.1 !! m).
Proof.
  induction steps as [|steps IH]; intros stack ns st st' Hst Hids Hnd E;
    [done|].
  cbn [translate_all_blocks] in E.
  destruct Hst as [|state n stack ns Hn Hst].
  { injection E as <-. split; [|done]. exists []. split; [|constructor].
    by rewrite app_nil_r. }
  cbn [translation_order] in Hids, Hnd |- *.
  apply NoDup_cons in Hnd as [Hn' Hnd].
  apply eff_bind_Ok in E as ([block_info state1] & st1 & Eb & E).
  apply eff_bind_Ok in E as ([] & st2 & Eadd & E).
  apply eff_bind_Ok in E as (stack' & st3 & Epush & E).
  assert (Hb : node state1 = node_at G n ∧ st1.2 = st.2).
  { unfold zoom, with_node_state in Eb. cbn [fst snd] in Eb.
    destruct (translate_block _ _ _ _ (st.1, state)) as [rb hsn] eqn:Etb.
    apply (keeps_node_translate_block eval_fn wrap_instr_failure
             eval_fn_keeps_node (node_at G n)) in Etb; [|done].
    destruct rb as [b| |]; [|done..]. by injection Eb as _ <- <-. }
  destruct Hb as [Hn1 Hst1].
  rewrite Hn1 in Eadd, Epush.
  rewrite (Hids n (list_elem_of_here _ _)) in Eadd.
  unfold zoom, modify_state in Eadd. cbn [fst snd] in Eadd.
  injection Eadd as <-.
  unfold zoom in Epush. cbn [fst snd] in Epush.
  destruct (push_dominated _ _ _ _ _ _) as [rp hs3] eqn:Ep.
  destruct rp as [stk| |]; [|done..]. injection Epush as -> <-.
  apply (push_dominated_order _ _ _ _ _ _ _ _ _ Hst) in Ep.
  destruct (IH _ _ _ _ Ep (λ m Hm, Hids m (list_elem_of_further _ _ _ Hm))
              Hnd E) as [(bs & Ebs & Hbs) Hframe].
  cbn [fst snd] in Ebs, Hbs, Hframe. unfold add_block_info in *.
  rewrite Hst1 in *.
  split.
  - cbn [List.filter]. unfold is_ReturnNode at 1.
    destruct (node_kind (node_at G n)) eqn:Ek;
      first [ exists bs; split; [by rewrite Ebs, app_nil_r|done]
            | exists bs; by split
            | idtac ].
    exists (block_info :: bs). split; [by rewrite Ebs, <- app_assoc|].
    constructor; [|done].
    by rewrite (Hframe n Hn'), lookup_insert_eq.
  - intros m Hm. apply not_elem_of_cons in Hm as [Hne Hm].
    by rewrite (Hframe m Hm), lookup_insert_ne.
Qed.

(** Property X28: [return_blocks] refers to the block infos of the nodes.  When
    [translate_all_blocks] returns and has translated no node twice, the
    block infos attached to the [ReturnNode]s that it has translated, in
    the order of the translation, are the elements of [return_blocks]. *)
Theorem return_blocks_are_attached steps fuel stop_on_error state n h s
    blocks planned st' :
  node state = node_at G n →
  (∀ m, m ∈ translation_order steps G [n] → node_id (node_at G m) = m) →
  NoDup (translation_order steps G [n]) →
  translate_all_blocks eval_fn wrap_instr_failure steps fuel stop_on_error
    G [state] (h, s, (blocks, [])) = (Ok tt, st') →
  let st1 := {| ps_heap := st'.1.1; ps_stack := st'.1.2;
                ps_blocks := st'.2.1; ps_planned := planned |} in
  block_infos (return_nodes steps G n) st1 = (Ok st'.2.2, st1).
Proof.
  intros Hn Hids Hnd E st1.
  assert (Hst : Forall2 (λ s n, node s = node_at G n) [state] [n])
    by (by repeat constructor).
  destruct (translate_all_blocks_return_blocks fuel stop_on_error steps
              [state] [n] _ _ Hst Hids Hnd E) as [(bs & Ebs & Hbs) _].
  cbn [fst snd app] in Ebs, Hbs. rewrite Ebs. unfold return_nodes.
  by apply block_infos_lookup.
Qed.

End ReturnBlocks.

(** ** The planned vars of the sources of a phi *)

Lemma PlannedVar_join_roots fuel self other a b na nb (s : PlannedVars) :
  root_of (planned_var_parent s) self a na →
  root_of (planned_var_parent s) other b nb →
  (na < fuel)%nat → (nb < fuel)%nat →
  ∃ s',
    PlannedVar_join fuel self other s = (Ok tt, s')
    ∧ persistent_planned_vars s' = persistent_planned_vars s
    ∧ ∀ x r n, root_of (planned_var_parent s) x r n →
        ∃ n', (n' ≤ S n)%nat
              ∧ root_of (planned_var_parent s') x (joined a b r) n'.
Proof.
  intros Ha Hb Hna Hnb.
  destruct (get_representative_spec fuel self a na s Ha Hna)
    as (s1 & E1 & Hp1 & Hv1 & Hr1).
  destruct (Hr1 _ _ _ Hb) as (nb' & Hnb' & Hb1).
  destruct (get_representative_spec fuel other b nb' s1 Hb1 ltac:(lia))
    as (s2 & E2 & Hp2 & Hv2 & Hr2).
  assert (Hr : ∀ x r n, root_of (planned_var_parent s) x r n →
            ∃ n', (n' ≤ n)%nat ∧ root_of (planned_var_parent s2) x r n').
  { intros x r n Hx. destruct (Hr1 _ _ _ Hx) as (n1 & Hn1 & Hx1).
    destruct (Hr2 _ _ _ Hx1) as (n2 & Hn2 & Hx2). exists n2.
    split; [lia|done]. }
  unfold PlannedVar_join. unfold mbind at 1, Eff_bind. rewrite E1.
  unfold mbind at 1, Eff_bind. rewrite E2.
  destruct (Nat.eqb_spec a b) as [->|Hab]; cbn [negb].
  - exists s2. split; [done|]. split; [congruence|].
    intros x r n Hx. destruct (Hr _ _ _ Hx) as (n' & Hn' & Hx').
    exists n'. split; [lia|]. unfold joined.
    by destruct (Nat.eqb_spec r b) as [->|].
  - eexists. split; [reflexivity|]. cbn. split; [congruence|].
    intros x r n Hx. destruct (Hr _ _ _ Hx) as (n' & Hn' & Hx').
    destruct (Hr _ _ _ Ha) as (? & _ & Ha2).
    destruct (Hr _ _ _ Hb) as (? & _ & Hb2).
    destruct (root_of_link (planned_var_parent s2) a b Hab
                (root_of_root _ _ _ _ Ha2) (root_of_root _ _ _ _ Hb2)
                x r n' Hx') as (n'' & Hn'' & Hx'').
    exists n''. split; [lia|done].
Qed.

Lemma assoc_get_app {K V} (is_key : K → bool) (l l' : list (K * V)) v :
  assoc_get is_key l = Some v → assoc_get is_key (l ++ l') = Some v.
Proof.
  induction l as [|[k x] l IH]; [done|]. cbn.
  by destruct (is_key k).
Qed.

Lemma assoc_get_snoc {K V} (is_key : K → bool) (l : list (K * V)) k v :
  assoc_get is_key l = None → is_key k = true →
  assoc_get is_key (l ++ [(k, v)]) = Some v.
Proof.
  intros Hl Hk. induction l as [|[k' x] l IH]; cbn in *; [by rewrite Hk|].
  destruct (is_key k'); [done|]. by apply IH.
Qed.

Lemma planned_key_eqb_refl reg source :
  planned_key_eqb reg source (reg, source) = true.
Proof.
  unfold planned_key_eqb. cbn. rewrite String.eqb_refl. cbn.
  destruct source as [i|]; [|done]. apply Nat.eqb_refl.
Qed.

Lemma get_persistent_planned_var_spec reg source (p : PlannedVars) :
  ∃ v p',
    get_persistent_planned_var reg source p = (Ok v, p')
    ∧ planned_var_parent p' = planned_var_parent p
    ∧ assoc_get (planned_key_eqb reg source) (persistent_planned_vars p')
      = Some v
    ∧ ∀ (is_key : Register * option Instruction → bool) x,
        assoc_get is_key (persistent_planned_vars p) = Some x →
        assoc_get is_key (persistent_planned_vars p') = Some x.
Proof.
  unfold get_persistent_planned_var, mbind, Eff_bind, get_state.
  destruct (assoc_get _ (persistent_planned_vars p)) as [v|] eqn:Ev.
  - exists v, p. done.
  - eexists _, _. split; [reflexivity|]. cbn. split; [done|]. split.
    + apply assoc_get_snoc; [done|apply planned_key_eqb_refl].
    + intros is_key x. apply assoc_get_app.
Qed.

Lemma joined_target a b : joined a b b = b.
Proof. unfold joined. by destruct (Nat.eqb_spec b a). Qed.

Lemma joined_source a b : joined a b a = b.
Proof. unfold joined. by rewrite Nat.eqb_refl. Qed.

Lemma classes_kept_refl parent : classes_kept parent parent.
Proof. intros x y r n m Hx Hy. by exists r, n, m. Qed.

Lemma classes_kept_trans p1 p2 p3 :
  classes_kept p1 p2 → classes_kept p2 p3 → classes_kept p1 p3.
Proof.
  intros H12 H23 x y r n m Hx Hy.
  destruct (H12 _ _ _ _ _ Hx Hy) as (r' & n' & m' & Hx' & Hy').
  by apply (H23 _ _ _ _ _ Hx' Hy').
Qed.

Lemma join_sources_spec fuel reg var r0 :
  ∀ (rest done : list (option Instruction)) (p : PlannedVars) d,
  depth_bound d (planned_var_parent p) →
  (∃ n, root_of (planned_var_parent p) var r0 n) →
  (∀ s, s ∈ done → source_root p reg s r0) →
  (d + length rest < fuel)%nat →
  ∃ p',
    join_sources fuel reg rest var p = (Ok tt, p')
    ∧ depth_bound (d + length rest) (planned_var_parent p')
    ∧ (∀ s, s ∈ done ∨ s ∈ rest → source_root p' reg s r0)
    ∧ classes_kept (planned_var_parent p) (planned_var_parent p').
Proof.
  induction rest as [|source rest IH]; intros done p d Hd Hvar Hdone Hfuel.
  { exists p. split; [done|]. split; [by rewrite Nat.add_0_r|].
    split; [|apply classes_kept_refl].
    intros s [?|[]%elem_of_nil]. by apply Hdone. }
  cbn [join_sources length] in *.
  destruct (get_persistent_planned_var_spec reg source p)
    as (v & p1 & E1 & Hpar1 & Hv1 & Hkeys1).
  unfold mbind at 1, Eff_bind. rewrite E1.
  destruct (Hd v) as (a & na & Ha & Hna).
  destruct Hvar as [nb Hb]. destruct (Hd var) as (b' & nb' & Hb' & Hnb').
  destruct (root_of_fun _ _ _ _ _ _ Hb Hb') as [<- <-].
  rewrite <- Hpar1 in Ha, Hb.
  destruct (PlannedVar_join_roots fuel v var a r0 na nb p1 Ha Hb
              ltac:(lia) ltac:(lia)) as (p2 & E2 & Hper2 & Hroots).
  unfold mbind at 1, Eff_bind. rewrite E2.
  destruct (IH (source :: done) p2 (S d)) as (p' & E & Hd' & Hall & Hkept).
  - intros x. destruct (Hd x) as (r & n & Hx & Hn). rewrite <- Hpar1 in Hx.
    destruct (Hroots _ _ _ Hx) as (n' & Hn' & Hx').
    exists (joined a r0 r), n'. split; [done|lia].
  - destruct (Hroots _ _ _ Hb) as (n' & _ & Hb2).
    rewrite joined_target in Hb2. by exists n'.
  - intros s [->|Hs]%elem_of_cons.
    + destruct (Hroots _ _ _ Ha) as (n' & _ & Ha2).
      rewrite joined_source in Ha2. exists v, n'. by rewrite Hper2.
    + destruct (Hdone s Hs) as (w & n & Hw & Hr). rewrite <- Hpar1 in Hr.
      destruct (Hroots _ _ _ Hr) as (n' & _ & Hr2).
      rewrite joined_target in Hr2. exists w, n'. rewrite Hper2.
      split; [by apply Hkeys1|done].
  - lia.
  - exists p'. split; [done|].
    split; [by replace (d + S (length rest))%nat
              with (S d + length rest)%nat by lia|].
    split.
    + intros s [Hs|[->|Hs]%elem_of_cons]; apply Hall.
      * left. by right.
      * left. by left.
      * by right.
    + eapply classes_kept_trans; [|exact Hkept].
      intros x y r n m Hx Hy. rewrite <- Hpar1 in Hx, Hy.
      destruct (Hroots _ _ _ Hx) as (n' & _ & Hx').
      destruct (Hroots _ _ _ Hy) as (m' & _ & Hy').
      by exists (joined a r0 r), n', m'.
Qed.

(** Property X26: Naming a phi merges the planned vars of its sources.  When the phi has
    no replacement and the chains of parents are shorter than the fuel
    allows, [name_naive_phi] returns; afterwards the persistent planned
    vars of all the sources of the phi, for its register, have one
    representative, vars that had one representative before still have
    one, and each chain has grown by at most one step for each source. *)
Theorem naming_merges_sources fuel G oid reg n type sources ud d
    (st : PhiState) :
  replacement_expr (ps_heap st) oid = None →
  sources ≠ [] →
  depth_bound d (planned_var_parent (ps_planned st)) →
  (d + length sources ≤ fuel)%nat →
  ∃ st',
    name_naive_phi fuel G (NaivePhiExpr oid reg n type sources ud) st
    = (Ok tt, st')
    ∧ (∃ r, ∀ s, s ∈ sources → source_root (ps_planned st') reg s r)
    ∧ classes_kept (planned_var_parent (ps_planned st))
        (planned_var_parent (ps_planned st'))
    ∧ depth_bound (d + length sources)
        (planned_var_parent (ps_planned st')).
Proof.
  intros Hrep Hne Hd Hfuel. destruct sources as [|source rest]; [done|].
  destruct st as [h s b p]. cbn [ps_heap ps_planned] in Hrep, Hd |- *.
  cbn [name_naive_phi].
  unfold mbind at 1, Eff_bind, phis_heap, zoom, get_state. cbn [ps_heap].
  rewrite Hrep.
  unfold mbind at 1, Eff_bind, phis_stack, zoom, get_state. cbn [ps_stack].
  unfold mbind at 1, Eff_bind, zoom, state_fn. cbn [ps_stack].
  match goal with
  | |- context [temp_var ?pre s] =>
      destruct (temp_var pre s) as [name s1]
  end.
  unfold mbind at 1, Eff_bind, zoom, modify_state.
  unfold mbind at 1, Eff_bind, zoom, modify_state.
  cbn [ps_heap ps_stack ps_blocks ps_planned].
  destruct (get_persistent_planned_var_spec reg source p)
    as (var & p1 & E1 & Hpar1 & Hv1 & Hkeys1).
  unfold mbind at 1, Eff_bind, phis_planned, zoom. cbn [ps_planned].
  rewrite E1. cbn [ps_heap ps_stack ps_blocks ps_planned].
  destruct (Hd var) as (r0 & n0 & Hr0 & Hn0). rewrite <- Hpar1 in Hr0, Hd.
  destruct (join_sources_spec fuel reg var r0 rest [source] p1 d Hd
              (ex_intro _ n0 Hr0)) as (p' & E & Hd' & Hall & Hkept).
  { intros s' ->%list_elem_of_singleton. by exists var, n0. }
  { cbn in Hfuel. lia. }
  rewrite E. eexists. split; [reflexivity|].
  cbn [ps_planned length]. split; [|split].
  - exists r0. intros s' [->|Hs]%elem_of_cons; apply Hall.
    + left. by left.
    + by right.
  - by rewrite <- Hpar1.
  - intros x. destruct (Hd' x) as (r & k & Hx & Hk). exists r, k.
    split; [done|lia].
Qed.

(** ** The vars that are clobbered *)

Lemma var_set_add_elem vars v x :
  x ∈ var_set_add vars v ↔ x ∈ vars ∨ (x = v ∧ existsb (var_eqb v) vars = false).
Proof.
  unfold var_set_add. destruct (existsb (var_eqb v) vars) eqn:E.
  - split; [by left|]. by intros [?|[_ ?]].
  - rewrite elem_of_app, list_elem_of_singleton. split; intros [?|?]; auto.
    right. tauto.
Qed.

Lemma var_eqb_refl v : var_eqb v v = true.
Proof. apply Nat.eqb_refl. Qed.

Lemma var_set_add_has vars v :
  ∃ v', v' ∈ var_set_add vars v ∧ var_eqb v' v = true.
Proof.
  unfold var_set_add. destruct (existsb (var_eqb v) vars) eqn:E.
  - apply existsb_exists in E as (v' & Hin%list_elem_of_In & E).
    exists v'. split; [done|]. unfold var_eqb in *.
    apply Nat.eqb_eq in E. rewrite E. apply Nat.eqb_refl.
  - exists v. split; [|apply var_eqb_refl]. apply elem_of_app. right.
    by left.
Qed.

Lemma var_set_add_NoDup vars v :
  NoDup (var_id <$> vars) → NoDup (var_id <$> var_set_add vars v).
Proof.
  intros Hnd. unfold var_set_add.
  destruct (existsb (var_eqb v) vars) eqn:E; [done|].
  rewrite fmap_app. apply NoDup_app. split; [done|].
  split; [|apply NoDup_singleton].
  intros i (x & -> & Hx)%list_elem_of_fmap Hi.
  apply list_elem_of_singleton in Hi.
  assert (existsb (var_eqb v) vars = true); [|congruence].
  apply existsb_exists. exists x. split; [by apply list_elem_of_In|].
  unfold var_eqb. rewrite Hi. apply Nat.eqb_refl.
Qed.

Lemma vars_of_list (vs : list Var) : ∀ c,
  (∀ x, x ∈ foldl var_set_add c vs → x ∈ c ∨ x ∈ vs)
  ∧ (∀ x, x ∈ c → x ∈ foldl var_set_add c vs)
  ∧ (∀ v, v ∈ vs → ∃ v', v' ∈ foldl var_set_add c vs ∧ var_eqb v' v = true)
  ∧ (NoDup (var_id <$> c) → NoDup (var_id <$> foldl var_set_add c vs)).
Proof.
  induction vs as [|v vs IH]; intros c.
  { split; [by left|]. split; [done|]. split; [|done].
    by intros v ?%elem_of_nil. }
  cbn [foldl]. destruct (IH (var_set_add c v)) as (I1 & I2 & I3 & I4).
  split; [|split; [|split]].
  - intros x [[?|[-> _]]%var_set_add_elem|?]%I1; [by left| |].
    + right. by left.
    + right. by right.
  - intros x Hx. apply I2, var_set_add_elem. by left.
  - intros w [Heq|Hw]%elem_of_cons; [subst w|by apply I3].
    destruct (var_set_add_has c v) as (v' & Hv' & E). exists v'.
    split; [by apply I2|done].
  - intros Hnd. by apply I4, var_set_add_NoDup.
Qed.

Lemma vars_of_instructions (s : StackInfo) (instrs : list Instruction) :
  ∀ c,
    let r := foldl (λ c instr, foldl var_set_add c
                                 (planned_output_vars s instr)) c instrs in
    (∀ x, x ∈ r →
       x ∈ c ∨ ∃ instr, instr ∈ instrs ∧ x ∈ planned_output_vars s instr)
    ∧ (∀ x, x ∈ c → x ∈ r)
    ∧ (∀ instr v, instr ∈ instrs → v ∈ planned_output_vars s instr →
         ∃ v', v' ∈ r ∧ var_eqb v' v = true)
    ∧ (NoDup (var_id <$> c) → NoDup (var_id <$> r)).
Proof.
  induction instrs as [|i instrs IH]; intros c; cbn zeta.
  { split; [by left|]. split; [done|]. split; [|done].
    by intros instr v ?%elem_of_nil. }
  cbn [foldl].
  destruct (vars_of_list (planned_output_vars s i) c) as (L1 & L2 & L3 & L4).
  destruct (IH (foldl var_set_add c (planned_output_vars s i)))
    as (I1 & I2 & I3 & I4).
  split; [|split; [|split]].
  - intros x [[?|?]%L1|(instr & ? & ?)]%I1; [by left| |].
    + right. exists i. split; [by left|done].
    + right. exists instr. split; [by right|done].
  - intros x Hx. by apply I2, L2.
  - intros instr v [Heq|Hin]%elem_of_cons Hv;
      [subst instr|by apply (I3 instr)].
    destruct (L3 v Hv) as (v' & Hv' & E). exists v'. split; [by apply I2|done].
  - intros Hnd. by apply I4, L4.
Qed.

Lemma vars_clobbered_loop_exact G (s : StackInfo) D child fuel :
  ∀ stack seen clobbered vars,
    D ∈ seen →
    (∀ n, n ∈ stack → n ≠ D → between G D child n) →
    (∀ v, v ∈ clobbered →
       ∃ m instr, between G D child m ∧ instr ∈ instructions (node_at G m)
                  ∧ v ∈ planned_output_vars s instr) →
    (∀ m instr v, m ∈ seen → m ≠ D → instr ∈ instructions (node_at G m) →
       v ∈ planned_output_vars s instr →
       ∃ v', v' ∈ clobbered ∧ var_eqb v' v = true) →
    (∀ p, p ∈ parents (node_at G child) → p ∈ seen ∨ p ∈ stack) →
    (∀ m p, m ∈ seen → m ≠ D → p ∈ parents (node_at G m) →
       p ∈ seen ∨ p ∈ stack) →
    NoDup (var_id <$> clobbered) →
    vars_clobbered_loop fuel G s stack seen clobbered = Ok vars →
    (∀ v, v ∈ vars →
       ∃ m instr, between G D child m ∧ instr ∈ instructions (node_at G m)
                  ∧ v ∈ planned_output_vars s instr)
    ∧ (∀ m instr v, between G D child m →
         instr ∈ instructions (node_at G m) →
         v ∈ planned_output_vars s instr →
         ∃ v', v' ∈ vars ∧ var_eqb v' v = true)
    ∧ NoDup (var_id <$> vars).
Proof.
  induction fuel as [|fuel IH];
    intros stack seen clobbered vars HD Hstack Hsound Hcompl Hparents Hclosed
      Hnd E; [discriminate|].
  cbn [vars_clobbered_loop] in E. destruct stack as [|n stack].
  { injection E as <-. split; [done|]. split; [|done].
    assert (Hseen : ∀ m, between G D child m → m ∈ seen ∧ m ≠ D).
    { induction 1 as [p Hp HpD|m p Hm [IHm HmD] Hp HpD].
      - split; [|done]. by destruct (Hparents p Hp) as [?|?%elem_of_nil].
      - split; [|done].
        by destruct (Hclosed m p IHm HmD Hp) as [?|?%elem_of_nil]. }
    intros m instr v [Hm HmD]%Hseen. by apply Hcompl. }
  destruct (bool_decide (n ∈ seen)) eqn:Eseen.
  - apply bool_decide_eq_true in Eseen.
    apply IH in E; try done.
    + intros m Hm. apply Hstack. by right.
    + intros p [?|[->|?]%elem_of_cons]%Hparents; auto.
    + intros m p Hm HmD [?|[->|?]%elem_of_cons]%(Hclosed m p Hm HmD); auto.
  - apply bool_decide_eq_false in Eseen.
    assert (HnD : n ≠ D) by (intros ->; done).
    assert (Hn : between G D child n) by (apply Hstack; [by left|done]).
    destruct (vars_of_instructions s (instructions (node_at G n)) clobbered)
      as (V1 & V2 & V3 & V4).
    apply IH in E; try done.
    + apply elem_of_union. by right.
    + intros m [Hm|Hm]%elem_of_stack_extend HmD.
      * by apply (between_step _ _ _ n).
      * apply Hstack; [by right|done].
    + intros v [Hv|(instr & Hin & Hv)]%V1; [by apply Hsound|].
      by exists n, instr.
    + intros m instr v [->%elem_of_singleton|Hm]%elem_of_union HmD Hin Hv.
      * by apply (V3 instr).
      * destruct (Hcompl m instr v Hm HmD Hin Hv) as (v' & Hv' & Ev).
        exists v'. split; [by apply V2|done].
    + intros p [?|[->|?]%elem_of_cons]%Hparents.
      * left. apply elem_of_union. by right.
      * left. apply elem_of_union. left. by apply elem_of_singleton.
      * right. apply elem_of_stack_extend. by right.
    + intros m p [->%elem_of_singleton|Hm]%elem_of_union HmD Hp.
      * right. apply elem_of_stack_extend. by left.
      * destruct (Hclosed m p Hm HmD Hp) as [?|[->|?]%elem_of_cons].
        -- left. apply elem_of_union. by right.
        -- left. apply elem_of_union. left. by apply elem_of_singleton.
        -- right. apply elem_of_stack_extend. by right.
    + by apply V4.
Qed.

(** Property X27: [vars_clobbered_until_dominator] returns the planned vars that are
    written between the dominator and the node.  When it returns, the node
    has an immediate dominator; every var returned is the planned var of a
    register among the outputs of an instruction of a node on a path from
    the dominator to the node, strictly between them; every such var is
    returned, as the same object; and no var is returned twice. *)
Theorem vars_clobbered_are_exact G (s : StackInfo) fuel child vars :
  vars_clobbered_until_dominator fuel G s child = Ok vars →
  ∃ D,
    immediate_dominator (node_at G child) = Some D
    ∧ (∀ v, v ∈ vars →
         ∃ m instr, between G D child m
                    ∧ instr ∈ instructions (node_at G m)
                    ∧ v ∈ planned_output_vars s instr)
    ∧ (∀ m instr v, between G D child m →
         instr ∈ instructions (node_at G m) →
         v ∈ planned_output_vars s instr →
         ∃ v', v' ∈ vars ∧ var_eqb v' v = true)
    ∧ NoDup (var_id <$> vars).
Proof.
  unfold vars_clobbered_until_dominator.
  destruct (immediate_dominator (node_at G child)) as [D|]; [|done].
  intros E. exists D. split; [done|].
  apply (vars_clobbered_loop_exact G s D child) in E; [done|..].
  - by apply elem_of_singleton.
  - intros n [Hn|?%elem_of_nil]%elem_of_stack_extend HnD; [|done].
    by apply between_parent.
  - by intros v ?%elem_of_nil.
  - by intros m instr v ->%elem_of_singleton.
  - intros p Hp. right. apply elem_of_stack_extend. by left.
  - by intros m p ->%elem_of_singleton.
  - apply NoDup_nil_2.
Qed.


End Proofs.

(** ** Examples for the sharing protocol *)

Lemma var_protected_empty_heap v : @var_protected flat_types empty_heap v.
Proof.
  intros p r Hr. cbv [empty_heap phi_replacement_expr] in Hr.
  by rewrite lookup_empty in Hr.
Qed.

Lemma force_idempotent_trivial_safe_witness :
  force 0 five_wrapper empty_heap = Ok empty_heap
  ∧ ∃ h1, force 4 sum_wrapper empty_heap = Ok h1
          ∧ force 0 sum_wrapper h1 = Ok h1.
Proof.
  split.
  - exact (proj1 (@force_idempotent_trivial_safe flat_types 4
             (Literal 5 0%nat false) var_temp_v0 0%nat None false true true
             empty_heap) eq_refl 0%nat).
  - destruct (@force_idempotent_trivial_safe flat_types 2
             (BinaryOp 3 arg0_wrapper "+" (Literal 1 0%nat false) 0%nat)
             var_temp_v0 0%nat None false false false empty_heap)
      as (_ & Hidem & Htotal).
    destruct (Htotal eq_refl) as (h1 & E1).
    exists h1. split; [exact E1|]. exact (Hidem _ _ E1 0%nat).
Defined.

(** Claim C1 as stated fails: the wrapper of an argument register is
    transparent and not trivial, and after two [use]s its var is still not
    emitted. *)
Lemma transparent_wrapper_used_twice_not_emitted :
  should_wrap_transparently empty_heap (PassedInArg 0 0%nat) = true
  ∧ is_trivial_expression (PassedInArg 0 0%nat) = false
  ∧ ∃ h2, use_times 5 2 arg0_wrapper empty_heap = Ok h2
          ∧ is_emitted h2 var_temp_a0 = false.
Proof.
  split; [reflexivity|]. split; [reflexivity|].
  eexists. split; [vm_compute; reflexivity|]. vm_compute. reflexivity.
Qed.

Lemma eval_once_use_protocol_witness :
  ∃ h1 h2, use 4 sum_wrapper empty_heap = Ok h1
           ∧ use 4 sum_wrapper h1 = Ok h2
           ∧ is_emitted h1 var_temp_v0 = false
           ∧ is_emitted h2 var_temp_v0 = true.
Proof.
  assert (Hv : var_id var_temp_v0 ∉ wrapper_vars
                 (BinaryOp 3 arg0_wrapper "+" (Literal 1 0%nat false) 0%nat)).
  { vm_compute. intros Hin. apply list_elem_of_singleton in Hin. lia. }
  destruct (@eval_once_use_protocol flat_types 2
              (BinaryOp 3 arg0_wrapper "+" (Literal 1 0%nat false) 0%nat)
              var_temp_v0 0%nat None false false false empty_heap
              eq_refl eq_refl Hv (var_protected_empty_heap _))
    as (_ & Hopaque & Htotal).
  destruct (Htotal eq_refl) as (h1 & h2 & E1 & E2).
  exists h1, h2. split; [exact E1|]. split; [exact E2|].
  exact (Hopaque eq_refl eq_refl _ _ _ _ E1 E2).
Defined.

(** ** Examples for the stack analysis *)

Example callee_save_bounds_one_gap :
  @callee_save_bounds [24; 16; 20; 32] (0, 0) 40 = Ok ((16, 36), 16).
Proof. vm_compute. reflexivity. Qed.

Example callee_save_bounds_two_gaps :
  @callee_save_bounds [16; 24; 32] (0, 0) 40
  = Raise (DecompFailure "Gap in callee-saved word stack region.").
Proof. vm_compute. reflexivity. Qed.

Example callee_save_bounds_wide_gap :
  @callee_save_bounds [16; 28] (0, 0) 40
  = Raise (DecompFailure "Gap in callee-saved word stack region.").
Proof. vm_compute. reflexivity. Qed.

Example callee_save_bounds_none :
  @callee_save_bounds [] (0, 0) 40 = Ok ((0, 0), 40).
Proof. vm_compute. reflexivity. Qed.


(** Claim C5 as stated fails on PowerPC: offset 20 of a 16-byte frame, the
    link-register slot of the caller's frame header, satisfies both
    [in_callee_save_reg_region] and [location_above_stack]. *)
Lemma ppc_link_register_slot_in_two_classes :
  0 ≤ 20 < allocated_stack_size ppc_frame + 8
  ∧ in_callee_save_reg_region ppc_frame 20 = true
  ∧ location_above_stack ppc_frame 20 = true.
Proof. split; [simpl; lia|]. split; vm_compute; reflexivity. Qed.

Example mips_frame_classes :
  map (stack_class mips_frame) [0; 12; 16; 20; 28; 32; 36; 40; 44]
  = [SubroutineArgument; SubroutineArgument; LocalVariable; CalleeSaved;
     CalleeSaved; LocalVariable; LocalVariable; CallerArgument;
     CallerArgument].
Proof. vm_compute. reflexivity. Qed.

Lemma stack_class_partition_witness :
  stack_class mips_frame 28 = CalleeSaved
  ∧ ¬ (in_callee_save_reg_region mips_frame 28 = true
       ∧ location_above_stack mips_frame 28 = true)
  ∧ ¬ (in_callee_save_reg_region mips_frame 28 = true
       ∧ in_subroutine_arg_region mips_frame 28 = true)
  ∧ ¬ (location_above_stack mips_frame 28 = true
       ∧ in_subroutine_arg_region mips_frame 28 = true).
Proof.
  destruct (stack_class_partition mips_frame 28)
    as (Hcs & _ & _ & _ & Hdisj).
  split.
  - apply Hcs. vm_compute. reflexivity.
  - apply Hdisj; simpl; first [lia | discriminate].
Defined.

(** ** Examples for the names of temporaries *)

Example temp_var_sequence :
  fst (temp_var "temp_a0" mips_frame) = "temp_a0"
  ∧ fst (temp_var "temp_a0" (snd (temp_var "temp_a0" mips_frame)))
    = "temp_a0_2".
Proof. split; vm_compute; reflexivity. Qed.

(** Claim C8 as stated fails: the second var of prefix [temp_a0] and the
    first var of prefix [temp_a0_2] are different vars with one name. *)
Lemma two_vars_one_name :
  var_temp_a0_again ≠ var_temp_a0_2
  ∧ ∃ st',
      Var_format_each [var_temp_a0; var_temp_a0_again; var_temp_a0_2]
        (emitted_heap, mips_frame)
      = Ok (["temp_a0"; "temp_a0_2"; "temp_a0_2"], st').
Proof.
  split; [discriminate|]. eexists. vm_compute. reflexivity.
Qed.

Lemma string_length_app (s t : string) :
  String.length (s +:+ t) = (String.length s + String.length t)%nat.
Proof.
  induction s as [|c s IH]; [done|].
  change (String c s +:+ t) with (String c (s +:+ t)). simpl. by rewrite IH.
Qed.

Lemma example_prefixes_independent :
  prefixes_independent
    (map prefix [var_temp_a0; var_temp_a0_again; var_temp_v0]).
Proof.
  intros p q k Hp Hq _ E.
  assert (Hlen : ∀ x, x ∈ map prefix
             [var_temp_a0; var_temp_a0_again; var_temp_v0] →
             String.length x = 7%nat).
  { intros x Hx. simpl in Hx.
    repeat (apply elem_of_cons in Hx as [->|Hx]; [done|]).
    by apply elem_of_nil in Hx. }
  apply (f_equal String.length) in E.
  rewrite !string_length_app, (Hlen p Hp), (Hlen q Hq) in E. simpl in E. lia.
Qed.

Lemma example_pool_wf :
  pool_wf [var_temp_a0; var_temp_a0_again; var_temp_v0].
Proof.
  intros v1 v2 H1 H2.
  repeat (apply elem_of_cons in H1 as [->|H1]);
    repeat (apply elem_of_cons in H2 as [->|H2]);
    try (by apply elem_of_nil in H1); try (by apply elem_of_nil in H2);
    done.
Qed.

Lemma var_names_lazy_and_distinct_witness :
  ∃ names st',
    Var_format_each [var_temp_a0; var_temp_a0_again; var_temp_v0]
      (emitted_heap, mips_frame) = Ok (names, st')
    ∧ ∀ n1 n2 n3,
        names !! 0%nat = Some n1 → names !! 1%nat = Some n2 →
        names !! 2%nat = Some n3 →
        n1 ≠ n2 ∧ n2 ≠ n3.
Proof.
  destruct (@var_names_lazy_and_distinct flat_types
              [var_temp_a0; var_temp_a0_again; var_temp_v0]
              [var_temp_a0; var_temp_a0_again; var_temp_v0]
              emitted_heap mips_frame example_pool_wf)
    as (_ & _ & Htotal & Hnames).
  { apply Forall_forall. auto. }
  { reflexivity. }
  destruct Htotal as (names & [h' s'] & E).
  { repeat constructor. }
  exists names, (h', s'). split; [exact E|].
  intros n1 n2 n3 E1 E2 E3.
  destruct (Hnames names h' s' E) as [_ Hd]. split.
  - destruct (Hd 0%nat 1%nat _ _ n1 n2 eq_refl eq_refl E1 E2)
      as (_ & Hsame & _).
    apply Hsame; [discriminate|reflexivity].
  - destruct (Hd 1%nat 2%nat _ _ n2 n3 eq_refl eq_refl E2 E3)
      as (_ & _ & Hdiff).
    apply Hdiff; [discriminate|apply example_prefixes_independent].
Defined.

(** ** Examples for the register state *)

(** Claim C3 as stated fails: inside [addu $v0, $a0, $a1], the read of the
    undeclared register [$t0] returns normally, with an [ErrorExpr]. *)
Lemma undeclared_read_returns_error_expr :
  reg_in "t0" (inputs instr_addu) = false
  ∧ RegInfo_getitem 5 "t0" (empty_heap, mips_frame, regs_in_addu)
    = (Ok (ErrorExpr 100
             (Some "Read from unset register t0 on line 12") 100%nat),
       (snd (fresh_oid (snd (heap_new_type T_any_reg empty_heap))),
        mips_frame, regs_in_addu)).
Proof. split; vm_compute; reflexivity. Qed.

Example declared_read_returns_register :
  fst (RegInfo_getitem 5 "a0" (empty_heap, mips_frame, regs_in_addu))
  = Ok arg0_wrapper.
Proof. vm_compute. reflexivity. Qed.

Example undeclared_write_is_caught :
  fst (translate_block buggy_eval_fn instr_failure 5 false
         (empty_heap, mips_frame, entry_state))
  = Ok {| bi_to_write :=
            [CommentStmt "Error: Undeclared write to t0";
             CommentStmt "At instruction: addu"];
          return_value := None; bi_switch_control := None;
          bi_branch_condition := Some (ErrorExpr 102 None 100%nat);
          final_register_states := entry_regs;
          bi_has_function_call := false |}.
Proof. vm_compute. reflexivity. Qed.

Example undeclared_write_stops_on_error :
  fst (translate_block buggy_eval_fn instr_failure 5 true
         (empty_heap, mips_frame, entry_state))
  = Raise (InstrProcessingFailure "addu"
             (DecompFailure "Undeclared write to t0")).
Proof. vm_compute. reflexivity. Qed.

Lemma undeclared_register_access_witness :
  (∃ oid desc t h',
     RegInfo_getitem 5 "t0" (empty_heap, mips_frame, regs_in_addu)
     = (Ok (ErrorExpr oid desc t), (h', mips_frame, regs_in_addu)))
  ∧ set_with_meta "t0" arg0_wrapper initial_meta regs_in_addu
    = (Raise (DecompFailure "Undeclared write to t0"), regs_in_addu)
  ∧ ∃ bi st,
      translate_block buggy_eval_fn instr_failure 5 false
        (empty_heap, mips_frame, entry_state) = (Ok bi, st)
      ∧ bi_to_write bi
        = error_stmts (InstrProcessingFailure "addu"
                         (DecompFailure "Undeclared write to t0")).
Proof.
  destruct (@undeclared_register_access flat_types buggy_eval_fn
              instr_failure 5 "t0" instr_addu empty_heap mips_frame
              regs_in_addu eq_refl) as (Hread & Hwrite & Hcatch).
  split; [exact (Hread eq_refl)|].
  split; [exact (Hwrite eq_refl arg0_wrapper initial_meta)|].
  destruct (Hcatch (empty_heap, mips_frame, entry_state)
              (snd (translate_node_body buggy_eval_fn instr_failure 5
                      (empty_heap, mips_frame, entry_state)))
              (InstrProcessingFailure "addu"
                 (DecompFailure "Undeclared write to t0")))
    as (_ & cond & h' & E).
  { vm_compute. reflexivity. }
  eexists _, _. split; [exact E|reflexivity].
Defined.


Example zero_read_between_instructions :
  fst (RegInfo_getitem 5 zero (empty_heap, mips_frame, entry_regs))
  = Ok (Literal 0 100%nat false).
Proof. vm_compute. reflexivity. Qed.


(** ** Examples for division folding *)

(** The multipliers and shifts of some divisors. *)
Example choose_multiplier_examples :
  map choose_multiplier [3; 7; 12; 641]
  = [(1431655766, 0); (2454267027, 2); (715827883, 1); (6700417, 0)].
Proof. vm_compute. reflexivity. Qed.

(** [x / 7] takes the sequence with [+ x]; [round_div] rebuilds 7 from
    [2 ^ 34] and the multiplier. *)
Example division_by_7 :
  division_sequence 7 = [mult_hi 2454267027; add_dividend; sra 2; sub_sign]
  ∧ round_div (2 ^ 32) 2454267027 = Ok None
  ∧ round_div (2 ^ 34) 2454267027 = Ok (Some 7)
  ∧ (@translate_division int_types (PassedInArg 0 0%nat) 7 int_heap).1
    = Ok (BinaryOp 103 (PassedInArg 0 0%nat) "/" (Literal 7 111%nat false)
            114%nat).
Proof. vm_compute. repeat split; reflexivity. Qed.

(** [x / 12] is folded to [x / 6] at the multiplication and to [x / 12] at
    the shift. *)
Example division_by_12 :
  division_sequence 12 = [mult_hi 715827883; sra 1; sub_sign]
  ∧ round_div (2 ^ 32) 715827883 = Ok (Some 6)
  ∧ (@translate_division int_types (PassedInArg 0 0%nat) 12 int_heap).1
    = Ok (BinaryOp 103 (PassedInArg 0 0%nat) "/" (Literal 12 112%nat false)
            115%nat).
Proof. vm_compute. repeat split; reflexivity. Qed.

(** Python's [1 / 3], [3 / 2 ** 1075] (a tie between two subnormal numbers)
    and [2 ** 1024 / 1]. *)
Example int_true_divide_examples :
  int_true_divide 1 3 = Ok {| mant := 6004799503160661; expo := -54 |}
  ∧ int_true_divide 3 (2 ^ 1075) = Ok {| mant := 2; expo := -1074 |}
  ∧ int_true_divide (2 ^ 1024) 1 = Raise OverflowError.
Proof. vm_compute. repeat split; reflexivity. Qed.


(** ** Examples for naive phis *)

(** The translation of the loop uses two phis of [$v0]: the one of the loop
    head, and the one of the exit, second in the queue and used once. *)
Example loop_phis_used :
  loop_translated.1 = Ok tt
  ∧ used_naive_phis (ps_heap loop_phi_state) !! 1%nat = Some loop_exit_phi
  ∧ num_usages (ps_heap loop_phi_state) 103 = 1%nat.
Proof. vm_compute. repeat split; reflexivity. Qed.


(** Both branches of the diamond set [$v0] to 1: the phi of the join
    collapses to the literal, no block gets an assignment and the phi gets
    no name. *)
Example diamond_phi_collapses :
  let after := assign_naive_phis 9 9 diamond_graph diamond_phi_state in
  after.1 = Ok tt
  ∧ map_to_list (phi_replacement_expr (ps_heap after.2))
    = [(100%nat, Literal 1 102%nat false)]
  ∧ map_to_list (phi_name (ps_heap after.2)) = []
  ∧ naive_phi_vars (ps_stack after.2) = []
  ∧ concat (map (λ kb : nat * BlockInfo,
                   List.filter (λ s, match s with
                                     | SetNaivePhiStmt _ _ => true
                                     | _ => false
                                     end) (bi_to_write kb.2))
              (map_to_list (ps_blocks after.2)))
    = [].
Proof. vm_compute. repeat split; reflexivity. Qed.


(** ** Examples for the assertions of [assign_naive_phis] *)

Lemma loop_graph_dominators : dominators_ok loop_graph.
Proof.
  intros child D X Hdom _. apply walks_back_dominator.
  destruct child as [|[|[|child]]]; cbn in Hdom; try discriminate;
    injection Hdom as <-; cbn; set_solver.
Qed.

Lemma return_graph_dominators : dominators_ok return_graph.
Proof.
  intros child D X Hdom HX.
  destruct child as [|[|[|child]]]; cbn in Hdom; try discriminate;
    injection Hdom as <-; try (apply walks_back_dominator; cbn; set_solver).
  destruct (decide (X = 1%nat)) as [->|HX1].
  - apply (walks_back_step _ _ _ _ 2%nat); [cbn; set_solver|done|done|].
    apply walks_back_dominator. cbn. set_solver.
  - apply (walks_back_step _ _ _ _ 1%nat); [cbn; set_solver|done|done|].
    apply walks_back_dominator. cbn. set_solver.
Qed.

(** The instruction table of the example builds no phi. *)
Lemma loop_eval_fn_wf G instr f :
  loop_eval_fn instr = Some f →
  preserves (@node_wf int_types G) f.
Proof.
  unfold loop_eval_fn. intros Ef.
  destruct (String.eqb (mnemonic instr) "li").
  { injection Ef as <-.
    apply (preserves_bind_hoare _ (phis_wf G));
      [apply hoare_node_heap, hoare_new_Literal|]. intros lit Hlit.
    apply preserves_bind; [|intros _; apply preserves_ret].
    by apply (hoare_preserves _ (phis_wf G)), hoare_set_reg_real. }
  destruct (String.eqb (mnemonic instr) "addiu").
  { injection Ef as <-.
    apply (preserves_bind_hoare _ (phis_wf G));
      [apply hoare_node_getitem|]. intros x Hx.
    apply (preserves_bind_hoare _ (phis_wf G));
      [apply hoare_node_heap, hoare_new_Literal|]. intros lit Hlit.
    apply (preserves_bind_hoare _ (phis_wf G));
      [by apply hoare_node_heap, hoare_BinaryOp_intptr|]. intros e He.
    apply preserves_bind; [|intros _; apply preserves_ret].
    by apply (hoare_preserves _ (phis_wf G)), hoare_set_reg_real. }
  destruct (String.eqb (mnemonic instr) "bnez"); [|done].
  injection Ef as <-.
  apply (preserves_bind_hoare _ (phis_wf G));
    [apply hoare_node_getitem|]. intros x Hx.
  apply (preserves_bind_hoare _ (phis_wf G));
    [apply hoare_node_heap, hoare_new_Literal|]. intros lit Hlit.
  apply (preserves_bind_hoare _ (phis_wf G));
    [by apply hoare_node_heap, hoare_BinaryOp_int|]. intros c Hc.
  by apply node_wf_set_branch_condition.
Qed.

Lemma naive_phi_assertions_hold_witness :
  let st := return_translated.2 in
  used_naive_phis return_blocks_translated.2.1.1 = []
  ∧ return_translated = (Ok tt, st)
  ∧ assign_loop_reaches 9 return_graph st 0 st
  ∧ used_naive_phis (ps_heap st) !! 0%nat = Some return_phi
  ∧ ∃ oid reg n type sources uses_dominator,
      return_phi = NaivePhiExpr oid reg n type sources uses_dominator
      ∧ assert (0 <? num_usages (ps_heap st) oid)%nat st = (Ok tt, st)
      ∧ assert (2 <=? length sources)%nat st = (Ok tt, st)
      ∧ assert (2 <=? length (parents (node_at return_graph n)))%nat st
        = (Ok tt, st).
Proof.
  intros st.
  assert (Eblocks : used_naive_phis return_blocks_translated.2.1.1 = [])
    by (vm_compute; reflexivity).
  assert (Etrans :
            translate_to_ast loop_eval_fn instr_failure return_children
              ["v0"; "f0"] (λ _ _, false) 9 9 false false false
              return_graph return_signature return_entry_state
              (return_nodes 9 return_graph 0) return_start
            = (Ok tt, st)) by (vm_compute; reflexivity).
  assert (E0 : used_naive_phis (ps_heap st) !! 0%nat = Some return_phi)
    by (vm_compute; reflexivity).
  assert (Hreach : assign_loop_reaches 9 return_graph st 0 st)
    by exact (reaches_start 9 return_graph st).
  split; [exact Eblocks|]. split; [exact Etrans|].
  split; [exact Hreach|]. split; [exact E0|].
  assert (Hs : state_wf return_graph return_entry_state)
    by (by apply state_wf_entry).
  assert (Ht : @phis_inv int_types return_graph return_start).
  { split; [by apply queue_ok_empty|apply blocks_wf_empty]. }
  exact (@naive_phi_assertions_hold int_types return_graph loop_eval_fn
           instr_failure return_children ["v0"; "f0"] (λ _ _, false)
           9%nat 9%nat false false false return_signature
           return_entry_state (return_nodes 9 return_graph 0) return_start
           st 9%nat 0%nat st return_phi
           return_graph_dominators (loop_eval_fn_wf return_graph) Hs Ht
           Etrans Hreach E0).
Defined.

(** ** Examples for the further properties *)

Lemma trivial_expression_is_free_witness :
  should_wrap_transparently empty_heap
    (AddressOf (Literal 5 0%nat false) 1%nat) = true
  ∧ use 3 (AddressOf (Literal 5 0%nat false) 1%nat) empty_heap
    = Ok empty_heap.
Proof.
  destruct (@trivial_expression_is_free flat_types empty_heap
              (AddressOf (Literal 5 0%nat false) 1%nat) eq_refl)
    as (Hwrap & _ & Huse).
  split; [exact Hwrap|]. apply Huse. cbn. lia.
Defined.

Lemma late_unwrap_result_is_final_witness :
  late_unwrap 3 empty_heap arg0_wrapper = Ok (PassedInArg 0 0%nat)
  ∧ late_unwrap 1 empty_heap (PassedInArg 0 0%nat) = Ok (PassedInArg 0 0%nat)
  ∧ late_unwrap 7 empty_heap arg0_wrapper = Ok (PassedInArg 0 0%nat).
Proof.
  assert (E : late_unwrap 3 empty_heap arg0_wrapper
              = Ok (PassedInArg 0 0%nat)) by reflexivity.
  destruct (@late_unwrap_result_is_final flat_types 3 empty_heap
              arg0_wrapper (PassedInArg 0 0%nat) E) as (_ & Hfix & Hfuel).
  split; [exact E|]. split; [exact (Hfix 0%nat)|]. apply Hfuel. lia.
Defined.

Lemma use_and_force_only_add_witness :
  ∃ h1, force 4 sum_wrapper empty_heap = Ok h1
        ∧ var_is_emitted empty_heap ⊆ var_is_emitted h1
        ∧ eo_forced_emit empty_heap ⊆ eo_forced_emit h1
        ∧ phi_replacement_expr h1 = phi_replacement_expr empty_heap.
Proof.
  destruct (force 4 sum_wrapper empty_heap) as [h1| |] eqn:E;
    [|by vm_compute in E..].
  destruct (@use_and_force_only_add flat_types 4 sum_wrapper empty_heap h1
              (or_intror E)) as (H1 & _ & H3 & _ & _ & H6).
  by exists h1.
Defined.

Lemma phi_queue_holds_each_used_phi_once_witness :
  ∃ h1 h2,
    use 2 loop_exit_phi empty_heap = Ok h1
    ∧ use 2 loop_exit_phi h1 = Ok h2
    ∧ queue_exact h1 ∧ queue_exact h2.
Proof.
  assert (H0 : @queue_exact flat_types empty_heap)
    by by apply queue_exact_empty.
  destruct (use 2 loop_exit_phi empty_heap) as [h1| |] eqn:E1;
    [|by vm_compute in E1..].
  destruct (use 2 loop_exit_phi h1) as [h2| |] eqn:E2.
  2,3: exfalso; vm_compute in E1; injection E1 as <-; by vm_compute in E2.
  pose proof (@phi_queue_holds_each_used_phi_once flat_types 2 loop_exit_phi
                empty_heap h1 H0 E1) as H1.
  pose proof (@phi_queue_holds_each_used_phi_once flat_types 2 loop_exit_phi
                h1 h2 H1 E2) as H2.
  by exists h1, h2.
Defined.

Lemma register_write_is_read_back_witness :
  (∃ r', set_with_meta "v0" (Literal 1 0%nat false) RegMeta_default
           regs_in_addu = (Ok tt, r')
         ∧ get_raw "v0" r' = Some (Literal 1 0%nat false)
         ∧ get_raw "a0" r' = get_raw "a0" regs_in_addu)
  ∧ (¬ ∃ r', global_set_with_meta "v0" (Literal 1 0%nat false)
               RegMeta_default regs_in_addu = (Ok tt, r'))
  ∧ (¬ ∃ r', set_with_meta zero (Literal 1 0%nat false) RegMeta_default
               regs_in_addu = (Ok tt, r')).
Proof.
  destruct (register_write_is_read_back "v0" (Literal 1 0%nat false)
              RegMeta_default regs_in_addu)
    as (Hback & Hset & Hglobal & _).
  destruct (register_write_is_read_back zero (Literal 1 0%nat false)
              RegMeta_default regs_in_addu)
    as (_ & Hzero & _).
  split; [|split].
  - destruct (proj2 Hset) as [r' E].
    { split; [discriminate|]. eexists. split; [reflexivity|].
      vm_compute. reflexivity. }
    destruct (Hback r' (or_introl E)) as (Hv & _ & _ & Hother & _).
    exists r'. split; [done|]. split; [done|].
    unfold get_raw. by rewrite Hother.
  - intros Hg. apply Hglobal in Hg as [_ Hg]. discriminate Hg.
  - intros Hz. by apply Hzero in Hz as [Hz _].
Defined.

Lemma register_update_and_delete_witness :
  ∃ r1 r2,
    update_meta "a0" RegMeta_default entry_regs = (Ok tt, r1)
    ∧ get_raw "a0" r1 = Some arg0_wrapper
    ∧ RegInfo_delitem "a0" entry_regs = (Ok tt, r2)
    ∧ RegInfo_contains "a0" r2 = false
    ∧ update_meta "v0" RegMeta_default entry_regs = (Raise KeyError, entry_regs)
    ∧ RegInfo_delitem "v0" entry_regs = (Raise KeyError, entry_regs).
Proof.
  assert (Ha : ("a0" : string) ≠ zero) by discriminate.
  assert (Hv : ("v0" : string) ≠ zero) by discriminate.
  destruct (register_update_and_delete "a0" RegMeta_default entry_regs Ha)
    as [_ Hset].
  destruct (Hset {| value := arg0_wrapper; meta := initial_meta |}
              ltac:(reflexivity))
    as (r1 & r2 & E1 & Hraw & _ & _ & E2 & Hc & _).
  destruct (register_update_and_delete "v0" RegMeta_default entry_regs Hv)
    as [Hmissing _].
  destruct (Hmissing ltac:(reflexivity)) as [E3 E4].
  by exists r1, r2.
Defined.

Lemma reading_a_register_changes_no_value_witness :
  let st := RegInfo_getitem 3 "a0" (empty_heap, mips_frame, regs_in_addu) in
  (∀ k, get_raw k st.2.2 = get_raw k regs_in_addu)
  ∧ active_instr st.2.2 = Some instr_addu.
Proof.
  intros st.
  destruct (@reading_a_register_changes_no_value flat_types 3 "a0"
              (empty_heap, mips_frame, regs_in_addu) st.2 st.1
              (surjective_pairing st)) as (Hv & _ & _ & Ha & _).
  split; [exact Hv|exact Ha].
Defined.

Lemma no_instruction_left_active_witness :
  let st := evaluate_each buggy_eval_fn instr_failure [instr_addu]
              (empty_heap, mips_frame, entry_state) in
  active_instr (regs st.2.2) = None ∧ in_pattern st.2.2 = false.
Proof.
  intros st.
  destruct (@no_instruction_left_active flat_types buggy_eval_fn
              instr_failure [instr_addu]
              (empty_heap, mips_frame, entry_state) st.2 st.1 eq_refl
              (surjective_pairing st)) as [Ha Hp].
  split; [exact Ha|]. by apply Hp.
Defined.

Lemma evaluated_instruction_is_consistent_witness :
  ∃ st', evaluate_instruction loop_eval_fn (instr_bnez 14 6)
           (int_heap, mips_frame, loop_exit_state) = (Ok tt, st')
         ∧ branch_condition loop_exit_state = None
         ∧ (branch_condition st'.2 ≠ None ∨ switch_control st'.2 ≠ None).
Proof.
  set (r := evaluate_instruction loop_eval_fn (instr_bnez 14 6)
              (int_heap, mips_frame, loop_exit_state)).
  assert (E : r = (Ok tt, r.2)).
  { rewrite (surjective_pairing r) at 1.
    assert (E1 : r.1 = Ok tt) by (vm_compute; reflexivity). by rewrite E1. }
  destruct (@evaluated_instruction_is_consistent int_types loop_eval_fn
              (instr_bnez 14 6) (int_heap, mips_frame, loop_exit_state)
              r.2 E) as [_ Hc].
  destruct (Hc eq_refl) as (Hb & _ & Hset).
  exists r.2. split; [exact E|]. split; [exact Hb|exact Hset].
Defined.

Lemma branch_condition_is_set_once_witness :
  ∃ st', set_branch_condition (Literal 1 0%nat false)
           (empty_heap, mips_frame, loop_exit_state) = (Ok tt, st')
         ∧ branch_condition st'.2 = Some (Literal 1 0%nat false)
         ∧ set_branch_condition (Literal 2 0%nat false) st'
           = (Raise AssertionError, st').
Proof.
  set (r := set_branch_condition (Literal 1 0%nat false)
              (empty_heap, mips_frame, loop_exit_state)).
  assert (E : r = (Ok tt, r.2)).
  { rewrite (surjective_pairing r) at 1.
    assert (E1 : r.1 = Ok tt) by (vm_compute; reflexivity). by rewrite E1. }
  destruct (@branch_condition_is_set_once flat_types (Literal 1 0%nat false)
              (empty_heap, mips_frame, loop_exit_state) r.2 E)
    as (_ & _ & Hc & Hagain).
  exists r.2. split; [exact E|]. split; [exact Hc|apply Hagain].
Defined.

Lemma prevent_later_uses_only_forces_witness :
  let st := prevent_later_uses 3 is_phi
              (empty_heap, mips_frame, entry_state) in
  st.2.1 = (empty_heap, mips_frame)
  ∧ ∀ k, get_raw k (regs st.2.2) = get_raw k entry_regs.
Proof.
  intros st.
  destruct (@prevent_later_uses_only_forces flat_types 3 is_phi
              (empty_heap, mips_frame, entry_state) st.2 st.1
              (surjective_pairing st)) as (Hh & Hv & _).
  split; [exact Hh|exact Hv].
Defined.

Lemma reg_sources_are_last_writes_witness :
  reg_sources 9 loop_graph 3 "v0" = Ok ([Some instr_addiu], true)
  ∧ (∃ instr n, Some instr_addiu = Some instr ∧ between loop_graph 1 3 n
                ∧ is_last_write "v0" (instructions (node_at loop_graph n))
                    instr)
  ∧ reached loop_graph 1 3 1.
Proof.
  assert (E : reg_sources 9 loop_graph 3 "v0" = Ok ([Some instr_addiu], true))
    by (vm_compute; reflexivity).
  destruct (reg_sources_are_last_writes loop_graph 9 3 1 "v0"
              [Some instr_addiu] true eq_refl E) as [Hsrc Hud].
  split; [exact E|]. split; [|by apply Hud].
  apply Hsrc. by left.
Defined.

Lemma loop_graph_closed : graph_closed loop_graph.
Proof.
  split.
  - cbn. repeat (apply NoDup_cons; split; [set_solver|]). apply NoDup_nil_2.
  - intros n p Hn Hp. cbn in Hn |- *.
    repeat (apply elem_of_cons in Hn as [->|Hn]); cbn in Hp; set_solver.
Qed.

Lemma dominator_traversals_terminate_witness :
  (∃ r, reg_sources 9 loop_graph 3 "v0" = Ok r)
  ∧ (∃ vars, vars_clobbered_until_dominator 9 loop_graph mips_frame 3
             = Ok vars).
Proof.
  apply (dominator_traversals_terminate loop_graph mips_frame 9 3 1 "v0").
  - exact loop_graph_closed.
  - cbn. set_solver.
  - reflexivity.
  - cbn. lia.
Defined.

Lemma fold_mul_chains_keeps_value_witness :
  let x := arg0_wrapper in
  let e := BinaryOp 11 (BinaryOp 10 x "<<" (Literal 2 0%nat false) 0%nat)
             "-" x 0%nat in
  equal_parts_agree (λ _, 7) e
  ∧ match (@fold_mul_chains int_types e int_heap).1 with
    | Ok r =>
        int_value (λ _, 7) r = int_value (λ _, 7) e
        ∧ (r = e
           ∨ ∃ oid base num t t',
               r = BinaryOp oid base "*" (Literal num t false) t'
               ∧ base ∈ chain_parts e ∧ num ≠ 1)
    | Raise exn =>
        exn = ValueError
        ∧ (@fold_mul_chains int_types e int_heap).2 = int_heap
    | OutOfFuel => False
    end.
Proof.
  intros x e.
  assert (Hagree : equal_parts_agree (λ _, 7) e).
  { apply equal_parts_agreeb_spec. vm_compute. reflexivity. }
  split; [exact Hagree|].
  exact (@fold_mul_chains_keeps_value int_types (λ _, 7) e int_heap
           (@fold_mul_chains int_types e int_heap).2
           (@fold_mul_chains int_types e int_heap).1
           (λ _ _ _, eq_refl) Hagree
           (surjective_pairing (@fold_mul_chains int_types e int_heap))).
Defined.

Lemma join_merges_two_classes_witness :
  let s := {| persistent_planned_vars := [];
              planned_var_parent := {[1%nat := 2%nat; 3%nat := 4%nat]};
              next_planned_var := 5 |} in
  ∃ s',
    PlannedVar_join 5 1 3 s = (Ok tt, s')
    ∧ persistent_planned_vars s' = persistent_planned_vars s
    ∧ next_planned_var s' = next_planned_var s
    ∧ ∀ x r n, root_of (planned_var_parent s) x r n →
        (∃ n', (n' ≤ S n)%nat
               ∧ root_of (planned_var_parent s') x (joined 2 4 r) n')
        ∧ ∀ fuel', (S n < fuel')%nat →
            (get_representative fuel' x s').1 = Ok (joined 2 4 r).
Proof.
  intros s.
  apply (join_merges_two_classes 5 1 3 2 4 1 1 s).
  - eapply root_step; [|apply root_here]; vm_compute; reflexivity.
  - eapply root_step; [|apply root_here]; vm_compute; reflexivity.
  - lia.
  - lia.
Defined.

Lemma dominated_state_inherits_witness :
  let parent_state :=
    {| node := node_at loop_graph 0; regs := entry_regs;
       local_var_writes := []; subroutine_args := []; in_pattern := false;
       to_write := []; branch_condition := None; switch_control := None;
       has_function_call := false |} in
  ∃ cs hs',
    @create_dominated_node_state int_types 9 loop_graph parent_state 1
      (int_heap, mips_frame) = (Ok cs, hs')
    ∧ ∃ phi_regs,
        locs_clobbered_until_dominator 9 loop_graph 1 = Ok phi_regs
        ∧ cs = {| node := node_at loop_graph 1; regs := regs cs;
                  local_var_writes := []; subroutine_args := [];
                  in_pattern := false; to_write := [];
                  branch_condition := None; switch_control := None;
                  has_function_call := false |}
        ∧ (∀ reg, LReg reg ∉ phi_regs →
             contents (regs cs) !! reg
             = inherited_data <$> contents (regs parent_state) !! reg
             ∨ contents (regs cs) !! reg
               = forced ∘ inherited_data
                 <$> contents (regs parent_state) !! reg)
        ∧ fresh_regs (regs cs).
Proof.
  intros parent_state.
  remember (@create_dominated_node_state int_types 9 loop_graph parent_state
              1 (int_heap, mips_frame)) as r eqn:E.
  assert (Hok : match r.1 with Ok _ => True | _ => False end)
    by (rewrite E; vm_compute; exact I).
  destruct r as [[cs| |] hs']; [|destruct Hok..].
  exists cs, hs'. split; [reflexivity|].
  exact (@dominated_state_inherits int_types 9 loop_graph parent_state 1
           (int_heap, mips_frame) cs hs' (eq_sym E)).
Defined.

Lemma add_argument_keeps_order_witness :
  let s := set_arguments [PassedInArg 0 0%nat; PassedInArg 8 0%nat]
             mips_frame in
  let arg := PassedInArg 4 1%nat in
  StronglySorted (λ a b, arg_value a < arg_value b)
    (arguments (add_argument arg s))
  ∧ (∀ a, a ∈ arguments (add_argument arg s) ↔
          a ∈ arguments s
          ∨ (a = arg ∧ arg_value arg ∉ arg_value <$> arguments s))
  ∧ arg_value arg ∈ arg_value <$> arguments (add_argument arg s)
  ∧ add_argument arg (add_argument arg s) = add_argument arg s
  ∧ set_arguments (arguments s) (add_argument arg s) = s.
Proof.
  intros s arg. apply (add_argument_keeps_order arg s).
  repeat constructor; cbn; lia.
Defined.

Lemma get_argument_one_per_word_witness :
  ∃ e1 a1 st1 e2 a2 st2,
    @get_argument int_types 5 (int_heap, mips_frame) = (Ok (e1, a1), st1)
    ∧ @get_argument int_types 6 st1 = (Ok (e2, a2), st2)
    ∧ (a1 = a2 ↔ 5 / 4 = 6 / 4)
    ∧ (∃ t, a1 = PassedInArg (4 * (5 / 4)) t)
    ∧ (5 mod 4 < 2 → e1 = a1).
Proof.
  remember (@get_argument int_types 5 (int_heap, mips_frame)) as r1 eqn:E1.
  assert (Hok1 : match r1.1 with Ok _ => True | _ => False end)
    by (rewrite E1; vm_compute; exact I).
  destruct r1 as [[[e1 a1]| |] st1]; [|destruct Hok1..].
  remember (@get_argument int_types 6 st1) as r2 eqn:E2.
  assert (Hok2 : match r2.1 with Ok _ => True | _ => False end).
  { rewrite E2. replace st1 with (e1, a1, st1).2 by reflexivity.
    replace (e1, a1, st1).2
      with (@get_argument int_types 5 (int_heap, mips_frame)).2
      by (rewrite <- E1; reflexivity).
    vm_compute. exact I. }
  destruct r2 as [[[e2 a2]| |] st2]; [|destruct Hok2..].
  exists e1, a1, st1, e2, a2, st2. split; [reflexivity|].
  split; [exact (eq_sym E2)|].
  exact (@get_argument_one_per_word int_types 5 6 (int_heap, mips_frame)
           st1 st2 e1 a1 e2 a2 (eq_sym E1) (eq_sym E2)).
Defined.

Lemma rlwi_mask_bits_witness :
  ∃ mask,
    rlwi_mask 28 3 = Ok mask
    ∧ 0 ≤ mask < 2 ^ 32
    ∧ ∀ i, 0 ≤ i ≤ 31 →
        ppc_bit mask i
        = if 28 <=? 3 then (28 <=? i) && (i <=? 3)
          else (i <=? 3) || (28 <=? i).
Proof. apply (rlwi_mask_bits 28 3); lia. Defined.

Lemma format_expr_strips_matching_pair_witness :
  let ret := String.list_ascii_of_string "(a + (b))" in
  balanced_parentheses (format_expr ret) = true
  ∧ (format_expr ret = ret
     ∨ ret = ["("%char] ++ format_expr ret ++ [")"%char])
  ∧ ∀ s, balanced_parentheses s = true →
      ret = ["("%char] ++ s ++ [")"%char] → format_expr ret = s.
Proof.
  intros ret. apply (format_expr_strips_matching_pair ret). reflexivity.
Defined.

Lemma negated_is_negation_witness :
  let x := PassedInArg 0 0%nat in
  let e := BinaryOp 1 (BinaryOp 2 x "<" (Literal 3 0%nat false) 0%nat) "&&"
             (UnaryOp 3 "!" (BinaryOp 4 x "==" (Literal 7 0%nat false) 0%nat)
                0%nat) 0%nat in
  ∃ e', (@negated int_types e int_heap).1 = Ok e'
        ∧ is_Condition e' = true
        ∧ (no_error_negated e = true →
           truth (int_cmp (λ _, 7)) e' = negb (truth (int_cmp (λ _, 7)) e)).
Proof.
  intros x e.
  exact (@negated_is_negation int_types (int_cmp (λ _, 7)) e int_heap
           (@negated int_types e int_heap).1
           (@negated int_types e int_heap).2
           (@int_cmp_opposite int_types (λ _, 7)) eq_refl
           (surjective_pairing (@negated int_types e int_heap))).
Defined.

Lemma escaped_bytes_are_printable_and_distinct_witness :
  let data := [72; 105; 34; 10; 1; 255; 200] in
  let s := [72; 105; 92; 34; 92; 110; 92; 120; 48; 49; 92; 120; 102; 102;
            200] in
  Forall (λ c, 32 ≤ c < 255 ∧ c ≠ 127) s
  ∧ Forall (λ b, 0 ≤ b ≤ 255) data
  ∧ ∀ data', escape_bytes data' = Ok s → data' = data.
Proof.
  intros data s.
  apply (escaped_bytes_are_printable_and_distinct data s). reflexivity.
Defined.

Lemma loop_eval_fn_keeps_node instr f N :
  loop_eval_fn instr = Some f → preserves (@keeps_node int_types N) f.
Proof.
  unfold loop_eval_fn. intros Ef.
  destruct (String.eqb (mnemonic instr) "li").
  { injection Ef as <-.
    apply preserves_bind; [apply keeps_node_heap|]. intros lit.
    apply preserves_bind; [|intros _; apply preserves_ret].
    apply keeps_node_set_reg_real. }
  destruct (String.eqb (mnemonic instr) "addiu").
  { injection Ef as <-.
    apply preserves_bind; [apply keeps_node_getitem|]. intros x.
    apply preserves_bind; [apply keeps_node_heap|]. intros lit.
    apply preserves_bind; [apply keeps_node_heap|]. intros e.
    apply preserves_bind; [|intros _; apply preserves_ret].
    apply keeps_node_set_reg_real. }
  destruct (String.eqb (mnemonic instr) "bnez"); [|done].
  injection Ef as <-.
  apply preserves_bind; [apply keeps_node_getitem|]. intros x.
  apply preserves_bind; [apply keeps_node_heap|]. intros lit.
  apply preserves_bind; [apply keeps_node_heap|]. intros c.
  apply keeps_node_set_branch_condition.
Qed.

Lemma loop_graph_dominated n m :
  dominated_from loop_graph n m →
  n ∈ [0; 1; 2; 3]%nat → m ∈ [0; 1; 2; 3]%nat.
Proof.
  induction 1 as [|n child m Hc _ _ IH]; [done|]. intros Hn. apply IH.
  repeat (apply elem_of_cons in Hn as [->|Hn]); cbn in Hc; set_solver.
Qed.

Lemma loop_graph_ids m :
  dominated_from loop_graph 0 m → node_id (node_at loop_graph m) = m.
Proof.
  intros Hm.
  assert (Hin : m ∈ [0; 1; 2; 3]%nat)
    by exact (loop_graph_dominated 0 m Hm (list_elem_of_here _ _)).
  apply elem_of_cons in Hin as [->|Hin]; [reflexivity|].
  apply elem_of_cons in Hin as [->|Hin]; [reflexivity|].
  apply elem_of_cons in Hin as [->|Hin]; [reflexivity|].
  apply elem_of_cons in Hin as [->|Hin]; [reflexivity|].
  destruct (proj1 (elem_of_nil m) Hin).
Qed.

Lemma translate_all_blocks_covers_dominated_witness :
  loop_translated.1 = Ok tt
  ∧ ∀ m, is_Some (loop_translated.2.2.1 !! m) ↔
         is_Some ((∅ : gmap nat BlockInfo) !! m)
         ∨ dominated_from loop_graph 0 m.
Proof.
  assert (E1 : loop_translated.1 = Ok tt) by (vm_compute; reflexivity).
  split; [exact E1|]. clear E1.
  assert (Etrans :
            translate_all_blocks loop_eval_fn instr_failure 9 9 false
              loop_graph [loop_entry_state] (int_heap, mips_frame, (∅, []))
            = (Ok tt, loop_translated.2)) by (vm_compute; reflexivity).
  exact (@translate_all_blocks_covers_dominated int_types loop_graph
           loop_eval_fn instr_failure loop_eval_fn_keeps_node 9%nat 9%nat
           false loop_entry_state 0%nat (int_heap, mips_frame, (∅, []))
           loop_translated.2 loop_graph_ids eq_refl Etrans).
Defined.

Lemma return_blocks_are_attached_witness :
  return_nodes 9 return_graph 0 = [3%nat]
  ∧ length return_blocks_translated.2.2.2 = 1%nat
  ∧ let st1 := {| ps_heap := return_blocks_translated.2.1.1;
                  ps_stack := return_blocks_translated.2.1.2;
                  ps_blocks := return_blocks_translated.2.2.1;
                  ps_planned := ps_planned return_start |} in
    block_infos (return_nodes 9 return_graph 0) st1
    = (Ok return_blocks_translated.2.2.2, st1).
Proof.
  assert (Eo : translation_order 9 return_graph [0%nat] = [0; 1; 2; 3]%nat)
    by (vm_compute; reflexivity).
  assert (Er : return_nodes 9 return_graph 0 = [3%nat])
    by (vm_compute; reflexivity).
  assert (El : length return_blocks_translated.2.2.2 = 1%nat)
    by (vm_compute; reflexivity).
  split; [exact Er|]. split; [exact El|]. clear Er El.
  assert (Hids : ∀ m, m ∈ translation_order 9 return_graph [0%nat] →
                      node_id (node_at return_graph m) = m).
  { rewrite Eo. intros m Hm.
    repeat (apply elem_of_cons in Hm as [->|Hm]; [reflexivity|]).
    destruct (proj1 (elem_of_nil m) Hm). }
  assert (Hnd : NoDup (translation_order 9 return_graph [0%nat])).
  { rewrite Eo. apply (bool_decide_unpack _). vm_compute. exact I. }
  clear Eo.
  assert (Etrans :
            translate_all_blocks loop_eval_fn instr_failure 9 9 false
              return_graph [return_entry_state]
              (int_heap, mips_frame, (∅, []))
            = (Ok tt, return_blocks_translated.2))
    by (vm_compute; reflexivity).
  exact (@return_blocks_are_attached int_types return_graph loop_eval_fn
           instr_failure loop_eval_fn_keeps_node 9%nat 9%nat false
           return_entry_state 0%nat int_heap mips_frame ∅
           (ps_planned return_start) return_blocks_translated.2 eq_refl
           Hids Hnd Etrans).
Defined.

Lemma naming_merges_sources_witness :
  let sources := [Some instr_addiu; Some instr_li] in
  ∃ st',
    name_naive_phi 9 loop_graph
      (NaivePhiExpr 102 "v0" 1 101 sources true) loop_phi_state
    = (Ok tt, st')
    ∧ (∃ r, ∀ s, s ∈ sources → source_root (ps_planned st') "v0" s r)
    ∧ classes_kept (planned_var_parent (ps_planned loop_phi_state))
        (planned_var_parent (ps_planned st'))
    ∧ depth_bound (0 + length sources)
        (planned_var_parent (ps_planned st')).
Proof.
  intros sources.
  assert (Hrep : replacement_expr (ps_heap loop_phi_state) 102 = None)
    by (vm_compute; reflexivity).
  assert (Hd : depth_bound 0 (planned_var_parent (ps_planned loop_phi_state))).
  { intros v. exists v, 0%nat. split; [|lia]. apply root_here.
    apply lookup_empty. }
  assert (Hne : sources ≠ []) by discriminate.
  assert (Hfuel : (0 + length sources ≤ 9)%nat) by (cbn; lia).
  exact (@naming_merges_sources int_types 9 loop_graph 102 "v0" 1%nat
           101%nat sources true 0%nat loop_phi_state Hrep Hne Hd Hfuel).
Defined.

Lemma vars_clobbered_are_exact_witness :
  ∃ D,
    immediate_dominator (node_at loop_graph 3) = Some D
    ∧ (∀ v, v ∈ [var_temp_v0] →
         ∃ m instr, between loop_graph D 3 m
                    ∧ instr ∈ instructions (node_at loop_graph m)
                    ∧ v ∈ planned_output_vars planned_frame instr)
    ∧ (∀ m instr v, between loop_graph D 3 m →
         instr ∈ instructions (node_at loop_graph m) →
         v ∈ planned_output_vars planned_frame instr →
         ∃ v', v' ∈ [var_temp_v0] ∧ var_eqb v' v = true)
    ∧ NoDup (var_id <$> [var_temp_v0]).
Proof.
  apply (vars_clobbered_are_exact loop_graph planned_frame 9 3 [var_temp_v0]).
  vm_compute. reflexivity.
Defined.
